(** * tapable: the tap registry of [Hook.js] and the dispatcher compiler of
    [HookCodeFactory.js], with [AsyncSeriesHook.js] as the concrete hook.

    The compiler of the source emits JavaScript text.  Here it emits the
    syntax tree of that text ([expr], [stmt]); every template literal of the
    source corresponds to one tree constructor.  The second half of the
    definitions is an evaluator for those trees, in which tap functions,
    thenables, interceptors and the final callback are external. *)

From stdpp Require Import base gmap sets list sorting strings pretty.
From Stdlib Require Import ZArith Lia Ascii.

Open Scope Z_scope.

Set Warnings "-register-all,-clear-no-such-hyp".

(** ** Taps and interceptors (the comment block of the [Hook] constructor) *)

Inductive TapType : Type := sync | async | promise.

#[global] Instance TapType_eq_dec : EqDecision TapType.
Proof. solve_decision. Defined.

(** [before: string | string[]], or absent. *)
Inductive BeforeOption : Type :=
| BeforeUndefined
| BeforeString (s : string)
| BeforeArray (l : list string).

(** The value of a [stage] property, as far as [_insert] reads it.  A
    number is an integer or NaN.  Of a value that is not a number
    ([undefined] when the property is absent, [null], a boolean, a string,
    an object) [_insert] reads two things: whether it is truthy
    ([x.stage || 0]) and the number that it converts to when it is compared
    ([xStage > stage]), which is [None] when the conversion gives NaN. *)
Inductive StageValue : Type :=
| StageNumber (z : Z)
| StageNaN
| StageOther (is_truthy : bool) (number : option Z).

(** The [stage] of a descriptor that has none: [undefined]. *)
Definition StageUndefined : StageValue := StageOther false None.

(** A tap descriptor.  [tap_fn] stands for the callback, which the registry
    and the compiler never inspect. *)
Record Tap : Type := mkTap {
  tap_name : string;
  tap_type : TapType;
  tap_fn : nat;
  tap_before : BeforeOption;
  tap_stage : StageValue;
  tap_context : bool
}.

(** A slot of the [taps] array: a descriptor or [undefined]. *)
Abbreviation Slot := (option Tap).

(** An interceptor: [register] maps the value it is given (a slot) to a
    descriptor or [undefined]; the other handlers matter to the compiler only
    through their presence. *)
Record Interceptor : Type := mkInterceptor {
  register : option (Slot -> Slot);
  int_call : bool;
  int_tap : bool;
  int_loop : bool;
  int_result : bool;
  int_error : bool;
  int_done : bool;
  int_context : bool
}.

(** ** Errors raised by the library itself *)

Inductive JsError : Type :=
| TypeError
| SyntaxError
| Error (msg : string).

Inductive Completion (A : Type) : Type :=
| Normal (a : A)
| Throw (e : JsError).
Arguments Normal {A} a.
Arguments Throw {A} e.

Definition cbind {A B} (c : Completion A) (f : A -> Completion B) : Completion B :=
  match c with
  | Normal a => f a
  | Throw e => Throw e
  end.

#[global] Instance Completion_ret : MRet Completion := fun A a => Normal a.
#[global] Instance Completion_bind : MBind Completion := fun A B f c => cbind c f.

(** ** Syntax of the emitted code *)

(** Identifiers of the emitted code.  Each template such as
    [_fn${tapIndex}] is one constructor; [id_arg s] is the hook parameter
    that is declared with the name [s].  The constructors are kept apart:
    the tree is the emitted text for parameters whose names are their own
    ([plain_name] below), and not for a parameter that carries a name which
    the factory makes up itself, such as [_x], which the text of the header
    would overwrite. *)
Inductive ident : Type :=
| id_arg (s : string)
| id_context | id_x | id_taps | id_interceptors
| id_callback | id_resolve | id_reject | id_error | id_err | id_sync
| id_Promise
| id_tap (i : nat) | id_fn (i : nat) | id_hasError (i : nat)
| id_result (i : nat) | id_errN (i : nat) | id_hasResult (i : nat)
| id_promise (i : nat) | id_next (i : nat)
| id_looper | id_loopAsync | id_loop | id_counter | id_done.

#[global] Instance ident_eq_dec : EqDecision ident.
Proof. solve_decision. Defined.

Definition ident_code (x : ident) : nat * (nat + string) :=
  match x with
  | id_arg s => (0%nat, inr s)
  | id_context => (1%nat, inl 0%nat) | id_x => (2%nat, inl 0%nat)
  | id_taps => (3%nat, inl 0%nat) | id_interceptors => (4%nat, inl 0%nat)
  | id_callback => (5%nat, inl 0%nat) | id_resolve => (6%nat, inl 0%nat)
  | id_reject => (7%nat, inl 0%nat) | id_error => (8%nat, inl 0%nat)
  | id_err => (9%nat, inl 0%nat) | id_sync => (10%nat, inl 0%nat)
  | id_Promise => (11%nat, inl 0%nat)
  | id_tap i => (12%nat, inl i) | id_fn i => (13%nat, inl i)
  | id_hasError i => (14%nat, inl i) | id_result i => (15%nat, inl i)
  | id_errN i => (16%nat, inl i) | id_hasResult i => (17%nat, inl i)
  | id_promise i => (18%nat, inl i) | id_next i => (19%nat, inl i)
  | id_looper => (20%nat, inl 0%nat) | id_loopAsync => (21%nat, inl 0%nat)
  | id_loop => (22%nat, inl 0%nat) | id_counter => (23%nat, inl 0%nat)
  | id_done => (24%nat, inl 0%nat)
  end.

#[global] Instance ident_code_inj : Inj (=) (=) ident_code.
Proof. intros [] [] H; simpl in H; congruence. Qed.

#[global] Instance ident_countable : Countable ident :=
  inj_countable' ident_code
    (fun p => match p with
              | (0%nat, inr s) => id_arg s
              | (1%nat, _) => id_context | (2%nat, _) => id_x
              | (3%nat, _) => id_taps | (4%nat, _) => id_interceptors
              | (5%nat, _) => id_callback | (6%nat, _) => id_resolve
              | (7%nat, _) => id_reject | (8%nat, _) => id_error
              | (9%nat, _) => id_err | (10%nat, _) => id_sync
              | (11%nat, _) => id_Promise
              | (12%nat, inl i) => id_tap i | (13%nat, inl i) => id_fn i
              | (14%nat, inl i) => id_hasError i | (15%nat, inl i) => id_result i
              | (16%nat, inl i) => id_errN i | (17%nat, inl i) => id_hasResult i
              | (18%nat, inl i) => id_promise i | (19%nat, inl i) => id_next i
              | (20%nat, _) => id_looper | (21%nat, _) => id_loopAsync
              | (22%nat, _) => id_loop | (23%nat, _) => id_counter
              | _ => id_done
              end)
    ltac:(by intros []).

(** The spelling of an identifier in the emitted text. *)
Definition ident_text (x : ident) : string :=
  match x with
  | id_arg s => s
  | id_context => "_context" | id_x => "_x" | id_taps => "_taps"
  | id_interceptors => "_interceptors" | id_callback => "_callback"
  | id_resolve => "_resolve" | id_reject => "_reject" | id_error => "_error"
  | id_err => "_err" | id_sync => "_sync" | id_Promise => "Promise"
  | id_tap i => "_tap" +:+ pretty i | id_fn i => "_fn" +:+ pretty i
  | id_hasError i => "_hasError" +:+ pretty i
  | id_result i => "_result" +:+ pretty i
  | id_errN i => "_err" +:+ pretty i
  | id_hasResult i => "_hasResult" +:+ pretty i
  | id_promise i => "_promise" +:+ pretty i
  | id_next i => "_next" +:+ pretty i
  | id_looper => "_looper" | id_loopAsync => "_loopAsync" | id_loop => "_loop"
  | id_counter => "_counter" | id_done => "_done"
  end.

Inductive expr : Type :=
| EUndefined
| ENull
| EBool (b : bool)
| ENum (n : Z)
| EStr (s : string)
| EVar (x : ident)
| EThis (field : string)                 (* this.field *)
| EObject                                (* {} *)
| EIndex (e : expr) (i : nat)            (* e[i] *)
| EMember (e : expr) (m : string)        (* e.m *)
| ENot (e : expr)                        (* !e *)
| EOr (a b : expr)                       (* a || b *)
| EStrictNe (a b : expr)                 (* a !== b *)
| EStrictEq (a b : expr)                 (* a === b *)
| ELe (a b : expr)                       (* a <= b *)
| EGt (a b : expr)                       (* a > b *)
| EPreDec (x : ident)                    (* --x *)
| EAdd (a b : expr)                      (* a + b *)
| ENewError (e : expr)                   (* new Error(e) *)
| ENewPromise (e : expr)                 (* new Promise(e) *)
| EFunction (params : list ident) (body : list stmt)
| ECall (f : expr) (actuals : list expr)
with stmt : Type :=
| SVar (x : ident) (init : option expr)  (* var x = e; / var x; *)
| SAssign (x : ident) (e : expr)         (* x = e; *)
| SExpr (e : expr)                       (* e; *)
| SIf (c : expr) (thn els : list stmt)
| STry (body : list stmt) (x : ident) (handler : list stmt)
| SThrow (e : expr)
| SReturn (e : option expr)
| SDoWhile (body : list stmt) (c : expr)
| SBreak
| SFunction (f : ident) (params : list ident) (body : list stmt).

Abbreviation code := (list stmt).

(** The result of [new Function(params, body)]. *)
Record JsFunction : Type := mkFunction {
  fn_params : list ident;
  fn_body : code
}.

(** ** HookCodeFactory.js *)

(** The [options] handed to [compile]/[create] (kept in [this.options]). *)
Record FactoryOptions : Type := mkOptions {
  opt_type : TapType;
  opt_taps : list Tap;
  opt_interceptors : list Interceptor;
  opt_args : list string
}.

(** The handler bundle that [create] passes to [content]. *)
Record ContentOptions : Type := mkContent {
  co_onError : expr -> code;
  co_onResult : expr -> code;
  co_resultReturns : bool;
  co_onDone : unit -> code;
  co_rethrowIfPossible : bool
}.

(** The handler bundle of [callTap]. *)
Record TapHandlers : Type := mkTapHandlers {
  th_onError : expr -> code;
  th_onResult : option (expr -> code);
  th_onDone : option (unit -> code);
  th_rethrowIfPossible : bool
}.

(** The handler bundle of [callTapsSeries]. *)
Record SeriesOptions : Type := mkSeries {
  so_onError : nat -> expr -> (unit -> code) -> (bool -> code) -> code;
  so_onResult : option (nat -> expr -> (unit -> code) -> (bool -> code) -> code);
  so_resultReturns : bool;
  so_onDone : unit -> code;
  so_doneReturns : bool;
  so_rethrowIfPossible : bool
}.

(** The handler bundle of [callTapsLooping]. *)
Record LoopingOptions : Type := mkLooping {
  lo_onError : nat -> expr -> (unit -> code) -> (bool -> code) -> code;
  lo_onDone : unit -> code;
  lo_rethrowIfPossible : bool
}.

(** The handler bundle of [callTapsParallel]. *)
Record ParallelOptions : Type := mkParallel {
  po_onError : nat -> expr -> (unit -> code) -> (bool -> code) -> code;
  po_onResult : option (nat -> expr -> (unit -> code) -> (bool -> code) -> code);
  po_onDone : option (unit -> code);
  po_rethrowIfPossible : bool;
  po_onTap : nat -> (unit -> code) -> (unit -> code) -> (bool -> code) -> code
}.

(** State of the right-to-left loop of [callTapsSeries]:
    [code], [current], whether [current] still is [onDone] itself, and
    [unrollCounter]. *)
Record SeriesLoop : Type := mkLoop {
  sl_code : code;
  sl_current : unit -> code;
  sl_current_is_onDone : bool;
  sl_unrollCounter : nat
}.

Section Factory.

  (** [this.options], set by [init]. *)
Variable options : FactoryOptions.

  (** [this._args = options.args.slice()] *)
Definition _args : list string := opt_args options.

Definition getTapFn (idx : nat) : expr := EIndex (EVar id_x) idx.
Definition getTap (idx : nat) : expr := EIndex (EVar id_taps) idx.
Definition getInterceptor (idx : nat) : expr := EIndex (EVar id_interceptors) idx.

  (** [args({ before, after })]: the declared parameters with an optional
      leading and trailing piece; as a list of pieces rather than joined
with commas. *)
Definition args (before after : option expr) : list expr :=
    let allArgs := map (fun a => EVar (id_arg a)) _args in
    let allArgs := match before with Some b => b :: allArgs | None => allArgs end in
    match after with Some a => allArgs ++ [a] | None => allArgs end.

  (** The same for a parameter list ([new Function(this.args(...), ...)]). *)
Definition params (after : option ident) : list ident :=
    let allArgs := map id_arg _args in
    match after with Some a => allArgs ++ [a] | None => allArgs end.

Definition context_arg (b : bool) : option expr :=
    if b then Some (EVar id_context) else None.

Definition needContext : bool :=
    existsb tap_context (opt_taps options).

Definition header : code :=
    [SVar id_context (if needContext then Some EObject else None);
     SVar id_x (Some (EThis "_x"))]
    ++ (if bool_decide (0 < length (opt_interceptors options))%nat
        then [SVar id_taps (Some (EThis "taps"));
              SVar id_interceptors (Some (EThis "interceptors"))]
        else []).

  (** One statement per interceptor that has the handler selected by [has]. *)
Definition for_interceptors (has : Interceptor -> bool)
      (emit : nat -> Interceptor -> code) : code :=
    concat (imap (fun i interceptor => if has interceptor then emit i interceptor else [])
                 (opt_interceptors options)).

Definition callTap (tapIndex : nat) (h : TapHandlers) : code :=
    let taps_code :=
      match filter int_tap (opt_interceptors options) with
      | [] => []
      | _ :: _ =>
          SVar (id_tap tapIndex) (Some (getTap tapIndex))
          :: for_interceptors int_tap (fun i interceptor =>
               [SExpr (ECall (EMember (getInterceptor i) "tap")
                         ((if int_context interceptor then [EVar id_context] else [])
                          ++ [EVar (id_tap tapIndex)]))])
      end in
    let fn_code := [SVar (id_fn tapIndex) (Some (getTapFn tapIndex))] in
    match opt_taps options !! tapIndex with
    | None => taps_code ++ fn_code
    | Some tap =>
      let on_result :=
        match th_onResult h with
        | Some onResult => onResult (EVar (id_result tapIndex))
        | None => []
        end in
      let on_done :=
        match th_onDone h with
        | Some onDone => onDone ()
        | None => []
        end in
      taps_code ++ fn_code ++
      match tap_type tap with
      | sync =>
          let call := ECall (EVar (id_fn tapIndex))
                            (args (context_arg (tap_context tap)) None) in
          let invoke :=
            match th_onResult h with
            | Some _ => SVar (id_result tapIndex) (Some call)
            | None => SExpr call
            end in
          if th_rethrowIfPossible h
          then invoke :: on_result ++ on_done
          else
            [SVar (id_hasError tapIndex) (Some (EBool false));
             STry [invoke] id_err
                  (SAssign (id_hasError tapIndex) (EBool true)
                   :: th_onError h (EVar id_err));
             SIf (ENot (EVar (id_hasError tapIndex))) (on_result ++ on_done) []]
      | async =>
          let cbCode :=
            EFunction
              (match th_onResult h with
               | Some _ => [id_errN tapIndex; id_result tapIndex]
               | None => [id_errN tapIndex]
               end)
              [SIf (EVar (id_errN tapIndex))
                   (th_onError h (EVar (id_errN tapIndex)))
                   (on_result ++ on_done)] in
          [SExpr (ECall (EVar (id_fn tapIndex))
                        (args (context_arg (tap_context tap)) (Some cbCode)))]
      | promise =>
          [SVar (id_hasResult tapIndex) (Some (EBool false));
           SVar (id_promise tapIndex)
                (Some (ECall (EVar (id_fn tapIndex))
                             (args (context_arg (tap_context tap)) None)));
           SIf (EOr (ENot (EVar (id_promise tapIndex)))
                    (ENot (EMember (EVar (id_promise tapIndex)) "then")))
               [SThrow (ENewError
                  (EAdd (EAdd (EStr "Tap function (tapPromise) did not return promise (returned ")
                              (EVar (id_promise tapIndex)))
                        (EStr ")")))]
               [];
           SExpr (ECall (EMember (EVar (id_promise tapIndex)) "then")
                    [EFunction [id_result tapIndex]
                       (SAssign (id_hasResult tapIndex) (EBool true)
                        :: on_result ++ on_done);
                     EFunction [id_errN tapIndex]
                       (SIf (EVar (id_hasResult tapIndex))
                            [SThrow (EVar (id_errN tapIndex))] []
                        :: th_onError h (EVar (id_errN tapIndex)))])]
      end
    end.

  (** [taps.findIndex(t => t.type !== "sync")], -1 when there is none. *)
Fixpoint findIndex_not_sync (l : list Tap) (i : Z) : Z :=
    match l with
    | [] => -1
    | t :: l' => if decide (tap_type t = sync) then findIndex_not_sync l' (i + 1) else i
    end.

  (** One iteration of the loop of [callTapsSeries], for index [i]. *)
Definition series_iteration (o : SeriesOptions) (firstAsync : Z)
      (i : nat) (st : SeriesLoop) : SeriesLoop :=
    let somethingReturns := so_resultReturns o || so_doneReturns o in
    let is_sync :=
      match opt_taps options !! i with
      | Some tap => bool_decide (tap_type tap = sync)
      | None => false
      end in
    (* unroll = current !== onDone && (type !== "sync" || unrollCounter++ > 20) *)
    let '(unroll, counter) :=
      if sl_current_is_onDone st then (false, sl_unrollCounter st)
      else if negb is_sync then (true, sl_unrollCounter st)
      else (bool_decide (20 < sl_unrollCounter st)%nat, S (sl_unrollCounter st)) in
    let st1 :=
      if unroll
      then
        let call := ECall (EVar (id_next i)) [] in
        mkLoop (sl_code st ++ [SFunction (id_next i) [] (sl_current st ())])
               (fun _ => [if somethingReturns then SReturn (Some call) else SExpr call])
               false 0%nat
      else mkLoop (sl_code st) (sl_current st) (sl_current_is_onDone st) counter in
    let done := sl_current st1 in
    let doneBreak := fun skipDone : bool => if skipDone then [] else so_onDone o () in
    let content :=
      callTap i
        (mkTapHandlers
           (fun error => so_onError o i error done doneBreak)
           (match so_onResult o with
            | Some onResult => Some (fun result => onResult i result done doneBreak)
            | None => None
            end)
           (match so_onResult o with
            | Some _ => None
            | None => Some done
            end)
           (so_rethrowIfPossible o
            && (bool_decide (firstAsync < 0) || bool_decide (Z.of_nat i < firstAsync)))) in
    mkLoop (sl_code st1) (fun _ => content) false (sl_unrollCounter st1).

  (** The loop [for (let j = taps.length - 1; j >= 0; j--)] from index
      [from] on: the iterations for the larger indices run first. *)
Definition series_loop (o : SeriesOptions) (firstAsync : Z) (from n : nat) : SeriesLoop :=
    foldr (series_iteration o firstAsync)
          (mkLoop [] (so_onDone o) true 0%nat)
          (seq from n).

Definition callTapsSeries (o : SeriesOptions) : code :=
    if bool_decide (length (opt_taps options) = 0%nat) then so_onDone o ()
    else
      let firstAsync := findIndex_not_sync (opt_taps options) 0 in
      let st := series_loop o firstAsync 0 (length (opt_taps options)) in
      sl_code st ++ sl_current st ().

Definition callTapsLooping (o : LoopingOptions) : code :=
    if bool_decide (length (opt_taps options) = 0%nat) then lo_onDone o ()
    else
      let syncOnly := forallb (fun t => bool_decide (tap_type t = sync)) (opt_taps options) in
      let loop_body :=
        [SAssign id_loop (EBool false)]
        ++ for_interceptors int_loop (fun i interceptor =>
             [SExpr (ECall (EMember (getInterceptor i) "loop")
                           (args (context_arg (int_context interceptor)) None))])
        ++ callTapsSeries
             (mkSeries
                (lo_onError o)
                (Some (fun i result next doneBreak =>
                   [SIf (EStrictNe result EUndefined)
                        ([SAssign id_loop (EBool true)]
                         ++ (if syncOnly then []
                             else [SIf (EVar id_loopAsync)
                                       [SExpr (ECall (EVar id_looper) [])] []])
                         ++ doneBreak true)
                        (next ())]))
                false
                (fun _ => [SIf (ENot (EVar id_loop)) (lo_onDone o ()) []])
                false
                (lo_rethrowIfPossible o && syncOnly)) in
      let loop := [SVar id_loop None; SDoWhile loop_body (EVar id_loop)] in
      if syncOnly then loop
      else
        [SVar id_looper
           (Some (EFunction []
              ([SVar id_loopAsync (Some (EBool false))]
               ++ loop
               ++ [SAssign id_loopAsync (EBool true)])));
         SExpr (ECall (EVar id_looper) [])].

Definition callTapsParallel (o : ParallelOptions) : code :=
    if bool_decide (length (opt_taps options) <= 1)%nat
    then
      callTapsSeries
        (mkSeries (po_onError o) (po_onResult o) false
                  (default (fun _ => []) (po_onDone o))
                  false (po_rethrowIfPossible o))
    else
      let done := fun _ : unit =>
        match po_onDone o with
        | Some _ => [SIf (EStrictEq (EPreDec id_counter) (ENum 0))
                         [SExpr (ECall (EVar id_done) [])] []]
        | None => [SExpr (EPreDec id_counter)]
        end in
      let doneBreak := fun skipDone : bool =>
        match po_onDone o with
        | Some _ =>
            if skipDone then [SAssign id_counter (ENum 0)]
            else [SAssign id_counter (ENum 0); SExpr (ECall (EVar id_done) [])]
        | None => [SAssign id_counter (ENum 0)]
        end in
      [SDoWhile
         ([SVar id_counter (Some (ENum (Z.of_nat (length (opt_taps options)))))]
          ++ match po_onDone o with
             | Some onDone => [SVar id_done (Some (EFunction [] (onDone ())))]
             | None => []
             end
          ++ concat (map (fun i =>
               SIf (ELe (EVar id_counter) (ENum 0)) [SBreak] []
               :: po_onTap o i
                    (fun _ =>
                       callTap i
                         (mkTapHandlers
                            (fun error =>
                               [SIf (EGt (EVar id_counter) (ENum 0))
                                    (po_onError o i error done doneBreak) []])
                            (match po_onResult o with
                             | Some onResult =>
                                 Some (fun result =>
                                   [SIf (EGt (EVar id_counter) (ENum 0))
                                        (onResult i result done doneBreak) []])
                             | None => None
                             end)
                            (match po_onResult o with
                             | Some _ => None
                             | None => Some (fun _ => done ())
                             end)
                            (po_rethrowIfPossible o)))
                    done doneBreak)
               (seq 0 (length (opt_taps options)))))
         (EBool false)].

  (** The default [onTap = (i, run) => run()]. *)
Definition default_onTap (i : nat) (run done : unit -> code) (doneBreak : bool -> code) : code :=
    run ().

  (** The abstract method [content], supplied by the concrete factory. *)
Variable content : ContentOptions -> code.

Definition contentWithInterceptors (o : ContentOptions) : code :=
    if bool_decide (0 < length (opt_interceptors options))%nat
    then
      for_interceptors int_call (fun i interceptor =>
        [SExpr (ECall (EMember (getInterceptor i) "call")
                      (args (context_arg (int_context interceptor)) None))])
      ++ content
           (mkContent
              (fun err =>
                 for_interceptors int_error (fun i _ =>
                   [SExpr (ECall (EMember (getInterceptor i) "error") [err])])
                 ++ co_onError o err)
              (fun result =>
                 for_interceptors int_result (fun i _ =>
                   [SExpr (ECall (EMember (getInterceptor i) "result") [result])])
                 ++ co_onResult o result)
              (co_resultReturns o)
              (fun _ =>
                 for_interceptors int_done (fun i _ =>
                   [SExpr (ECall (EMember (getInterceptor i) "done") [])])
                 ++ co_onDone o ())
              (co_rethrowIfPossible o))
    else content o.

End Factory.

(** Whether the code contains a call [x(...)]. *)
Fixpoint expr_calls (x : ident) (e : expr) : bool :=
  match e with
  | EIndex e _ | EMember e _ | ENot e | ENewError e | ENewPromise e => expr_calls x e
  | EOr a b | EStrictNe a b | EStrictEq a b | ELe a b | EGt a b | EAdd a b =>
      expr_calls x a || expr_calls x b
  | EFunction _ body => existsb (stmt_calls x) body
  | ECall f actuals =>
      match f with
      | EVar y => bool_decide (x = y)
      | _ => expr_calls x f
      end || existsb (expr_calls x) actuals
  | _ => false
  end
with stmt_calls (x : ident) (s : stmt) : bool :=
  match s with
  | SVar _ (Some e) | SAssign _ e | SExpr e | SThrow e | SReturn (Some e) => expr_calls x e
  | SVar _ None | SReturn None | SBreak => false
  | SIf c thn els =>
      expr_calls x c || existsb (stmt_calls x) thn || existsb (stmt_calls x) els
  | STry body _ handler => existsb (stmt_calls x) body || existsb (stmt_calls x) handler
  | SDoWhile body c => existsb (stmt_calls x) body || expr_calls x c
  | SFunction _ _ body => existsb (stmt_calls x) body
  end.

(** [create(options)], up to the call of [new Function]: the parameter
    list and the body that are handed to it; the call itself is
    [new_Function] below.  The directive ["use strict"] is left out of the
    tree.  In the promise case the source sets [errorHelperUsed] when
    [onError] is called while the content is generated; every such call
    splices [_error(...)] into the content, so the flag is read off the
    content. *)
Definition create (content : FactoryOptions -> ContentOptions -> code)
    (options : FactoryOptions) : JsFunction :=
  match opt_type options with
  | sync =>
      mkFunction (params options None)
        (header options ++
         contentWithInterceptors options (content options)
           (mkContent (fun err => [SThrow err])
                      (fun result => [SReturn (Some result)])
                      true
                      (fun _ => [])
                      true))
  | async =>
      mkFunction (params options (Some id_callback))
        (header options ++
         contentWithInterceptors options (content options)
           (mkContent (fun err => [SExpr (ECall (EVar id_callback) [err])])
                      (fun result => [SExpr (ECall (EVar id_callback) [ENull; result])])
                      false
                      (fun _ => [SExpr (ECall (EVar id_callback) [])])
                      false))
  | promise =>
      let content :=
        contentWithInterceptors options (content options)
          (mkContent (fun err => [SExpr (ECall (EVar id_error) [err])])
                     (fun result => [SExpr (ECall (EVar id_resolve) [result])])
                     false
                     (fun _ => [SExpr (ECall (EVar id_resolve) [])])
                     false) in
      let errorHelperUsed := existsb (stmt_calls id_error) content in
      mkFunction (params options None)
        (header options ++
         [SReturn (Some (ENewPromise (EFunction [id_resolve; id_reject]
            ((if errorHelperUsed
              then [SVar id_sync (Some (EBool true));
                    SFunction id_error [id_err]
                      [SIf (EVar id_sync)
                           [SExpr (ECall (EVar id_resolve)
                              [ECall (EMember (ECall (EMember (EVar id_Promise) "resolve") [])
                                              "then")
                                     [EFunction [] [SThrow (EVar id_err)]]])]
                           [SExpr (ECall (EVar id_reject) [EVar id_err])]]]
              else [])
             ++ content
             ++ (if errorHelperUsed then [SAssign id_sync (EBool false)] else [])))))])
  end.

(** ** [new Function(params, body)]

    The engine parses the text.  The body starts with ["use strict"], so
    the function is strict code: a parameter list in which a name occurs
    twice, or a name that is a reserved word, [eval] or [arguments], is a
    SyntaxError.  A text is taken for a name when it is an identifier of
    ASCII letters, digits, [_] and [$]; every other text is refused here,
    though an engine accepts some of them (a name with blanks around it, a
    name with other letters), and hooks with such parameters are left
    out. *)

Definition char_between (lo hi c : Ascii.ascii) : bool :=
  (Ascii.nat_of_ascii lo <=? Ascii.nat_of_ascii c)%nat
  && (Ascii.nat_of_ascii c <=? Ascii.nat_of_ascii hi)%nat.

Definition is_letter (c : Ascii.ascii) : bool :=
  char_between "a"%char "z"%char c || char_between "A"%char "Z"%char c.

Definition identifier_start (c : Ascii.ascii) : bool :=
  is_letter c || Ascii.eqb c "_"%char || Ascii.eqb c "$"%char.

Definition identifier_part (c : Ascii.ascii) : bool :=
  identifier_start c || char_between "0"%char "9"%char c.

Fixpoint all_chars (p : Ascii.ascii -> bool) (s : string) : bool :=
  match s with
  | EmptyString => true
  | String c rest => p c && all_chars p rest
  end.

Definition is_identifier (s : string) : bool :=
  match s with
  | EmptyString => false
  | String c rest => identifier_start c && all_chars identifier_part rest
  end.

(** The words that strict code does not take as the name of a
    parameter. *)
Definition reserved_words : list string :=
  ["break"; "case"; "catch"; "class"; "const"; "continue"; "debugger";
   "default"; "delete"; "do"; "else"; "enum"; "export"; "extends"; "false";
   "finally"; "for"; "function"; "if"; "import"; "in"; "instanceof"; "new";
   "null"; "return"; "super"; "switch"; "this"; "throw"; "true"; "try";
   "typeof"; "var"; "void"; "while"; "with"; "yield"; "implements";
   "interface"; "let"; "package"; "private"; "protected"; "public";
   "static"; "eval"; "arguments"].

Definition parameter_name (s : string) : bool :=
  is_identifier s && negb (bool_decide (s ∈ reserved_words)).

(** The parameter list is accepted. *)
Definition accepts (names : list string) : bool :=
  forallb parameter_name names && bool_decide (NoDup names).

Definition new_Function (f : JsFunction) : Completion JsFunction :=
  if accepts (ident_text <$> fn_params f) then Normal f else Throw SyntaxError.

(** A name of a parameter that is its own: it begins with a letter, while
    the names that the factory makes up begin with [_], and it is neither
    [Promise] nor [undefined], which the emitted code reads from the global
    scope. *)
Definition plain_name (s : string) : bool :=
  parameter_name s
  && match s with
     | String c _ => is_letter c
     | EmptyString => false
     end
  && negb (String.eqb s "Promise") && negb (String.eqb s "undefined").

(** The parameters of a hook that the tree renders faithfully: plain
    names, none of them twice. *)
Definition plain_args (names : list string) : bool :=
  forallb plain_name names && bool_decide (NoDup names).

(** [setup(instance, options)] stores [options.taps.map(t => t.fn)] in
    [instance._x]. *)
Definition setup_x (taps : list Tap) : list nat := map tap_fn taps.

(** ** AsyncSeriesHook.js *)

Definition AsyncSeriesHookCodeFactory_content (options : FactoryOptions)
    (o : ContentOptions) : code :=
  callTapsSeries options
    (mkSeries (fun i err next doneBreak => co_onError o err ++ doneBreak true)
              None false (co_onDone o) false false).

(** ** Hook.js *)

(** What a [call]/[callAsync]/[promise] property may hold. *)
Inductive CallFn : Type :=
| CALL_DELEGATE
| CALL_ASYNC_DELEGATE
| PROMISE_DELEGATE
| Compiled (f : JsFunction).

(** The [compile] property: the abstract method of [Hook], or the [COMPILE]
    of a concrete hook, which is determined by the [content] of its
    factory. *)
Inductive CompileFn : Type :=
| abstract_compile
| COMPILE (content : FactoryOptions -> ContentOptions -> code).

Record Hook : Type := mkHook {
  h_args : list string;
  h_name : option string;
  h_taps : list Slot;
  h_interceptors : list Interceptor;
  h__call : option CallFn;
  h_call : option CallFn;
  h__callAsync : option CallFn;
  h_callAsync : option CallFn;
  h__promise : option CallFn;
  h_promise : option CallFn;
  h__x : option (list nat);
  h_compile : CompileFn
}.

(** [new Hook(args, name)] *)
Definition new_Hook (args : list string) (name : option string) : Hook :=
  mkHook args name [] []
         (Some CALL_DELEGATE) (Some CALL_DELEGATE)
         (Some CALL_ASYNC_DELEGATE) (Some CALL_ASYNC_DELEGATE)
         (Some PROMISE_DELEGATE) (Some PROMISE_DELEGATE)
         None abstract_compile.

(** [AsyncSeriesHook(args, name)] *)
Definition AsyncSeriesHook (args : list string) (name : option string) : Hook :=
  let hook := new_Hook args name in
  mkHook (h_args hook) (h_name hook) (h_taps hook) (h_interceptors hook)
         None None
         (h__callAsync hook) (h_callAsync hook)
         (h__promise hook) (h_promise hook)
         (h__x hook) (COMPILE AsyncSeriesHookCodeFactory_content).

Definition set_taps (h : Hook) (taps : list Slot) : Hook :=
  mkHook (h_args h) (h_name h) taps (h_interceptors h)
         (h__call h) (h_call h) (h__callAsync h) (h_callAsync h)
         (h__promise h) (h_promise h) (h__x h) (h_compile h).

Definition set_interceptors (h : Hook) (l : list Interceptor) : Hook :=
  mkHook (h_args h) (h_name h) (h_taps h) l
         (h__call h) (h_call h) (h__callAsync h) (h_callAsync h)
         (h__promise h) (h_promise h) (h__x h) (h_compile h).

Definition set_x (h : Hook) (x : list nat) : Hook :=
  mkHook (h_args h) (h_name h) (h_taps h) (h_interceptors h)
         (h__call h) (h_call h) (h__callAsync h) (h_callAsync h)
         (h__promise h) (h_promise h) (Some x) (h_compile h).

(** Reading and writing the property that belongs to a calling
    convention: [call], [callAsync] or [promise]. *)
Definition get_call (type : TapType) (h : Hook) : option CallFn :=
  match type with
  | sync => h_call h
  | async => h_callAsync h
  | promise => h_promise h
  end.

Definition set_call (type : TapType) (f : option CallFn) (h : Hook) : Hook :=
  match type with
  | sync =>
      mkHook (h_args h) (h_name h) (h_taps h) (h_interceptors h)
             (h__call h) f (h__callAsync h) (h_callAsync h)
             (h__promise h) (h_promise h) (h__x h) (h_compile h)
  | async =>
      mkHook (h_args h) (h_name h) (h_taps h) (h_interceptors h)
             (h__call h) (h_call h) (h__callAsync h) f
             (h__promise h) (h_promise h) (h__x h) (h_compile h)
  | promise =>
      mkHook (h_args h) (h_name h) (h_taps h) (h_interceptors h)
             (h__call h) (h_call h) (h__callAsync h) (h_callAsync h)
             (h__promise h) f (h__x h) (h_compile h)
  end.

(** All slots hold descriptors, or some slot is [undefined]. *)
Fixpoint defined_taps (taps : list Slot) : option (list Tap) :=
  match taps with
  | [] => Some []
  | Some t :: rest => option_map (cons t) (defined_taps rest)
  | None :: _ => None
  end.

(** [compile(options)].  The [COMPILE] of a concrete hook runs
    [factory.setup] first, which reads [t.fn] of every slot, so an
    [undefined] slot raises a TypeError before any code is generated; then
    [factory.create], in which [new Function] may raise a SyntaxError. *)
Definition compile (h : Hook) (type : TapType) : Completion (Hook * JsFunction) :=
  match h_compile h with
  | abstract_compile => Throw (Error "Abstract: should be overridden")
  | COMPILE content =>
      match defined_taps (h_taps h) with
      | None => Throw TypeError
      | Some taps =>
          f ← new_Function
                (create content (mkOptions type taps (h_interceptors h) (h_args h)));
          Normal (set_x h (setup_x taps), f)
      end
  end.

Definition _createCall (h : Hook) (type : TapType) : Completion (Hook * JsFunction) :=
  compile h type.

(** The function that an invocation [hook.call(...)], [hook.callAsync(...)]
    or [hook.promise(...)] ends up running, and the hook after the property
    lookup: a delegate compiles, stores the compiled function in the
    property and runs it; a compiled function runs as it is. *)
Definition invoke (type : TapType) (h : Hook) : Completion (Hook * JsFunction) :=
  match get_call type h with
  | None => Throw TypeError
  | Some (Compiled f) => Normal (h, f)
  | Some CALL_DELEGATE =>
      '(h', f) ← _createCall h sync; Normal (set_call sync (Some (Compiled f)) h', f)
  | Some CALL_ASYNC_DELEGATE =>
      '(h', f) ← _createCall h async; Normal (set_call async (Some (Compiled f)) h', f)
  | Some PROMISE_DELEGATE =>
      '(h', f) ← _createCall h promise; Normal (set_call promise (Some (Compiled f)) h', f)
  end.

Definition _resetCompilation (h : Hook) : Hook :=
  mkHook (h_args h) (h_name h) (h_taps h) (h_interceptors h)
         (h__call h) (h__call h) (h__callAsync h) (h__callAsync h)
         (h__promise h) (h__promise h) (h__x h) (h_compile h).

(** [array[i] = v] on a JavaScript array: replaces inside the array and
    extends it (with holes, which read as [undefined]) outside. *)
Definition array_set (l : list Slot) (i : nat) (v : Slot) : list Slot :=
  if bool_decide (i < length l)%nat then <[i := v]> l
  else l ++ replicate (i - length l) None ++ [v].

(** [array[i]]: [undefined] outside the array. *)
Definition array_get (l : list Slot) (i : nat) : Slot := mjoin (l !! i).

(** The [before] set of [_insert]: absent unless [item.before] is a
    string or an array. *)
Definition before_set (b : BeforeOption) : option (gset string) :=
  match b with
  | BeforeUndefined => None
  | BeforeString s => Some {[ s ]}
  | BeforeArray l => Some (list_to_set l)
  end.

(** The numbers that [_insert] compares: an integer, or [None] for NaN.

    [let stage = 0; if (typeof item.stage === "number") stage = item.stage;]
    for the incoming descriptor. *)
Definition item_stage (s : StageValue) : option Z :=
  match s with
  | StageNumber z => Some z
  | StageNaN => None
  | StageOther _ _ => Some 0
  end.

(** [x.stage || 0] for a registered descriptor [x], as the number that
    [xStage > stage] makes of it: no [typeof] test here, so NaN reads as 0
    and a truthy value that is not a number as what it converts to. *)
Definition stage_or_0 (s : StageValue) : option Z :=
  match s with
  | StageNumber z => Some z
  | StageNaN => Some 0
  | StageOther true number => number
  | StageOther false _ => Some 0
  end.

(** [a > b]: false when one of the two is NaN. *)
Definition number_gt (a b : option Z) : bool :=
  match a, b with
  | Some x, Some y => bool_decide (x > y)
  | _, _ => false
  end.

(** The [while (i > 0)] loop of [_insert]: from index [i], with the
    array and the [before] set as they stand, to the index at which the
    loop ends and the shifted array.  Reading [x.stage] of an [undefined]
    slot raises a TypeError. *)
Fixpoint insert_loop (i : nat) (taps : list Slot) (before : option (gset string))
    (stage : option Z) : Completion (nat * list Slot) :=
  match i with
  | O => Normal (O, taps)
  | S i' =>
      (* i--; const x = this.taps[i]; this.taps[i + 1] = x; *)
      let x := array_get taps i' in
      let taps := array_set taps (i' + 1) x in
      match x with
      | None => Throw TypeError
      | Some x =>
          let xStage := stage_or_0 (tap_stage x) in
          match before with
          | Some b =>
              if decide (tap_name x ∈ b)
              then insert_loop i' taps (Some (b ∖ {[ tap_name x ]})) stage
              else if bool_decide (0 < size b)%nat
              then insert_loop i' taps before stage
              else if number_gt xStage stage
              then insert_loop i' taps before stage
              else Normal (S i', taps)
          | None =>
              if number_gt xStage stage
              then insert_loop i' taps before stage
              else Normal (S i', taps)
          end
      end
  end.

Definition _insert (h : Hook) (item : Tap) : Completion Hook :=
  let h := _resetCompilation h in
  let before := before_set (tap_before item) in
  let stage := item_stage (tap_stage item) in
  '(i, taps) ← insert_loop (length (h_taps h)) (h_taps h) before stage;
  Normal (set_taps h (array_set taps i (Some item))).

Definition _runRegisterInterceptors (h : Hook) (options : Tap) : Tap :=
  foldl (fun options interceptor =>
           match register interceptor with
           | Some reg =>
               match reg (Some options) with
               | Some newOptions => newOptions
               | None => options
               end
           | None => options
           end)
        options (h_interceptors h).

(** The [options] argument of [tap], [tapAsync] and [tapPromise]: a
    string, an object, or anything else.  Of an object only the
    properties that the library reads are kept; [o_name] is [None] when
    [name] is not a string; [o_type] and [o_fn] are the object's own
    [type] and [fn], which [Object.assign({ type, fn }, options)] lets
    override the arguments; [o_stage] is [StageUndefined] when the object
    has no [stage]. *)
Record TapOptions : Type := mkTapOptions {
  o_name : option string;
  o_before : BeforeOption;
  o_stage : StageValue;
  o_context : bool;
  o_type : option TapType;
  o_fn : option nat
}.

Inductive TapOptionsArg : Type :=
| OptString (s : string)
| OptObject (o : TapOptions)
| OptOther.

Section Tap.

  (** [String.prototype.trim] *)
Variable trim : string -> string.

Definition _tap (h : Hook) (type : TapType) (options : TapOptionsArg) (fn : nat)
      : Completion Hook :=
    options ← match options with
              | OptString s =>
                  Normal (mkTapOptions (Some (trim s)) BeforeUndefined StageUndefined false
                                       None None)
              | OptObject o => Normal o
              | OptOther => Throw (Error "Invalid tap options")
              end;
    match o_name options with
    | None => Throw (Error "Missing name for tap")
    | Some name =>
        if decide (name = "") then Throw (Error "Missing name for tap")
        else
          let options :=
            mkTap name (default type (o_type options)) (default fn (o_fn options))
                  (o_before options) (o_stage options) (o_context options) in
          let options := _runRegisterInterceptors h options in
          _insert h options
    end.

Definition tap (h : Hook) (options : TapOptionsArg) (fn : nat) : Completion Hook :=
    _tap h sync options fn.

Definition tapAsync (h : Hook) (options : TapOptionsArg) (fn : nat) : Completion Hook :=
    _tap h async options fn.

Definition tapPromise (h : Hook) (options : TapOptionsArg) (fn : nat) : Completion Hook :=
    _tap h promise options fn.

End Tap.

Definition isUsed (h : Hook) : bool :=
  bool_decide (0 < length (h_taps h))%nat || bool_decide (0 < length (h_interceptors h))%nat.

(** [intercept(interceptor)] *)
Definition intercept (h : Hook) (interceptor : Interceptor) : Hook :=
  let h := _resetCompilation h in
  let h := set_interceptors h (h_interceptors h ++ [interceptor]) in
  match register interceptor with
  | Some reg => set_taps h (map reg (h_taps h))
  | None => h
  end.

(** ** Evaluation of the emitted code *)

(** *** Values *)

(** [VOpaque n text] is an object supplied from outside, a hook argument, a
    result or an error of a tap, of which the dispatcher can see three
    things: its identity [n], that it has no [then], and the string [text]
    that a conversion to a string gives ('[object Object]' for a plain
    object, the elements for an array, what its own [toString] returns).
    Values that cannot be converted to a string are not among the values.
    [VThenable p] is an object with a callable [then]. *)
Inductive value : Type :=
| VUndefined
| VNull
| VBool (b : bool)
| VNum (n : Z)
| VNaN
| VStr (s : string)
| VOpaque (n : nat) (text : string)
| VError (ctor msg : string)          (* an Error, TypeError or ReferenceError object *)
| VObject                             (* the object literal {} *)
| VThenable (p : nat)
| VThenOf (p : nat)                   (* the [then] method of thenable [p] *)
| VHookX                              (* this._x *)
| VHookTaps                           (* this.taps *)
| VHookInterceptors                   (* this.interceptors *)
| VTapFn (i : nat)                    (* this._x[i] *)
| VTapDescriptor (i : nat)            (* this.taps[i] *)
| VInterceptor (k : nat)              (* this.interceptors[k] *)
| VInterceptorMethod (k : nat) (m : string)
| VCallback                           (* the completion callback of callAsync *)
| VResolve                            (* the functions given to a Promise executor *)
| VReject
| VPromiseCtor                        (* the global Promise *)
| VPromiseResolve                     (* Promise.resolve *)
| VResolvedPromise                    (* Promise.resolve() *)
| VResolvedThen                       (* Promise.resolve().then *)
| VDerivedPromise (k : nat)           (* Promise.resolve().then(f), f being microtask k *)
| VNewPromise                         (* the result of new Promise(...) *)
| VClosure (params : list ident) (body : code) (scope : nat).

Definition truthy (v : value) : bool :=
  match v with
  | VUndefined | VNull | VNaN => false
  | VBool b => b
  | VNum n => negb (n =? 0)
  | VStr s => negb (String.eqb s "")
  | _ => true
  end.

(** ToNumber, [None] for NaN. *)
Definition to_number (v : value) : option Z :=
  match v with
  | VNum n => Some n
  | VNull => Some 0
  | VBool b => Some (if b then 1 else 0)
  | VStr "" => Some 0
  | _ => None
  end.

(** *** Numbers as strings

    A number is an integer that is a double.  Up to 2^53 its string is
    its decimal expansion.  Above, Number::toString takes the decimal with
    the fewest significant digits that still denotes this double, the
    closest one if there are several; it is written out in full when it has
    at most 21 digits and with an exponent otherwise. *)

Definition decimal_digits (n : Z) : nat := String.length (pretty n).

(** Whether [x] denotes the double [n], that is, lies within half the
    distance to the two neighbours of [n]; the lower neighbour of a power
    of two is at half the distance.  The bounds belong to [n] when its
    mantissa is even. *)
Definition rounds_to (n x : Z) : bool :=
  let e := Z.log2 n in
  let half := 2 ^ (e - 53) in
  let lo2 := if n =? 2 ^ e then 2 * n - half else 2 * n - 2 * half in
  let hi2 := 2 * n + 2 * half in
  (x =? n)
  || (if Z.even (n / 2 ^ (e - 52))
      then (lo2 <=? 2 * x) && (2 * x <=? hi2)
      else (lo2 <? 2 * x) && (2 * x <? hi2)).

(** The decimal with [k] significant digits that denotes [n], if there
    is one. *)
Definition with_digits (n : Z) (k : nat) : option Z :=
  let p := 10 ^ Z.of_nat (decimal_digits n - k) in
  let s1 := n / p in
  let c1 := s1 * p in
  let c2 := c1 + p in
  match rounds_to n c1, rounds_to n c2 with
  | true, true =>
      if n - c1 <? c2 - n then Some c1
      else if c2 - n <? n - c1 then Some c2
      else if Z.even s1 then Some c1 else Some c2
  | true, false => Some c1
  | false, true => Some c2
  | false, false => None
  end.

Definition shortest_decimal (n : Z) : Z :=
  if n <=? 2 ^ 53 then n
  else default n (list_find is_Some (with_digits n <$> seq 1 (decimal_digits n))
                    ≫= λ r, r.2).

Fixpoint strip_zeros (fuel : nat) (c : Z) : Z :=
  match fuel with
  | O => c
  | S fuel => if (0 <? c) && (c mod 10 =? 0) then strip_zeros fuel (c / 10) else c
  end.

(** The string of a number that is not negative. *)
Definition number_text (n : Z) : string :=
  let c := shortest_decimal n in
  let d := decimal_digits c in
  if bool_decide (d ≤ 21)%nat then pretty c
  else
    match pretty (strip_zeros d c) with
    | String a rest =>
        String a (if String.eqb rest "" then "" else "." +:+ rest)
        +:+ "e+" +:+ pretty (Z.of_nat d - 1)
    | EmptyString => ""
    end.

(** String(v), as in ['...' + v].  An Error object gives its name and
    its message, of which an empty one is left out.  The functions and
    objects of the dispatcher and of the hook are never converted by the
    emitted code. *)
Definition to_string (v : value) : string :=
  match v with
  | VUndefined => "undefined"
  | VNull => "null"
  | VBool true => "true"
  | VBool false => "false"
  | VNum n => if n <? 0 then "-" +:+ number_text (- n) else number_text n
  | VNaN => "NaN"
  | VStr s => s
  | VOpaque _ text => text
  | VError ctor msg =>
      if String.eqb msg "" then ctor
      else if String.eqb ctor "" then msg
      else ctor +:+ ": " +:+ msg
  | VClosure _ _ _ => "function"
  | _ => "[object Object]"
  end.

(** [a === b]; only primitives and opaque values are ever compared by the
    emitted code, other objects compare as different. *)
Definition strict_eq (a b : value) : bool :=
  match a, b with
  | VUndefined, VUndefined => true
  | VNull, VNull => true
  | VBool x, VBool y => bool_decide (x = y)
  | VNum x, VNum y => x =? y
  | VStr x, VStr y => String.eqb x y
  | VOpaque x _, VOpaque y _ => Nat.eqb x y
  | VThenable x, VThenable y => Nat.eqb x y
  | _, _ => false
  end.

Definition is_closure (v : value) : bool :=
  match v with
  | VClosure _ _ _ => true
  | _ => false
  end.

(** *** The world outside the dispatcher *)

(** What a called function does before it returns: it may call the
    function it was given (an async tap its callback, a [then] one of its
    two handlers) any number of times, and then returns or throws. *)
Inductive ending : Type :=
| Returns (v : value)
| Throws (v : value).

Record TapBehaviour : Type := mkTapBehaviour {
  tb_callbacks : list (list value);       (* the argument lists of the calls of the callback *)
  tb_ending : ending
}.

Record ThenBehaviour : Type := mkThenBehaviour {
  thb_settles : list (bool * list value); (* true: onFulfilled, false: onRejected *)
  thb_ending : ending
}.

(** The behaviour of the [n]-th external call, when it is a call of tap
    function [i], respectively of the [then] of thenable [p]. *)
Record World : Type := mkWorld {
  tap_behaviour : nat -> nat -> TapBehaviour;
  then_behaviour : nat -> nat -> ThenBehaviour
}.

(** The functions that the dispatcher hands out and that can be called
    back later. *)
Inductive target : Type :=
| TapCallback (i : nat)
| OnFulfilled (p : nat)
| OnRejected (p : nat)
| Microtask (k : nat).

#[global] Instance target_eq_dec : EqDecision target.
Proof. solve_decision. Defined.

Inductive event : Type :=
| EvTap (i : nat) (actuals : list value)
| EvThen (p : nat)
| EvInterceptor (k : nat) (m : string) (actuals : list value)
| EvCallback (actuals : list value)
| EvResolve (actuals : list value)
| EvReject (actuals : list value)
| EvFire (t : target) (actuals : list value)
| EvReturn (v : value)
| EvThrow (v : value)
| EvUncaught (v : value).

(** *** Scopes *)

(** One frame per function activation; [var] declarations, parameters and
    function declarations live in the frame of the activation that runs
    them. *)
Record frame : Type := mkFrame {
  f_vars : gmap ident value;
  f_parent : option nat
}.

Record state : Type := mkState {
  frames : list frame;
  registry : list (target * value);
  clock : nat;
  trace : list event
}.

Definition log (ev : event) (st : state) : state :=
  mkState (frames st) (registry st) (clock st) (trace st ++ [ev]).

Definition tick (st : state) : state :=
  mkState (frames st) (registry st) (S (clock st)) (trace st).

Definition set_frames (fs : list frame) (st : state) : state :=
  mkState fs (registry st) (clock st) (trace st).

(** A later registration for the same target replaces the earlier one. *)
Definition enroll (t : target) (v : value) (st : state) : state :=
  if is_closure v
  then mkState (frames st) ((t, v) :: registry st) (clock st) (trace st)
  else st.

Fixpoint registered (r : list (target * value)) (t : target) : option value :=
  match r with
  | [] => None
  | (t', v) :: r' => if decide (t' = t) then Some v else registered r' t
  end.

(** The frame, from [s] outwards, that binds [x]. *)
Fixpoint find_frame (fuel : nat) (fs : list frame) (s : nat) (x : ident) : option nat :=
  match fuel with
  | O => None
  | S fuel =>
      match fs !! s with
      | None => None
      | Some f =>
          match f_vars f !! x with
          | Some _ => Some s
          | None =>
              match f_parent f with
              | Some p => find_frame fuel fs p x
              | None => None
              end
          end
      end
  end.

Definition read_var (fs : list frame) (s : nat) (x : ident) : option value :=
  match find_frame (length fs) fs s x with
  | Some s' => f ← fs !! s'; f_vars f !! x
  | None => None
  end.

Definition bind_in (fs : list frame) (s : nat) (x : ident) (v : value) : list frame :=
  alter (fun f => mkFrame (<[x := v]> (f_vars f)) (f_parent f)) s fs.

(** [x = v] *)
Definition write_var (fs : list frame) (s : nat) (x : ident) (v : value)
    : option (list frame) :=
  match find_frame (length fs) fs s x with
  | Some s' => Some (bind_in fs s' x v)
  | None => None
  end.

Fixpoint bind_params (ps : list ident) (actuals : list value) : gmap ident value :=
  match ps with
  | [] => ∅
  | p :: ps' =>
      match actuals with
      | [] => <[p := VUndefined]> (bind_params ps' [])
      | a :: actuals' => <[p := a]> (bind_params ps' actuals')
      end
  end.

(** *** Results of evaluation *)

Inductive result : Type :=
| Val (v : value)
| Exc (v : value).

Inductive outcome : Type :=
| ONormal
| OReturn (v : value)
| OThrow (v : value)
| OBreak.

Definition reference_error : value := VError "ReferenceError" "".
Definition type_error : value := VError "TypeError" "".

(** [v.m] *)
Definition member (v : value) (m : string) : result :=
  match v with
  | VUndefined | VNull => Exc type_error
  | VThenable p => if String.eqb m "then" then Val (VThenOf p) else Val VUndefined
  | VInterceptor k => Val (VInterceptorMethod k m)
  | VPromiseCtor => if String.eqb m "resolve" then Val VPromiseResolve else Val VUndefined
  | VResolvedPromise => if String.eqb m "then" then Val VResolvedThen else Val VUndefined
  | _ => Val VUndefined
  end.

(** [v[i]] *)
Definition index (v : value) (i : nat) : result :=
  match v with
  | VUndefined | VNull => Exc type_error
  | VHookX => Val (VTapFn i)
  | VHookTaps => Val (VTapDescriptor i)
  | VHookInterceptors => Val (VInterceptor i)
  | _ => Val VUndefined
  end.

Definition this_field (f : string) : value :=
  if String.eqb f "_x" then VHookX
  else if String.eqb f "taps" then VHookTaps
  else if String.eqb f "interceptors" then VHookInterceptors
  else VUndefined.

Definition compare (op : Z -> Z -> bool) (a b : value) : value :=
  match to_number a, to_number b with
  | Some x, Some y => VBool (op x y)
  | _, _ => VBool false
  end.

Definition add_values (a b : value) : value :=
  match a, b with
  | VNum x, VNum y => VNum (x + y)
  | _, _ => VStr (to_string a +:+ to_string b)
  end.

Definition last_closure (actuals : list value) : option value :=
  match last actuals with
  | Some v => if is_closure v then Some v else None
  | None => None
  end.

(** The actuals as they are logged: without the functions of the
    dispatcher itself. *)
Definition plain (actuals : list value) : list value :=
  filter (λ v, is_closure v = false) actuals.

Definition nth_closure (actuals : list value) (k : nat) : option value :=
  match actuals !! k with
  | Some v => if is_closure v then Some v else None
  | None => None
  end.

Section Eval.

Variable w : World.

  (** Evaluation with a bound [n] on the depth of the evaluation;
      [None] means that the bound was too small. *)
Fixpoint eval (n : nat) (s : nat) (e : expr) (st : state) : option (result * state) :=
    match n with
    | O => None
    | S n =>
        match e with
        | EUndefined => Some (Val VUndefined, st)
        | ENull => Some (Val VNull, st)
        | EBool b => Some (Val (VBool b), st)
        | ENum z => Some (Val (VNum z), st)
        | EStr t => Some (Val (VStr t), st)
        | EVar x =>
            match read_var (frames st) s x with
            | Some v => Some (Val v, st)
            | None => Some (Exc reference_error, st)
            end
        | EThis f => Some (Val (this_field f), st)
        | EObject => Some (Val VObject, st)
        | EIndex e i =>
            match eval n s e st with
            | Some (Val v, st) => Some (index v i, st)
            | r => r
            end
        | EMember e m =>
            match eval n s e st with
            | Some (Val v, st) => Some (member v m, st)
            | r => r
            end
        | ENot e =>
            match eval n s e st with
            | Some (Val v, st) => Some (Val (VBool (negb (truthy v))), st)
            | r => r
            end
        | EOr a b =>
            match eval n s a st with
            | Some (Val v, st) => if truthy v then Some (Val v, st) else eval n s b st
            | r => r
            end
        | EStrictNe a b => eval2 n s a b (fun x y => VBool (negb (strict_eq x y))) st
        | EStrictEq a b => eval2 n s a b (fun x y => VBool (strict_eq x y)) st
        | ELe a b => eval2 n s a b (compare Z.leb) st
        | EGt a b => eval2 n s a b (compare Z.gtb) st
        | EAdd a b => eval2 n s a b add_values st
        | EPreDec x =>
            match read_var (frames st) s x with
            | Some v =>
                let v' := match to_number v with
                          | Some z => VNum (z - 1)
                          | None => VNaN
                          end in
                match write_var (frames st) s x v' with
                | Some fs => Some (Val v', set_frames fs st)
                | None => Some (Exc reference_error, st)
                end
            | None => Some (Exc reference_error, st)
            end
        | ENewError e =>
            match eval n s e st with
            | Some (Val v, st) => Some (Val (VError "Error" (to_string v)), st)
            | r => r
            end
        | ENewPromise e =>
            match eval n s e st with
            | Some (Val f, st) =>
                match call n f [VResolve; VReject] st with
                | Some (Val _, st) => Some (Val VNewPromise, st)
                | Some (Exc v, st) => Some (Val VNewPromise, log (EvReject [v]) st)
                | None => None
                end
            | r => r
            end
        | EFunction ps body => Some (Val (VClosure ps body s), st)
        | ECall f actuals =>
            match eval n s f st with
            | Some (Val vf, st) =>
                match eval_list n s actuals st with
                | Some (inl vs, st) => call n vf vs st
                | Some (inr v, st) => Some (Exc v, st)
                | None => None
                end
            | r => r
            end
        end
    end

with eval2 (n : nat) (s : nat) (a b : expr) (op : value -> value -> value) (st : state)
      : option (result * state) :=
    match n with
    | O => None
    | S n =>
        match eval n s a st with
        | Some (Val x, st) =>
            match eval n s b st with
            | Some (Val y, st) => Some (Val (op x y), st)
            | r => r
            end
        | r => r
        end
    end

with eval_list (n : nat) (s : nat) (es : list expr) (st : state)
      : option ((list value + value) * state) :=
    match n with
    | O => None
    | S n =>
        match es with
        | [] => Some (inl [], st)
        | e :: es' =>
            match eval n s e st with
            | Some (Val v, st) =>
                match eval_list n s es' st with
                | Some (inl vs, st) => Some (inl (v :: vs), st)
                | r => r
                end
            | Some (Exc v, st) => Some (inr v, st)
            | None => None
            end
        end
    end

  (** [f(actuals)] *)
with call (n : nat) (f : value) (actuals : list value) (st : state)
      : option (result * state) :=
    match n with
    | O => None
    | S n =>
        match f with
        | VClosure ps body s0 =>
            let s' := length (frames st) in
            let st := set_frames (frames st ++ [mkFrame (bind_params ps actuals) (Some s0)]) st in
            match exec_block n s' body st with
            | Some (OReturn v, st) => Some (Val v, st)
            | Some (OThrow v, st) => Some (Exc v, st)
            | Some (_, st) => Some (Val VUndefined, st)
            | None => None
            end
        | VTapFn i =>
            let b := tap_behaviour w (clock st) i in
            let st := tick (log (EvTap i (plain actuals)) st) in
            match last_closure actuals with
            | Some cb =>
                match call_back n (TapCallback i) cb (tb_callbacks b)
                                (enroll (TapCallback i) cb st) with
                | Some (None, st) =>
                    Some (match tb_ending b with Returns v => Val v | Throws v => Exc v end, st)
                | Some (Some v, st) => Some (Exc v, st)
                | None => None
                end
            | None =>
                Some (match tb_ending b with Returns v => Val v | Throws v => Exc v end, st)
            end
        | VThenOf p =>
            let b := then_behaviour w (clock st) p in
            let st := tick (log (EvThen p) st) in
            let st := match actuals !! 0%nat with
                      | Some h => enroll (OnFulfilled p) h st
                      | None => st
                      end in
            let st := match actuals !! 1%nat with
                      | Some h => enroll (OnRejected p) h st
                      | None => st
                      end in
            match settle n p actuals (thb_settles b) st with
            | Some (None, st) =>
                Some (match thb_ending b with Returns v => Val v | Throws v => Exc v end, st)
            | Some (Some v, st) => Some (Exc v, st)
            | None => None
            end
        | VCallback => Some (Val VUndefined, log (EvCallback actuals) st)
        | VResolve => Some (Val VUndefined, log (EvResolve actuals) st)
        | VReject => Some (Val VUndefined, log (EvReject actuals) st)
        | VInterceptorMethod k m => Some (Val VUndefined, log (EvInterceptor k m actuals) st)
        | VPromiseResolve => Some (Val VResolvedPromise, st)
        | VResolvedThen =>
            let k := clock st in
            let st := tick st in
            Some (Val (VDerivedPromise k),
                  match actuals !! 0%nat with
                  | Some h => enroll (Microtask k) h st
                  | None => st
                  end)
        | _ => Some (Exc type_error, st)
        end
    end

  (** The calls of its callback that a tap makes before it returns; an
      exception of the callback ends the tap. *)
with call_back (n : nat) (t : target) (cb : value) (calls : list (list value)) (st : state)
      : option (option value * state) :=
    match n with
    | O => None
    | S n =>
        match calls with
        | [] => Some (None, st)
        | actuals :: calls' =>
            match call n cb actuals (log (EvFire t actuals) st) with
            | Some (Val _, st) => call_back n t cb calls' st
            | Some (Exc v, st) => Some (Some v, st)
            | None => None
            end
        end
    end

  (** The calls of the handlers that a [then] makes before it returns. *)
with settle (n : nat) (p : nat) (handlers : list value)
      (settles : list (bool * list value)) (st : state)
      : option (option value * state) :=
    match n with
    | O => None
    | S n =>
        match settles with
        | [] => Some (None, st)
        | (fulfilled, actuals) :: settles' =>
            match nth_closure handlers (if fulfilled then 0%nat else 1%nat) with
            | Some h =>
                match call n h actuals
                        (log (EvFire (if fulfilled then OnFulfilled p else OnRejected p)
                                     actuals) st) with
                | Some (Val _, st) => settle n p handlers settles' st
                | Some (Exc v, st) => Some (Some v, st)
                | None => None
                end
            | None => settle n p handlers settles' st
            end
        end
    end

with exec (n : nat) (s : nat) (c : stmt) (st : state) : option (outcome * state) :=
    match n with
    | O => None
    | S n =>
        match c with
        | SVar x None =>
            match f ← frames st !! s; f_vars f !! x with
            | Some _ => Some (ONormal, st)
            | None => Some (ONormal, set_frames (bind_in (frames st) s x VUndefined) st)
            end
        | SVar x (Some e) =>
            match eval n s e st with
            | Some (Val v, st) => Some (ONormal, set_frames (bind_in (frames st) s x v) st)
            | Some (Exc v, st) => Some (OThrow v, st)
            | None => None
            end
        | SAssign x e =>
            match eval n s e st with
            | Some (Val v, st) =>
                match write_var (frames st) s x v with
                | Some fs => Some (ONormal, set_frames fs st)
                | None => Some (OThrow reference_error, st)
                end
            | Some (Exc v, st) => Some (OThrow v, st)
            | None => None
            end
        | SExpr e =>
            match eval n s e st with
            | Some (Val _, st) => Some (ONormal, st)
            | Some (Exc v, st) => Some (OThrow v, st)
            | None => None
            end
        | SIf c thn els =>
            match eval n s c st with
            | Some (Val v, st) => exec_block n s (if truthy v then thn else els) st
            | Some (Exc v, st) => Some (OThrow v, st)
            | None => None
            end
        | STry body x handler =>
            match exec_block n s body st with
            | Some (OThrow v, st) =>
                exec_block n s handler (set_frames (bind_in (frames st) s x v) st)
            | r => r
            end
        | SThrow e =>
            match eval n s e st with
            | Some (Val v, st) => Some (OThrow v, st)
            | Some (Exc v, st) => Some (OThrow v, st)
            | None => None
            end
        | SReturn None => Some (OReturn VUndefined, st)
        | SReturn (Some e) =>
            match eval n s e st with
            | Some (Val v, st) => Some (OReturn v, st)
            | Some (Exc v, st) => Some (OThrow v, st)
            | None => None
            end
        | SDoWhile body c =>
            match exec_block n s body st with
            | Some (ONormal, st) =>
                match eval n s c st with
                | Some (Val v, st) =>
                    if truthy v then exec n s (SDoWhile body c) st else Some (ONormal, st)
                | Some (Exc v, st) => Some (OThrow v, st)
                | None => None
                end
            | Some (OBreak, st) => Some (ONormal, st)
            | r => r
            end
        | SBreak => Some (OBreak, st)
        | SFunction f ps body =>
            Some (ONormal, set_frames (bind_in (frames st) s f (VClosure ps body s)) st)
        end
    end

with exec_block (n : nat) (s : nat) (c : code) (st : state) : option (outcome * state) :=
    match n with
    | O => None
    | S n =>
        match c with
        | [] => Some (ONormal, st)
        | c1 :: c' =>
            match exec n s c1 st with
            | Some (ONormal, st) => exec_block n s c' st
            | r => r
            end
        end
    end.

  (** The event loop after the dispatcher has returned: the environment
      calls, one after the other, functions that it was handed earlier.  A
      target for which nothing was handed out cannot be called. *)
Fixpoint drive (n : nat) (script : list (target * list value)) (st : state)
      : option state :=
    match script with
    | [] => Some st
    | (t, actuals) :: script' =>
        match registered (registry st) t with
        | None => drive n script' st
        | Some f =>
            match call n f actuals (log (EvFire t actuals) st) with
            | Some (Val _, st) => drive n script' st
            | Some (Exc v, st) => drive n script' (log (EvUncaught v) st)
            | None => None
            end
        end
    end.

Definition initial_state : state :=
    mkState [mkFrame {[ id_Promise := VPromiseCtor ]} None] [] 0 [].

  (** A call [f(actuals)] of a compiled function, followed by the event
      loop with [script]. *)
Definition run (n : nat) (f : JsFunction) (actuals : list value)
      (script : list (target * list value)) : option state :=
    match call n (VClosure (fn_params f) (fn_body f) 0) actuals initial_state with
    | Some (Val v, st) => drive n script (log (EvReturn v) st)
    | Some (Exc v, st) => drive n script (log (EvThrow v) st)
    | None => None
    end.

Definition dispatch (n : nat) (f : JsFunction) (actuals : list value)
      (script : list (target * list value)) : option (list event) :=
    trace <$> run n f actuals script.

End Eval.

(** ** Notions used to state the properties of the registry *)

(** The stage of a tap as the documentation of the library has it: the
    number given as [stage], 0 when none is given. *)
Definition stage_of (t : Tap) : Z :=
  match tap_stage t with
  | StageNumber z => z
  | _ => 0
  end.

(** A [stage] as the structure of a tap declares it: an integer, or no
    stage; a falsy value in the place of the number ([null], [false], the
    empty string) counts as no stage.  NaN and truthy values that are not
    numbers are not. *)
Definition stage_declared (s : StageValue) : Prop :=
  match s with
  | StageNumber _ => True
  | StageNaN => False
  | StageOther is_truthy _ => is_truthy = false
  end.

(** Successive calls of [_insert]; the first error ends them. *)
Definition insert_all (h : Hook) (items : list Tap) : Completion Hook :=
  foldl (fun h item => h ← h; _insert h item) (Normal h) items.

(** The array while the loop of [_insert] is at index [i]: the slots from
    [i] on have been moved up by one, slot [i] still holds its old value. *)
Definition shifted (i : nat) (l : list Slot) : list Slot :=
  take (S i) l ++ drop i l.

(** The properties [_call], [_callAsync] and [_promise] hold what the
    constructors put there: the delegates, [_call] possibly [undefined] (as
    in an [AsyncSeriesHook]).  No method of [Hook] assigns to them. *)
Definition delegates_kept (h : Hook) : Prop :=
  (h__call h = Some CALL_DELEGATE ∨ h__call h = None)
  ∧ h__callAsync h = Some CALL_ASYNC_DELEGATE
  ∧ h__promise h = Some PROMISE_DELEGATE.

(** The convention can be invoked on the hook: its delegate is there. *)
Definition invocable (type : TapType) (h : Hook) : Prop :=
  match type with
  | sync => h__call h = Some CALL_DELEGATE
  | async => h__callAsync h = Some CALL_ASYNC_DELEGATE
  | promise => h__promise h = Some PROMISE_DELEGATE
  end.

(** No convention has a compiled dispatcher cached. *)
Definition nothing_cached (h : Hook) : Prop :=
  ∀ type f, get_call type h ≠ Some (Compiled f).

(** An [AsyncSeriesHook] with one tap on which [callAsync] has been
    invoked once, so that it holds a compiled dispatcher. *)
Definition example_tap : Tap := mkTap "a" async 0 BeforeUndefined StageUndefined false.

Definition example_hook : Hook :=
  match invoke async (set_taps (AsyncSeriesHook ["x"] None) [Some example_tap]) with
  | Normal (h, _) => h
  | Throw _ => AsyncSeriesHook ["x"] None
  end.

(** ** Shape of the emitted code *)

(** The named continuation units of a piece of code: the indices [i] of
    the declarations [function _next${i}() {...}] anywhere in it. *)
Fixpoint expr_units (e : expr) : list nat :=
  match e with
  | EIndex e _ | EMember e _ | ENot e | ENewError e | ENewPromise e => expr_units e
  | EOr a b | EStrictNe a b | EStrictEq a b | ELe a b | EGt a b | EAdd a b =>
      expr_units a ++ expr_units b
  | EFunction _ body => concat (map stmt_units body)
  | ECall f actuals => expr_units f ++ concat (map expr_units actuals)
  | _ => []
  end
with stmt_units (s : stmt) : list nat :=
  match s with
  | SVar _ (Some e) | SAssign _ e | SExpr e | SThrow e | SReturn (Some e) => expr_units e
  | SVar _ None | SReturn None | SBreak => []
  | SIf c thn els =>
      expr_units c ++ concat (map stmt_units thn) ++ concat (map stmt_units els)
  | STry body _ handler => concat (map stmt_units body) ++ concat (map stmt_units handler)
  | SDoWhile body c => concat (map stmt_units body) ++ expr_units c
  | SFunction f _ body =>
      match f with id_next i => [i] | _ => [] end ++ concat (map stmt_units body)
  end.

Definition units (c : code) : list nat := concat (map stmt_units c).

(** The nesting depth of a piece of code: the number of blocks and
    function bodies around its innermost statement. *)
Fixpoint expr_depth (e : expr) : nat :=
  match e with
  | EIndex e _ | EMember e _ | ENot e | ENewError e | ENewPromise e => expr_depth e
  | EOr a b | EStrictNe a b | EStrictEq a b | ELe a b | EGt a b | EAdd a b =>
      expr_depth a `max` expr_depth b
  | EFunction _ body => S (foldr (λ s d, stmt_depth s `max` d) 0 body)
  | ECall f actuals => expr_depth f `max` foldr (λ a d, expr_depth a `max` d) 0 actuals
  | _ => 0
  end%nat
with stmt_depth (s : stmt) : nat :=
  match s with
  | SVar _ (Some e) | SAssign _ e | SExpr e | SThrow e | SReturn (Some e) => expr_depth e
  | SVar _ None | SReturn None | SBreak => 0
  | SIf c thn els =>
      expr_depth c
      `max` S (foldr (λ s d, stmt_depth s `max` d) 0 thn
               `max` foldr (λ s d, stmt_depth s `max` d) 0 els)
  | STry body _ handler =>
      S (foldr (λ s d, stmt_depth s `max` d) 0 body
         `max` foldr (λ s d, stmt_depth s `max` d) 0 handler)
  | SDoWhile body c => S (foldr (λ s d, stmt_depth s `max` d) 0 body) `max` expr_depth c
  | SFunction _ _ body => S (foldr (λ s d, stmt_depth s `max` d) 0 body)
  end%nat.

Definition depth (c : code) : nat := foldr (λ s d, stmt_depth s `max` d)%nat 0%nat c.

(** A direct tap, in the words of the specification: one of type [sync]. *)
Definition direct (t : Tap) : bool := bool_decide (tap_type t = sync).

(** Modelled from the spec: the unrolling rule as the specification words
    it.  Going from the last tap to the first, a named continuation unit is
    made at a tap when the current continuation is not the terminal one and
    the tap is non-direct, or when 20 consecutive non-direct taps have been
    chained; [spec_units] lists the indices of the units that this rule
    makes for the taps from index [i] on. *)
Fixpoint spec_units_from (i : nat) (taps : list Tap) : list nat * nat * bool :=
  match taps with
  | [] => ([], 0%nat, true)
  | t :: rest =>
      let '(made, non_direct_run, terminal) := spec_units_from (S i) rest in
      let unit := (negb terminal && negb (direct t))
                  || bool_decide (20 ≤ non_direct_run)%nat in
      (if unit then i :: made else made,
       if unit then 0%nat else if direct t then 0%nat else S non_direct_run,
       false)
  end.

Definition spec_units (taps : list Tap) : list nat := (spec_units_from 0 taps).1.1.

(** Where the code for [taps] has named continuation units [us]: at every
    non-direct tap but the last; never at the last tap; at a direct tap only
    when the 21 taps after it are direct taps without a unit; and so that of
    any 22 successive taps one has a unit or is the last. *)
Definition unrolling_rule (taps : list Tap) (us : list nat) : Prop :=
  (∀ i t, taps !! i = Some t → direct t = false → (S i < length taps)%nat → i ∈ us)
  ∧ (∀ i, i ∈ us → (S i < length taps)%nat)
  ∧ (∀ i t, i ∈ us → taps !! i = Some t → direct t = true →
       ∀ k, (1 ≤ k ≤ 21)%nat →
         ((i + k)%nat ∉ us)
         ∧ ∃ t', taps !! (i + k)%nat = Some t' ∧ direct t' = true)
  ∧ (∀ i, (S i < length taps)%nat →
       ∃ u, (i ≤ u ≤ i + 21)%nat ∧ (u ∈ us ∨ u = (length taps - 1)%nat)).

(** A hook with 23 direct taps and no interceptors, called through
    [callAsync]. *)
Definition direct_taps_23 : list Tap :=
  map (λ i, mkTap "t" sync i BeforeUndefined StageUndefined false) (seq 0 23).

Definition options_23 : FactoryOptions := mkOptions async direct_taps_23 [] [].

(** ** What a dispatcher of an [AsyncSeriesHook] does, told directly

    The following functions describe the behaviour of the dispatcher that
    [create] emits for [callAsync] without reference to the emitted code:
    they walk the list of taps.  That the emitted code behaves so is proved
    below ([series_refinement]). *)

(** What the reference keeps for a function that the dispatcher handed
    out: the tap it belongs to and, for the two handlers of a [then], the
    number of the [_hasResult] flag they share. *)
Inductive handler : Type :=
| HCallback (i : nat)
| HFulfilled (i a : nat)
| HRejected (i a : nat).

Record RefState : Type := mkRef {
  r_registry : list (target * handler);
  r_flags : list bool;
  r_clock : nat;
  r_trace : list event;
  r_counter : Z                           (* [_counter], of the concurrent taps only *)
}.

Definition r_log (evs : list event) (r : RefState) : RefState :=
  mkRef (r_registry r) (r_flags r) (r_clock r) (r_trace r ++ evs) (r_counter r).

Definition r_tick (r : RefState) : RefState :=
  mkRef (r_registry r) (r_flags r) (S (r_clock r)) (r_trace r) (r_counter r).

Definition r_enroll (t : target) (h : handler) (r : RefState) : RefState :=
  mkRef ((t, h) :: r_registry r) (r_flags r) (r_clock r) (r_trace r) (r_counter r).

Definition r_new_flag (r : RefState) : RefState :=
  mkRef (r_registry r) (r_flags r ++ [false]) (r_clock r) (r_trace r) (r_counter r).

Definition r_set_flag (a : nat) (r : RefState) : RefState :=
  mkRef (r_registry r) (<[a := true]> (r_flags r)) (r_clock r) (r_trace r) (r_counter r).

Definition r_set_counter (c : Z) (r : RefState) : RefState :=
  mkRef (r_registry r) (r_flags r) (r_clock r) (r_trace r) c.

Fixpoint r_registered (reg : list (target * handler)) (t : target) : option handler :=
  match reg with
  | [] => None
  | (t', h) :: reg' => if decide (t' = t) then Some h else r_registered reg' t
  end.

(** The values that a promise tap may return: anything that comes from
    outside the dispatcher. *)
Definition external (v : value) : bool :=
  match v with
  | VUndefined | VNull | VBool _ | VNum _ | VNaN | VStr _ | VOpaque _ _
  | VError _ _ | VObject | VThenable _ => true
  | _ => false
  end.

Definition usage_error (v : value) : value :=
  VError "Error"
    ("Tap function (tapPromise) did not return promise (returned "
     +:+ to_string v +:+ ")").

Section Reference.

Variable options : FactoryOptions.
Variable w : World.

(** The values of the declared parameters in a call with actuals [vals]. *)
Variable vals : list value.

Definition context_value : value :=
  if needContext options then VObject else VUndefined.

Definition arg_values : list value :=
  map (λ a, default VUndefined
              (bind_params (params options (Some id_callback)) (vals ++ [VCallback])
                 !! id_arg a))
      (opt_args options).

Definition with_context (b : bool) (actuals : list value) : list value :=
  if b then context_value :: actuals else actuals.

(** The events of the calls of one handler of all interceptors. *)
Definition interceptor_events (has : Interceptor → bool) (m : string)
    (actuals : Interceptor → list value) : list event :=
  concat (imap (λ k ic, if has ic then [EvInterceptor k m (actuals ic)] else [])
               (opt_interceptors options)).

(** The error channel: the [error] handlers, then the callback. *)
Definition ref_onError (e : value) (r : RefState) : RefState :=
  r_log (interceptor_events int_error "error" (λ _, [e]) ++ [EvCallback [e]]) r.

(** Completion: the [done] handlers, then the callback without
    arguments. *)
Definition ref_onDone (r : RefState) : RefState :=
  r_log (interceptor_events int_done "done" (λ _, []) ++ [EvCallback []]) r.

(** A call of a function that was handed out, [fail] being the error
    channel and [next] what follows the tap it belongs to.  The result is
    the exception that leaves the function, if any. *)
Definition ref_handle (fail : value → RefState → RefState)
    (next : RefState → option value * RefState)
    (h : handler) (actuals : list value) (r : RefState) : option value * RefState :=
  match h with
  | HCallback i =>
      let err := hd VUndefined actuals in
      if truthy err then (None, fail err r) else next r
  | HFulfilled i a => next (r_set_flag a r)
  | HRejected i a =>
      let err := hd VUndefined actuals in
      if default false (r_flags r !! a) then (Some err, r)
      else (None, fail err r)
  end.

Definition ending_exception (e : ending) : option value :=
  match e with
  | Returns _ => None
  | Throws v => Some v
  end.

(** The calls of its callback that an async tap makes before it ends
    with [e]; an exception of the callback ends the tap. *)
Fixpoint ref_calls (fail : value → RefState → RefState)
    (next : RefState → option value * RefState) (i : nat)
    (e : ending) (l : list (list value)) (r : RefState) : option value * RefState :=
  match l with
  | [] => (ending_exception e, r)
  | actuals :: l' =>
      match ref_handle fail next (HCallback i) actuals
              (r_log [EvFire (TapCallback i) actuals] r) with
      | (None, r) => ref_calls fail next i e l' r
      | (Some v, r) => (Some v, r)
      end
  end.

(** The calls of the two handlers that the [then] of thenable [p] makes
    before it ends with [e]. *)
Fixpoint ref_settles (fail : value → RefState → RefState)
    (next : RefState → option value * RefState) (i a p : nat)
    (e : ending) (l : list (bool * list value)) (r : RefState)
    : option value * RefState :=
  match l with
  | [] => (ending_exception e, r)
  | (fulfilled, actuals) :: l' =>
      match ref_handle fail next (if fulfilled then HFulfilled i a else HRejected i a)
              actuals
              (r_log [EvFire (if fulfilled then OnFulfilled p else OnRejected p)
                        actuals] r) with
      | (None, r) => ref_settles fail next i a p e l' r
      | (Some v, r) => (Some v, r)
      end
  end.

(** The unit of tap [i]: the [tap] handlers of the interceptors, the call
    of the tap and what the tap makes of it. *)
Definition ref_unit (fail : value → RefState → RefState)
    (next : RefState → option value * RefState) (tap : Tap) (i : nat) (r : RefState)
    : option value * RefState :=
  let r := r_log (interceptor_events int_tap "tap"
                    (λ ic, with_context (int_context ic) [VTapDescriptor i])) r in
  let b := tap_behaviour w (r_clock r) i in
  let r := r_tick (r_log [EvTap i (with_context (tap_context tap) arg_values)] r) in
  match tap_type tap with
  | sync =>
      match tb_ending b with
      | Returns _ => next r
      | Throws e => (None, fail e r)
      end
  | async =>
      ref_calls fail next i (tb_ending b) (tb_callbacks b)
        (r_enroll (TapCallback i) (HCallback i) r)
  | promise =>
      match tb_ending b with
      | Throws e => (Some e, r)
      | Returns (VThenable p) =>
          let a := length (r_flags r) in
          let bt := then_behaviour w (r_clock r) p in
          let r := r_tick (r_log [EvThen p] (r_new_flag r)) in
          let r := r_enroll (OnRejected p) (HRejected i a)
                     (r_enroll (OnFulfilled p) (HFulfilled i a) r) in
          ref_settles fail next i a p (thb_ending bt) (thb_settles bt) r
      | Returns v => (Some (usage_error v), r)
      end
  end.

(** The taps [rest], of which the first has index [i], one after the
    other. *)
Fixpoint ref_series (rest : list Tap) (i : nat) (r : RefState)
    : option value * RefState :=
  match rest with
  | [] => (None, ref_onDone r)
  | tap :: rest' => ref_unit ref_onError (ref_series rest' (S i)) tap i r
  end.

Definition handler_tap (h : handler) : nat :=
  match h with
  | HCallback i | HFulfilled i _ | HRejected i _ => i
  end.

(** The event loop. *)
Fixpoint ref_drive (script : list (target * list value)) (r : RefState) : RefState :=
  match script with
  | [] => r
  | (t, actuals) :: script' =>
      match r_registered (r_registry r) t with
      | None => ref_drive script' r
      | Some h =>
          match ref_handle ref_onError
                  (ref_series (drop (S (handler_tap h)) (opt_taps options))
                              (S (handler_tap h)))
                  h actuals (r_log [EvFire t actuals] r) with
          | (None, r) => ref_drive script' r
          | (Some v, r) => ref_drive script' (r_log [EvUncaught v] r)
          end
      end
  end.

Definition ref_run (script : list (target * list value)) : RefState :=
  let r := mkRef [] [] 0 [] 0 in
  let r := r_log (interceptor_events int_call "call"
                    (λ ic, with_context (int_context ic) arg_values)) r in
  match ref_series (opt_taps options) 0 r with
  | (None, r) => ref_drive script (r_log [EvReturn VUndefined] r)
  | (Some v, r) => ref_drive script (r_log [EvThrow v] r)
  end.

Definition ref_dispatch (script : list (target * list value)) : list event :=
  r_trace (ref_run script).

End Reference.

(** ** Evaluation with enough fuel *)

(** [f] yields [x] for every bound from some bound on. *)
Definition converges {A} (f : nat → option A) (x : A) : Prop :=
  ∃ n0, ∀ n, (n0 ≤ n)%nat → f n = Some x.

Definition outcome_of (o : option value) : outcome :=
  match o with
  | None => ONormal
  | Some v => OThrow v
  end.

Definition result_of (o : option value) : result :=
  match o with
  | None => Val VUndefined
  | Some v => Exc v
  end.

Definition ending_result (e : ending) : result :=
  match e with
  | Returns v => Val v
  | Throws v => Exc v
  end.

Definition log_all (evs : list event) (st : state) : state :=
  mkState (frames st) (registry st) (clock st) (trace st ++ evs).

(** ** The scopes of a running dispatcher *)

(** The identifiers that are bound once, in the activation of the
    dispatcher itself, and never again. *)
Definition stable (x : ident) : bool :=
  match x with
  | id_arg _ | id_context | id_x | id_taps | id_interceptors | id_callback
  | id_next _ | id_counter | id_done | id_looper => true
  | _ => false
  end.

(** Those of them that every dispatcher has. *)
Definition top_ident (x : ident) : bool :=
  match x with
  | id_arg _ | id_context | id_x | id_taps | id_interceptors | id_callback
  | id_looper => true
  | _ => false
  end.

(** Frame 0 is the global scope, frame 1 the activation of the
    dispatcher, every later frame the activation of a function of the
    dispatcher: parents are earlier frames, and a later frame is not a child
    of the global scope and binds no stable identifier. *)
Definition wf_frames_for (P : ident → bool) (fs : list frame) : Prop :=
  (2 ≤ length fs)%nat
  ∧ (∀ s f p, fs !! s = Some f → f_parent f = Some p → (p < s)%nat)
  ∧ (∀ s f, fs !! s = Some f → (1 < s)%nat →
       (∃ p, f_parent f = Some p ∧ (1 ≤ p)%nat)
       ∧ ∀ x, P x = true → f_vars f !! x = None).

Definition wf_frames : list frame → Prop := wf_frames_for stable.

(** What frame [s] binds [x] to. *)
Definition bound_in (fs : list frame) (s : nat) (x : ident) : option value :=
  f ← fs !! s; f_vars f !! x.
(** ** The emitted series code, piece by piece *)

(** The handlers with which [AsyncSeriesHookCodeFactory.content] calls
    [callTapsSeries]. *)
Definition series_options (co : ContentOptions) : SeriesOptions :=
  mkSeries (fun i err next doneBreak => co_onError co err ++ doneBreak true)
           None false (co_onDone co) false false.

Section Pieces.

Variable options : FactoryOptions.
Variable co : ContentOptions.
Variable vals : list value.

Definition tap_count : nat := length (opt_taps options).

(** The state of the loop of [callTapsSeries] when the taps from index [i]
    on have been handled. *)
Definition loop_at (i : nat) : SeriesLoop :=
  series_loop options (series_options co)
              (findIndex_not_sync (opt_taps options) 0) i (tap_count - i).

(** The code that runs the taps from index [i] on. *)
Definition K (i : nat) : code := sl_current (loop_at i) ().

(** Whether the iteration for tap [i] makes a named unit of what
    follows. *)
Definition unrolls (i : nat) : bool :=
  negb (sl_current_is_onDone (loop_at (S i)))
  && (negb (match opt_taps options !! i with
            | Some tap => bool_decide (tap_type tap = sync)
            | None => false
            end)
      || bool_decide (20 < sl_unrollCounter (loop_at (S i)))%nat).

(** What tap [i] is given as its continuation. *)
Definition done_code (i : nat) : code :=
  if unrolls i then [SExpr (ECall (EVar (id_next i)) [])] else K (S i).

(** The error code of a tap of the series. *)
Definition series_error (i : nat) (e : expr) : code := co_onError co e ++ [].

(** What the activation of the dispatcher binds once the named units of
    the taps from [j] on are declared. *)
Definition top_ok_from (j : nat) (fs : list frame) : Prop :=
  bound_in fs 1 id_callback = Some VCallback
  ∧ bound_in fs 1 id_x = Some VHookX
  ∧ bound_in fs 1 id_context = Some (context_value options)
  ∧ (opt_interceptors options ≠ [] →
       bound_in fs 1 id_taps = Some VHookTaps
       ∧ bound_in fs 1 id_interceptors = Some VHookInterceptors)
  ∧ Forall2 (λ a v, bound_in fs 1 (id_arg a) = Some v)
            (opt_args options) (arg_values options vals)
  ∧ (∀ i, (j ≤ i)%nat → (i < tap_count)%nat → unrolls i = true →
       bound_in fs 1 (id_next i) = Some (VClosure [] (K (S i)) 1)).

Definition top_ok (fs : list frame) : Prop := top_ok_from 0 fs.

(** The state in which the body of the dispatcher runs before it calls
    the first tap: the global scope and the activation of the dispatcher,
    which binds [vars]. *)
Definition top_state (vars : gmap ident value) (tr : list event) : state :=
  mkState [mkFrame {[ id_Promise := VPromiseCtor ]} None; mkFrame vars (Some 0%nat)]
          [] 0 tr.

End Pieces.

(** ** The emitted code and the reference, side by side

    A tap unit is made by [callTap] from the error code [E i] and the code
    [D i] that follows the tap; the series and the concurrent taps differ in
    these two. *)
Section Relation.

Variable options : FactoryOptions.
Variable co : ContentOptions.
Variable vals : list value.
Variable E : nat → expr → code.
Variable D : nat → code.

(** The functions that the unit of tap [i] hands out. *)
Definition callback_closure (i s : nat) : value :=
  VClosure [id_errN i]
    [SIf (EVar (id_errN i)) (E i (EVar (id_errN i))) (D i)] s.

Definition fulfilled_closure (i s : nat) : value :=
  VClosure [id_result i] (SAssign (id_hasResult i) (EBool true) :: D i) s.

Definition rejected_closure (i s : nat) : value :=
  VClosure [id_errN i]
    (SIf (EVar (id_hasResult i)) [SThrow (EVar (id_errN i))] []
     :: E i (EVar (id_errN i))) s.

(** A handler of the reference and the function that the code handed
    out for it; [locs] tells for every [_hasResult] flag of the reference
    the frame and the tap of the variable that holds it. *)
Definition handler_closure (locs : list (nat * nat)) (h : handler) (c : value) : Prop :=
  match h with
  | HCallback i => ∃ s, c = callback_closure i s
  | HFulfilled i a => ∃ s, c = fulfilled_closure i s ∧ locs !! a = Some (s, i)
  | HRejected i a => ∃ s, c = rejected_closure i s ∧ locs !! a = Some (s, i)
  end.

Definition closure_scope (c : value) : nat :=
  match c with
  | VClosure _ _ s => s
  | _ => 0%nat
  end.

(** The units from [j] on are declared. *)
Variable j : nat.

(** What else the two states have to agree on. *)
Variable extra : state → RefState → Prop.

(** The state of the evaluator and the state of the reference that
    correspond. *)
Record Rel (st : state) (r : RefState) (locs : list (nat * nat)) : Prop := mkRel {
  rel_trace : trace st = r_trace r;
  rel_clock : clock st = r_clock r;
  rel_wf : wf_frames (frames st);
  rel_top : top_ok_from options co vals j (frames st);
  rel_registry :
    Forall2 (λ tc th, tc.1 = th.1
                      ∧ handler_closure locs th.2 tc.2
                      ∧ (1 ≤ closure_scope tc.2 < length (frames st))%nat
                      ∧ (handler_tap th.2 < tap_count options)%nat)
            (registry st) (r_registry r);
  rel_locs_length : length locs = length (r_flags r);
  rel_locs_nodup : NoDup locs;
  rel_flags :
    ∀ a s i, locs !! a = Some (s, i) →
      ∃ b, r_flags r !! a = Some b
           ∧ bound_in (frames st) s (id_hasResult i) = Some (VBool b);
  rel_extra : extra st r
}.

(** [st'] and [r'] correspond and come after a state that had the flags
    [locs]. *)
Definition follows (st : state) (locs : list (nat * nat))
    (st' : state) (r' : RefState) : Prop :=
  ∃ locs', Rel st' r' locs' ∧ locs `prefix_of` locs'
           ∧ (length (frames st) ≤ length (frames st'))%nat.

(** The evaluation [f], started in [st], ends as the reference says:
    with the exception [res.1], if any, and in a state that corresponds to
    [res.2]. *)
Definition simulates {A} (f : nat → option (A * state)) (wrap : option value → A)
    (st : state) (locs : list (nat * nat)) (res : option value * RefState) : Prop :=
  ∃ st', converges f (wrap res.1, st') ∧ follows st locs st' res.2.

End Relation.

(** [extra] tells only of the counter and of what the activation of the
    dispatcher binds to the stable identifiers and to those that are not
    [touch]ed. *)
Definition keeps (touch : ident → Prop) (extra : state → RefState → Prop) : Prop :=
  ∀ st r st' r',
    r_counter r' = r_counter r →
    (∀ x, stable x = true ∨ ¬ touch x →
       bound_in (frames st') 1 x = bound_in (frames st) 1 x) →
    extra st r → extra st' r'.

(** ** The series *)

Section SeriesRelation.

Variable options : FactoryOptions.
Variable co : ContentOptions.
Variable w : World.
Variable vals : list value.

(** Scope [s] holds no flag of a tap from [i] on. *)
Definition fresh (locs : list (nat * nat)) (s i : nat) : Prop :=
  ∀ j, (i ≤ j)%nat → (s, j) ∉ locs.

Definition series_Rel : state → RefState → list (nat * nat) → Prop :=
  Rel options co vals (series_error co) (done_code options co) 0 (λ _ _, True).

(** The code for the taps from [i] on, run in a scope of the dispatcher,
    does what the reference does with these taps. *)
Definition K_sem (i : nat) : Prop :=
  ∀ s st r locs,
    series_Rel st r locs → (1 ≤ s < length (frames st))%nat → fresh locs s i →
    simulates options co vals (series_error co) (done_code options co) 0 (λ _ _, True)
              (λ n, exec_block w n s (K options co i) st) outcome_of st locs
              (ref_series options w vals (drop i (opt_taps options)) i r).

End SeriesRelation.

(** ** What a tap does

    How each tap of a series behaves: a sync tap returns or throws; an
    async tap calls its callback once, during its call or later, or never,
    or it throws during its call without having called back; a promise tap
    returns a thenable that settles once, during the call of its [then] or
    later, or never, or it returns something that is no thenable, or it
    throws during its call.  [Fails] is the failure in the way of the kind:
    a sync tap throws, an async tap hands an error to its callback, the
    thenable of a promise tap is rejected.  [Raises] is an exception out of
    the call of an async or a promise tap. *)
Inductive plan : Type :=
| Completes (later : bool)
| Fails (later : bool) (e : value)
| Never
| Returns_plain (v : value)
| Raises (e : value).

Definition is_thenable (v : value) : bool :=
  match v with
  | VThenable _ => true
  | _ => false
  end.

(** Which plans a tap of each type can follow.  An async tap fails with
    a truthy error; what a promise tap returns comes from outside. *)
Definition fits (tap : Tap) (pl : plan) : Prop :=
  match tap_type tap, pl with
  | sync, Completes false | sync, Fails false _ => True
  | sync, _ => False
  | async, Completes _ | async, Never | async, Raises _ => True
  | async, Fails _ e => truthy e = true
  | async, Returns_plain _ => False
  | promise, Returns_plain v => external v = true ∧ is_thenable v = false
  | promise, _ => True
  end.

(** The world in which tap [i] follows the [i]-th plan; the thenable of
    promise tap [i] is thenable [i]. *)
Definition world_of (taps : list Tap) (plans : list plan) : World :=
  mkWorld
    (λ _ i,
       match taps !! i, plans !! i with
       | Some tap, Some pl =>
           match tap_type tap with
           | sync =>
               mkTapBehaviour [] (match pl with
                                  | Fails _ e => Throws e
                                  | _ => Returns VUndefined
                                  end)
           | async =>
               mkTapBehaviour (match pl with
                               | Completes false => [[]]
                               | Fails false e => [[e]]
                               | _ => []
                               end)
                              (match pl with
                               | Raises e => Throws e
                               | _ => Returns VUndefined
                               end)
           | promise =>
               mkTapBehaviour [] (match pl with
                                  | Returns_plain v => Returns v
                                  | Raises e => Throws e
                                  | _ => Returns (VThenable i)
                                  end)
           end
       | _, _ => mkTapBehaviour [] (Returns VUndefined)
       end)
    (λ _ p,
       mkThenBehaviour (match plans !! p with
                        | Some (Completes false) => [(true, [VUndefined])]
                        | Some (Fails false e) => [(false, [e])]
                        | _ => []
                        end) (Returns VUndefined)).

(** The later call by which tap [i] signals, if its plan has one. *)
Definition signal (taps : list Tap) (i : nat) (pl : plan) : list (target * list value) :=
  let deferred := match taps !! i with
                  | Some tap => bool_decide (tap_type tap = promise)
                  | None => false
                  end in
  match pl with
  | Completes true =>
      [if deferred then (OnFulfilled i, [VUndefined]) else (TapCallback i, [])]
  | Fails true e =>
      [(if deferred then OnRejected i else TapCallback i, [e])]
  | _ => []
  end.

Fixpoint script_from (taps : list Tap) (i : nat) (plans : list plan)
    : list (target * list value) :=
  match plans with
  | [] => []
  | pl :: plans' => signal taps i pl ++ script_from taps (S i) plans'
  end.

Definition script_of (taps : list Tap) (plans : list plan) : list (target * list value) :=
  script_from taps 0 plans.

(** *** What is observed of a dispatch *)

Inductive obs : Type :=
| SawTap (i : nat)
| SawCallback (actuals : list value)
| SawReturn
| SawThrow (v : value)
| SawUncaught (v : value).

Definition obs_of (ev : event) : option obs :=
  match ev with
  | EvTap i _ => Some (SawTap i)
  | EvCallback actuals => Some (SawCallback actuals)
  | EvReturn _ => Some SawReturn
  | EvThrow v => Some (SawThrow v)
  | EvUncaught v => Some (SawUncaught v)
  | _ => None
  end.

Definition observe (tr : list event) : list obs := omap obs_of tr.

(** The taps that were invoked, in the order of their invocation. *)
Definition tap_calls (tr : list event) : list nat :=
  omap (λ ev, match ev with EvTap i _ => Some i | _ => None end) tr.

(** The calls of the completion callback. *)
Definition callback_calls (tr : list event) : list (list value) :=
  omap (λ ev, match ev with EvCallback actuals => Some actuals | _ => None end) tr.

(** How the calls into the dispatcher ended: the dispatch itself returned
    or threw, a later call of a handed-out function threw. *)
Definition calls_ended (tr : list event) : list obs :=
  omap (λ ev, match ev with
              | EvReturn _ => Some SawReturn
              | EvThrow v => Some (SawThrow v)
              | EvUncaught v => Some (SawUncaught v)
              | _ => None
              end) tr.

(** The same three, read off the observations. *)
Definition taps_seen (os : list obs) : list nat :=
  omap (λ o, match o with SawTap i => Some i | _ => None end) os.

Definition callbacks_seen (os : list obs) : list (list value) :=
  omap (λ o, match o with SawCallback actuals => Some actuals | _ => None end) os.

Definition ends_seen (os : list obs) : list obs :=
  omap (λ o, match o with
             | SawReturn | SawThrow _ | SawUncaught _ => Some o
             | _ => None
             end) os.

(** The exception that leaves the code of a tap: the usage error for a
    promise tap that returns no thenable, and what an async or a promise
    tap throws during its call. *)
Definition thrown (pl : plan) : option value :=
  match pl with
  | Returns_plain v => Some (usage_error v)
  | Raises e => Some e
  | _ => None
  end.

(** The number of taps that are invoked: all of them when every tap
    completes, and otherwise those up to the first that does not. *)
Fixpoint reached (plans : list plan) : nat :=
  match plans with
  | [] => 0
  | Completes _ :: plans' => S (reached plans')
  | _ :: _ => 1
  end.

(** A plan that completes during the call of the tap. *)
Definition completes_now (pl : plan) : bool :=
  match pl with
  | Completes false => true
  | _ => false
  end.

(** What is observed when the taps from index [i] on follow [plans];
    [returned] tells whether the dispatch has returned to its caller. *)
Fixpoint expect (plans : list plan) (i : nat) (returned : bool) : list obs :=
  let ret := if returned then [] else [SawReturn] in
  match plans with
  | [] => SawCallback [] :: ret
  | pl :: plans' =>
      SawTap i ::
      match pl with
      | Completes false => expect plans' (S i) returned
      | Completes true => ret ++ expect plans' (S i) true
      | Fails false e => SawCallback [e] :: ret
      | Fails true e => ret ++ [SawCallback [e]]
      | Never => ret
      | Returns_plain v =>
          [if returned then SawUncaught (usage_error v) else SawThrow (usage_error v)]
      | Raises e => [if returned then SawUncaught e else SawThrow e]
      end
  end.

(** How the reference goes on when a run of the series has ended with
    [res]. *)
Definition conclude (returned : bool) (res : option value * RefState) : RefState :=
  match res with
  | (None, r) => if returned then r else r_log [EvReturn VUndefined] r
  | (Some v, r) => r_log [if returned then EvUncaught v else EvThrow v] r
  end.

(** Nothing is registered for the taps from [k] on. *)
Definition clean (k : nat) (r : RefState) : Prop :=
  ∀ j, (k ≤ j)%nat →
    r_registered (r_registry r) (TapCallback j) = None
    ∧ r_registered (r_registry r) (OnFulfilled j) = None
    ∧ r_registered (r_registry r) (OnRejected j) = None.

(** A hook with an async tap and a promise tap, of which the first
    completes later and the second returns the number 5. *)
Definition options_late : FactoryOptions :=
  mkOptions async
    [mkTap "a" async 0 BeforeUndefined StageUndefined false;
     mkTap "b" promise 1 BeforeUndefined StageUndefined false] [] [].

Definition plans_late : list plan := [Completes true; Returns_plain (VNum 5)].

(** A hook with two async taps, of which the first throws during its
    call. *)
Definition options_raising : FactoryOptions :=
  mkOptions async
    [mkTap "a" async 0 BeforeUndefined StageUndefined false;
     mkTap "b" async 1 BeforeUndefined StageUndefined false] [] [].

Definition plans_raising : list plan := [Raises (VStr "e"); Completes false].

(** ** The flags of the reference *)

(** The [_hasResult] flag that a handler of a [then] shares with its
    partner. *)
Definition handler_flag (h : handler) : option nat :=
  match h with
  | HCallback _ => None
  | HFulfilled _ a | HRejected _ a => Some a
  end.

(** Every registered handler of a [then] has its flag. *)
Definition reg_ok (r : RefState) : Prop :=
  Forall (λ th, ∀ a, handler_flag th.2 = Some a → (a < length (r_flags r))%nat)
         (r_registry r).

(** From [r] to [r'] the handlers keep their flags, no flag is taken
    away, and a flag that is set stays set. *)
Definition grows (r r' : RefState) : Prop :=
  (reg_ok r → reg_ok r')
  ∧ (length (r_flags r) ≤ length (r_flags r'))%nat
  ∧ ∀ a, r_flags r !! a = Some true → r_flags r' !! a = Some true.

(** A hook with one promise tap. *)
Definition options_deferred : FactoryOptions :=
  mkOptions async [mkTap "p" promise 0 BeforeUndefined StageUndefined false] [] [].

(** ** The concurrent taps *)

(** Modelled from the spec: the handlers with which the factory of the
    concurrent hook calls [callTapsParallel]; the file of that hook is not
    among the sources.  "Any tap error short-circuits: the counter is
    forced to zero" and the error path fires; "reaching zero triggers the
    shared [onDone]". *)
Definition parallel_options (co : ContentOptions) : ParallelOptions :=
  mkParallel (fun i err done doneBreak => co_onError co err ++ doneBreak true)
             None (Some (co_onDone co)) false default_onTap.

Definition AsyncParallelHookCodeFactory_content (options : FactoryOptions)
    (o : ContentOptions) : code :=
  callTapsParallel options (parallel_options o).

Section ParallelPieces.

Variable options : FactoryOptions.
Variable co : ContentOptions.
Variable vals : list value.

(** The error code and the completion code of a concurrent tap. *)
Definition par_error (i : nat) (e : expr) : code :=
  [SIf (EGt (EVar id_counter) (ENum 0))
       (co_onError co e ++ [SAssign id_counter (ENum 0)]) []].

Definition par_done (i : nat) : code :=
  [SIf (EStrictEq (EPreDec id_counter) (ENum 0))
       [SExpr (ECall (EVar id_done) [])] []].

(** The code for tap [i] in the body of the loop. *)
Definition par_unit (i : nat) : code :=
  SIf (ELe (EVar id_counter) (ENum 0)) [SBreak] []
  :: callTap options i
       (mkTapHandlers (par_error i) None (Some (λ _, par_done i)) false).

(** The body of the loop. *)
Definition par_body : code :=
  [SVar id_counter (Some (ENum (Z.of_nat (tap_count options))));
   SVar id_done (Some (EFunction [] (co_onDone co ())))]
  ++ concat (map par_unit (seq 0 (tap_count options))).

(** The units of the taps before [m] may have declared their flags in the
    activation of the dispatcher, those from [m] on have not. *)
Definition par_touch (m : nat) (x : ident) : Prop :=
  ∀ k, (m ≤ k)%nat → x ≠ id_hasResult k.

(** The activation of the dispatcher holds the counter of the reference
    and the function that completes the call. *)
Definition par_extra (m : nat) (st : state) (r : RefState) : Prop :=
  bound_in (frames st) 1 id_counter = Some (VNum (r_counter r))
  ∧ bound_in (frames st) 1 id_done = Some (VClosure [] (co_onDone co ()) 1)
  ∧ ∀ k, (m ≤ k)%nat → bound_in (frames st) 1 (id_hasResult k) = None.

Definition par_Rel (m : nat) : state → RefState → list (nat * nat) → Prop :=
  Rel options co vals par_error par_done (tap_count options) (par_extra m).

End ParallelPieces.

(** ** What a dispatcher of the concurrent hook does, told directly *)

Section ParallelReference.

Variable options : FactoryOptions.
Variable w : World.
Variable vals : list value.

(** A failure counts while the counter is positive: it goes to the error
    channel and the counter is set to zero. *)
Definition par_fail (e : value) (r : RefState) : RefState :=
  if bool_decide (0 < r_counter r)%Z
  then r_set_counter 0 (ref_onError options e r)
  else r.

(** A completion takes one off the counter, and completes the call when
    that makes it zero. *)
Definition par_complete (r : RefState) : option value * RefState :=
  let r := r_set_counter (r_counter r - 1) r in
  if bool_decide (r_counter r = 0)%Z then (None, ref_onDone options r) else (None, r).

(** The taps [rest], of which the first has index [i], are called one
    after the other while the counter is positive. *)
Fixpoint par_taps (rest : list Tap) (i : nat) (r : RefState)
    : option value * RefState :=
  match rest with
  | [] => (None, r)
  | tap :: rest' =>
      if bool_decide (r_counter r ≤ 0)%Z then (None, r)
      else
        match ref_unit options w vals par_fail par_complete tap i r with
        | (None, r) => par_taps rest' (S i) r
        | (Some v, r) => (Some v, r)
        end
  end.

(** The event loop. *)
Fixpoint par_drive (script : list (target * list value)) (r : RefState) : RefState :=
  match script with
  | [] => r
  | (t, actuals) :: script' =>
      match r_registered (r_registry r) t with
      | None => par_drive script' r
      | Some h =>
          match ref_handle par_fail par_complete h actuals
                  (r_log [EvFire t actuals] r) with
          | (None, r) => par_drive script' r
          | (Some v, r) => par_drive script' (r_log [EvUncaught v] r)
          end
      end
  end.

Definition par_start : RefState :=
  r_set_counter (Z.of_nat (length (opt_taps options)))
    (r_log (interceptor_events options int_call "call"
              (λ ic, with_context options (int_context ic) (arg_values options vals)))
       (mkRef [] [] 0 [] 0)).

Definition par_run (script : list (target * list value)) : RefState :=
  match par_taps (opt_taps options) 0 par_start with
  | (None, r) => par_drive script (r_log [EvReturn VUndefined] r)
  | (Some v, r) => par_drive script (r_log [EvThrow v] r)
  end.

Definition par_dispatch (script : list (target * list value)) : list event :=
  r_trace (par_run script).

End ParallelReference.

(** ** The join of the concurrent taps, in the words of the specification *)

(** What a tap lets the dispatcher know. *)
Inductive news : Type :=
| Completed
| Failed (e : value).

(** The news of a plan during the call of the tap, and after it. *)
Definition now_of (pl : plan) : option news :=
  match pl with
  | Completes false => Some Completed
  | Fails false e => Some (Failed e)
  | _ => None
  end.

Definition later_of (pl : plan) : option news :=
  match pl with
  | Completes true => Some Completed
  | Fails true e => Some (Failed e)
  | _ => None
  end.

(** The taps are invoked one after the other up to the first that fails
    during its call or lets an exception out of its code. *)
Fixpoint started (plans : list plan) : nat :=
  match plans with
  | [] => 0
  | Fails false _ :: _ | Returns_plain _ :: _ | Raises _ :: _ => 1
  | _ :: plans' => S (started plans')
  end.

Fixpoint nows (plans : list plan) : list news :=
  match plans with
  | [] => []
  | Fails false e :: _ => [Failed e]
  | Returns_plain _ :: _ | Raises _ :: _ => []
  | Completes false :: plans' => Completed :: nows plans'
  | _ :: plans' => nows plans'
  end.

(** The exception that ends the call of the dispatcher, if the code of
    one of the taps that are invoked lets one out. *)
Fixpoint aborted (plans : list plan) : option value :=
  match plans with
  | [] => None
  | Fails false _ :: _ => None
  | Returns_plain v :: _ => Some (usage_error v)
  | Raises e :: _ => Some e
  | _ :: plans' => aborted plans'
  end.

(** The news in the order in which the dispatcher gets them, when the
    taps that signal later do so in the order [order]. *)
Definition timeline (plans : list plan) (order : list nat) : list news :=
  nows plans
  ++ omap (λ i, if bool_decide (i < started plans)%nat
                then plans !! i ≫= later_of else None) order.

(** The later calls of the handed-out functions by which the taps signal
    in the order [order]. *)
Definition arrivals (taps : list Tap) (plans : list plan) (order : list nat)
    : list (target * list value) :=
  concat (map (λ i, match plans !! i with
                    | Some pl => signal taps i pl
                    | None => []
                    end) order).

Fixpoint completions (tl : list news) : nat :=
  match tl with
  | [] => 0
  | Completed :: tl' => S (completions tl')
  | Failed _ :: tl' => completions tl'
  end.

(** The first failure among the news: the number of completions before
    it, its error, and the news after it. *)
Fixpoint first_failure (tl : list news) : option (nat * value * list news) :=
  match tl with
  | [] => None
  | Failed e :: tl' => Some (0%nat, e, tl')
  | Completed :: tl' =>
      match first_failure tl' with
      | Some (k, e, rest) => Some (S k, e, rest)
      | None => None
      end
  end.

(** The counter and the calls of the completion callback. *)
Record join : Type := mkJoin {
  j_counter : Z;
  j_calls : list (list value)
}.

(** "Each tap's completion decrements it; reaching zero triggers the
    shared [onDone].  Any tap error short-circuits: the counter is forced
    to zero and the error path fires"; a failure does so only while the
    counter is positive. *)
Definition join_signal (j : join) (h : news) : join :=
  match h with
  | Completed =>
      let c := (j_counter j - 1)%Z in
      mkJoin c (if bool_decide (c = 0) then j_calls j ++ [[]] else j_calls j)
  | Failed e =>
      if bool_decide (0 < j_counter j)%Z then mkJoin 0 (j_calls j ++ [[e]]) else j
  end.

Definition join_of (r : RefState) : join :=
  mkJoin (r_counter r) (callback_calls (r_trace r)).

(** The number of the flag of tap [i]: every promise tap before it has
    one. *)
Definition flag_index (taps : list Tap) (i : nat) : nat :=
  length (filter (λ t, tap_type t = promise) (take i taps)).

(** What the unit of a tap registers, and the flag it makes; a promise
    tap that returns no thenable or throws gets no further than its
    call. *)
Definition unit_entries (tap : Tap) (pl : plan) (i a : nat) : list (target * handler) :=
  match tap_type tap with
  | sync => []
  | async => [(TapCallback i, HCallback i)]
  | promise =>
      match thrown pl with
      | None => [(OnRejected i, HRejected i a); (OnFulfilled i, HFulfilled i a)]
      | Some _ => []
      end
  end.

Definition unit_flags (tap : Tap) (pl : plan) : list bool :=
  match tap_type tap with
  | promise =>
      match thrown pl with
      | None => [completes_now pl]
      | Some _ => []
      end
  | _ => []
  end.

(** The functions of the taps before [k] are registered, those of the
    other taps are not, and the flag of a promise tap whose signal has not
    [arrived] is set only if it was fulfilled during the call of [then];
    a promise tap that returned no thenable or threw has registered
    nothing. *)
Definition enrolled_ok (taps : list Tap) (plans : list plan) (k : nat)
    (arrived : list nat) (r : RefState) : Prop :=
  clean k r
  ∧ ∀ i tap pl, (i < k)%nat → taps !! i = Some tap → plans !! i = Some pl →
      match tap_type tap with
      | sync => True
      | async => r_registered (r_registry r) (TapCallback i) = Some (HCallback i)
      | promise =>
          thrown pl = None →
          r_registered (r_registry r) (OnFulfilled i)
          = Some (HFulfilled i (flag_index taps i))
          ∧ r_registered (r_registry r) (OnRejected i)
            = Some (HRejected i (flag_index taps i))
          ∧ (i ∉ arrived → r_flags r !! flag_index taps i = Some (completes_now pl))
      end.

(** Three taps of the callback kind. *)
Definition options_three : FactoryOptions :=
  mkOptions async
    [mkTap "a" async 0 BeforeUndefined StageUndefined false;
     mkTap "b" async 1 BeforeUndefined StageUndefined false;
     mkTap "c" async 2 BeforeUndefined StageUndefined false] [] [].

(** ** The looping series *)

(** Modelled from the spec: the handlers with which the factory of the
    looping hook calls [callTapsLooping]; the file of that hook is not
    among the sources.  The looping series is "identical to Series, except
    each tap's result is inspected": an error of a tap goes to the error
    channel and ends the dispatch, completion is the shared [onDone]. *)
Definition looping_options (co : ContentOptions) : LoopingOptions :=
  mkLooping (fun i err next doneBreak => co_onError co err ++ doneBreak true)
            (co_onDone co) false.

Definition LoopHookCodeFactory_content (options : FactoryOptions)
    (o : ContentOptions) : code :=
  callTapsLooping options (looping_options o).

Section LoopPieces.

Variable options : FactoryOptions.
Variable co : ContentOptions.

Definition sync_only : bool :=
  forallb (fun t => bool_decide (tap_type t = sync)) (opt_taps options).

(** What the loop of [callTapsLooping] hands to [callTapsSeries]. *)
Definition loop_series_options : SeriesOptions :=
  mkSeries
    (fun i err next doneBreak => co_onError co err ++ doneBreak true)
    (Some (fun i result next doneBreak =>
       [SIf (EStrictNe result EUndefined)
            ([SAssign id_loop (EBool true)]
             ++ (if sync_only then []
                 else [SIf (EVar id_loopAsync)
                           [SExpr (ECall (EVar id_looper) [])] []])
             ++ doneBreak true)
            (next ())]))
    false
    (fun _ => [SIf (ENot (EVar id_loop)) (co_onDone co ()) []])
    false
    false.

(** The state of the loop of [callTapsSeries] when the taps from index [i]
    on have been handled, the code that runs these taps, and whether the
    iteration for tap [i] makes a named unit of what follows. *)
Definition lloop_at (i : nat) : SeriesLoop :=
  series_loop options loop_series_options
              (findIndex_not_sync (opt_taps options) 0) i (tap_count options - i).

Definition KL (i : nat) : code := sl_current (lloop_at i) ().

Definition lunrolls (i : nat) : bool :=
  negb (sl_current_is_onDone (lloop_at (S i)))
  && (negb (match opt_taps options !! i with
            | Some tap => bool_decide (tap_type tap = sync)
            | None => false
            end)
      || bool_decide (20 < sl_unrollCounter (lloop_at (S i)))%nat).

(** What follows tap [i] when its result is empty. *)
Definition ldone_code (i : nat) : code :=
  if lunrolls i then [SExpr (ECall (EVar (id_next i)) [])] else KL (S i).

(** The inspection of the result of tap [i]. *)
Definition loop_result (i : nat) (result : expr) : code :=
  [SIf (EStrictNe result EUndefined)
       ([SAssign id_loop (EBool true)]
        ++ (if sync_only then []
            else [SIf (EVar id_loopAsync) [SExpr (ECall (EVar id_looper) [])] []])
        ++ [])
       (ldone_code i)].

Definition loop_error (i : nat) (e : expr) : code := co_onError co e ++ [].

(** The body of the loop, the loop, and the function [_looper]. *)
Definition loop_body : code :=
  [SAssign id_loop (EBool false)]
  ++ for_interceptors options int_loop (fun i interceptor =>
       [SExpr (ECall (EMember (getInterceptor i) "loop")
                     (args options (context_arg (int_context interceptor)) None))])
  ++ sl_code (lloop_at 0) ++ KL 0.

Definition loop_stmts : code :=
  [SVar id_loop None; SDoWhile loop_body (EVar id_loop)].

Definition looper_body : code :=
  [SVar id_loopAsync (Some (EBool false))]
  ++ loop_stmts
  ++ [SAssign id_loopAsync (EBool true)].

(** The functions that the unit of tap [i] hands out. *)
Definition lcallback_closure (i s : nat) : value :=
  VClosure [id_errN i; id_result i]
    [SIf (EVar (id_errN i)) (loop_error i (EVar (id_errN i)))
         (loop_result i (EVar (id_result i)))] s.

Definition lfulfilled_closure (i s : nat) : value :=
  VClosure [id_result i]
    (SAssign (id_hasResult i) (EBool true) :: loop_result i (EVar (id_result i))) s.

(** The unit of tap [i] in the loop: the part that every unit starts
    with, and the part that depends on the type of the tap. *)
Definition ltap_preamble (i : nat) : code :=
  match filter int_tap (opt_interceptors options) with
  | [] => []
  | _ :: _ =>
      SVar (id_tap i) (Some (getTap i))
      :: for_interceptors options int_tap (fun k interceptor =>
           [SExpr (ECall (EMember (getInterceptor k) "tap")
                     ((if int_context interceptor then [EVar id_context] else [])
                      ++ [EVar (id_tap i)]))])
  end ++ [SVar (id_fn i) (Some (getTapFn i))].

Definition ltap_unit (i : nat) (tap : Tap) : code :=
  match tap_type tap with
  | sync =>
      [SVar (id_hasError i) (Some (EBool false));
       STry [SVar (id_result i)
               (Some (ECall (EVar (id_fn i))
                        (args options (context_arg (tap_context tap)) None)))]
            id_err
            (SAssign (id_hasError i) (EBool true) :: loop_error i (EVar id_err));
       SIf (ENot (EVar (id_hasError i))) (loop_result i (EVar (id_result i))) []]
  | async =>
      [SExpr (ECall (EVar (id_fn i))
                (args options (context_arg (tap_context tap))
                   (Some (EFunction [id_errN i; id_result i]
                            [SIf (EVar (id_errN i))
                                 (loop_error i (EVar (id_errN i)))
                                 (loop_result i (EVar (id_result i)))]))))]
  | promise =>
      [SVar (id_hasResult i) (Some (EBool false));
       SVar (id_promise i)
            (Some (ECall (EVar (id_fn i))
                     (args options (context_arg (tap_context tap)) None)));
       SIf (EOr (ENot (EVar (id_promise i)))
                (ENot (EMember (EVar (id_promise i)) "then")))
           [SThrow (ENewError
              (EAdd (EAdd (EStr "Tap function (tapPromise) did not return promise (returned ")
                          (EVar (id_promise i)))
                    (EStr ")")))]
           [];
       SExpr (ECall (EMember (EVar (id_promise i)) "then")
                [EFunction [id_result i]
                   (SAssign (id_hasResult i) (EBool true)
                    :: loop_result i (EVar (id_result i)));
                 EFunction [id_errN i]
                   (SIf (EVar (id_hasResult i)) [SThrow (EVar (id_errN i))] []
                    :: loop_error i (EVar (id_errN i)))])]
  end.

End LoopPieces.

(** ** Taps that complete with a result

    Every call of a tap completes, during the call or later, with a
    result; [(later, v)] is the plan of one call.  The plans are told in
    the order of the ticks of the clock: a call of a promise tap takes two
    ticks, one for the tap and one for the [then] of what it returns. *)
Definition is_defined (v : value) : bool := negb (strict_eq v VUndefined).

(** The tap that is called after tap [i] completed with [v]: "if the
    result is defined, the entire tap sequence restarts from the first
    tap". *)
Definition next_tap (i : nat) (v : value) : nat :=
  if is_defined v then 0%nat else S i.

Definition is_promise (taps : list Tap) (i : nat) : bool :=
  match taps !! i with
  | Some tap => bool_decide (tap_type tap = promise)
  | None => false
  end.

Definition loop_world (taps : list Tap) (cplans : list (bool * value)) : World :=
  mkWorld
    (λ c i,
       match taps !! i, cplans !! c with
       | Some tap, Some (later, v) =>
           match tap_type tap with
           | sync => mkTapBehaviour [] (Returns v)
           | async =>
               mkTapBehaviour (if (later : bool) then [] else [[VNull; v]]) (Returns VUndefined)
           | promise => mkTapBehaviour [] (Returns (VThenable c))
           end
       | _, _ => mkTapBehaviour [] (Returns VUndefined)
       end)
    (λ _ p,
       mkThenBehaviour (match cplans !! p with
                        | Some (false, v) => [(true, [v])]
                        | _ => []
                        end) (Returns VUndefined)).

(** The plans of the calls, one after the other, laid out by the ticks of
    the clock when the first call is one of tap [i]. *)
Fixpoint spread (taps : list Tap) (i : nat) (ps : list (bool * value))
    : list (bool * value) :=
  match ps with
  | [] => []
  | (later, v) :: rest =>
      (later, v) :: (if is_promise taps i then [(later, v)] else [])
      ++ spread taps (next_tap i v) rest
  end.

(** *** What is observed of a dispatch of the looping hook

    The calls of the [loop] handlers of the interceptors, the calls of the
    taps, the calls of the final callback, and how the calls into the
    dispatcher ended. *)
Inductive lobs : Type :=
| LPass (k : nat) (actuals : list value)
| LTap (i : nat)
| LCallback (actuals : list value)
| LReturn
| LThrow (v : value)
| LUncaught (v : value).

Definition lobs_of (ev : event) : option lobs :=
  match ev with
  | EvInterceptor k m actuals =>
      if String.eqb m "loop" then Some (LPass k actuals) else None
  | EvTap i _ => Some (LTap i)
  | EvCallback actuals => Some (LCallback actuals)
  | EvReturn _ => Some LReturn
  | EvThrow v => Some (LThrow v)
  | EvUncaught v => Some (LUncaught v)
  | _ => None
  end.

Definition loop_view (tr : list event) : list lobs := omap lobs_of tr.

(** What is observed at the start of a pass: the [loop] handlers of the
    interceptors, in the order of the interceptors, each with the
    arguments of the dispatch, after the context if it asked for it. *)
Definition pass_start (options : FactoryOptions) (vals : list value) : list lobs :=
  concat (imap (λ k ic,
                  if int_loop ic
                  then [LPass k (with_context options (int_context ic)
                                   (arg_values options vals))]
                  else [])
               (opt_interceptors options)).

(** What is observed from a call of tap [i] on: after a result that is
    defined a pass starts; the dispatch returns after the first call that
    completes later, or else after the final callback. *)
Fixpoint loop_walk (marks : list lobs) (returned : bool) (i : nat)
    (ps : list (bool * value)) : list lobs :=
  match ps with
  | [] => LCallback [] :: (if returned then [] else [LReturn])
  | (later, v) :: rest =>
      LTap i :: (if later && negb returned then [LReturn] else [])
      ++ (if is_defined v then marks else [])
      ++ loop_walk marks (returned || later) (next_tap i v) rest
  end.

(** The calls are those of a dispatch that completes: each call is one of
    a tap of the hook, a sync tap completes during its call, and after the
    last call the taps of one pass have all completed without a result. *)
Fixpoint walk_ok (taps : list Tap) (i : nat) (ps : list (bool * value)) : Prop :=
  match ps with
  | [] => i = length taps
  | (later, v) :: rest =>
      (∃ tap, taps !! i = Some tap ∧ (tap_type tap = sync → later = false))
      ∧ walk_ok taps (next_tap i v) rest
  end.

(** The later calls of the handed-out functions, when the clock is at [c]
    before the first call. *)
Fixpoint loop_signals (taps : list Tap) (i c : nat) (ps : list (bool * value))
    : list (target * list value) :=
  match ps with
  | [] => []
  | (later, v) :: rest =>
      (if later
       then [if is_promise taps i then (OnFulfilled c, [v])
             else (TapCallback i, [VNull; v])]
       else [])
      ++ loop_signals taps (next_tap i v) (if is_promise taps i then S (S c) else S c) rest
  end.

(** A looping hook with a sync tap, a tap of the callback kind and a tap
    of the deferred kind, one declared argument and an interceptor with a
    [loop] handler. *)
Definition options_loop : FactoryOptions :=
  mkOptions async
    [mkTap "a" sync 0 BeforeUndefined StageUndefined false;
     mkTap "b" async 1 BeforeUndefined StageUndefined false;
     mkTap "c" promise 2 BeforeUndefined StageUndefined false]
    [mkInterceptor None false false true false false false false] ["x"].

(** The second tap asks for another pass, later; in the second pass every
    tap completes without a result. *)
Definition plans_loop : list (bool * value) :=
  [(false, VUndefined); (true, VNum 1);
   (false, VUndefined); (false, VUndefined); (true, VUndefined)].

(** ** The activations of the loop

    The loop runs in the activation of the dispatcher when every tap is
    sync, and in an activation of [_looper] otherwise; the activation binds
    [_loop], [_loopAsync] and the named units of the taps. *)
Definition act_ident (x : ident) : bool :=
  match x with
  | id_loop | id_loopAsync | id_next _ => true
  | _ => false
  end.

(** The clock after a call of tap [i] at [c]. *)
Definition step_clock (taps : list Tap) (i c : nat) : nat :=
  if is_promise taps i then S (S c) else S c.

(** How a run of calls ends: with a tap that asked for another pass, with
    the completion of the dispatch, or with a tap that completes later. *)
Inductive lstatus : Type :=
  | LAgain (c : nat) (rest : list (bool * value))
  | LDone
  | LPending (i c : nat) (v : value) (c' : nat) (rest : list (bool * value)).

(** What is observed of one pass from tap [i] on, and what is observed up
    to the first call that completes later; the clock is at [c]. *)
Fixpoint pass_run (taps : list Tap) (i c : nat) (ps : list (bool * value))
    : list lobs * lstatus :=
  match ps with
  | [] => ([LCallback []], LDone)
  | (later, v) :: rest =>
      if (later : bool) then ([LTap i], LPending i c v (step_clock taps i c) rest)
      else if is_defined v then ([LTap i], LAgain (step_clock taps i c) rest)
      else let r := pass_run taps (S i) (step_clock taps i c) rest in
           (LTap i :: r.1, r.2)
  end.

Fixpoint seg (taps : list Tap) (marks : list lobs) (i c : nat)
    (ps : list (bool * value)) : list lobs * lstatus :=
  match ps with
  | [] => ([LCallback []], LDone)
  | (later, v) :: rest =>
      if (later : bool) then ([LTap i], LPending i c v (step_clock taps i c) rest)
      else let r := seg taps marks (next_tap i v) (step_clock taps i c) rest in
           (LTap i :: (if is_defined v then marks else []) ++ r.1, r.2)
  end.

Section LoopState.

Variable options : FactoryOptions.
Variable co : ContentOptions.
Variable vals : list value.

(** The scopes of a running looping dispatcher: an identifier of an
    activation of the loop is bound only where [_loop] is. *)
Record LInv (fs : list frame) : Prop := mkLInv {
  li_wf : wf_frames_for top_ident fs;
  li_top : top_ok_from options co vals (length (opt_taps options)) fs;
  li_looper :
    sync_only options = false →
    bound_in fs 1 id_looper = Some (VClosure [] (looper_body options co) 1);
  li_act :
    ∀ s x, act_ident x = true → is_Some (bound_in fs s x) →
           is_Some (bound_in fs s id_loop)
}.

(** The activation of the loop that scope [s] belongs to. *)
Definition home (fs : list frame) (s L : nat) : Prop :=
  (1 ≤ s < length fs)%nat ∧ (1 ≤ L)%nat
  ∧ find_frame (length fs) fs s id_loop = Some L.

(** Activation [L] has [_loop] at [b] and [_loopAsync] at [a]. *)
Definition Act (fs : list frame) (L : nat) (b a : bool) : Prop :=
  bound_in fs L id_loop = Some (VBool b)
  ∧ (sync_only options = false → bound_in fs L id_loopAsync = Some (VBool a))
  ∧ (∀ j, (j < length (opt_taps options))%nat → lunrolls options co j = true →
       bound_in fs L (id_next j) = Some (VClosure [] (KL options co (S j)) L)).

(** Scope [s] of a state with well-formed scopes belongs to activation
    [L], whose loop has not been asked for another pass. *)
Definition Here (st : state) (s L : nat) (a : bool) : Prop :=
  LInv (frames st) ∧ home (frames st) s L ∧ Act (frames st) L false a.

(** What [st'] has seen since [st]. *)
Definition extends (st st' : state) (os : list lobs) : Prop :=
  loop_view (trace st') = loop_view (trace st) ++ os.

(** What completes the call of tap [i] at [c] later. *)
Definition ptarget (i c : nat) : target :=
  if is_promise (opt_taps options) i then OnFulfilled c else TapCallback i.

Definition payload (i : nat) (v : value) : list value :=
  if is_promise (opt_taps options) i then [v] else [VNull; v].

Definition pclosure (i s : nat) : value :=
  if is_promise (opt_taps options) i then lfulfilled_closure options co i s
  else lcallback_closure options co i s.

(** The call of tap [i] at [c] is pending, in activation [L]. *)
Definition Pend (st : state) (L i c : nat) : Prop :=
  ∃ s, registered (registry st) (ptarget i c) = Some (pclosure i s)
       ∧ home (frames st) s L
       ∧ (is_promise (opt_taps options) i = true →
            is_Some (bound_in (frames st) s (id_hasResult i))).

(** Where the code of the taps from [i] on ends when it runs in the loop
    of activation [L], and where it ends when it runs after that loop. *)
Definition PostIn (st : state) (L : nat) (res : list lobs * lstatus) (st' : state)
    : Prop :=
  LInv (frames st') ∧ (length (frames st) ≤ length (frames st'))%nat
  ∧ extends st st' res.1
  ∧ match res.2 with
    | LAgain c' rest => Act (frames st') L true false ∧ clock st' = c'
    | LDone => Act (frames st') L false false
    | LPending i c v c' rest =>
        Act (frames st') L false false ∧ clock st' = c' ∧ Pend st' L i c
    end.

Definition PostAfter (st : state) (res : list lobs * lstatus) (st' : state) : Prop :=
  extends st st' res.1
  ∧ match res.2 with
    | LAgain _ _ => False
    | LDone => True
    | LPending i c v c' rest =>
        LInv (frames st') ∧ clock st' = c'
        ∧ ∃ L, Pend st' L i c ∧ Act (frames st') L false true
    end.

End LoopState.

(** ** The life of a hook

    What a user does with a hook: register a tap, register an interceptor,
    invoke one of the three conventions.  The first call that throws ends
    the sequence. *)
Inductive HookOp : Type :=
| OpTap (type : TapType) (options : TapOptionsArg) (fn : nat)
| OpIntercept (interceptor : Interceptor)
| OpInvoke (type : TapType).

Section Life.

Variable trim : string → string.

Definition hook_step (h : Hook) (op : HookOp) : Completion Hook :=
  match op with
  | OpTap type options fn => _tap trim h type options fn
  | OpIntercept interceptor => Normal (intercept h interceptor)
  | OpInvoke type => '(h', _) ← invoke type h; Normal h'
  end.

Definition hook_run (h : Hook) (ops : list HookOp) : Completion Hook :=
  foldl (fun c op => h ← c; hook_step h op) (Normal h) ops.

End Life.

(** ** The steps of a dispatch as its trace shows them

    A tap is called after the [tap] handlers of the interceptors, with the
    context object first when it asked for it; the callback is called after
    the [error] handlers with the error, or after the [done] handlers
    without an argument; the other events stand alone. *)
Section Pipeline.

Variable options : FactoryOptions.
Variable vals : list value.

Inductive step_events : list event → Prop :=
| step_tap i tap :
    opt_taps options !! i = Some tap →
    step_events
      (interceptor_events options int_tap "tap"
         (λ ic, with_context options (int_context ic) [VTapDescriptor i])
       ++ [EvTap i (with_context options (tap_context tap) (arg_values options vals))])
| step_error e :
    step_events (interceptor_events options int_error "error" (λ _, [e])
                 ++ [EvCallback [e]])
| step_done :
    step_events (interceptor_events options int_done "done" (λ _, [])
                 ++ [EvCallback []])
| step_fire t actuals : step_events [EvFire t actuals]
| step_then p : step_events [EvThen p]
| step_return v : step_events [EvReturn v]
| step_throw v : step_events [EvThrow v]
| step_uncaught v : step_events [EvUncaught v].

(** The trace of a dispatch: the [call] handlers of the interceptors,
    then steps. *)
Definition pipeline (tr : list event) : Prop :=
  ∃ steps, Forall step_events steps
           ∧ tr = interceptor_events options int_call "call"
                    (λ ic, with_context options (int_context ic)
                             (arg_values options vals))
                  ++ concat steps.

(** From [r] to [r'] the reference makes steps. *)
Definition steps_on (r r' : RefState) : Prop :=
  ∃ steps, Forall step_events steps ∧ r_trace r' = r_trace r ++ concat steps.

End Pipeline.

(** A hook with two interceptors, of which the first asks for the context
    object, a sync tap that asks for it too, and an async tap; and taps
    that return at once without calling back. *)
Definition options_intercepted : FactoryOptions :=
  mkOptions async
    [mkTap "a" sync 0 BeforeUndefined StageUndefined true;
     mkTap "b" async 1 BeforeUndefined StageUndefined false]
    [mkInterceptor None true true false false true true true;
     mkInterceptor None false true false false false true false]
    ["x"].

Definition world_silent : World :=
  mkWorld (λ _ _, mkTapBehaviour [] (Returns VUndefined))
          (λ _ _, mkThenBehaviour [] (Returns VUndefined)).

(** ** [withOptions]

    [Object.assign] copies the own properties of its sources, the later
    source winning; of an object the properties that the library reads are
    kept, each absent ([None]) or present.  As in [TapOptions], a present
    [name] is a string or something else, and [type] and [fn], when
    present, hold a type and a function. *)
Record OwnOptions : Type := mkOwn {
  own_name : option (option string);
  own_before : option BeforeOption;
  own_stage : option StageValue;
  own_context : option bool;
  own_type : option TapType;
  own_fn : option nat
}.

(** [Object.assign({}, a, b)] *)
Definition assign (a b : OwnOptions) : OwnOptions :=
  mkOwn (from_option Some (own_name a) (own_name b))
        (from_option Some (own_before a) (own_before b))
        (from_option Some (own_stage a) (own_stage b))
        (from_option Some (own_context a) (own_context b))
        (from_option Some (own_type a) (own_type b))
        (from_option Some (own_fn a) (own_fn b)).

(** What [_tap] reads of an object. *)
Definition read_options (o : OwnOptions) : TapOptions :=
  mkTapOptions (mjoin (own_name o)) (default BeforeUndefined (own_before o))
               (default StageUndefined (own_stage o)) (default false (own_context o))
               (own_type o) (own_fn o).

(** The argument [opt] of the methods of the object that [withOptions]
    returns: a string, an object, or a value without own properties that
    matter (a number, [null], [undefined], ...), which [Object.assign]
    passes over. *)
Inductive OptArg : Type :=
| ArgString (s : string)
| ArgObject (o : OwnOptions)
| ArgOther.

(** [mergeOptions(opt)] of [withOptions(options)] *)
Definition mergeOptions (options : OwnOptions) (opt : OptArg) : OwnOptions :=
  match opt with
  | ArgString s => assign options (mkOwn (Some (Some s)) None None None None None)
  | ArgObject o => assign options o
  | ArgOther => options
  end.

Section WithOptions.

Variable trim : string → string.

(** The methods [tap], [tapAsync], [tapPromise] and [withOptions] of
    [hook.withOptions(options)]; the last gives the options of the object
    it returns. *)
Definition withOptions_tap (h : Hook) (options : OwnOptions) (opt : OptArg) (fn : nat)
    : Completion Hook :=
  tap trim h (OptObject (read_options (mergeOptions options opt))) fn.

Definition withOptions_tapAsync (h : Hook) (options : OwnOptions) (opt : OptArg)
    (fn : nat) : Completion Hook :=
  tapAsync trim h (OptObject (read_options (mergeOptions options opt))) fn.

Definition withOptions_tapPromise (h : Hook) (options : OwnOptions) (opt : OptArg)
    (fn : nat) : Completion Hook :=
  tapPromise trim h (OptObject (read_options (mergeOptions options opt))) fn.

Definition withOptions_withOptions (options : OwnOptions) (opt : OptArg) : OwnOptions :=
  mergeOptions options opt.

End WithOptions.

(** The name under which [mergeOptions] lets a tap register. *)
Definition merged_name (options : OwnOptions) (opt : OptArg) : option string :=
  match opt with
  | ArgString s => Some s
  | ArgObject o => mjoin (from_option Some (own_name options) (own_name o))
  | ArgOther => mjoin (own_name options)
  end.

(** * Properties of the tap registry ([Hook.js]) *)

Section Registry.

Implicit Types (l : list Slot) (ts : list Tap).

Lemma shifted_length l : shifted (length l) l = l.
  Proof.
    unfold shifted. rewrite take_ge by lia. rewrite drop_all. apply app_nil_r.
  Qed.

Lemma array_get_shifted l i :
    (i < length l)%nat → array_get (shifted (S i) l) i = array_get l i.
  Proof.
    intros Hi. unfold array_get, shifted.
    rewrite lookup_app_l by (rewrite length_take; lia).
    by rewrite lookup_take_lt by lia.
  Qed.

Lemma array_set_shifted l i x :
    l !! i = Some x → array_set (shifted (S i) l) (i + 1) x = shifted i l.
  Proof.
    intros Hx. assert (Hi : (i < length l)%nat) by (by eapply lookup_lt_Some).
    unfold array_set, shifted.
    destruct (decide (S i = length l)) as [Hn|Hn].
    - rewrite (take_ge l (S (S i))) by lia.
      rewrite (drop_ge l (S i)) by lia.
      rewrite app_nil_r.
      rewrite bool_decide_eq_false_2 by lia.
      replace (i + 1 - length l)%nat with 0%nat by lia. simpl.
      rewrite (take_ge l (S i)) by lia.
      f_equal. rewrite (drop_S l x i Hx).
      by rewrite drop_ge by lia.
    - assert (is_Some (l !! S i)) as [y Hy] by (apply lookup_lt_is_Some; lia).
      rewrite bool_decide_eq_true_2
        by (rewrite length_app, length_take, length_drop; lia).
      rewrite (take_S_r l (S i) y Hy).
      rewrite <- app_assoc. simpl.
      rewrite insert_app_r_alt by (rewrite length_take; lia).
      rewrite length_take.
      replace (i + 1 - S i `min` length l)%nat with 0%nat by lia.
      simpl. by rewrite (drop_S l x i Hx).
  Qed.

Lemma array_set_shifted_end l k v :
    (k ≤ length l)%nat →
    array_set (shifted (k - 1) l) k v = take k l ++ v :: drop k l.
  Proof.
    intros Hk. unfold array_set, shifted.
    destruct k as [|j]; simpl.
    - by destruct l as [|x l].
    - replace (j - 0)%nat with j by lia.
      assert (is_Some (l !! j)) as [y Hy] by (apply lookup_lt_is_Some; lia).
      rewrite (drop_S l y j Hy).
      rewrite bool_decide_eq_true_2
        by (rewrite length_app, length_take, length_cons; lia).
      rewrite insert_app_r_alt by (rewrite length_take; lia).
      rewrite length_take.
      replace (S j - S j `min` length l)%nat with 0%nat by lia.
      done.
  Qed.

  (** The loop of [_insert] without a [before] set: it stops at the
      largest index [k] below which the stage is not greater. *)
Lemma insert_loop_no_before ts stage i :
    (i ≤ length ts)%nat →
    ∃ k, (k ≤ i)%nat
       ∧ insert_loop i (shifted i (Some <$> ts)) None stage
         = Normal (k, shifted (k - 1) (Some <$> ts))
       ∧ (∀ j t, (k ≤ j < i)%nat → ts !! j = Some t →
            number_gt (stage_or_0 (tap_stage t)) stage = true)
       ∧ (∀ t, (0 < k)%nat → ts !! (k - 1)%nat = Some t →
            number_gt (stage_or_0 (tap_stage t)) stage = false).
  Proof.
    induction i as [|i IH]; intros Hi.
    - exists 0%nat. simpl. repeat split; [lia | intros; lia | intros; lia].
    - assert (is_Some (ts !! i)) as [x Hx] by (apply lookup_lt_is_Some; lia).
      assert (Hx' : (Some <$> ts) !! i = Some (Some x))
        by (by rewrite list_lookup_fmap, Hx).
      simpl.
      rewrite array_get_shifted by (rewrite length_fmap; lia).
      unfold array_get at 1. rewrite Hx'. simpl.
      unfold array_get. rewrite Hx'. simpl.
      rewrite (array_set_shifted _ _ _ Hx').
      destruct (number_gt (stage_or_0 (tap_stage x)) stage) eqn:Hst.
      + destruct IH as (k & Hk & Heq & Hgt & Hle); [lia|].
        exists k. repeat split; [lia | done | | done].
        intros j t Hj Ht. destruct (decide (j = i)) as [->|].
        * rewrite Hx in Ht. by simplify_eq.
        * apply (Hgt j); [lia | done].
      + exists (S i). repeat split; [lia | | intros; lia |].
        * simpl. by replace (i - 0)%nat with i by lia.
        * intros t _ Ht. replace (S i - 1)%nat with i in Ht by lia.
          rewrite Hx in Ht. by simplify_eq.
  Qed.

  (** On declared stages the two readings of [_insert] agree with the
      documented one. *)
Lemma stage_declared_item s :
    stage_declared s →
    item_stage s = Some (match s with StageNumber z => z | _ => 0 end).
  Proof. by destruct s. Qed.

Lemma stage_declared_or_0 s :
    stage_declared s →
    stage_or_0 s = Some (match s with StageNumber z => z | _ => 0 end).
  Proof. destruct s as [z| |[] n]; simpl; try done. Qed.

Lemma number_gt_declared t item :
    stage_declared (tap_stage t) → stage_declared (tap_stage item) →
    number_gt (stage_or_0 (tap_stage t)) (item_stage (tap_stage item))
    = bool_decide (stage_of t > stage_of item).
  Proof.
    intros Ht Hitem.
    by rewrite (stage_declared_or_0 _ Ht), (stage_declared_item _ Hitem).
  Qed.

  (** [_insert] of a tap without [before] into an array of descriptors. *)
Lemma _insert_no_before h ts item :
    h_taps h = Some <$> ts →
    before_set (tap_before item) = None →
    ∃ k, (k ≤ length ts)%nat
       ∧ _insert h item
         = Normal (set_taps (_resetCompilation h)
                            (Some <$> (take k ts ++ item :: drop k ts)))
       ∧ (∀ t, t ∈ drop k ts →
            number_gt (stage_or_0 (tap_stage t)) (item_stage (tap_stage item)) = true)
       ∧ (∀ t, (0 < k)%nat → ts !! (k - 1)%nat = Some t →
            number_gt (stage_or_0 (tap_stage t)) (item_stage (tap_stage item)) = false).
  Proof.
    intros Hts Hb.
    destruct (insert_loop_no_before ts (item_stage (tap_stage item)) (length ts))
      as (k & Hk & Heq & Hgt & Hle); [lia|].
    exists k. split; [done|]. split; [|split; [|done]].
    - unfold _insert. rewrite Hb. simpl. rewrite Hts.
      rewrite length_fmap.
      rewrite <- (length_fmap Some ts), shifted_length in Heq.
      rewrite length_fmap in Heq.
      rewrite Heq.
      unfold mbind, Completion_bind; simpl.
      rewrite array_set_shifted_end by (rewrite length_fmap; lia).
      by rewrite fmap_app, fmap_cons, fmap_take, fmap_drop.
    - intros t Ht. apply list_elem_of_lookup in Ht as [j Hj].
      rewrite lookup_drop in Hj.
      apply (Hgt (k + j)%nat); [|done].
      apply lookup_lt_Some in Hj. lia.
  Qed.

Lemma filter_stage_none ts (s bound : Z) :
    (∀ t, t ∈ ts → stage_of t > bound) → s ≤ bound →
    filter (λ t, stage_of t = s) ts = [].
  Proof.
    intros Hall Hs. induction ts as [|t ts IH]; [done|].
    rewrite filter_cons_False.
    - apply IH. intros t' Ht'. apply Hall. by apply list_elem_of_further.
    - specialize (Hall t (list_elem_of_here _ _)). lia.
  Qed.

  (** Placing a tap behind every tap of a sorted array whose stage is not
      greater keeps the array sorted and keeps the order among equal
      stages. *)
Lemma place_sorted_stable ts item k :
    StronglySorted (λ a b, stage_of a ≤ stage_of b) ts →
    (k ≤ length ts)%nat →
    (∀ t, t ∈ drop k ts → stage_of t > stage_of item) →
    (∀ t, (0 < k)%nat → ts !! (k - 1)%nat = Some t → stage_of t ≤ stage_of item) →
    StronglySorted (λ a b, stage_of a ≤ stage_of b) (take k ts ++ item :: drop k ts)
    ∧ ∀ s, filter (λ t, stage_of t = s) (take k ts ++ item :: drop k ts)
           = filter (λ t, stage_of t = s) (ts ++ [item]).
  Proof.
    intros Hsorted Hk Hgt Hle.
    assert (Hsplit : ts = take k ts ++ drop k ts) by (by rewrite take_drop).
    assert (Hbelow : ∀ t, t ∈ take k ts → stage_of t ≤ stage_of item).
    { intros t Ht. destruct k as [|k]; [simpl in Ht; by apply elem_of_nil in Ht|].
      assert (is_Some (ts !! k)) as [y Hy] by (apply lookup_lt_is_Some; lia).
      specialize (Hle y ltac:(lia)). replace (S k - 1)%nat with k in Hle by lia.
      specialize (Hle Hy).
      rewrite (take_S_r ts k y Hy) in Ht.
      apply elem_of_app in Ht as [Ht|Ht].
      - assert (Hy' : y ∈ drop k ts)
          by (rewrite (drop_S ts y k Hy); apply list_elem_of_here).
        assert (Hs2 : StronglySorted (λ a b, stage_of a ≤ stage_of b)
                        (take k ts ++ drop k ts)) by (by rewrite take_drop).
        pose proof (StronglySorted_app_1_elem_of _ _ _ t y Hs2 Ht Hy') as Hty.
        simpl in Hty. lia.
      - apply list_elem_of_singleton in Ht as ->. done. }
    split.
    - rewrite <- (take_drop k ts) in Hsorted.
      apply StronglySorted_app in Hsorted as (Hcross & Hl & Hr).
      apply StronglySorted_app. split; [|split; [done|]].
      + intros x1 x2 Hx1 Hx2. apply elem_of_cons in Hx2 as [->|Hx2].
        * by apply Hbelow.
        * by apply Hcross.
      + apply StronglySorted_cons. split; [|done].
        apply Forall_forall. intros t Ht. specialize (Hgt t Ht). lia.
    - intros s. rewrite Hsplit at 3.
      rewrite !filter_app, filter_cons, <- app_assoc.
      f_equal.
      destruct (decide (stage_of item = s)) as [Hs|Hs].
      + rewrite (filter_stage_none (drop k ts) s (stage_of item)) by (done || lia). simpl. by rewrite filter_cons_True, filter_nil by done.
      + by rewrite filter_cons_False, filter_nil, app_nil_r by done.
  Qed.

  (** The loop of [_insert] on an array of descriptors, whatever the
      [before] set: it ends at some index [k] without an error. *)
Lemma insert_loop_defined ts stage i :
    (i ≤ length ts)%nat →
    ∀ before, ∃ k, (k ≤ i)%nat
       ∧ insert_loop i (shifted i (Some <$> ts)) before stage
         = Normal (k, shifted (k - 1) (Some <$> ts)).
  Proof.
    induction i as [|i IH]; intros Hi before.
    - exists 0%nat. by split.
    - assert (is_Some (ts !! i)) as [x Hx] by (apply lookup_lt_is_Some; lia).
      assert (Hx' : (Some <$> ts) !! i = Some (Some x))
        by (by rewrite list_lookup_fmap, Hx).
      simpl.
      rewrite array_get_shifted by (rewrite length_fmap; lia).
      unfold array_get at 1. rewrite Hx'. simpl.
      unfold array_get. rewrite Hx'. simpl.
      rewrite (array_set_shifted _ _ _ Hx').
      assert (Hstop : ∃ k, (k ≤ S i)%nat ∧
                Normal (S i, shifted i (Some <$> ts))
                = Normal (k, shifted (k - 1) (Some <$> ts))).
      { exists (S i). split; [lia|]. simpl. by replace (i - 0)%nat with i by lia. }
      assert (Hgo : ∀ b, ∃ k, (k ≤ S i)%nat ∧
                insert_loop i (shifted i (Some <$> ts)) b stage
                = Normal (k, shifted (k - 1) (Some <$> ts))).
      { intros b. destruct (IH ltac:(lia) b) as (k & Hk & Heq).
        exists k. split; [lia | done]. }
      destruct before as [b|].
      + destruct (decide (tap_name x ∈ b)); [apply Hgo|].
        destruct (bool_decide (0 < size b)%nat); [apply Hgo|].
        destruct (number_gt (stage_or_0 (tap_stage x)) stage);
          [apply Hgo | apply Hstop].
      + destruct (number_gt (stage_or_0 (tap_stage x)) stage);
          [apply Hgo | apply Hstop].
  Qed.

  (** [_insert] into an array of descriptors puts the tap somewhere and
      resets the three call properties. *)
Lemma _insert_defined h ts item :
    h_taps h = Some <$> ts →
    ∃ k, (k ≤ length ts)%nat
       ∧ _insert h item
         = Normal (set_taps (_resetCompilation h)
                            (Some <$> (take k ts ++ item :: drop k ts))).
  Proof.
    intros Hts.
    destruct (insert_loop_defined ts (item_stage (tap_stage item)) (length ts)
                ltac:(lia) (before_set (tap_before item))) as (k & Hk & Heq).
    exists k. split; [done|].
    unfold _insert. simpl. rewrite Hts, length_fmap.
    rewrite <- (length_fmap Some ts), shifted_length in Heq.
    rewrite length_fmap in Heq.
    rewrite Heq.
    unfold mbind, Completion_bind; simpl.
    rewrite array_set_shifted_end by (rewrite length_fmap; lia).
    by rewrite fmap_app, fmap_cons, fmap_take, fmap_drop.
  Qed.

  (** With a name in the [before] set that no tap carries, the loop runs
      down to index 0. *)
Lemma insert_loop_unmatched ts stage (b : string) i :
    (∀ t, t ∈ ts → tap_name t ≠ b) →
    (i ≤ length ts)%nat →
    ∀ B : gset string, b ∈ B →
      insert_loop i (shifted i (Some <$> ts)) (Some B) stage
      = Normal (0%nat, shifted 0 (Some <$> ts)).
  Proof.
    intros Hnames. induction i as [|i IH]; intros Hi B HB; [done|].
    assert (is_Some (ts !! i)) as [x Hx] by (apply lookup_lt_is_Some; lia).
    assert (Hx' : (Some <$> ts) !! i = Some (Some x))
      by (by rewrite list_lookup_fmap, Hx).
    assert (Hxb : tap_name x ≠ b)
      by (apply Hnames; apply list_elem_of_lookup; eauto).
    simpl.
    rewrite array_get_shifted by (rewrite length_fmap; lia).
    unfold array_get at 1. rewrite Hx'. simpl.
    unfold array_get. rewrite Hx'. simpl.
    rewrite (array_set_shifted _ _ _ Hx').
    destruct (decide (tap_name x ∈ B)).
    - apply IH; [lia | set_solver].
    - rewrite bool_decide_eq_true_2; [apply IH; [lia | done]|].
      assert (size B ≠ 0%nat); [|lia].
      intros Hz. apply size_empty_inv in Hz. set_solver.
  Qed.

Lemma defined_taps_fmap ts : defined_taps (Some <$> ts) = Some ts.
  Proof.
    induction ts as [|t ts IH]; [done|].
    rewrite fmap_cons. simpl. by rewrite IH.
  Qed.

Lemma _runRegisterInterceptors_app h pre post options :
    _runRegisterInterceptors (set_interceptors h (pre ++ post)) options
    = _runRegisterInterceptors (set_interceptors h post)
        (_runRegisterInterceptors (set_interceptors h pre) options).
  Proof. unfold _runRegisterInterceptors. simpl. apply foldl_app. Qed.

(** The parameter list that [create] hands to [new Function]. *)
Lemma create_params content options :
    ident_text <$> fn_params (create content options)
    = opt_args options
      ++ match opt_type options with
         | async => ["_callback"]
         | _ => []
         end.
  Proof.
    unfold create, params, _args.
    destruct (opt_type options); simpl; rewrite ?fmap_app, <- ?list_fmap_compose;
      rewrite ?app_nil_r; simpl; try f_equal;
      (induction (opt_args options) as [|a l IH]; [done|]; simpl; by f_equal).
  Qed.

Lemma accepts_app_l a b : accepts (a ++ b) = true → accepts a = true.
  Proof.
    unfold accepts. rewrite forallb_app, !andb_true_iff, !bool_decide_eq_true.
    intros [[Ha _] Hnd]. split; [done|]. by apply NoDup_app in Hnd as [? _].
  Qed.

  (** [new Function] accepts what [create] makes for a hook whose parameter
      names can stand beside [_callback]. *)
Lemma new_Function_create content type taps interceptors args :
    accepts (args ++ ["_callback"]) = true →
    new_Function (create content (mkOptions type taps interceptors args))
    = Normal (create content (mkOptions type taps interceptors args)).
  Proof.
    intros Hacc. unfold new_Function. rewrite create_params. simpl.
    destruct type; rewrite ?app_nil_r, ?Hacc, ?(accepts_app_l _ _ Hacc); done.
  Qed.

  (** Plain names are accepted, with [_callback] behind them as well. *)
Lemma plain_args_accepts args :
    plain_args args = true → accepts (args ++ ["_callback"]) = true.
  Proof.
    unfold plain_args, accepts.
    rewrite forallb_app, !andb_true_iff, !bool_decide_eq_true, !forallb_forall.
    intros [Hplain Hnd]. split; [split|].
    - intros s Hs. specialize (Hplain s Hs). unfold plain_name in Hplain.
      by rewrite !andb_true_iff in Hplain; destruct Hplain as [[[? _] _] _].
    - intros s [<-|[]]. reflexivity.
    - apply NoDup_app. split; [done|]. split; [|apply NoDup_singleton].
      intros s Hs Hc. apply list_elem_of_singleton in Hc as ->.
      apply list_elem_of_In in Hs. by specialize (Hplain _ Hs).
  Qed.

Lemma new_Function_plain content type taps interceptors args :
    plain_args args = true →
    new_Function (create content (mkOptions type taps interceptors args))
    = Normal (create content (mkOptions type taps interceptors args)).
  Proof. intros H. by apply new_Function_create, plain_args_accepts. Qed.

Lemma new_Function_Normal f g : new_Function f = Normal g → g = f.
  Proof. unfold new_Function. destruct (accepts _); [by intros [= <-]|done]. Qed.

End Registry.

(** * Shape of the code emitted by [callTapsSeries] *)

Section Shape.

#[local] Arguments args : simpl never.

Lemma units_app (a b : code) : units (a ++ b) = units a ++ units b.
Proof. unfold units. by rewrite map_app, concat_app. Qed.

Lemma units_cons (s : stmt) (c : code) : units (s :: c) = stmt_units s ++ units c.
Proof. reflexivity. Qed.

Lemma depth_app (a b : code) : depth (a ++ b) = (depth a `max` depth b)%nat.
Proof. induction a as [|s a IH]; simpl; [done|]. fold (depth (a ++ b)) (depth a). lia. Qed.

Lemma depth_cons (s : stmt) (c : code) : depth (s :: c) = (stmt_depth s `max` depth c)%nat.
Proof. reflexivity. Qed.

Lemma units_concat_imap {A} (f : nat → A → code) (l : list A) :
  (∀ i x, units (f i x) = []) → units (concat (imap f l)) = [].
Proof.
  revert f. induction l as [|x l IH]; intros f Hf; [done|].
  rewrite imap_cons. simpl. rewrite units_app, Hf. simpl.
  apply IH. intros i y. apply Hf.
Qed.

Lemma depth_concat_imap {A} (f : nat → A → code) (l : list A) (d : nat) :
  (∀ i x, depth (f i x) ≤ d)%nat → (depth (concat (imap f l)) ≤ d)%nat.
Proof.
  revert f. induction l as [|x l IH]; intros f Hf; [simpl; lia|].
  rewrite imap_cons. simpl. rewrite depth_app.
  specialize (Hf 0%nat x) as H0.
  specialize (IH (f ∘ S) (λ i y, Hf (S i) y)). lia.
Qed.

Lemma for_interceptors_units options has emit :
  (∀ i ic, units (emit i ic) = []) → units (for_interceptors options has emit) = [].
Proof.
  intros H. apply units_concat_imap. intros i ic. by destruct (has ic).
Qed.

Lemma for_interceptors_depth options has emit d :
  (∀ i ic, depth (emit i ic) ≤ d)%nat → (depth (for_interceptors options has emit) ≤ d)%nat.
Proof.
  intros H. apply depth_concat_imap. intros i ic.
  destruct (has ic); [apply H | simpl; lia].
Qed.

Lemma args_units options before after :
  concat (map expr_units (args options before after))
  = from_option expr_units [] before ++ from_option expr_units [] after.
Proof.
  unfold args.
  assert (H : concat (map expr_units (map (λ a, EVar (id_arg a)) (_args options))) = []).
  { induction (_args options) as [|a l IH]; [done|]. simpl. done. }
  destruct before, after; simpl;
    rewrite ?map_app, ?concat_app; simpl; rewrite ?H, ?app_nil_r; done.
Qed.

Lemma args_depth options before after :
  foldr (λ a d, expr_depth a `max` d)%nat 0%nat (args options before after)
  = (from_option expr_depth 0 before `max` from_option expr_depth 0 after)%nat.
Proof.
  unfold args.
  assert (H : ∀ tl : list expr,
            foldr (λ a d, expr_depth a `max` d)%nat 0%nat
                  (map (λ a, EVar (id_arg a)) (_args options) ++ tl)
            = foldr (λ a d, expr_depth a `max` d)%nat 0%nat tl).
  { intros tl. induction (_args options) as [|a l IH]; [done|]. simpl. done. }
  destruct before, after; simpl; rewrite ?H; simpl.
  - lia.
  - rewrite <- (app_nil_r (map _ _)), H. simpl. lia.
  - lia.
  - rewrite <- (app_nil_r (map _ _)), H. simpl. lia.
Qed.

Lemma context_arg_units b : from_option expr_units [] (context_arg b) = [].
Proof. by destruct b. Qed.

Lemma context_arg_depth b : from_option expr_depth 0%nat (context_arg b) = 0%nat.
Proof. by destruct b. Qed.

(** The handlers of a tap without continuation units give a tap unit
    without continuation units. *)
Lemma callTap_units options i h :
  (∀ x, units (th_onError h (EVar x)) = []) →
  (∀ f x, th_onResult h = Some f → units (f (EVar x)) = []) →
  (∀ g, th_onDone h = Some g → units (g ()) = []) →
  units (callTap options i h) = [].
Proof.
  intros HE HR HD. unfold callTap.
  set (taps_code := match filter int_tap (opt_interceptors options) with
                    | [] => [] | _ => _ end).
  assert (Htaps : units taps_code = []).
  { subst taps_code. destruct (filter int_tap (opt_interceptors options)); [done|].
    rewrite units_cons. simpl. apply for_interceptors_units.
    intros k ic. unfold units. simpl. by destruct (int_context ic). }
  assert (HR' : units match th_onResult h with
                      | Some onResult => onResult (EVar (id_result i))
                      | None => []
                      end = []).
  { destruct (th_onResult h) eqn:E; [by eapply HR | done]. }
  assert (HD' : units match th_onDone h with
                      | Some onDone => onDone ()
                      | None => []
                      end = []).
  { destruct (th_onDone h) eqn:E; [by eapply HD | done]. }
  destruct (opt_taps options !! i) as [tap|]; [|by rewrite units_app, Htaps].
  rewrite !units_app, Htaps. simpl.
  destruct (tap_type tap).
  - destruct (th_rethrowIfPossible h).
    + rewrite units_cons, units_app, HR', HD'.
      destruct (th_onResult h); simpl;
        by rewrite args_units, context_arg_units.
    + unfold units at 1. simpl.
      fold (units (th_onError h (EVar id_err))).
      rewrite HE.
      match goal with |- context [concat (map stmt_units (?a ++ ?b))] =>
        change (concat (map stmt_units (a ++ b))) with (units (a ++ b)) end.
      rewrite units_app, HR', HD'.
      destruct (th_onResult h); simpl;
        by rewrite args_units, context_arg_units.
  - unfold units. simpl. rewrite args_units, context_arg_units. simpl.
    fold (units (th_onError h (EVar (id_errN i)))). rewrite HE.
    match goal with |- context [concat (map stmt_units (?a ++ ?b))] =>
      change (concat (map stmt_units (a ++ b))) with (units (a ++ b)) end.
    by rewrite units_app, HR', HD'.
  - unfold units. simpl. rewrite args_units, context_arg_units. simpl.
    fold (units (th_onError h (EVar (id_errN i)))). rewrite HE.
    match goal with |- context [concat (map stmt_units (?a ++ ?b))] =>
      change (concat (map stmt_units (a ++ b))) with (units (a ++ b)) end.
    by rewrite units_app, HR', HD'.
Qed.

(** The nesting depth of a tap unit: at most two more than that of its
    handlers, one more for a direct tap. *)
Lemma callTap_depth options i h (E R : nat) :
  (∀ x, depth (th_onError h (EVar x)) ≤ E)%nat →
  (∀ f x, th_onResult h = Some f → depth (f (EVar x)) ≤ R)%nat →
  (∀ g, th_onDone h = Some g → depth (g ()) ≤ R)%nat →
  (depth (callTap options i h) ≤ 2 + E `max` R)%nat
  ∧ (∀ tap, opt_taps options !! i = Some tap → tap_type tap = sync →
       depth (callTap options i h) ≤ 1 + E `max` R)%nat.
Proof.
  intros HE HR HD. unfold callTap.
  set (taps_code := match filter int_tap (opt_interceptors options) with
                    | [] => [] | _ => _ end).
  assert (Htaps : depth taps_code = 0%nat).
  { subst taps_code. destruct (filter int_tap (opt_interceptors options)); [done|].
    rewrite depth_cons. simpl.
    enough (depth (for_interceptors options int_tap
              (λ k ic, [SExpr (ECall (EMember (getInterceptor k) "tap")
                 ((if int_context ic then [EVar id_context] else [])
                  ++ [EVar (id_tap i)]))])) ≤ 0)%nat by lia.
    apply for_interceptors_depth. intros k ic. by destruct (int_context ic). }
  set (on_result := match th_onResult h with
                    | Some onResult => onResult (EVar (id_result i))
                    | None => []
                    end).
  set (on_done := match th_onDone h with
                  | Some onDone => onDone ()
                  | None => []
                  end).
  assert (HR' : (depth (on_result ++ on_done) ≤ R)%nat).
  { rewrite depth_app. subst on_result on_done.
    destruct (th_onResult h) as [f|] eqn:Ef, (th_onDone h) as [g|] eqn:Eg; simpl;
      try specialize (HR f (id_result i) eq_refl);
      try specialize (HD g eq_refl); lia. }
  destruct (opt_taps options !! i) as [tap|];
    [|split; [rewrite depth_app, Htaps; simpl; lia | done]].
  rewrite !depth_app, Htaps.
  change (depth [SVar (id_fn i) (Some (getTapFn i))]) with 0%nat.
  set (body := match tap_type tap with sync => _ | async => _ | promise => _ end).
  enough (Hb : (depth body ≤ 2 + E `max` R)%nat
               ∧ (tap_type tap = sync → depth body ≤ 1 + E `max` R)%nat).
  { destruct Hb as [Hb1 Hb2]. split; [lia|].
    intros tap' [= <-] Hsync. specialize (Hb2 Hsync). lia. }
  subst body.
  pose proof (HE id_err) as HE1.
  pose proof (HE (id_errN i)) as HE2.
  assert (Hcall : expr_depth (ECall (EVar (id_fn i))
                     (args options (context_arg (tap_context tap)) None)) = 0%nat).
  { simpl. by rewrite args_depth, context_arg_depth. }
  destruct (tap_type tap) eqn:Etype.
  - assert (Hinvoke : stmt_depth match th_onResult h with
                        | Some _ => SVar (id_result i)
                            (Some (ECall (EVar (id_fn i))
                               (args options (context_arg (tap_context tap)) None)))
                        | None => SExpr (ECall (EVar (id_fn i))
                               (args options (context_arg (tap_context tap)) None))
                        end = 0%nat).
    { destruct (th_onResult h); exact Hcall. }
    enough (depth (if th_rethrowIfPossible h then _ else _) ≤ 1 + E `max` R)%nat
      as Hd by (split; [|intros _]; etrans; [exact Hd|lia|exact Hd|lia]).
    destruct (th_rethrowIfPossible h).
    + rewrite depth_cons, Hinvoke. lia.
    + rewrite !depth_cons. cbn [stmt_depth depth foldr].
      fold (depth (on_result ++ on_done)).
      fold (depth (th_onError h (EVar id_err))).
      rewrite Hinvoke. simpl. lia.
  - split; [|intros ?; congruence].
    rewrite depth_cons. cbn [stmt_depth expr_depth depth foldr].
    rewrite args_depth, context_arg_depth.
    cbn [from_option expr_depth stmt_depth foldr].
    fold (depth (on_result ++ on_done)).
    fold (depth (th_onError h (EVar (id_errN i)))).
    simpl. lia.
  - split; [|intros ?; congruence].
    rewrite !depth_cons. cbn [stmt_depth expr_depth depth foldr].
    rewrite !args_depth, context_arg_depth.
    cbn [from_option expr_depth stmt_depth foldr].
    fold (depth (on_result ++ on_done)).
    fold (depth (th_onError h (EVar (id_errN i)))).
    simpl. lia.
Qed.

End Shape.

Section SeriesShape.

#[local] Arguments callTap : simpl never.

Variable options : FactoryOptions.
Variable co : ContentOptions.
Variable firstAsync : Z.

(** The handlers with which [AsyncSeriesHookCodeFactory.content] calls
    [callTapsSeries]. *)
Let o : SeriesOptions :=
  mkSeries (fun i err next doneBreak => co_onError co err ++ doneBreak true)
           None false (co_onDone co) false false.

Let N : nat := length (opt_taps options).

(** The state of the loop after the iterations for the indices
    [from], ..., [from + n - 1]. *)
Let loop (from n : nat) : SeriesLoop := series_loop options o firstAsync from n.

Lemma loop_0 from : loop from 0 = mkLoop [] (co_onDone co) true 0%nat.
Proof. reflexivity. Qed.

Lemma loop_S from n :
  loop from (S n) = series_iteration options o firstAsync from (loop (S from) n).
Proof. reflexivity. Qed.

(** The three ways in which an iteration changes the state. *)
Lemma series_iteration_cases i st tap :
  opt_taps options !! i = Some tap →
  let st' := series_iteration options o firstAsync i st in
  sl_current_is_onDone st' = false
  ∧ ((* the continuation is spliced in *)
     (sl_code st' = sl_code st
      ∧ sl_current st' ()
        = callTap options i
            (mkTapHandlers (fun error => co_onError co error ++ [])
               None (Some (sl_current st))
               (false && (bool_decide (firstAsync < 0)
                          || bool_decide (Z.of_nat i < firstAsync))))
      ∧ ((sl_current_is_onDone st = true
          ∧ sl_unrollCounter st' = sl_unrollCounter st)
         ∨ (sl_current_is_onDone st = false ∧ tap_type tap = sync
            ∧ (sl_unrollCounter st ≤ 20)%nat
            ∧ sl_unrollCounter st' = S (sl_unrollCounter st))))
     ∨ (* the continuation becomes a named unit *)
     (sl_code st' = sl_code st ++ [SFunction (id_next i) [] (sl_current st ())]
      ∧ sl_current st' ()
        = callTap options i
            (mkTapHandlers (fun error => co_onError co error ++ [])
               None (Some (fun _ => [SExpr (ECall (EVar (id_next i)) [])]))
               (false && (bool_decide (firstAsync < 0)
                          || bool_decide (Z.of_nat i < firstAsync))))
      ∧ sl_current_is_onDone st = false
      ∧ sl_unrollCounter st' = 0%nat
      ∧ (tap_type tap ≠ sync
         ∨ (tap_type tap = sync ∧ (20 < sl_unrollCounter st)%nat)))).
Proof.
  intros Htap. unfold series_iteration. rewrite Htap. cbv zeta.
  destruct (sl_current_is_onDone st) eqn:Ed.
  { simpl. split; [done|]. left. repeat split. by left. }
  destruct (decide (tap_type tap = sync)) as [Hs|Hs].
  - rewrite (bool_decide_eq_true_2 _ Hs). simpl.
    case_bool_decide as Hc; simpl.
    + split; [done|]. right. repeat split. right. done.
    + split; [done|]. left. repeat split. right. repeat split; [done|lia].
  - rewrite (bool_decide_eq_false_2 _ Hs). simpl.
    split; [done|]. right. repeat split. by left.
Qed.

Hypothesis onError_units : ∀ x, units (co_onError co (EVar x)) = [].
Hypothesis onDone_units : units (co_onDone co ()) = [].

(** Where the loop makes named continuation units. *)
Lemma series_loop_units n :
  ∀ from, (from + n = N)%nat →
    let st := loop from n in
    units (sl_current st ()) = []
    ∧ sl_current_is_onDone st = bool_decide (n = 0%nat)
    ∧ (sl_unrollCounter st ≤ 21)%nat
    ∧ (∀ j, j ∈ units (sl_code st) → (from ≤ j ∧ S j < N)%nat)
    ∧ (∀ j tap, (from ≤ j)%nat → (S j < N)%nat →
         opt_taps options !! j = Some tap → tap_type tap ≠ sync →
         j ∈ units (sl_code st))
    ∧ ((0 < n)%nat →
         (∀ k, (k < sl_unrollCounter st)%nat →
            ((from + k)%nat ∉ units (sl_code st))
            ∧ ∃ tap, opt_taps options !! (from + k)%nat = Some tap
                     ∧ tap_type tap = sync)
         ∧ ((from + sl_unrollCounter st)%nat = (N - 1)%nat
            ∨ (from + sl_unrollCounter st)%nat ∈ units (sl_code st)))
    ∧ (∀ j tap, j ∈ units (sl_code st) →
         opt_taps options !! j = Some tap → tap_type tap = sync →
         ∀ k, (1 ≤ k ≤ 21)%nat →
           ((j + k)%nat ∉ units (sl_code st))
           ∧ ∃ tap', opt_taps options !! (j + k)%nat = Some tap'
                     ∧ tap_type tap' = sync)
    ∧ (∀ j, (from ≤ j)%nat → (S j < N)%nat →
         ∃ u, (j ≤ u ≤ j + 21)%nat
              ∧ (u ∈ units (sl_code st) ∨ u = (N - 1)%nat)).
Proof.
  induction n as [|n IH]; intros from Hfrom.
  { rewrite loop_0. simpl.
    repeat split; try done; try lia;
      try (exfalso;
           match goal with
           | H : _ ∈ units [] |- _ => by apply elem_of_nil in H
           end). }
  specialize (IH (S from) ltac:(lia)).
  destruct IH as (Hcur & Hdone & Hc21 & Hrange & Hnonsync & Hrun & Hsyncunit & Hwindow).
  assert (is_Some (opt_taps options !! from)) as [tap Htap]
    by (apply lookup_lt_is_Some; fold N; lia).
  rewrite loop_S.
  destruct (series_iteration_cases from (loop (S from) n) tap Htap)
    as (Hd' & [(Hcode & Hcurrent & Hcount)|(Hcode & Hcurrent & Hnd & Hcount & Hwhy)]).
  - (* spliced in *)
    cbv zeta. rewrite Hd', Hcode, Hcurrent.
    split.
    { apply callTap_units; simpl.
      - intros e. by rewrite units_app, onError_units.
      - intros; discriminate.
      - intros g [= <-]. exact Hcur. }
    split; [by rewrite bool_decide_eq_false_2 by lia|].
    destruct Hcount as [(Hinit & Hcnt)|(Hninit & Hsync & Hc20 & Hcnt)].
    + (* the last tap *)
      rewrite Hdone in Hinit. apply bool_decide_eq_true in Hinit. subst n.
      assert (from = (N - 1)%nat) as Hlast by lia.
      rewrite Hcnt. rewrite loop_0 in *. simpl in *.
      repeat split; try lia;
        try (exfalso;
             match goal with
             | H : _ ∈ units [] |- _ => by apply elem_of_nil in H
             end).
    + rewrite Hdone in Hninit. apply bool_decide_eq_false in Hninit.
      destruct (Hrun ltac:(lia)) as [Hrun1 Hrun2].
      rewrite Hcnt.
      split; [lia|]. split; [intros j Hj; specialize (Hrange j Hj); lia|].
      split.
      { intros j tap' Hj1 Hj2 Hj3 Hj4.
        destruct (decide (j = from)) as [->|]; [congruence|].
        apply (Hnonsync j tap'); [lia|done..]. }
      split.
      { intros _. split.
        - intros k Hk. destruct k as [|k].
          + replace (from + 0)%nat with from by lia. split; [|eauto].
            intros Hin. specialize (Hrange from Hin). lia.
          + replace (from + S k)%nat with (S from + k)%nat by lia.
            apply Hrun1. lia.
        - replace (from + S (sl_unrollCounter (loop (S from) n)))%nat
            with (S from + sl_unrollCounter (loop (S from) n))%nat by lia.
          done. }
      split; [done|].
      intros j Hj1 Hj2. destruct (decide (j = from)) as [->|].
      * exists (from + S (sl_unrollCounter (loop (S from) n)))%nat.
        split; [lia|].
        replace (from + S (sl_unrollCounter (loop (S from) n)))%nat
          with (S from + sl_unrollCounter (loop (S from) n))%nat by lia.
        destruct Hrun2; [by right | by left].
      * apply Hwindow; lia.
  - (* a named unit *)
    cbv zeta. rewrite Hd', Hcode, Hcurrent, Hcount.
    rewrite Hdone in Hnd. apply bool_decide_eq_false in Hnd.
    destruct (Hrun ltac:(lia)) as [Hrun1 Hrun2].
    assert (Hunits : units (sl_code (loop (S from) n)
                            ++ [SFunction (id_next from) []
                                  (sl_current (loop (S from) n) ())])
                     = units (sl_code (loop (S from) n)) ++ [from]).
    { rewrite units_app. f_equal. unfold units at 1. simpl.
      fold (units (sl_current (loop (S from) n) ())).
      by rewrite Hcur. }
    rewrite Hunits.
    assert (Hlt : (S from < N)%nat).
    { destruct Hrun2 as [Heq|Hin]; [lia|].
      specialize (Hrange _ Hin). lia. }
    split.
    { apply callTap_units; simpl.
      - intros e. by rewrite units_app, onError_units.
      - intros; discriminate.
      - intros g [= <-]. reflexivity. }
    split; [by rewrite bool_decide_eq_false_2 by lia|].
    split; [lia|].
    split.
    { intros j Hj. apply elem_of_app in Hj as [Hj|Hj].
      - specialize (Hrange j Hj). lia.
      - apply list_elem_of_singleton in Hj as ->. lia. }
    split.
    { intros j tap' Hj1 Hj2 Hj3 Hj4. apply elem_of_app.
      destruct (decide (j = from)) as [->|]; [right; set_solver|].
      left. apply (Hnonsync j tap'); [lia|done..]. }
    split.
    { intros _. split; [intros; lia|].
      right. replace (from + 0)%nat with from by lia. set_solver. }
    split.
    { intros j tap' Hj Hj3 Hj4 k Hk.
      apply elem_of_app in Hj as [Hj|Hj].
      - destruct (Hsyncunit j tap' Hj Hj3 Hj4 k Hk) as [Hnot Hex].
        split; [|done]. intros Hin. apply elem_of_app in Hin as [Hin|Hin]; [done|].
        apply list_elem_of_singleton in Hin.
        specialize (Hrange j Hj). lia.
      - apply list_elem_of_singleton in Hj as ->.
        destruct Hwhy as [Hns|[_ Hc]]; [congruence|].
        assert (sl_unrollCounter (loop (S from) n) = 21%nat) as Hc' by lia.
        destruct (Hrun1 (k - 1)%nat ltac:(lia)) as [Hnot Hex].
        replace (S from + (k - 1))%nat with (from + k)%nat in * by lia.
        split; [|done]. intros Hin. apply elem_of_app in Hin as [Hin|Hin]; [done|].
        apply list_elem_of_singleton in Hin. lia. }
    intros j Hj1 Hj2. destruct (decide (j = from)) as [->|].
    + exists from. split; [lia|]. left. set_solver.
    + destruct (Hwindow j ltac:(lia) Hj2) as (u & Hu & [Hin|Hlast]).
      * exists u. split; [done|]. left. set_solver.
      * exists u. split; [done|]. by right.
Qed.

End SeriesShape.

Section SeriesDepth.

#[local] Arguments callTap : simpl never.

Variable options : FactoryOptions.
Variable co : ContentOptions.
Variable firstAsync : Z.
Variables E0 D0 : nat.

Let o : SeriesOptions :=
  mkSeries (fun i err next doneBreak => co_onError co err ++ doneBreak true)
           None false (co_onDone co) false false.

Let N : nat := length (opt_taps options).

Let loop (from n : nat) : SeriesLoop := series_loop options o firstAsync from n.

Hypothesis onError_depth : ∀ x, (depth (co_onError co (EVar x)) ≤ E0)%nat.
Hypothesis onDone_depth : (depth (co_onDone co ()) ≤ D0)%nat.

(** The continuation that is spliced into a tap unit grows by one level
    per direct tap and starts afresh at every named unit. *)
Lemma series_loop_depth n :
  ∀ from, (from + n = N)%nat →
    let st := loop from n in
    (sl_unrollCounter st ≤ 21)%nat
    ∧ (depth (sl_current st ()) ≤ 2 + E0 `max` D0 + sl_unrollCounter st)%nat
    ∧ (depth (sl_code st) ≤ 2 + E0 `max` D0 + 22)%nat.
Proof.
  induction n as [|n IH]; intros from Hfrom.
  { simpl. repeat split; lia. }
  specialize (IH (S from) ltac:(lia)).
  destruct IH as (Hc21 & Hcur & Hcode).
  assert (is_Some (opt_taps options !! from)) as [tap Htap]
    by (apply lookup_lt_is_Some; fold N; lia).
  change (loop from (S n))
    with (series_iteration options o firstAsync from (loop (S from) n)).
  unfold o in *.
  destruct (series_iteration_cases options co firstAsync from (loop (S from) n) tap Htap)
    as (Hd' & [(Hcode' & Hcurrent & Hcount)|(Hcode' & Hcurrent & Hnd & Hcount & Hwhy)]).
  - cbv zeta. rewrite Hcode', Hcurrent.
    match goal with |- context [callTap options from ?h] =>
      destruct (callTap_depth options from h E0
                  (depth (sl_current (loop (S from) n) ()))) as [Hany Hsync]
    end; simpl.
    { intros e. rewrite depth_app. specialize (onError_depth e). simpl. lia. }
    { intros; discriminate. }
    { intros g [= <-]. done. }
    destruct Hcount as [(Hinit & Hcnt)|(Hninit & Hs & Hc20 & Hcnt)].
    + destruct n as [|n].
      * rewrite Hcnt. simpl in *. repeat split; lia.
      * exfalso.
        change (loop (S from) (S n))
          with (series_iteration options o firstAsync (S from) (loop (S (S from)) n))
          in Hinit.
        unfold series_iteration in Hinit. simpl in Hinit.
        destruct (opt_taps options !! S from); simpl in Hinit;
          repeat (match type of Hinit with
                  | context [if ?b then _ else _] => destruct b; simpl in Hinit
                  end); discriminate.
    + rewrite Hcnt. specialize (Hsync tap Htap Hs).
      simpl in Hsync. repeat split; lia.
  - cbv zeta. rewrite Hcode', Hcurrent, Hcount.
    match goal with |- context [callTap options from ?h] =>
      destruct (callTap_depth options from h E0 0%nat) as [Hany Hsync]
    end; simpl.
    { intros e. rewrite depth_app. specialize (onError_depth e). simpl. lia. }
    { intros; discriminate. }
    { intros g [= <-]. simpl. lia. }
    rewrite depth_app. unfold depth at 3. simpl.
    fold (depth (sl_current (loop (S from) n) ())).
    simpl in Hany. repeat split; lia.
Qed.

End SeriesDepth.

Section ContentShape.

#[local] Arguments callTap : simpl never.
#[local] Arguments args : simpl never.
#[local] Arguments header : simpl never.
#[local] Arguments for_interceptors : simpl never.
#[local] Arguments AsyncSeriesHookCodeFactory_content : simpl never.

Variable options : FactoryOptions.

Lemma content_units co :
  (∀ x, units (co_onError co (EVar x)) = []) →
  units (co_onDone co ()) = [] →
  unrolling_rule (opt_taps options)
                 (units (AsyncSeriesHookCodeFactory_content options co)).
Proof.
  intros HE HD. unfold AsyncSeriesHookCodeFactory_content, callTapsSeries.
  case_bool_decide as HN; simpl.
  { rewrite HD. unfold unrolling_rule. rewrite HN.
    repeat split; try (intros; lia).
    - intros i Hi. by apply elem_of_nil in Hi.
    - by apply elem_of_nil in H.
    - by apply elem_of_nil in H. }
  pose proof (series_loop_units options co
                (findIndex_not_sync (opt_taps options) 0) HE HD
                (length (opt_taps options)) 0%nat ltac:(lia))
    as (Hcur & _ & _ & Hrange & Hnonsync & _ & Hsyncunit & Hwindow).
  rewrite units_app, Hcur, app_nil_r.
  unfold unrolling_rule, direct. repeat split.
  - intros i t Ht Hd Hi. apply bool_decide_eq_false in Hd.
    apply (Hnonsync i t); [lia|done..].
  - intros i Hi. by apply Hrange.
  - eapply Hsyncunit; eauto. by apply bool_decide_eq_true in H1.
  - destruct (Hsyncunit i t H H0 ltac:(by apply bool_decide_eq_true in H1) k H2)
      as [_ (t' & Ht' & Hs)].
    exists t'. split; [done|]. by apply bool_decide_eq_true.
  - intros i Hi. apply Hwindow; [lia|done].
Qed.

Lemma content_depth co :
  (∀ x, depth (co_onError co (EVar x)) = 0%nat) →
  depth (co_onDone co ()) = 0%nat →
  (depth (AsyncSeriesHookCodeFactory_content options co) ≤ 24)%nat.
Proof.
  intros HE HD. unfold AsyncSeriesHookCodeFactory_content, callTapsSeries.
  case_bool_decide as HN; simpl; [lia|].
  pose proof (series_loop_depth options co
                (findIndex_not_sync (opt_taps options) 0) 0 0
                ltac:(intros e; rewrite HE; lia) ltac:(lia)
                (length (opt_taps options)) 0%nat ltac:(lia))
    as (Hc & Hcur & Hcode).
  rewrite depth_app. simpl in *. lia.
Qed.

Lemma units_return_new_promise ps body :
  units [SReturn (Some (ENewPromise (EFunction ps body)))] = units body.
Proof. unfold units. simpl. by rewrite app_nil_r. Qed.

Lemma depth_return_new_promise ps body :
  depth [SReturn (Some (ENewPromise (EFunction ps body)))] = S (depth body).
Proof. unfold depth. simpl. lia. Qed.

Lemma interceptor_calls_units m (actuals : Interceptor → list expr) has :
  (∀ ic, concat (map expr_units (actuals ic)) = []) →
  units (for_interceptors options has (λ i ic,
           [SExpr (ECall (EMember (getInterceptor i) m) (actuals ic))])) = [].
Proof.
  intros Ha. apply for_interceptors_units.
  intros i ic. unfold units. simpl. by rewrite Ha.
Qed.

Lemma interceptor_calls_depth m (actuals : Interceptor → list expr) has :
  (∀ ic, foldr (λ a d, expr_depth a `max` d)%nat 0%nat (actuals ic) = 0%nat) →
  depth (for_interceptors options has (λ i ic,
           [SExpr (ECall (EMember (getInterceptor i) m) (actuals ic))])) = 0%nat.
Proof.
  intros Ha.
  enough (depth (for_interceptors options has (λ i ic,
           [SExpr (ECall (EMember (getInterceptor i) m) (actuals ic))])) ≤ 0)%nat by lia.
  apply for_interceptors_depth.
  intros i ic. unfold depth. simpl. rewrite Ha. lia.
Qed.

Lemma header_units : units (header options) = [].
Proof. unfold header. rewrite units_app. destruct needContext; by case_bool_decide. Qed.

Lemma header_depth : depth (header options) = 0%nat.
Proof. unfold header. rewrite depth_app. destruct needContext; by case_bool_decide. Qed.

(** The code around the content, in each of the three conventions, has
    no continuation units of its own and adds at most one level. *)
Lemma create_shape :
  unrolling_rule (opt_taps options)
    (units (fn_body (create AsyncSeriesHookCodeFactory_content options)))
  ∧ (depth (fn_body (create AsyncSeriesHookCodeFactory_content options)) ≤ 25)%nat.
Proof.
  assert (Hargs : ∀ ic, concat (map expr_units
                     (args options (context_arg (int_context ic)) None)) = []).
  { intros ic. by rewrite args_units, context_arg_units. }
  assert (Hargsd : ∀ ic, foldr (λ a d, expr_depth a `max` d)%nat 0%nat
                     (args options (context_arg (int_context ic)) None) = 0%nat).
  { intros ic. by rewrite args_depth, context_arg_depth. }
  pose (helper := [SVar id_sync (Some (EBool true));
                   SFunction id_error [id_err]
                     [SIf (EVar id_sync)
                        [SExpr (ECall (EVar id_resolve)
                           [ECall (EMember (ECall (EMember (EVar id_Promise) "resolve") [])
                                           "then")
                                  [EFunction [] [SThrow (EVar id_err)]]])]
                        [SExpr (ECall (EVar id_reject) [EVar id_err])]]]).
  assert (Hhu : units helper = []) by reflexivity.
  assert (Hhd : depth helper = 3%nat) by reflexivity.
  assert (Hsu : units [SAssign id_sync (EBool false)] = []) by reflexivity.
  assert (Hsd : depth [SAssign id_sync (EBool false)] = 0%nat) by reflexivity.
  unfold create, contentWithInterceptors.
  destruct (opt_type options); case_bool_decide as Hi; cbn [fn_body];
    try match goal with
        | |- context [existsb ?f ?c] => destruct (existsb f c)
        end;
    fold helper;
    rewrite ?units_app, ?depth_app, ?header_units, ?header_depth,
            ?units_return_new_promise, ?depth_return_new_promise,
            ?units_app, ?depth_app, ?Hhu, ?Hhd, ?Hsu, ?Hsd,
            ?(interceptor_calls_units "call" _ _ Hargs),
            ?(interceptor_calls_depth "call" _ _ Hargsd);
    cbn [app]; rewrite ?app_nil_r.
  all: split.
  all: try (apply content_units; simpl; intros;
            rewrite ?units_app, ?(interceptor_calls_units "error" (λ _, [EVar _])),
                    ?(interceptor_calls_units "done" (λ _, [])); done).
  all: match goal with
       | |- context [depth (AsyncSeriesHookCodeFactory_content options ?co)] =>
           assert (depth (AsyncSeriesHookCodeFactory_content options co) ≤ 24)%nat
             by (apply content_depth; simpl; intros;
                 rewrite ?depth_app,
                         ?(interceptor_calls_depth "error" (λ _, [EVar _])),
                         ?(interceptor_calls_depth "done" (λ _, [])); done)
       end.
  all: match goal with
       | H : (depth ?c ≤ 24)%nat |- _ => revert H; generalize (depth c); intros d H
       end.
  all: change (depth []) with 0%nat; lia.
Qed.

End ContentShape.

(** * Rules of evaluation

    The evaluator, read as a big-step semantics: one rule per construct
    that the emitted code uses. *)

Section Rules.

Variable w : World.

Implicit Types (st : state) (s : nat) (e : expr) (c : stmt) (b : code).

Lemma converges_ret {A} (f : nat → option A) (x : A) :
  (∀ n, f (S n) = Some x) → converges f x.
Proof. intros H. exists 1%nat. intros [|n] Hn; [lia | apply H]. Qed.

Lemma ev_undefined s st : converges (λ n, eval w n s EUndefined st) (Val VUndefined, st).
Proof. by apply converges_ret. Qed.

Lemma ev_null s st : converges (λ n, eval w n s ENull st) (Val VNull, st).
Proof. by apply converges_ret. Qed.

Lemma ev_bool s st v : converges (λ n, eval w n s (EBool v) st) (Val (VBool v), st).
Proof. by apply converges_ret. Qed.

Lemma ev_num s st z : converges (λ n, eval w n s (ENum z) st) (Val (VNum z), st).
Proof. by apply converges_ret. Qed.

Lemma ev_str s st t : converges (λ n, eval w n s (EStr t) st) (Val (VStr t), st).
Proof. by apply converges_ret. Qed.

Lemma ev_this s st f : converges (λ n, eval w n s (EThis f) st) (Val (this_field f), st).
Proof. by apply converges_ret. Qed.

Lemma ev_object s st : converges (λ n, eval w n s EObject st) (Val VObject, st).
Proof. by apply converges_ret. Qed.

Lemma ev_function s st ps body :
  converges (λ n, eval w n s (EFunction ps body) st) (Val (VClosure ps body s), st).
Proof. by apply converges_ret. Qed.

Lemma ev_var s st x v :
  read_var (frames st) s x = Some v →
  converges (λ n, eval w n s (EVar x) st) (Val v, st).
Proof. intros H. apply converges_ret. intros n. simpl. by rewrite H. Qed.

Lemma ev_index s st st' e i v :
  converges (λ n, eval w n s e st) (Val v, st') →
  converges (λ n, eval w n s (EIndex e i) st) (index v i, st').
Proof.
  intros [n1 H1]. exists (S n1). intros [|n] Hn; [lia|]. simpl.
  by rewrite H1 by lia.
Qed.

Lemma ev_member s st st' e m v :
  converges (λ n, eval w n s e st) (Val v, st') →
  converges (λ n, eval w n s (EMember e m) st) (member v m, st').
Proof.
  intros [n1 H1]. exists (S n1). intros [|n] Hn; [lia|]. simpl.
  by rewrite H1 by lia.
Qed.

Lemma ev_not s st st' e v :
  converges (λ n, eval w n s e st) (Val v, st') →
  converges (λ n, eval w n s (ENot e) st) (Val (VBool (negb (truthy v))), st').
Proof.
  intros [n1 H1]. exists (S n1). intros [|n] Hn; [lia|]. simpl.
  by rewrite H1 by lia.
Qed.

Lemma ev_or_left s st st' a e2 v :
  converges (λ n, eval w n s a st) (Val v, st') →
  truthy v = true →
  converges (λ n, eval w n s (EOr a e2) st) (Val v, st').
Proof.
  intros [n1 H1] Hv. exists (S n1). intros [|n] Hn; [lia|]. simpl.
  by rewrite H1, Hv by lia.
Qed.

Lemma ev_or_right s st st' a e2 v r :
  converges (λ n, eval w n s a st) (Val v, st') →
  truthy v = false →
  converges (λ n, eval w n s e2 st') r →
  converges (λ n, eval w n s (EOr a e2) st) r.
Proof.
  intros [n1 H1] Hv [n2 H2]. exists (S (n1 + n2)). intros [|n] Hn; [lia|]. simpl.
  rewrite H1, Hv by lia. apply H2. lia.
Qed.

Lemma ev_binary s st st1 st2 a e2 x y (op : value → value → value) :
  converges (λ n, eval w n s a st) (Val x, st1) →
  converges (λ n, eval w n s e2 st1) (Val y, st2) →
  converges (λ n, eval2 w n s a e2 op st) (Val (op x y), st2).
Proof.
  intros [n1 H1] [n2 H2]. exists (S (n1 + n2)). intros [|n] Hn; [lia|]. simpl.
  by rewrite H1, H2 by lia.
Qed.

Lemma ev_add s st st1 st2 a e2 x y :
  converges (λ n, eval w n s a st) (Val x, st1) →
  converges (λ n, eval w n s e2 st1) (Val y, st2) →
  converges (λ n, eval w n s (EAdd a e2) st) (Val (add_values x y), st2).
Proof.
  intros H1 H2. destruct (ev_binary _ _ _ _ _ _ _ _ add_values H1 H2) as [n0 H].
  exists (S n0). intros [|n] Hn; [lia|]. simpl. apply H. lia.
Qed.

Lemma ev_strict_ne s st st1 st2 a e2 x y :
  converges (λ n, eval w n s a st) (Val x, st1) →
  converges (λ n, eval w n s e2 st1) (Val y, st2) →
  converges (λ n, eval w n s (EStrictNe a e2) st) (Val (VBool (negb (strict_eq x y))), st2).
Proof.
  intros H1 H2.
  destruct (ev_binary _ _ _ _ _ _ _ _ (λ x y, VBool (negb (strict_eq x y))) H1 H2)
    as [n0 H].
  exists (S n0). intros [|n] Hn; [lia|]. simpl. apply H. lia.
Qed.

Lemma ev_strict_eq s st st1 st2 a e2 x y :
  converges (λ n, eval w n s a st) (Val x, st1) →
  converges (λ n, eval w n s e2 st1) (Val y, st2) →
  converges (λ n, eval w n s (EStrictEq a e2) st) (Val (VBool (strict_eq x y)), st2).
Proof.
  intros H1 H2.
  destruct (ev_binary _ _ _ _ _ _ _ _ (λ x y, VBool (strict_eq x y)) H1 H2) as [n0 H].
  exists (S n0). intros [|n] Hn; [lia|]. simpl. apply H. lia.
Qed.

Lemma ev_le s st st1 st2 a e2 x y :
  converges (λ n, eval w n s a st) (Val x, st1) →
  converges (λ n, eval w n s e2 st1) (Val y, st2) →
  converges (λ n, eval w n s (ELe a e2) st) (Val (compare Z.leb x y), st2).
Proof.
  intros H1 H2. destruct (ev_binary _ _ _ _ _ _ _ _ (compare Z.leb) H1 H2) as [n0 H].
  exists (S n0). intros [|n] Hn; [lia|]. simpl. apply H. lia.
Qed.

Lemma ev_gt s st st1 st2 a e2 x y :
  converges (λ n, eval w n s a st) (Val x, st1) →
  converges (λ n, eval w n s e2 st1) (Val y, st2) →
  converges (λ n, eval w n s (EGt a e2) st) (Val (compare Z.gtb x y), st2).
Proof.
  intros H1 H2. destruct (ev_binary _ _ _ _ _ _ _ _ (compare Z.gtb) H1 H2) as [n0 H].
  exists (S n0). intros [|n] Hn; [lia|]. simpl. apply H. lia.
Qed.

Lemma ev_pre_dec s st x v fs :
  read_var (frames st) s x = Some v →
  write_var (frames st) s x
    (match to_number v with Some z => VNum (z - 1) | None => VNaN end) = Some fs →
  converges (λ n, eval w n s (EPreDec x) st)
    (Val (match to_number v with Some z => VNum (z - 1) | None => VNaN end),
     set_frames fs st).
Proof. intros H1 H2. apply converges_ret. intros n. simpl. by rewrite H1, H2. Qed.

Lemma ev_new_error s st st' e v :
  converges (λ n, eval w n s e st) (Val v, st') →
  converges (λ n, eval w n s (ENewError e) st) (Val (VError "Error" (to_string v)), st').
Proof.
  intros [n1 H1]. exists (S n1). intros [|n] Hn; [lia|]. simpl.
  by rewrite H1 by lia.
Qed.

Lemma ev_list_nil s st : converges (λ n, eval_list w n s [] st) (inl [], st).
Proof. by apply converges_ret. Qed.

Lemma ev_list_cons s st st1 st2 e es v vs :
  converges (λ n, eval w n s e st) (Val v, st1) →
  converges (λ n, eval_list w n s es st1) (inl vs, st2) →
  converges (λ n, eval_list w n s (e :: es) st) (inl (v :: vs), st2).
Proof.
  intros [n1 H1] [n2 H2]. exists (S (n1 + n2)). intros [|n] Hn; [lia|]. simpl.
  by rewrite H1, H2 by lia.
Qed.

Lemma ev_call s st st1 st2 f actuals vf vs r :
  converges (λ n, eval w n s f st) (Val vf, st1) →
  converges (λ n, eval_list w n s actuals st1) (inl vs, st2) →
  converges (λ n, call w n vf vs st2) r →
  converges (λ n, eval w n s (ECall f actuals) st) r.
Proof.
  intros [n1 H1] [n2 H2] [n3 H3]. exists (S (n1 + n2 + n3)).
  intros [|n] Hn; [lia|]. simpl. rewrite H1, H2 by lia. apply H3. lia.
Qed.

(** Calls *)

Lemma call_closure st ps body s0 actuals o st' :
  converges (λ n, exec_block w n (length (frames st)) body
                    (set_frames (frames st ++ [mkFrame (bind_params ps actuals) (Some s0)]) st))
            (o, st') →
  converges (λ n, call w n (VClosure ps body s0) actuals st)
            (match o with
             | OReturn v => Val v
             | OThrow v => Exc v
             | _ => Val VUndefined
             end, st').
Proof.
  intros [n1 H1]. exists (S n1). intros [|n] Hn; [lia|]. simpl.
  rewrite H1 by lia. by destruct o.
Qed.

Lemma call_callback st actuals :
  converges (λ n, call w n VCallback actuals st)
            (Val VUndefined, log (EvCallback actuals) st).
Proof. by apply converges_ret. Qed.

Lemma call_resolve st actuals :
  converges (λ n, call w n VResolve actuals st)
            (Val VUndefined, log (EvResolve actuals) st).
Proof. by apply converges_ret. Qed.

Lemma call_reject st actuals :
  converges (λ n, call w n VReject actuals st)
            (Val VUndefined, log (EvReject actuals) st).
Proof. by apply converges_ret. Qed.

Lemma call_interceptor st k m actuals :
  converges (λ n, call w n (VInterceptorMethod k m) actuals st)
            (Val VUndefined, log (EvInterceptor k m actuals) st).
Proof. by apply converges_ret. Qed.

(** A tap function that is given no function of the dispatcher. *)
Lemma call_tap_plain st i actuals :
  last_closure actuals = None →
  converges (λ n, call w n (VTapFn i) actuals st)
            (ending_result (tb_ending (tap_behaviour w (clock st) i)),
             tick (log (EvTap i (plain actuals)) st)).
Proof.
  intros H. apply converges_ret. intros n. simpl. rewrite H.
  by destruct (tb_ending _).
Qed.

(** A tap function that is given a callback. *)
Lemma call_tap_callback st i actuals cb o st' :
  last_closure actuals = Some cb →
  converges (λ n, call_back w n (TapCallback i) cb
                    (tb_callbacks (tap_behaviour w (clock st) i))
                    (enroll (TapCallback i) cb (tick (log (EvTap i (plain actuals)) st))))
            (o, st') →
  converges (λ n, call w n (VTapFn i) actuals st)
            (match o with
             | None => ending_result (tb_ending (tap_behaviour w (clock st) i))
             | Some v => Exc v
             end, st').
Proof.
  intros H [n1 H1]. exists (S n1). intros [|n] Hn; [lia|]. simpl. rewrite H.
  rewrite H1 by lia. destruct o; [done|]. by destruct (tb_ending _).
Qed.

Lemma call_back_nil st t cb :
  converges (λ n, call_back w n t cb [] st) (None, st).
Proof. by apply converges_ret. Qed.

Lemma call_back_cons_val st t cb actuals calls v st1 r :
  converges (λ n, call w n cb actuals (log (EvFire t actuals) st)) (Val v, st1) →
  converges (λ n, call_back w n t cb calls st1) r →
  converges (λ n, call_back w n t cb (actuals :: calls) st) r.
Proof.
  intros [n1 H1] [n2 H2]. exists (S (n1 + n2)). intros [|n] Hn; [lia|]. simpl.
  rewrite H1 by lia. apply H2. lia.
Qed.

Lemma call_back_cons_exc st t cb actuals calls v st1 :
  converges (λ n, call w n cb actuals (log (EvFire t actuals) st)) (Exc v, st1) →
  converges (λ n, call_back w n t cb (actuals :: calls) st) (Some v, st1).
Proof.
  intros [n1 H1]. exists (S n1). intros [|n] Hn; [lia|]. simpl.
  by rewrite H1 by lia.
Qed.

Lemma call_then st p actuals o st' :
  converges (λ n, settle w n p actuals
                    (thb_settles (then_behaviour w (clock st) p))
                    (let st := tick (log (EvThen p) st) in
                     let st := match actuals !! 0%nat with
                               | Some h => enroll (OnFulfilled p) h st
                               | None => st
                               end in
                     match actuals !! 1%nat with
                     | Some h => enroll (OnRejected p) h st
                     | None => st
                     end))
            (o, st') →
  converges (λ n, call w n (VThenOf p) actuals st)
            (match o with
             | None => ending_result (thb_ending (then_behaviour w (clock st) p))
             | Some v => Exc v
             end, st').
Proof.
  intros [n1 H1]. exists (S n1). intros [|n] Hn; [lia|]. simpl.
  simpl in H1. rewrite H1 by lia. destruct o; [done|]. by destruct (thb_ending (then_behaviour w (clock st) p)).
Qed.

Lemma settle_nil st p handlers :
  converges (λ n, settle w n p handlers [] st) (None, st).
Proof. by apply converges_ret. Qed.

Lemma settle_cons_val st p handlers (fulfilled : bool) actuals settles h v st1 r :
  nth_closure handlers (if fulfilled then 0%nat else 1%nat) = Some h →
  converges (λ n, call w n h actuals
                    (log (EvFire (if fulfilled then OnFulfilled p else OnRejected p)
                                 actuals) st)) (Val v, st1) →
  converges (λ n, settle w n p handlers settles st1) r →
  converges (λ n, settle w n p handlers ((fulfilled, actuals) :: settles) st) r.
Proof.
  intros Hh [n1 H1] [n2 H2]. exists (S (n1 + n2)). intros [|n] Hn; [lia|]. simpl.
  rewrite Hh, H1 by lia. apply H2. lia.
Qed.

Lemma settle_cons_exc st p handlers (fulfilled : bool) actuals settles h v st1 :
  nth_closure handlers (if fulfilled then 0%nat else 1%nat) = Some h →
  converges (λ n, call w n h actuals
                    (log (EvFire (if fulfilled then OnFulfilled p else OnRejected p)
                                 actuals) st)) (Exc v, st1) →
  converges (λ n, settle w n p handlers ((fulfilled, actuals) :: settles) st)
            (Some v, st1).
Proof.
  intros Hh [n1 H1]. exists (S n1). intros [|n] Hn; [lia|]. simpl.
  by rewrite Hh, H1 by lia.
Qed.

(** Statements *)

Lemma ex_var_init s st st' x e v :
  converges (λ n, eval w n s e st) (Val v, st') →
  converges (λ n, exec w n s (SVar x (Some e)) st)
            (ONormal, set_frames (bind_in (frames st') s x v) st').
Proof.
  intros [n1 H1]. exists (S n1). intros [|n] Hn; [lia|]. simpl.
  by rewrite H1 by lia.
Qed.

Lemma ex_var_init_exc s st st' x e v :
  converges (λ n, eval w n s e st) (Exc v, st') →
  converges (λ n, exec w n s (SVar x (Some e)) st) (OThrow v, st').
Proof.
  intros [n1 H1]. exists (S n1). intros [|n] Hn; [lia|]. simpl.
  by rewrite H1 by lia.
Qed.

Lemma ex_var_fresh s st x :
  (f ← frames st !! s; f_vars f !! x) = None →
  converges (λ n, exec w n s (SVar x None) st)
            (ONormal, set_frames (bind_in (frames st) s x VUndefined) st).
Proof. intros H. apply converges_ret. intros n. simpl. by rewrite H. Qed.

Lemma ex_var_bound s st x v :
  (f ← frames st !! s; f_vars f !! x) = Some v →
  converges (λ n, exec w n s (SVar x None) st) (ONormal, st).
Proof. intros H. apply converges_ret. intros n. simpl. by rewrite H. Qed.

Lemma ex_assign s st st' x e v fs :
  converges (λ n, eval w n s e st) (Val v, st') →
  write_var (frames st') s x v = Some fs →
  converges (λ n, exec w n s (SAssign x e) st) (ONormal, set_frames fs st').
Proof.
  intros [n1 H1] H2. exists (S n1). intros [|n] Hn; [lia|]. simpl.
  by rewrite H1, H2 by lia.
Qed.

Lemma ex_expr s st st' e r :
  converges (λ n, eval w n s e st) (r, st') →
  converges (λ n, exec w n s (SExpr e) st)
            (match r with Val _ => ONormal | Exc v => OThrow v end, st').
Proof.
  intros [n1 H1]. exists (S n1). intros [|n] Hn; [lia|]. simpl.
  rewrite H1 by lia. by destruct r.
Qed.

Lemma ex_if s st st' cnd thn els v r :
  converges (λ n, eval w n s cnd st) (Val v, st') →
  converges (λ n, exec_block w n s (if truthy v then thn else els) st') r →
  converges (λ n, exec w n s (SIf cnd thn els) st) r.
Proof.
  intros [n1 H1] [n2 H2]. exists (S (n1 + n2)). intros [|n] Hn; [lia|]. simpl.
  rewrite H1 by lia. apply H2. lia.
Qed.

Lemma ex_try_caught s st st' body x handler v r :
  converges (λ n, exec_block w n s body st) (OThrow v, st') →
  converges (λ n, exec_block w n s handler
                    (set_frames (bind_in (frames st') s x v) st')) r →
  converges (λ n, exec w n s (STry body x handler) st) r.
Proof.
  intros [n1 H1] [n2 H2]. exists (S (n1 + n2)). intros [|n] Hn; [lia|]. simpl.
  rewrite H1 by lia. apply H2. lia.
Qed.

Lemma ex_try_normal s st st' body x handler :
  converges (λ n, exec_block w n s body st) (ONormal, st') →
  converges (λ n, exec w n s (STry body x handler) st) (ONormal, st').
Proof.
  intros [n1 H1]. exists (S n1). intros [|n] Hn; [lia|]. simpl.
  by rewrite H1 by lia.
Qed.

Lemma ex_throw s st st' e v :
  converges (λ n, eval w n s e st) (Val v, st') →
  converges (λ n, exec w n s (SThrow e) st) (OThrow v, st').
Proof.
  intros [n1 H1]. exists (S n1). intros [|n] Hn; [lia|]. simpl.
  by rewrite H1 by lia.
Qed.

Lemma ex_return s st st' e v :
  converges (λ n, eval w n s e st) (Val v, st') →
  converges (λ n, exec w n s (SReturn (Some e)) st) (OReturn v, st').
Proof.
  intros [n1 H1]. exists (S n1). intros [|n] Hn; [lia|]. simpl.
  by rewrite H1 by lia.
Qed.

Lemma ex_break s st : converges (λ n, exec w n s SBreak st) (OBreak, st).
Proof. by apply converges_ret. Qed.

Lemma ex_function s st f ps body :
  converges (λ n, exec w n s (SFunction f ps body) st)
            (ONormal, set_frames (bind_in (frames st) s f (VClosure ps body s)) st).
Proof. by apply converges_ret. Qed.

Lemma ex_block_nil s st : converges (λ n, exec_block w n s [] st) (ONormal, st).
Proof. by apply converges_ret. Qed.

Lemma ex_block_cons s st st1 c b r :
  converges (λ n, exec w n s c st) (ONormal, st1) →
  converges (λ n, exec_block w n s b st1) r →
  converges (λ n, exec_block w n s (c :: b) st) r.
Proof.
  intros [n1 H1] [n2 H2]. exists (S (n1 + n2)). intros [|n] Hn; [lia|]. simpl.
  rewrite H1 by lia. apply H2. lia.
Qed.

Lemma ex_block_abrupt s st st1 c b o :
  o ≠ ONormal →
  converges (λ n, exec w n s c st) (o, st1) →
  converges (λ n, exec_block w n s (c :: b) st) (o, st1).
Proof.
  intros Ho [n1 H1]. exists (S n1). intros [|n] Hn; [lia|]. simpl.
  rewrite H1 by lia. by destruct o.
Qed.

End Rules.

Section Blocks.

Variable w : World.

(** A block that is made of two. *)
Lemma exec_block_app s c1 : ∀ c2 n st,
  exec_block w n s (c1 ++ c2) st
  = match exec_block w n s c1 st with
    | Some (ONormal, st') => exec_block w (n - length c1) s c2 st'
    | r => r
    end.
Proof.
  induction c1 as [|c c1 IH]; intros c2 n st.
  - by destruct n as [|n].
  - destruct n as [|n]; [done|]. simpl.
    destruct (exec w n s c st) as [[[| | |] st1]|]; done.
Qed.

Lemma ex_block_app s st st1 c1 c2 r :
  converges (λ n, exec_block w n s c1 st) (ONormal, st1) →
  converges (λ n, exec_block w n s c2 st1) r →
  converges (λ n, exec_block w n s (c1 ++ c2) st) r.
Proof.
  intros [n1 H1] [n2 H2]. exists (n1 + n2 + length c1)%nat. intros n Hn.
  rewrite exec_block_app, H1 by lia. apply H2. lia.
Qed.

Lemma ex_block_app_abrupt s st st1 c1 c2 o :
  o ≠ ONormal →
  converges (λ n, exec_block w n s c1 st) (o, st1) →
  converges (λ n, exec_block w n s (c1 ++ c2) st) (o, st1).
Proof.
  intros Ho [n1 H1]. exists n1. intros n Hn.
  rewrite exec_block_app, H1 by lia. by destruct o.
Qed.

(** [do { body } while (c)] with a body that breaks, throws, or ends
    with [c] falsy. *)
Lemma ex_do_while_break s st st1 body c :
  converges (λ n, exec_block w n s body st) (OBreak, st1) →
  converges (λ n, exec w n s (SDoWhile body c) st) (ONormal, st1).
Proof.
  intros [n1 H1]. exists (S n1). intros [|n] Hn; [lia|]. simpl.
  by rewrite H1 by lia.
Qed.

Lemma ex_do_while_throw s st st1 body c v :
  converges (λ n, exec_block w n s body st) (OThrow v, st1) →
  converges (λ n, exec w n s (SDoWhile body c) st) (OThrow v, st1).
Proof.
  intros [n1 H1]. exists (S n1). intros [|n] Hn; [lia|]. simpl.
  by rewrite H1 by lia.
Qed.

Lemma ex_do_while_last s st st1 st2 body c v :
  converges (λ n, exec_block w n s body st) (ONormal, st1) →
  converges (λ n, eval w n s c st1) (Val v, st2) → truthy v = false →
  converges (λ n, exec w n s (SDoWhile body c) st) (ONormal, st2).
Proof.
  intros [n1 H1] [n2 H2] Hv. exists (S (n1 + n2)). intros [|n] Hn; [lia|]. simpl.
  by rewrite H1, H2, Hv by lia.
Qed.

End Blocks.

(** * Reading and writing variables *)

Section Frames.

Implicit Types (fs : list frame) (s : nat) (x y : ident).

Lemma bind_in_length fs s x v : length (bind_in fs s x v) = length fs.
Proof. unfold bind_in. apply length_alter. Qed.

Lemma bound_in_bind_eq fs s x v :
  (s < length fs)%nat → bound_in (bind_in fs s x v) s x = Some v.
Proof.
  intros Hs. unfold bound_in, bind_in.
  destruct (lookup_lt_is_Some_2 fs s Hs) as [f Hf].
  rewrite list_lookup_alter_eq, Hf. simpl. apply lookup_insert_eq.
Qed.

Lemma bound_in_bind_ne fs s s' x y v :
  (s, x) ≠ (s', y) → bound_in (bind_in fs s' y v) s x = bound_in fs s x.
Proof.
  intros Hne. unfold bound_in, bind_in.
  destruct (decide (s = s')) as [->|Hs].
  - rewrite list_lookup_alter_eq. destruct (fs !! s') as [f|]; [|done]. simpl.
    apply lookup_insert_ne. congruence.
  - by rewrite list_lookup_alter_ne.
Qed.

Lemma parent_bind_in fs s' y v s :
  (f_parent <$> bind_in fs s' y v !! s) = (f_parent <$> fs !! s).
Proof.
  unfold bind_in. destruct (decide (s = s')) as [->|Hs].
  - rewrite list_lookup_alter_eq. by destruct (fs !! s').
  - by rewrite list_lookup_alter_ne.
Qed.

(** [find_frame] in terms of [bound_in]. *)
Lemma find_frame_S fuel fs s x :
  find_frame (S fuel) fs s x
  = match fs !! s with
    | None => None
    | Some f =>
        match bound_in fs s x with
        | Some _ => Some s
        | None => match f_parent f with
                  | Some p => find_frame fuel fs p x
                  | None => None
                  end
        end
    end.
Proof. unfold bound_in. simpl. by destruct (fs !! s). Qed.

Lemma find_frame_bind_ne fuel fs s s' x y v :
  x ≠ y → find_frame fuel (bind_in fs s' y v) s x = find_frame fuel fs s x.
Proof.
  intros Hne. revert s. induction fuel as [|fuel IH]; intros s; [done|].
  rewrite !find_frame_S.
  rewrite (bound_in_bind_ne fs s s' x y v) by congruence.
  pose proof (parent_bind_in fs s' y v s) as Hp.
  destruct (bind_in fs s' y v !! s) as [f'|], (fs !! s) as [f|];
    simpl in Hp; simplify_eq; [|done].
  destruct (bound_in fs s x); [done|].
  rewrite Hp. destruct (f_parent f); [apply IH | done].
Qed.

Lemma read_var_bind_ne fs s s' x y v :
  x ≠ y → read_var (bind_in fs s' y v) s x = read_var fs s x.
Proof.
  intros Hne. unfold read_var.
  rewrite bind_in_length, find_frame_bind_ne by done.
  destruct (find_frame (length fs) fs s x) as [s0|]; [|done].
  apply (bound_in_bind_ne fs s0 s' x y v). congruence.
Qed.

Lemma read_var_here fs s x v :
  bound_in fs s x = Some v → read_var fs s x = Some v.
Proof.
  intros Hb. unfold read_var.
  assert (Hs : (s < length fs)%nat).
  { unfold bound_in in Hb. destruct (fs !! s) eqn:E; [|done].
    by eapply lookup_lt_Some. }
  destruct (length fs) as [|n] eqn:El; [lia|].
  rewrite find_frame_S, Hb.
  destruct (fs !! s) as [f|] eqn:E.
  - exact Hb.
  - apply lookup_ge_None in E. lia.
Qed.

Lemma read_var_bind_eq fs s x v :
  (s < length fs)%nat → read_var (bind_in fs s x v) s x = Some v.
Proof. intros Hs. apply read_var_here. by apply bound_in_bind_eq. Qed.

(** Frames that were there stay as they are when a frame is added. *)
Lemma bound_in_app fs fr s x :
  (s < length fs)%nat → bound_in (fs ++ [fr]) s x = bound_in fs s x.
Proof. intros Hs. unfold bound_in. by rewrite lookup_app_l. Qed.

(** With parents that are earlier frames the search for a binding does
    not depend on the fuel nor on later frames. *)
Lemma find_frame_indep fs ext x :
  (∀ s f p, fs !! s = Some f → f_parent f = Some p → (p < s)%nat) →
  ∀ s fuel fuel', (s < fuel)%nat → (s < fuel')%nat → (s < length fs)%nat →
    find_frame fuel (fs ++ ext) s x = find_frame fuel' fs s x.
Proof.
  intros Hdec s. induction s as [s IH] using lt_wf_ind.
  intros [|fuel] [|fuel'] H1 H2 Hs; try lia.
  rewrite !find_frame_S. unfold bound_in.
  rewrite lookup_app_l by done.
  destruct (fs !! s) as [f|] eqn:Ef; [|done]. simpl.
  destruct (f_vars f !! x); [done|].
  destruct (f_parent f) as [p|] eqn:Ep; [|done].
  specialize (Hdec s f p Ef Ep).
  apply IH; lia.
Qed.

Lemma read_var_app_for (P : ident → bool) fs fr s x :
  wf_frames_for P fs → (s < length fs)%nat →
  read_var (fs ++ [fr]) s x = read_var fs s x.
Proof.
  intros (_ & Hdec & _) Hs. unfold read_var.
  rewrite (find_frame_indep fs [fr] x Hdec s _ (length fs))
    by (rewrite ?length_app; simpl; lia).
  destruct (find_frame (length fs) fs s x) as [s'|] eqn:E; [|done].
  destruct (decide (s' < length fs)%nat) as [Hlt|Hge].
  - by rewrite lookup_app_l.
  - (* the frame that was found exists *)
    exfalso. clear -E Hge.
    revert s E. generalize (length fs) at 1.
    intros fuel. induction fuel as [|fuel IH]; intros s E; [done|].
    rewrite find_frame_S in E.
    destruct (fs !! s) as [f|] eqn:Ef; [|done].
    destruct (bound_in fs s x).
    + simplify_eq. apply lookup_lt_Some in Ef. lia.
    + destruct (f_parent f); [by eapply IH | done].
Qed.

(** A variable of the new frame, or of the frames around it. *)
Lemma read_var_new_frame_for (P : ident → bool) fs vars p x :
  wf_frames_for P fs → (p < length fs)%nat →
  read_var (fs ++ [mkFrame vars (Some p)]) (length fs) x
  = match vars !! x with
    | Some v => Some v
    | None => read_var fs p x
    end.
Proof.
  intros Hwf Hp.
  destruct (vars !! x) as [v|] eqn:Ev.
  - apply read_var_here. unfold bound_in. by rewrite list_lookup_middle.
  - rewrite <- (read_var_app_for P fs (mkFrame vars (Some p)) p x) by done.
    unfold read_var. rewrite length_app. simpl.
    replace (length fs + 1)%nat with (S (length fs)) by lia.
    rewrite find_frame_S. unfold bound_in at 1.
    rewrite list_lookup_middle by done. simpl. rewrite Ev.
    destruct Hwf as (_ & Hdec & _).
    rewrite (find_frame_indep fs [mkFrame vars (Some p)] x Hdec p _ (length fs))
      by lia.
    rewrite <- (find_frame_indep fs [mkFrame vars (Some p)] x Hdec p
                  (S (length fs)) (length fs)) by lia.
    done.
Qed.

(** A stable identifier is read from the activation of the dispatcher. *)
Lemma find_frame_for (P : ident → bool) fs x v :
  wf_frames_for P fs → P x = true → bound_in fs 1 x = Some v →
  ∀ s fuel, (1 ≤ s)%nat → (s < fuel)%nat → (s < length fs)%nat →
    find_frame fuel fs s x = Some 1%nat.
Proof.
  intros (Hlen & Hdec & Hrest) Hx Hb s.
  induction s as [s IH] using lt_wf_ind. intros [|fuel] H1 H2 Hs; [lia|].
  rewrite find_frame_S.
  destruct (lookup_lt_is_Some_2 fs s Hs) as [f Hf]. rewrite Hf.
  destruct (decide (s = 1%nat)) as [->|Hne]; [by rewrite Hb|].
  destruct (Hrest s f Hf ltac:(lia)) as [(p & Hp & Hp1) Hnone].
  unfold bound_in. rewrite Hf. simpl. rewrite (Hnone x Hx), Hp.
  specialize (Hdec s f p Hf Hp). apply IH; lia.
Qed.

Lemma read_var_for (P : ident → bool) fs s x v :
  wf_frames_for P fs → P x = true → bound_in fs 1 x = Some v →
  (1 ≤ s < length fs)%nat → read_var fs s x = Some v.
Proof.
  intros Hwf Hx Hb Hs. unfold read_var.
  by rewrite (find_frame_for P fs x v Hwf Hx Hb s) by lia.
Qed.

Lemma write_var_here fs s x v v' :
  bound_in fs s x = Some v → write_var fs s x v' = Some (bind_in fs s x v').
Proof.
  intros Hb. unfold write_var.
  assert (Hs : (s < length fs)%nat).
  { unfold bound_in in Hb. destruct (fs !! s) eqn:E; [|done].
    by eapply lookup_lt_Some. }
  destruct (length fs) as [|n] eqn:El; [lia|].
  rewrite find_frame_S, Hb.
  destruct (fs !! s) as [f|] eqn:E; [done|].
  apply lookup_ge_None in E. lia.
Qed.

(** Reading and writing a variable of the parent from a frame that does
    not bind it. *)
Lemma find_frame_parent fs s p f x v :
  fs !! s = Some f → f_vars f !! x = None → f_parent f = Some p →
  (p < s)%nat → bound_in fs p x = Some v →
  find_frame (length fs) fs s x = Some p.
Proof.
  intros Hf Hn Hp Hps Hb.
  assert (Hs : (s < length fs)%nat) by (by eapply lookup_lt_Some).
  assert (Hnb : bound_in fs s x = None) by (unfold bound_in; by rewrite Hf).
  destruct (length fs) as [|[|n]] eqn:El; try lia.
  rewrite find_frame_S, Hf, Hnb, Hp, find_frame_S, Hb.
  destruct (fs !! p) as [fp|] eqn:E; [done|].
  unfold bound_in in Hb. by rewrite E in Hb.
Qed.

Lemma read_var_parent fs s p f x v :
  fs !! s = Some f → f_vars f !! x = None → f_parent f = Some p →
  (p < s)%nat → bound_in fs p x = Some v →
  read_var fs s x = Some v.
Proof.
  intros Hf Hn Hp Hps Hb. unfold read_var.
  by rewrite (find_frame_parent fs s p f x v).
Qed.

Lemma write_var_parent fs s p f x v v' :
  fs !! s = Some f → f_vars f !! x = None → f_parent f = Some p →
  (p < s)%nat → bound_in fs p x = Some v →
  write_var fs s x v' = Some (bind_in fs p x v').
Proof.
  intros Hf Hn Hp Hps Hb. unfold write_var.
  by rewrite (find_frame_parent fs s p f x v).
Qed.

(** The discipline of the frames is kept by binding an identifier that is
    not stable and by entering a function of the dispatcher. *)
Lemma wf_for_bind (P : ident → bool) fs s x v :
  wf_frames_for P fs → P x = false → wf_frames_for P (bind_in fs s x v).
Proof.
  intros (Hlen & Hdec & Hrest) Hx. split; [by rewrite bind_in_length|]. split.
  - intros s0 f p Hf Hp.
    pose proof (parent_bind_in fs s x v s0) as Hpar. rewrite Hf in Hpar. simpl in Hpar.
    destruct (fs !! s0) as [f0|] eqn:E; [|done]. simpl in Hpar.
    apply (Hdec s0 f0 p E). congruence.
  - intros s0 f Hf Hs0.
    pose proof (parent_bind_in fs s x v s0) as Hpar. rewrite Hf in Hpar. simpl in Hpar.
    destruct (fs !! s0) as [f0|] eqn:E; [|done]. simpl in Hpar.
    destruct (Hrest s0 f0 E Hs0) as [(p & Hp & Hp1) Hnone]. split.
    + exists p. split; [congruence | done].
    + intros y Hy.
      assert (Hb : bound_in (bind_in fs s x v) s0 y = bound_in fs s0 y).
      { apply bound_in_bind_ne. intros [= -> ->]. congruence. }
      unfold bound_in in Hb. rewrite Hf, E in Hb. simpl in Hb.
      rewrite Hb. by apply Hnone.
Qed.

Lemma wf_for_push (P : ident → bool) fs vars p :
  wf_frames_for P fs → (1 ≤ p < length fs)%nat →
  (∀ x, P x = true → vars !! x = None) →
  wf_frames_for P (fs ++ [mkFrame vars (Some p)]).
Proof.
  intros (Hlen & Hdec & Hrest) Hp Hvars.
  split; [rewrite length_app; simpl; lia|]. split.
  - intros s f q Hf Hq.
    destruct (decide (s < length fs)%nat) as [Hlt|Hge].
    + rewrite lookup_app_l in Hf by done. by eapply Hdec.
    + assert (s = length fs) as ->.
      { apply lookup_lt_Some in Hf. rewrite length_app in Hf. simpl in Hf. lia. }
      rewrite list_lookup_middle in Hf by done. simplify_eq. simpl in Hq.
      simplify_eq. lia.
  - intros s f Hf Hs.
    destruct (decide (s < length fs)%nat) as [Hlt|Hge].
    + rewrite lookup_app_l in Hf by done. by eapply Hrest.
    + assert (s = length fs) as ->.
      { apply lookup_lt_Some in Hf. rewrite length_app in Hf. simpl in Hf. lia. }
      rewrite list_lookup_middle in Hf by done. simplify_eq. simpl.
      split; [exists p; split; [done|lia] | done].
Qed.

Lemma bound_in_new_frame fs vars p x :
  bound_in (fs ++ [mkFrame vars p]) (length fs) x = vars !! x.
Proof. unfold bound_in. by rewrite list_lookup_middle. Qed.

End Frames.

Section FramesTop.

Implicit Types (fs : list frame) (x : ident) (v : value).

(** Assignments to the stable identifiers go to the activation of the
    dispatcher. *)
Lemma write_var_for (P : ident → bool) fs s x v v' :
  wf_frames_for P fs → P x = true → bound_in fs 1 x = Some v →
  (1 ≤ s < length fs)%nat → write_var fs s x v' = Some (bind_in fs 1 x v').
Proof.
  intros Hwf Hx Hb Hs. unfold write_var.
  by rewrite (find_frame_for P fs x v Hwf Hx Hb s (length fs)) by lia.
Qed.

(** Binding in the activation of the dispatcher keeps the discipline. *)
Lemma wf_for_bind_top (P : ident → bool) fs x v : wf_frames_for P fs → wf_frames_for P (bind_in fs 1 x v).
Proof.
  intros (Hlen & Hdec & Hrest). split; [by rewrite bind_in_length|]. split.
  - intros s0 f p Hf Hp.
    pose proof (parent_bind_in fs 1 x v s0) as Hpar. rewrite Hf in Hpar. simpl in Hpar.
    destruct (fs !! s0) as [f0|] eqn:E; [|done]. simpl in Hpar.
    apply (Hdec s0 f0 p E). congruence.
  - intros s0 f Hf Hs0.
    pose proof (parent_bind_in fs 1 x v s0) as Hpar. rewrite Hf in Hpar. simpl in Hpar.
    destruct (fs !! s0) as [f0|] eqn:E; [|done]. simpl in Hpar.
    destruct (Hrest s0 f0 E Hs0) as [(p & Hp & Hp1) Hnone]. split.
    + exists p. split; [congruence | done].
    + intros y Hy.
      assert (Hb : bound_in (bind_in fs 1 x v) s0 y = bound_in fs s0 y).
      { apply bound_in_bind_ne. intros [=]. lia. }
      unfold bound_in in Hb. rewrite Hf, E in Hb. simpl in Hb.
      rewrite Hb. by apply Hnone.
Qed.

End FramesTop.

(** The same for the stable identifiers. *)
Section FramesStable.

Implicit Types (fs : list frame) (x : ident) (v : value).

Lemma wf_frames_weaken (P Q : ident → bool) fs :
  (∀ x, Q x = true → P x = true) → wf_frames_for P fs → wf_frames_for Q fs.
Proof.
  intros HPQ (Hlen & Hdec & Hrest). split; [done|]. split; [done|].
  intros s f Hf Hs. destruct (Hrest s f Hf Hs) as [Hp Hnone]. split; [done|].
  intros x Hx. apply Hnone. by apply HPQ.
Qed.

Lemma top_ident_stable x : top_ident x = true → stable x = true.
Proof. by destruct x. Qed.

Lemma find_frame_stable fs x v :
  wf_frames fs → stable x = true → bound_in fs 1 x = Some v →
  ∀ s fuel, (1 ≤ s)%nat → (s < fuel)%nat → (s < length fs)%nat →
    find_frame fuel fs s x = Some 1%nat.
Proof. apply find_frame_for. Qed.

Lemma read_var_stable fs s x v :
  wf_frames fs → stable x = true → bound_in fs 1 x = Some v →
  (1 ≤ s < length fs)%nat → read_var fs s x = Some v.
Proof. apply read_var_for. Qed.

Lemma wf_frames_bind fs s x v :
  wf_frames fs → stable x = false → wf_frames (bind_in fs s x v).
Proof. apply wf_for_bind. Qed.

Lemma wf_frames_push fs vars p :
  wf_frames fs → (1 ≤ p < length fs)%nat →
  (∀ x, stable x = true → vars !! x = None) →
  wf_frames (fs ++ [mkFrame vars (Some p)]).
Proof. apply wf_for_push. Qed.

Lemma write_var_stable fs s x v v' :
  wf_frames fs → stable x = true → bound_in fs 1 x = Some v →
  (1 ≤ s < length fs)%nat → write_var fs s x v' = Some (bind_in fs 1 x v').
Proof. apply write_var_for. Qed.

Lemma wf_frames_bind_top fs x v : wf_frames fs → wf_frames (bind_in fs 1 x v).
Proof. apply wf_for_bind_top. Qed.

Lemma read_var_app fs fr s x :
  wf_frames fs → (s < length fs)%nat →
  read_var (fs ++ [fr]) s x = read_var fs s x.
Proof. apply read_var_app_for. Qed.

Lemma read_var_new_frame fs vars p x :
  wf_frames fs → (p < length fs)%nat →
  read_var (fs ++ [mkFrame vars (Some p)]) (length fs) x
  = match vars !! x with
    | Some v => Some v
    | None => read_var fs p x
    end.
Proof. apply read_var_new_frame_for. Qed.

End FramesStable.

(** * The pieces of the emitted series code *)

Section PiecesFacts.

Variable options : FactoryOptions.
Variable co : ContentOptions.

#[local] Abbreviation N := (tap_count options).
#[local] Abbreviation Kc := (K options co).
#[local] Abbreviation Dc := (done_code options co).

#[local] Arguments callTap : simpl never.

Lemma loop_at_last i : (N ≤ i)%nat →
  loop_at options co i = mkLoop [] (co_onDone co) true 0%nat.
Proof.
  intros Hi. unfold loop_at, series_loop.
  by replace (N - i)%nat with 0%nat by lia.
Qed.

Lemma loop_at_step i : (i < N)%nat →
  loop_at options co i
  = series_iteration options (series_options co)
      (findIndex_not_sync (opt_taps options) 0) i (loop_at options co (S i)).
Proof.
  intros Hi. unfold loop_at, series_loop.
  by replace (N - i)%nat with (S (N - S i)) by lia.
Qed.

Lemma K_last : Kc N = co_onDone co ().
Proof. unfold K. by rewrite loop_at_last. Qed.

(** Two bundles of handlers that splice in the same code give the same
    tap unit. *)
Lemma callTap_ext i (h h' : TapHandlers) :
  (∀ e, th_onError h e = th_onError h' e) →
  (∀ e, from_option (λ f, f e) [] (th_onResult h)
        = from_option (λ f, f e) [] (th_onResult h')) →
  is_Some (th_onResult h) = is_Some (th_onResult h') →
  from_option (λ g, g ()) [] (th_onDone h) = from_option (λ g, g ()) [] (th_onDone h') →
  th_rethrowIfPossible h = th_rethrowIfPossible h' →
  callTap options i h = callTap options i h'.
Proof.
  intros HE HR HRs HD Hre. unfold callTap.
  destruct (opt_taps options !! i) as [tap|]; [|done].
  assert (HR' : match th_onResult h with
                | Some onResult => onResult (EVar (id_result i))
                | None => []
                end
                = match th_onResult h' with
                  | Some onResult => onResult (EVar (id_result i))
                  | None => []
                  end).
  { specialize (HR (EVar (id_result i))).
    by destruct (th_onResult h), (th_onResult h'). }
  assert (HD' : match th_onDone h with
                | Some onDone => onDone ()
                | None => []
                end
                = match th_onDone h' with
                  | Some onDone => onDone ()
                  | None => []
                  end).
  { by destruct (th_onDone h), (th_onDone h'). }
  rewrite HR', HD', Hre, !HE.
  destruct (th_onResult h), (th_onResult h'); try done.
  - exfalso. assert (is_Some (@None (expr → code))) as [? ?]; [|done].
    rewrite <- HRs. eauto.
  - exfalso. assert (is_Some (@None (expr → code))) as [? ?]; [|done].
    rewrite HRs. eauto.
Qed.

(** The code for the taps from [i] on is the unit of tap [i] with
    [done_code i] as its continuation. *)
Lemma K_unfold i : (i < N)%nat →
  Kc i = callTap options i
           (mkTapHandlers (λ e, co_onError co e ++ []) None (Some (λ _, Dc i)) false).
Proof.
  intros Hi. unfold K. rewrite loop_at_step by done.
  unfold series_iteration, done_code, unrolls.
  destruct (lookup_lt_is_Some_2 (opt_taps options) i Hi) as [tap Htap].
  rewrite Htap.
  destruct (sl_current_is_onDone (loop_at options co (S i))); simpl.
  { by apply callTap_ext. }
  destruct (bool_decide (tap_type tap = sync)); simpl.
  - destruct (bool_decide (20 < sl_unrollCounter (loop_at options co (S i)))%nat);
      simpl; by apply callTap_ext.
  - by apply callTap_ext.
Qed.

(** The declarations of the named units. *)
Lemma loop_code_step i : (i < N)%nat →
  sl_code (loop_at options co i)
  = sl_code (loop_at options co (S i))
    ++ (if unrolls options co i then [SFunction (id_next i) [] (Kc (S i))] else []).
Proof.
  intros Hi. rewrite loop_at_step by done.
  unfold series_iteration, unrolls, K.
  destruct (lookup_lt_is_Some_2 (opt_taps options) i Hi) as [tap Htap].
  rewrite Htap.
  destruct (sl_current_is_onDone (loop_at options co (S i))); simpl.
  { by rewrite app_nil_r. }
  destruct (bool_decide (tap_type tap = sync)); simpl.
  - destruct (bool_decide (20 < sl_unrollCounter (loop_at options co (S i)))%nat);
      simpl; by rewrite ?app_nil_r.
  - done.
Qed.

Lemma content_code :
  AsyncSeriesHookCodeFactory_content options co
  = if bool_decide (N = 0%nat) then co_onDone co ()
    else sl_code (loop_at options co 0) ++ Kc 0.
Proof.
  unfold AsyncSeriesHookCodeFactory_content, callTapsSeries, K, loop_at.
  by rewrite Nat.sub_0_r.
Qed.

End PiecesFacts.

(** * The correspondence is kept by every step *)

Section RelFacts.

Variable options : FactoryOptions.
Variable co : ContentOptions.
Variable vals : list value.
Variable E : nat → expr → code.
Variable D : nat → code.
Variable j : nat.
Variable extra : state → RefState → Prop.
Variable touch : ident → Prop.

Hypothesis extra_keeps : keeps touch extra.

#[local] Abbreviation R := (Rel options co vals E D j extra).
#[local] Abbreviation TopOk := (top_ok_from options co vals j).
#[local] Abbreviation HC := (handler_closure E D).

Lemma top_ok_from_bind fs s x v :
  TopOk fs → stable x = false → TopOk (bind_in fs s x v).
Proof.
  intros (H1 & H2 & H3 & H4 & H5 & H6) Hx.
  assert (Hb : ∀ y, stable y = true →
            bound_in (bind_in fs s x v) 1 y = bound_in fs 1 y).
  { intros y Hy. apply bound_in_bind_ne. intros Heq. inversion Heq; subst.
    congruence. }
  unfold top_ok_from. rewrite !Hb by done. split_and!; try done.
  - eapply Forall2_impl; [exact H5|]. intros a val Ha. by rewrite Hb.
  - intros i Hj Hi Hu. rewrite Hb by done. by apply H6.
Qed.

Lemma top_ok_push fs fr :
  (1 < length fs)%nat → TopOk fs → TopOk (fs ++ [fr]).
Proof.
  intros Hlen (H1 & H2 & H3 & H4 & H5 & H6).
  assert (Hb : ∀ y, bound_in (fs ++ [fr]) 1 y = bound_in fs 1 y).
  { intros y. by apply bound_in_app. }
  unfold top_ok_from. rewrite !Hb. split_and!; try done.
  - eapply Forall2_impl; [exact H5|]. intros a val Ha. by rewrite Hb.
  - intros i Hj Hi Hu. rewrite Hb. by apply H6.
Qed.

Lemma handler_closure_prefix locs ext h c :
  HC locs h c → HC (locs ++ ext) h c.
Proof.
  destruct h as [i|i a|i a]; simpl; [done| |];
    intros (s & -> & Hl); exists s; (split; [done|]); by apply lookup_app_l_Some.
Qed.

Lemma Rel_log st r locs evs :
  R st r locs → R (log_all evs st) (r_log evs r) locs.
Proof.
  intros [H1 H2 H3 H4 H5 H6 H7 H8 H9]. split; simpl; try done.
  - by rewrite H1.
  - eapply extra_keeps; [| |exact H9]; done.
Qed.

Lemma Rel_tick st r locs : R st r locs → R (tick st) (r_tick r) locs.
Proof.
  intros [H1 H2 H3 H4 H5 H6 H7 H8 H9]. split; simpl; try done.
  - by rewrite H2.
  - eapply extra_keeps; [| |exact H9]; done.
Qed.

Lemma Rel_bind st r locs s x v :
  R st r locs → stable x = false → touch x ∨ s ≠ 1%nat →
  (∀ i, x = id_hasResult i → (s, i) ∉ locs) →
  R (set_frames (bind_in (frames st) s x v) st) r locs.
Proof.
  intros [H1 H2 H3 H4 H5 H6 H7 H8 H9] Hx Htouch Hflag. split; simpl; try done.
  - by apply wf_frames_bind.
  - by apply top_ok_from_bind.
  - by rewrite bind_in_length.
  - intros a s' i Ha. destruct (H8 a s' i Ha) as (b & Hb1 & Hb2).
    exists b. split; [done|]. rewrite bound_in_bind_ne; [done|].
    intros Heq. inversion Heq; subst. eapply Hflag; [done|].
    apply list_elem_of_lookup. eauto.
  - eapply extra_keeps; [| |exact H9]; [done|]. intros y Hy. simpl.
    apply bound_in_bind_ne. intros Heq. inversion Heq; subst.
    destruct Hy as [Hy|Hy]; [congruence|]. by destruct Htouch.
Qed.

Lemma Rel_push st r locs vars p :
  R st r locs → (1 ≤ p < length (frames st))%nat →
  (∀ x, stable x = true → vars !! x = None) →
  R (set_frames (frames st ++ [mkFrame vars (Some p)]) st) r locs.
Proof.
  intros [H1 H2 H3 H4 H5 H6 H7 H8 H9] Hp Hvars. split; simpl; try done.
  - by apply wf_frames_push.
  - apply top_ok_push; [|done]. destruct H3. lia.
  - eapply Forall2_impl; [exact H5|]. intros [t c] [t' h] (? & ? & ? & ?).
    rewrite length_app. simpl in *. split_and!; try done; lia.
  - intros a s' i Ha. destruct (H8 a s' i Ha) as (b & Hb1 & Hb2).
    exists b. split; [done|]. rewrite bound_in_app; [done|].
    unfold bound_in in Hb2. destruct (frames st !! s') eqn:E'; [|done].
    by eapply lookup_lt_Some.
  - eapply extra_keeps; [| |exact H9]; [done|]. intros y _. simpl.
    apply bound_in_app. lia.
Qed.

Lemma Rel_enroll st r locs t h c :
  R st r locs → HC locs h c → is_closure c = true →
  (1 ≤ closure_scope c < length (frames st))%nat →
  (handler_tap h < tap_count options)%nat →
  R (enroll t c st) (r_enroll t h r) locs.
Proof.
  intros [H1 H2 H3 H4 H5 H6 H7 H8 H9] Hh Hc Hs Hi. unfold enroll. rewrite Hc.
  split; simpl; try done.
  - constructor; [|done]. done.
  - eapply extra_keeps; [| |exact H9]; done.
Qed.

Lemma Rel_new_flag st r locs s i :
  R st r locs → bound_in (frames st) s (id_hasResult i) = Some (VBool false) →
  (s, i) ∉ locs →
  R st (r_new_flag r) (locs ++ [(s, i)]).
Proof.
  intros [H1 H2 H3 H4 H5 H6 H7 H8 H9] Hs Hnotin.
  split; simpl; try done.
  - eapply Forall2_impl; [exact H5|]. intros [t c] [t' h] (? & ? & ? & ?).
    split_and!; try done; try lia. by apply handler_closure_prefix.
  - rewrite !length_app. simpl. lia.
  - apply NoDup_app. split; [done|]. split; [|apply NoDup_singleton].
    intros x Hx Hx'. apply list_elem_of_singleton in Hx' as ->. done.
  - intros a s' i' Ha.
    destruct (decide (a < length locs)%nat) as [Hlt|Hge].
    + rewrite lookup_app_l in Ha by done.
      destruct (H8 a s' i' Ha) as (b & Hb1 & Hb2).
      exists b. split; [by apply lookup_app_l_Some|done].
    + assert (a = length locs) as ->.
      { apply lookup_lt_Some in Ha. rewrite length_app in Ha. simpl in Ha. lia. }
      rewrite list_lookup_middle in Ha by done. simplify_eq.
      exists false. split; [|done].
      by rewrite H6, list_lookup_middle.
  - eapply extra_keeps; [| |exact H9]; done.
Qed.

Lemma Rel_set_flag st r locs a s i :
  R st r locs → locs !! a = Some (s, i) → touch (id_hasResult i) ∨ s ≠ 1%nat →
  R (set_frames (bind_in (frames st) s (id_hasResult i) (VBool true)) st)
    (r_set_flag a r) locs.
Proof.
  intros [H1 H2 H3 H4 H5 H6 H7 H8 H9] Ha Htouch.
  assert (Hs : (s < length (frames st))%nat).
  { destruct (H8 a s i Ha) as (b & _ & Hb). unfold bound_in in Hb.
    destruct (frames st !! s) eqn:E'; [|done]. by eapply lookup_lt_Some. }
  split; simpl; try done.
  - by apply wf_frames_bind.
  - by apply top_ok_from_bind.
  - eapply Forall2_impl; [exact H5|]. intros [t c] [t' h] (? & ? & ? & ?).
    rewrite bind_in_length. done.
  - by rewrite length_insert.
  - intros a' s' i' Ha'.
    destruct (decide (a' = a)) as [->|Hne].
    + rewrite Ha in Ha'. simplify_eq. exists true. split.
      * apply list_lookup_insert_eq. rewrite <- H6. by eapply lookup_lt_Some.
      * by apply bound_in_bind_eq.
    + destruct (H8 a' s' i' Ha') as (b & Hb1 & Hb2).
      exists b. split; [by rewrite list_lookup_insert_ne|].
      rewrite bound_in_bind_ne; [done|].
      intros Heq. inversion Heq; subst.
      apply Hne. by eapply NoDup_lookup.
  - eapply extra_keeps; [| |exact H9]; [done|]. intros y Hy. simpl.
    apply bound_in_bind_ne. intros Heq. inversion Heq; subst.
    destruct Hy as [Hy|Hy]; [done|]. by destruct Htouch.
Qed.

(** What the correspondence tells about the scopes. *)
Lemma Rel_frames_length st r locs : R st r locs → (2 ≤ length (frames st))%nat.
Proof. intros [H1 H2 [H3 _] H4 H5 H6 H7 H8]. done. Qed.

Lemma Rel_top st r locs :
  R st r locs → ∃ k, top_ok_from options co vals k (frames st).
Proof. intros [H1 H2 H3 H4 H5 H6 H7 H8]. by exists j. Qed.

Lemma Rel_locs_lt st r locs a s i :
  R st r locs → locs !! a = Some (s, i) → (s < length (frames st))%nat.
Proof.
  intros [H1 H2 H3 H4 H5 H6 H7 H8] Ha.
  destruct (H8 a s i Ha) as (b & _ & Hb). unfold bound_in in Hb.
  destruct (frames st !! s) eqn:E'; [|done]. by eapply lookup_lt_Some.
Qed.

Lemma Rel_fresh_frame st r locs i : R st r locs → (length (frames st), i) ∉ locs.
Proof.
  intros HR Hin. apply list_elem_of_lookup in Hin as [a Ha].
  apply (Rel_locs_lt _ _ _ _ _ _ HR) in Ha. lia.
Qed.

Lemma Rel_unbound st r locs s i :
  R st r locs → bound_in (frames st) s (id_hasResult i) = None → (s, i) ∉ locs.
Proof.
  intros HR Hb Hin. apply list_elem_of_lookup in Hin as [a Ha].
  destruct (rel_flags _ _ _ _ _ _ _ _ _ _ HR a s i Ha) as (b & _ & Hb').
  congruence.
Qed.

Lemma Rel_registered st r locs t :
  R st r locs →
  match r_registered (r_registry r) t with
  | Some h => ∃ c, registered (registry st) t = Some c ∧ HC locs h c
                   ∧ ∃ ps body s, c = VClosure ps body s
                        ∧ (1 ≤ s < length (frames st))%nat
                        ∧ (handler_tap h < tap_count options)%nat
  | None => registered (registry st) t = None
  end.
Proof.
  intros [H1 H2 H3 H4 H5 H6 H7 H8]. clear -H5.
  induction H5 as [|[t1 c] [t2 h] reg rreg (Ht & Hh & Hs & Hi) Hrest IH]; [done|].
  simpl in *. subst t2. destruct (decide (t1 = t)); [|done].
  exists c. split; [done|]. split; [done|].
  destruct h; destruct Hh as (s & Hh); [|destruct Hh as [Hh _]..]; subst c;
    simpl in Hs; do 3 eexists; eauto.
Qed.

End RelFacts.

(** * What the fragments of the emitted code do *)

Section Fragments.

Variable options : FactoryOptions.
Variable co : ContentOptions.
Variable w : World.
Variable vals : list value.

#[local] Abbreviation TopOk := (top_ok_from options co vals).
#[local] Abbreviation argv := (arg_values options vals).
#[local] Abbreviation ctx := (with_context options).

Lemma log_log_all ev st : log ev st = log_all [ev] st.
Proof. done. Qed.

Lemma log_all_nil st : log_all [] st = st.
Proof. destruct st. unfold log_all. simpl. by rewrite app_nil_r. Qed.

Lemma log_all_app a b st : log_all (a ++ b) st = log_all b (log_all a st).
Proof. unfold log_all. simpl. by rewrite app_assoc. Qed.

Lemma r_log_nil r : r_log [] r = r.
Proof. destruct r. unfold r_log. simpl. by rewrite app_nil_r. Qed.

Lemma r_log_app a b r : r_log (a ++ b) r = r_log b (r_log a r).
Proof. unfold r_log. simpl. by rewrite app_assoc. Qed.

Lemma ex_expr_val s st st' e v :
  converges (λ n, eval w n s e st) (Val v, st') →
  converges (λ n, exec w n s (SExpr e) st) (ONormal, st').
Proof. intros H. exact (ex_expr w s st st' e (Val v) H). Qed.

Lemma ex_expr_exc s st st' e v :
  converges (λ n, eval w n s e st) (Exc v, st') →
  converges (λ n, exec w n s (SExpr e) st) (OThrow v, st').
Proof. intros H. exact (ex_expr w s st st' e (Exc v) H). Qed.

Lemma ev_index_var s st x v i r :
  read_var (frames st) s x = Some v → index v i = r →
  converges (λ n, eval w n s (EIndex (EVar x) i) st) (r, st).
Proof. intros Hx <-. apply ev_index. by apply ev_var. Qed.

Lemma ev_interceptor_method s st k m :
  read_var (frames st) s id_interceptors = Some VHookInterceptors →
  converges (λ n, eval w n s (EMember (getInterceptor k) m) st)
            (Val (VInterceptorMethod k m), st).
Proof.
  intros Hx.
  exact (ev_member w s st st _ m (VInterceptor k)
           (ev_index_var s st _ _ k _ Hx eq_refl)).
Qed.

(** The calls of one handler of all interceptors, followed by [rest]. *)
Lemma interceptors_frag (has : Interceptor → bool) m
    (es : Interceptor → list expr) (acts : Interceptor → list value) s fs :
  read_var fs s id_interceptors = Some VHookInterceptors →
  (∀ ic st, frames st = fs →
     converges (λ n, eval_list w n s (es ic) st) (inl (acts ic), st)) →
  ∀ l j st rest r, frames st = fs →
    converges (λ n, exec_block w n s rest
                 (log_all (concat (imap (λ k ic, if has ic
                                           then [EvInterceptor (j + k) m (acts ic)]
                                           else []) l)) st)) r →
    converges (λ n, exec_block w n s
                 (concat (imap (λ k ic, if has ic
                                  then [SExpr (ECall (EMember (getInterceptor (j + k)) m)
                                                 (es ic))]
                                  else []) l) ++ rest) st) r.
Proof.
  intros Hread Hes l. induction l as [|ic l IH]; intros j st rest r Hfs Hrest.
  { simpl in *. by rewrite log_all_nil in Hrest. }
  rewrite !imap_cons in *. simpl in Hrest. simpl.
  assert (Hnext : converges (λ n, exec_block w n s
             (concat (imap (λ k ic, if has ic
                              then [SExpr (ECall (EMember (getInterceptor (S j + k)) m)
                                             (es ic))]
                              else []) l) ++ rest)
             (log_all (if has ic then [EvInterceptor (j + 0) m (acts ic)] else []) st)) r).
  { apply IH; [done|]. rewrite <- log_all_app.
    erewrite (imap_ext _ (λ k ic0, if has ic0
                            then [EvInterceptor (j + S k) m (acts ic0)] else []));
      [exact Hrest|].
    intros k x _. simpl. by rewrite Nat.add_succ_r. }
  erewrite (imap_ext (_ ∘ S) (λ k ic0, if has ic0
                 then [SExpr (ECall (EMember (getInterceptor (S j + k)) m) (es ic0))]
                 else [])); cycle 1.
  { intros k x _. simpl. by rewrite Nat.add_succ_r. }
  destruct (has ic).
  - simpl. eapply ex_block_cons; [|exact Hnext].
    eapply ex_expr_val. eapply ev_call.
    + apply ev_interceptor_method. by rewrite Hfs.
    + by apply Hes.
    + apply call_interceptor.
  - simpl. by rewrite log_all_nil in Hnext.
Qed.

Lemma for_interceptors_frag_for (P : ident → bool) (has : Interceptor → bool) m
    (es : Interceptor → list expr) (acts : Interceptor → list value) s st rest r :
  (∀ x, top_ident x = true → P x = true) →
  wf_frames_for P (frames st) → (∃ j, TopOk j (frames st)) →
  (1 ≤ s < length (frames st))%nat →
  (∀ ic st', frames st' = frames st →
     converges (λ n, eval_list w n s (es ic) st') (inl (acts ic), st')) →
  converges (λ n, exec_block w n s rest
               (log_all (interceptor_events options has m acts) st)) r →
  converges (λ n, exec_block w n s
               (for_interceptors options has
                  (λ k ic, [SExpr (ECall (EMember (getInterceptor k) m) (es ic))])
                ++ rest) st) r.
Proof.
  intros HP Hwf (j & _ & _ & _ & Hint & _) Hs Hes Hrest.
  unfold for_interceptors, interceptor_events in *.
  destruct (opt_interceptors options) as [|ic l] eqn:E.
  { simpl in *. by rewrite log_all_nil in Hrest. }
  destruct Hint as [_ Hint]; [done|].
  assert (Hread : read_var (frames st) s id_interceptors = Some VHookInterceptors).
  { eapply (read_var_for P); eauto. }
  exact (interceptors_frag has m es acts s (frames st) Hread Hes
           (ic :: l) 0%nat st rest r eq_refl Hrest).
Qed.

Lemma for_interceptors_frag (has : Interceptor → bool) m
    (es : Interceptor → list expr) (acts : Interceptor → list value) s st rest r :
  wf_frames (frames st) → (∃ j, TopOk j (frames st)) →
  (1 ≤ s < length (frames st))%nat →
  (∀ ic st', frames st' = frames st →
     converges (λ n, eval_list w n s (es ic) st') (inl (acts ic), st')) →
  converges (λ n, exec_block w n s rest
               (log_all (interceptor_events options has m acts) st)) r →
  converges (λ n, exec_block w n s
               (for_interceptors options has
                  (λ k ic, [SExpr (ECall (EMember (getInterceptor k) m) (es ic))])
                ++ rest) st) r.
Proof. apply for_interceptors_frag_for, top_ident_stable. Qed.

(** The declared parameters, read in any scope of the dispatcher. *)
Lemma arg_vars_eval_for (P : ident → bool) s st tail tv :
  (∀ x, top_ident x = true → P x = true) →
  wf_frames_for P (frames st) → (∃ j, TopOk j (frames st)) →
  (1 ≤ s < length (frames st))%nat →
  converges (λ n, eval_list w n s tail st) (inl tv, st) →
  converges (λ n, eval_list w n s
               (map (λ a, EVar (id_arg a)) (opt_args options) ++ tail) st)
            (inl (argv ++ tv), st).
Proof.
  intros HP Hwf (j & _ & _ & _ & _ & Hargs & _) Hs Htail.
  induction Hargs as [|a v l vs Ha Hrest IH]; [done|].
  simpl. eapply ev_list_cons; [|exact IH].
  apply ev_var. eapply (read_var_for P); eauto.
Qed.

Lemma arg_vars_eval s st tail tv :
  wf_frames (frames st) → (∃ j, TopOk j (frames st)) →
  (1 ≤ s < length (frames st))%nat →
  converges (λ n, eval_list w n s tail st) (inl tv, st) →
  converges (λ n, eval_list w n s
               (map (λ a, EVar (id_arg a)) (opt_args options) ++ tail) st)
            (inl (argv ++ tv), st).
Proof. apply arg_vars_eval_for, top_ident_stable. Qed.

Lemma args_eval_for (P : ident → bool) s st (b : bool) tail tv :
  (∀ x, top_ident x = true → P x = true) →
  wf_frames_for P (frames st) → (∃ j, TopOk j (frames st)) →
  (1 ≤ s < length (frames st))%nat →
  converges (λ n, eval_list w n s tail st) (inl tv, st) →
  converges (λ n, eval_list w n s
               ((if b then [EVar id_context] else [])
                ++ map (λ a, EVar (id_arg a)) (opt_args options) ++ tail) st)
            (inl (ctx b argv ++ tv), st).
Proof.
  intros HP Hwf Htop Hs Htail. destruct b; simpl.
  - eapply ev_list_cons; [|by apply (arg_vars_eval_for P)].
    apply ev_var. destruct Htop as (j & _ & _ & Hc & _). eapply (read_var_for P); eauto.
  - by apply (arg_vars_eval_for P).
Qed.

Lemma args_eval s st (b : bool) tail tv :
  wf_frames (frames st) → (∃ j, TopOk j (frames st)) →
  (1 ≤ s < length (frames st))%nat →
  converges (λ n, eval_list w n s tail st) (inl tv, st) →
  converges (λ n, eval_list w n s
               ((if b then [EVar id_context] else [])
                ++ map (λ a, EVar (id_arg a)) (opt_args options) ++ tail) st)
            (inl (ctx b argv ++ tv), st).
Proof. apply args_eval_for, top_ident_stable. Qed.

Lemma args_shape (b : bool) (after : option expr) :
  args options (context_arg b) after
  = (if b then [EVar id_context] else [])
    ++ map (λ a, EVar (id_arg a)) (opt_args options)
    ++ match after with Some a => [a] | None => [] end.
Proof.
  unfold args, context_arg, _args.
  destruct b, after; simpl; by rewrite ?app_nil_r.
Qed.

Lemma imap_filter_nil {A B} (has : A → bool) (f : nat → A → list B) l :
  filter has l = [] → concat (imap (λ k x, if has x then f k x else []) l) = [].
Proof.
  revert f. induction l as [|x l IH]; intros f Hf; [done|].
  rewrite imap_cons. rewrite filter_cons in Hf.
  destruct (decide (has x)) as [Hx|Hx]; [done|].
  apply Is_true_false_1 in Hx. rewrite Hx. simpl.
  by apply (IH (λ k, f (S k))).
Qed.

End Fragments.

(** * What a tap unit does

    The unit that [callTap] makes for a tap, with the error code [E] and
    the code [D] that follows the tap, does what [ref_unit] says, if [E] and
    [D] do what [fail] and [next] say. *)

Section Unit.

Variable options : FactoryOptions.
Variable co : ContentOptions.
Variable w : World.
Variable vals : list value.
Variable E : nat → expr → code.
Variable D : nat → code.
Variable j : nat.
Variable extra : state → RefState → Prop.
Variable touch : ident → Prop.
Variable fail : value → RefState → RefState.

Hypothesis extra_keeps : keeps touch extra.

(** The arguments of the call come from outside. *)
Hypothesis args_plain : Forall (λ v, is_closure v = false) (arg_values options vals).

#[local] Abbreviation R := (Rel options co vals E D j extra).
#[local] Abbreviation HC := (handler_closure E D).
#[local] Abbreviation N := (tap_count options).
#[local] Abbreviation taps := (opt_taps options).
#[local] Abbreviation Follows := (follows options co vals E D j extra).
#[local] Abbreviation Sim := (simulates options co vals E D j extra).

Lemma ex_block_one s st c o st' :
  converges (λ n, exec w n s c st) (o, st') →
  converges (λ n, exec_block w n s [c] st) (o, st').
Proof.
  intros H. destruct o; try (by apply ex_block_abrupt).
  eapply ex_block_cons; [exact H|apply ex_block_nil].
Qed.

Lemma follows_here st st' r' locs :
  R st' r' locs → (length (frames st) ≤ length (frames st'))%nat →
  Follows st locs st' r'.
Proof. intros HR Hl. exists locs. split; [done|]. split; [done|lia]. Qed.

Lemma follows_step st locs st1 locs1 st2 r2 :
  locs `prefix_of` locs1 → (length (frames st) ≤ length (frames st1))%nat →
  Follows st1 locs1 st2 r2 → Follows st locs st2 r2.
Proof.
  intros Hp Hl (locs2 & HR & Hp2 & Hl2). exists locs2. split; [done|].
  split; [by etrans|lia].
Qed.

Lemma bind_ok st r locs s x v :
  R st r locs → stable x = false → touch x ∨ s ≠ 1%nat →
  (∀ k, x = id_hasResult k → (s, k) ∉ locs) →
  R (set_frames (bind_in (frames st) s x v) st) r locs.
Proof. by apply (Rel_bind _ _ _ _ _ _ _ _ extra_keeps). Qed.

Lemma call_closure_sim st ps body s0 actuals o st' :
  converges (λ n, exec_block w n (length (frames st)) body
                    (set_frames (frames st ++ [mkFrame (bind_params ps actuals) (Some s0)]) st))
            (outcome_of o, st') →
  converges (λ n, call w n (VClosure ps body s0) actuals st) (result_of o, st').
Proof. intros H. apply call_closure in H. by destruct o. Qed.

Lemma bind_params_one x actuals :
  bind_params [x] actuals = {[x := hd VUndefined actuals]}.
Proof. destruct actuals; simpl; by rewrite insert_empty. Qed.

Lemma ex_expr_sim s st e o st' :
  converges (λ n, eval w n s e st) (result_of o, st') →
  converges (λ n, exec w n s (SExpr e) st) (outcome_of o, st').
Proof. intros H. apply ex_expr in H. by destruct o. Qed.

(** The activation of a function that was handed out. *)
Lemma handler_frame st r locs s0 x v :
  R st r locs → (1 ≤ s0 < length (frames st))%nat → stable x = false →
  let st1 := set_frames (frames st ++ [mkFrame {[x := v]} (Some s0)]) st in
  R st1 r locs
  ∧ (1 ≤ length (frames st) < length (frames st1))%nat
  ∧ read_var (frames st1) (length (frames st)) x = Some v
  ∧ (∀ y u, y ≠ x → bound_in (frames st) s0 y = Some u →
       read_var (frames st1) (length (frames st)) y = Some u
       ∧ ∀ u', write_var (frames st1) (length (frames st)) y u'
               = Some (bind_in (frames st1) s0 y u')).
Proof.
  intros HR Hs Hx st1.
  pose proof (Rel_frames_length _ _ _ _ _ _ _ _ _ _ HR) as Hlen.
  assert (Hwf : wf_frames (frames st)) by by destruct HR.
  split_and!.
  - apply (Rel_push _ _ _ _ _ _ _ _ extra_keeps); [done..|]. intros y Hy. apply lookup_singleton_ne.
    intros ->. congruence.
  - lia.
  - simpl. rewrite length_app. simpl. lia.
  - simpl. rewrite read_var_new_frame by (done || lia).
    by rewrite lookup_singleton_eq.
  - intros y u Hy Hb. simpl.
    assert (Hl : (frames st ++ [mkFrame {[x := v]} (Some s0)]) !! length (frames st)
                 = Some (mkFrame {[x := v]} (Some s0))).
    { by apply list_lookup_middle. }
    assert (Hb' : bound_in (frames st ++ [mkFrame {[x := v]} (Some s0)]) s0 y = Some u).
    { rewrite bound_in_app; [done|lia]. }
    split; [|intros u'].
    + eapply read_var_parent; eauto; [by apply lookup_singleton_ne|simpl; lia].
    + eapply write_var_parent; eauto; [by apply lookup_singleton_ne|simpl; lia].
Qed.

Lemma plain_ok l :
  Forall (λ v, is_closure v = false) l → plain l = l ∧ last_closure l = None.
Proof.
  intros Hl. split.
  - unfold plain. induction Hl as [|v l Hv Hl IH]; [done|].
    rewrite filter_cons. destruct (decide (is_closure v = false)); [|done].
    by rewrite IH.
  - unfold last_closure. destruct (last l) as [v|] eqn:Hlast; [|done].
    apply last_Some_elem_of in Hlast. rewrite Forall_forall in Hl.
    by rewrite (Hl v Hlast).
Qed.

Lemma plain_snoc l c :
  Forall (λ v, is_closure v = false) l → is_closure c = true →
  plain (l ++ [c]) = l ∧ last_closure (l ++ [c]) = Some c.
Proof.
  intros Hl Hc. split.
  - unfold plain. rewrite filter_app. fold (plain l).
    rewrite (proj1 (plain_ok l Hl)). rewrite filter_cons.
    destruct (decide (is_closure c = false)); [congruence|].
    by rewrite filter_nil, app_nil_r.
  - unfold last_closure. by rewrite last_snoc, Hc.
Qed.

Lemma ctx_plain b :
  Forall (λ v, is_closure v = false) (with_context options b (arg_values options vals)).
Proof.
  destruct b; simpl; [|done]. constructor; [|done].
  unfold context_value. by destruct (needContext options).
Qed.

(** The call of the tap function with the declared parameters. *)
Lemma tap_call_plain i s st r locs (b : bool) :
  R st r locs → (1 ≤ s < length (frames st))%nat →
  read_var (frames st) s (id_fn i) = Some (VTapFn i) →
  converges (λ n, eval w n s (ECall (EVar (id_fn i))
                                (args options (context_arg b) None)) st)
            (ending_result (tb_ending (tap_behaviour w (r_clock r) i)),
             tick (log_all [EvTap i (with_context options b (arg_values options vals))] st))
  ∧ R (tick (log_all [EvTap i (with_context options b (arg_values options vals))] st))
      (r_tick (r_log [EvTap i (with_context options b (arg_values options vals))] r))
      locs.
Proof.
  intros HR Hs Hfn. split; [|by apply (Rel_tick _ _ _ _ _ _ _ _ extra_keeps), (Rel_log _ _ _ _ _ _ _ _ extra_keeps)].
  destruct (plain_ok _ (ctx_plain b)) as [Hplain Hlast].
  rewrite <- (rel_clock _ _ _ _ _ _ _ _ _ _ HR), <- Hplain at 1.
  eapply ev_call; [by apply ev_var| |by apply call_tap_plain].
  rewrite args_shape, <- (app_nil_r (with_context _ _ _)).
  destruct HR as [_ _ Hwf Htop _ _ _ _ _].
  assert (∃ k, top_ok_from options co vals k (frames st)) by (by exists j).
  apply (args_eval options co w vals); try done. apply ev_list_nil.
Qed.

Lemma ev_member_val s st st' e m v x :
  converges (λ n, eval w n s e st) (Val v, st') → member v m = Val x →
  converges (λ n, eval w n s (EMember e m) st) (Val x, st').
Proof. intros H <-. by apply ev_member. Qed.

(** The test [!_promise || !_promise.then]. *)
Lemma promise_test s st x v :
  read_var (frames st) s x = Some v → external v = true →
  ∃ c, converges (λ n, eval w n s (EOr (ENot (EVar x))
                                       (ENot (EMember (EVar x) "then"))) st)
                 (Val c, st)
       ∧ truthy c = match v with VThenable _ => false | _ => true end.
Proof.
  intros Hx Hv. destruct (truthy v) eqn:Ht.
  - assert (∃ m, member v "then" = Val m
                 ∧ negb (truthy m) = match v with VThenable _ => false | _ => true end)
      as (m & Hm & Hc).
    { destruct v; try done; eexists; (split; [reflexivity|done]). }
    exists (VBool (negb (truthy m))). split; [|done].
    eapply ev_or_right.
    + apply ev_not. by apply ev_var.
    + by rewrite Ht.
    + apply ev_not. eapply ev_member_val; [by apply ev_var|done].
  - exists (VBool (negb (truthy v))). split.
    + eapply ev_or_left; [apply ev_not; by apply ev_var|by rewrite Ht].
    + rewrite Ht. by destruct v.
Qed.

(** The error for a promise tap that returned no thenable. *)
Lemma usage_error_sem s st x v :
  read_var (frames st) s x = Some v →
  converges (λ n, exec_block w n s
               [SThrow (ENewError
                  (EAdd (EAdd (EStr "Tap function (tapPromise) did not return promise (returned ")
                              (EVar x))
                        (EStr ")")))] st)
            (OThrow (usage_error v), st).
Proof.
  intros Hx. apply ex_block_one.
  assert (H : converges (λ n, eval w n s (ENewError
                  (EAdd (EAdd (EStr "Tap function (tapPromise) did not return promise (returned ")
                              (EVar x))
                        (EStr ")"))) st)
                (Val (VError "Error" (to_string (add_values
                   (add_values (VStr "Tap function (tapPromise) did not return promise (returned ") v)
                   (VStr ")")))), st)).
  { apply ev_new_error. eapply ev_add; [|apply ev_str].
    eapply ev_add; [apply ev_str|by apply ev_var]. }
  apply ex_throw in H. exact H.
Qed.

Lemma sim_of_res {A} (f : nat → option (A * state)) wrap st locs res :
  (∃ x, converges f x ∧ ∃ st', x = (wrap res.1, st') ∧ Follows st locs st' res.2) →
  Sim f wrap st locs res.
Proof. intros (x & Hconv & st' & -> & Hfol). by exists st'. Qed.

(** ** The unit of tap [i] *)

Section Tap.

Variable i : nat.
Variable next : RefState → option value * RefState.

(** Where [D] can run: in a scope that has no flag of what [D] declares. *)
Variable quiet : list (nat * nat) → nat → Prop.

Hypothesis tap_index : (i < N)%nat.
Hypothesis touch_tap : touch (id_tap i).
Hypothesis touch_fn : touch (id_fn i).
Hypothesis touch_hasError : touch (id_hasError i).
Hypothesis touch_err : touch id_err.
Hypothesis touch_hasResult : touch (id_hasResult i).
Hypothesis touch_promise : touch (id_promise i).
Hypothesis quiet_new : ∀ st r locs, R st r locs → quiet locs (length (frames st)).

(** The error code and what follows the tap. *)
Hypothesis E_sem : ∀ s st r locs x e,
  R st r locs → (1 ≤ s < length (frames st))%nat →
  read_var (frames st) s x = Some e →
  ∃ st', converges (λ n, exec_block w n s (E i (EVar x)) st) (ONormal, st')
         ∧ R st' (fail e r) locs
         ∧ length (frames st') = length (frames st)
         ∧ ∀ s' y, stable y = false →
             bound_in (frames st') s' y = bound_in (frames st) s' y.
Hypothesis D_sem : ∀ s st r locs,
  R st r locs → (1 ≤ s < length (frames st))%nat → quiet locs s →
  Sim (λ n, exec_block w n s (D i) st) outcome_of st locs (next r).

(** A call of a function that was handed out for tap [i]. *)
Lemma handle_sem :
    ∀ h c actuals st r locs,
    R st r locs → HC locs h c → handler_tap h = i →
    (1 ≤ closure_scope c < length (frames st))%nat →
    Sim (λ n, call w n c actuals st) result_of st locs
        (ref_handle fail next h actuals r).
Proof.
  intros h c actuals st r locs HR Hh Htap Hs.
  destruct h as [i'|i' a|i' a]; simpl in Htap; subst i'; simpl in Hh.
  - (* the callback of an async tap *)
    destruct Hh as (s0 & ->). simpl in Hs.
    destruct (handler_frame st r locs s0 (id_errN i) (hd VUndefined actuals) HR Hs eq_refl)
      as (HR1 & Hs1 & Hread & _).
    unfold callback_closure. simpl ref_handle.
    destruct (truthy (hd VUndefined actuals)) eqn:Htruthy.
    + destruct (E_sem _ _ _ _ _ _ HR1 Hs1 Hread) as (st' & Hconv & HR' & Hfr & _).
      exists st'. split.
      * apply (call_closure_sim _ _ _ _ _ None). rewrite bind_params_one.
        apply ex_block_one. eapply ex_if; [by apply ev_var|]. by rewrite Htruthy.
      * apply follows_here; [done|]. rewrite Hfr. simpl. rewrite length_app. lia.
    + destruct (D_sem _ _ _ _ HR1 Hs1 (quiet_new _ _ _ HR))
        as (st' & Hconv & Hfol).
      exists st'. split.
      * apply call_closure_sim. rewrite bind_params_one.
        apply ex_block_one. eapply ex_if; [by apply ev_var|]. by rewrite Htruthy.
      * eapply follows_step; [done| |exact Hfol]. simpl. rewrite length_app. lia.
  - (* the handler of a fulfilment *)
    destruct Hh as (s0 & -> & Ha). simpl in Hs.
    destruct (handler_frame st r locs s0 (id_result i) (hd VUndefined actuals) HR Hs eq_refl)
      as (HR1 & Hs1 & _ & Hflag).
    destruct (rel_flags _ _ _ _ _ _ _ _ _ _ HR a s0 i Ha) as (b & Hb & Hbound).
    destruct (Hflag (id_hasResult i) (VBool b)) as [_ Hwrite]; [done..|].
    assert (HR2 := Rel_set_flag _ _ _ _ _ _ _ _ extra_keeps _ _ _ _ _ _ HR1 Ha
                     (or_introl touch_hasResult)).
    destruct (D_sem (length (frames st)) _ _ _ HR2) as (st' & Hconv & Hfol).
    { simpl. rewrite bind_in_length, length_app. simpl. lia. }
    { by eapply quiet_new. }
    exists st'. split.
    + apply call_closure_sim. rewrite bind_params_one. unfold fulfilled_closure.
      eapply ex_block_cons; [|exact Hconv].
      eapply ex_assign; [apply ev_bool|]. apply Hwrite.
    + eapply follows_step; [done| |exact Hfol].
      simpl. rewrite bind_in_length, length_app. lia.
  - (* the handler of a rejection *)
    destruct Hh as (s0 & -> & Ha). simpl in Hs.
    destruct (handler_frame st r locs s0 (id_errN i) (hd VUndefined actuals) HR Hs eq_refl)
      as (HR1 & Hs1 & Hread & Hflag).
    destruct (rel_flags _ _ _ _ _ _ _ _ _ _ HR a s0 i Ha) as (b & Hb & Hbound).
    destruct (Hflag (id_hasResult i) (VBool b)) as [Hrd _]; [done..|].
    simpl ref_handle. rewrite Hb. simpl. destruct b.
    + eexists. split.
      * apply (call_closure_sim _ _ _ _ _ (Some _)). rewrite bind_params_one.
        apply ex_block_abrupt; [done|].
        eapply ex_if; [by apply ev_var|]. simpl.
        apply ex_block_one. apply ex_throw. by apply ev_var.
      * apply follows_here; [done|]. simpl. rewrite length_app. lia.
    + destruct (E_sem _ _ _ _ _ _ HR1 Hs1 Hread) as (st' & Hconv & HR' & Hfr & _).
      exists st'. split.
      * apply (call_closure_sim _ _ _ _ _ None). rewrite bind_params_one.
        eapply ex_block_cons; [|exact Hconv].
        eapply ex_if; [by apply ev_var|]. simpl. apply ex_block_nil.
      * apply follows_here; [done|]. rewrite Hfr. simpl. rewrite length_app. lia.
Qed.

(** The start of a tap unit: the [tap] handlers of the interceptors and
    the tap function. *)
Lemma preamble_sem s st r locs rest (P : outcome * state → Prop) :
  R st r locs → (1 ≤ s < length (frames st))%nat →
  (∀ st1,
     R st1 (r_log (interceptor_events options int_tap "tap"
                     (λ ic, with_context options (int_context ic) [VTapDescriptor i])) r)
       locs →
     length (frames st1) = length (frames st) →
     read_var (frames st1) s (id_fn i) = Some (VTapFn i) →
     ∃ res, converges (λ n, exec_block w n s rest st1) res ∧ P res) →
  ∃ res,
    converges (λ n, exec_block w n s
                 (match filter int_tap (opt_interceptors options) with
                  | [] => []
                  | _ :: _ =>
                      SVar (id_tap i) (Some (getTap i))
                      :: for_interceptors options int_tap (λ k interceptor,
                           [SExpr (ECall (EMember (getInterceptor k) "tap")
                                     ((if int_context interceptor
                                       then [EVar id_context] else [])
                                      ++ [EVar (id_tap i)]))])
                  end ++ [SVar (id_fn i) (Some (getTapFn i))] ++ rest) st) res
    ∧ P res.
Proof.
  intros HR Hs Hrest.
  assert (Hfn : ∀ st0, R st0 (r_log (interceptor_events options int_tap "tap"
                     (λ ic, with_context options (int_context ic) [VTapDescriptor i])) r)
                         locs →
            length (frames st0) = length (frames st) →
            ∃ res, converges (λ n, exec_block w n s
                                (SVar (id_fn i) (Some (getTapFn i)) :: rest) st0) res
                   ∧ P res).
  { intros st0 HR0 Hl0.
    destruct (Hrest (set_frames (bind_in (frames st0) s (id_fn i) (VTapFn i)) st0))
      as (res & Hconv & HP).
    - apply bind_ok; [done|done|by left|]. intros k [=].
    - simpl. by rewrite bind_in_length.
    - simpl. apply read_var_bind_eq. lia.
    - exists res. split; [|done]. eapply ex_block_cons; [|exact Hconv].
      apply ex_var_init. eapply (ev_index_var w _ _ _ VHookX); [|done].
      destruct HR0 as [_ _ Hwf (_ & Hx & _) _ _ _ _ _].
      eapply read_var_stable; eauto. lia. }
  destruct (filter int_tap (opt_interceptors options)) as [|ic0 l0] eqn:Hfilter.
  - apply Hfn; [|done]. unfold interceptor_events.
    rewrite (imap_filter_nil int_tap _ _ Hfilter), r_log_nil. done.
  - assert (Hne : opt_interceptors options ≠ []).
    { intros Hnil. by rewrite Hnil in Hfilter. }
    set (st1 := set_frames (bind_in (frames st) s (id_tap i) (VTapDescriptor i)) st).
    assert (HR1 : R st1 r locs).
    { apply bind_ok; [done|done|by left|]. intros k [=]. }
    destruct (Hfn (log_all (interceptor_events options int_tap "tap"
                     (λ ic, with_context options (int_context ic) [VTapDescriptor i])) st1))
      as (res & Hconv & HP).
    { by apply (Rel_log _ _ _ _ _ _ _ _ extra_keeps). }
    { simpl. by rewrite bind_in_length. }
    exists res. split; [|done]. simpl.
    eapply ex_block_cons.
    { apply ex_var_init. eapply (ev_index_var w _ _ _ VHookTaps); [|done].
      destruct HR as [_ _ Hwf (_ & _ & _ & Hint & _) _ _ _ _ _].
      destruct (Hint Hne) as [Ht _]. eapply read_var_stable; eauto. }
    fold st1.
    destruct HR1 as [_ _ Hwf1 Htop1 _ _ _ _ _].
    assert (∃ k, top_ok_from options co vals k (frames st1)) by (by exists j).
    assert (Hs1 : (1 ≤ s < length (frames st1))%nat).
    { simpl. by rewrite bind_in_length. }
    apply (for_interceptors_frag options co w vals int_tap "tap"
             (λ ic, (if int_context ic then [EVar id_context] else [])
                    ++ [EVar (id_tap i)])
             (λ ic, with_context options (int_context ic) [VTapDescriptor i]));
      try done.
    intros ic st' Hst'.
    assert (Htap : converges (λ n, eval_list w n s [EVar (id_tap i)] st')
                     (inl [VTapDescriptor i], st')).
    { eapply ev_list_cons; [|apply ev_list_nil]. apply ev_var.
      rewrite Hst'. simpl. apply read_var_bind_eq. lia. }
    destruct (int_context ic); simpl; [|done].
    eapply ev_list_cons; [|exact Htap]. apply ev_var. rewrite Hst'.
    destruct Htop1 as (_ & _ & Hc & _). by eapply read_var_stable.
Qed.

(** The unit of a sync tap. *)
Lemma sync_unit_sem s st r locs (b : bool) :
    R st r locs → (1 ≤ s < length (frames st))%nat → quiet locs s →
  read_var (frames st) s (id_fn i) = Some (VTapFn i) →
  Sim (λ n, exec_block w n s
         [SVar (id_hasError i) (Some (EBool false));
          STry [SExpr (ECall (EVar (id_fn i)) (args options (context_arg b) None))]
               id_err
               (SAssign (id_hasError i) (EBool true)
                :: E i (EVar id_err));
          SIf (ENot (EVar (id_hasError i))) (D i) []] st)
      outcome_of st locs
      (let r' := r_tick (r_log [EvTap i (with_context options b
                                           (arg_values options vals))] r) in
       match tb_ending (tap_behaviour w (r_clock r) i) with
       | Returns _ => next r'
       | Throws e => (None, fail e r')
       end).
Proof.
  intros HR Hs Hfresh Hfn.
  set (st1 := set_frames (bind_in (frames st) s (id_hasError i) (VBool false)) st).
  assert (HR1 : R st1 r locs).
  { apply bind_ok; [done|done|by left|]. intros k [=]. }
  assert (Hs1 : (1 ≤ s < length (frames st1))%nat).
  { simpl. by rewrite bind_in_length. }
  assert (Hfn1 : read_var (frames st1) s (id_fn i) = Some (VTapFn i)).
  { simpl. by rewrite read_var_bind_ne. }
  destruct (tap_call_plain i s st1 r locs b HR1 Hs1 Hfn1) as [Hcall HR2].
  set (st2 := tick (log_all [EvTap i (with_context options b (arg_values options vals))] st1))
    in *.
  assert (Hfirst : converges (λ n, exec w n s (SVar (id_hasError i) (Some (EBool false))) st)
                     (ONormal, st1)).
  { apply ex_var_init, ev_bool. }
  assert (Hflag : bound_in (frames st2) s (id_hasError i) = Some (VBool false)).
  { simpl. apply bound_in_bind_eq. lia. }
  simpl. destruct (tb_ending (tap_behaviour w (r_clock r) i)) as [v|e]; simpl in Hcall.
  - destruct (D_sem s st2 _ locs HR2) as (st' & Hconv & Hfol); [done..|].
    exists st'. split.
    2: { eapply follows_step; [done| |exact Hfol]. simpl. by rewrite bind_in_length. }
    eapply ex_block_cons; [exact Hfirst|].
    eapply ex_block_cons.
    { eapply ex_try_normal. apply ex_block_one. eapply ex_expr_val. exact Hcall. }
    apply ex_block_one. eapply ex_if.
    { eapply ev_not, ev_var. by apply read_var_here. }
    exact Hconv.
  - set (st3 := set_frames (bind_in (frames st2) s id_err e) st2).
    assert (HR3 : R st3 (r_tick (r_log [EvTap i (with_context options b
                                           (arg_values options vals))] r)) locs).
    { apply bind_ok; [done|done|by left|]. intros k [=]. }
    set (st4 := set_frames (bind_in (frames st3) s (id_hasError i) (VBool true)) st3).
    assert (HR4 : R st4 (r_tick (r_log [EvTap i (with_context options b
                                           (arg_values options vals))] r)) locs).
    { apply bind_ok; [done|done|by left|]. intros k [=]. }
    assert (Hs4 : (1 ≤ s < length (frames st4))%nat).
    { simpl. by rewrite !bind_in_length. }
    destruct (E_sem s st4 _ locs id_err e HR4 Hs4) as (st' & Hconv & HR' & Hfr & Hkeep).
    { simpl. rewrite read_var_bind_ne by done. apply read_var_bind_eq.
      rewrite bind_in_length. lia. }
    exists st'. split; [|apply follows_here; [done|]].
    + eapply ex_block_cons; [exact Hfirst|].
      eapply ex_block_cons.
      { eapply ex_try_caught.
        - apply ex_block_one. eapply ex_expr_exc. exact Hcall.
        - fold st3. eapply ex_block_cons; [|exact Hconv].
          eapply ex_assign; [apply ev_bool|].
          eapply write_var_here. simpl. rewrite bound_in_bind_ne; [exact Hflag|].
          intros [=]. }
      apply ex_block_one. eapply ex_if.
      { eapply ev_not, ev_var. apply read_var_here. rewrite Hkeep by done. simpl.
        apply bound_in_bind_eq. rewrite !bind_in_length. lia. }
      simpl. apply ex_block_nil.
    + rewrite Hfr. simpl. rewrite !bind_in_length. lia.
Qed.

#[local] Arguments ref_handle : simpl never.

(** The calls of its callback that an async tap makes. *)
Lemma calls_sem s e :
    ∀ l st r locs,
    R st r locs → (1 ≤ s < length (frames st))%nat →
    ∃ st' o,
      converges (λ n, call_back w n (TapCallback i) (callback_closure E D i s) l st)
                (o, st')
      ∧ Follows st locs st'
          (ref_calls fail next i e l r).2
      ∧ (ref_calls fail next i e l r).1
        = match o with
          | None => ending_exception e
          | Some v => Some v
          end.
Proof.
  intros l. induction l as [|actuals l IH]; intros st r locs HR Hs.
  { exists st, None. split; [apply call_back_nil|]. split; [|done].
    by apply follows_here. }
  destruct (handle_sem (HCallback i) (callback_closure E D i s) actuals
              (log_all [EvFire (TapCallback i) actuals] st)
              (r_log [EvFire (TapCallback i) actuals] r) locs)
    as (st1 & Hconv & locs1 & HR1 & Hp1 & Hl1); [by apply (Rel_log _ _ _ _ _ _ _ _ extra_keeps)|by exists s|done..|].
  simpl ref_calls.
  destruct (ref_handle fail next (HCallback i) actuals
              (r_log [EvFire (TapCallback i) actuals] r)) as [[v|] r1]; simpl in *.
  - exists st1, (Some v). split; [by eapply call_back_cons_exc|]. split; [|done].
    by exists locs1.
  - destruct (IH st1 r1 locs1 HR1) as (st' & o & Hconv' & Hfol & Ho); [lia|].
    exists st', o. split; [by eapply call_back_cons_val|]. split; [|done].
    by eapply follows_step.
Qed.

(** The unit of an async tap. *)
Lemma async_unit_sem s st r locs (b : bool) :
    R st r locs → (1 ≤ s < length (frames st))%nat →
  read_var (frames st) s (id_fn i) = Some (VTapFn i) →
  Sim (λ n, exec_block w n s
         [SExpr (ECall (EVar (id_fn i))
                   (args options (context_arg b)
                      (Some (EFunction [id_errN i]
                               [SIf (EVar (id_errN i))
                                    (E i (EVar (id_errN i)))
                                    (D i)]))))] st)
      outcome_of st locs
      (ref_calls fail next i
         (tb_ending (tap_behaviour w (r_clock r) i))
         (tb_callbacks (tap_behaviour w (r_clock r) i))
         (r_enroll (TapCallback i) (HCallback i)
            (r_tick (r_log [EvTap i (with_context options b
                                       (arg_values options vals))] r)))).
Proof.
  intros HR Hs Hfn.
  destruct (plain_snoc _ (callback_closure E D i s) (ctx_plain b) eq_refl)
    as [Hplain Hlast].
  set (st1 := enroll (TapCallback i) (callback_closure E D i s)
                (tick (log (EvTap i (with_context options b (arg_values options vals))) st))).
  assert (HR1 : R st1 (r_enroll (TapCallback i) (HCallback i)
            (r_tick (r_log [EvTap i (with_context options b
                                       (arg_values options vals))] r))) locs).
  { apply (Rel_enroll _ _ _ _ _ _ _ _ extra_keeps); try done; [by apply (Rel_tick _ _ _ _ _ _ _ _ extra_keeps), (Rel_log _ _ _ _ _ _ _ _ extra_keeps)|by exists s]. }
  destruct (calls_sem s (tb_ending (tap_behaviour w (r_clock r) i))
              (tb_callbacks (tap_behaviour w (r_clock r) i)) st1 _ locs HR1 Hs)
    as (st' & o & Hconv & Hfol & Ho).
  exists st'. split; [|done]. rewrite Ho.
  apply ex_block_one.
  assert (Hcall : converges (λ n, eval w n s (ECall (EVar (id_fn i))
                   (args options (context_arg b)
                      (Some (EFunction [id_errN i]
                               [SIf (EVar (id_errN i))
                                    (E i (EVar (id_errN i)))
                                    (D i)])))) st)
            (match o with
             | None => ending_result (tb_ending (tap_behaviour w (r_clock r) i))
             | Some v => Exc v
             end, st')).
  { rewrite <- (rel_clock _ _ _ _ _ _ _ _ _ _ HR).
    eapply ev_call; [by apply ev_var| |].
    - rewrite args_shape. destruct HR as [_ _ Hwf Htop _ _ _ _ _].
  assert (∃ k, top_ok_from options co vals k (frames st)) by (by exists j).
      apply (args_eval options co w vals); try done.
      eapply ev_list_cons; [apply ev_function|apply ev_list_nil].
    - fold (callback_closure E D i s).
      eapply call_tap_callback; [exact Hlast|]. rewrite Hplain.
      rewrite (rel_clock _ _ _ _ _ _ _ _ _ _ HR). exact Hconv. }
  destruct o as [v|].
  - by eapply ex_expr_exc.
  - destruct (tb_ending (tap_behaviour w (r_clock r) i)); simpl in *.
    + by eapply ex_expr_val.
    + by eapply ex_expr_exc.
Qed.

(** The calls of the two handlers that a [then] makes. *)
Lemma settles_sem s a p e :
    ∀ l st r locs,
    R st r locs → (1 ≤ s < length (frames st))%nat → locs !! a = Some (s, i) →
    ∃ st' o,
      converges (λ n, settle w n p [fulfilled_closure D i s;
                                    rejected_closure E i s] l st)
                (o, st')
      ∧ Follows st locs st'
          (ref_settles fail next i a p e l r).2
      ∧ (ref_settles fail next i a p e l r).1
        = match o with
          | None => ending_exception e
          | Some v => Some v
          end.
Proof.
  intros l. induction l as [|[fulfilled actuals] l IH]; intros st r locs HR Hs Ha.
  { exists st, None. split; [apply settle_nil|]. split; [|done].
    by apply follows_here. }
  set (h := if fulfilled then HFulfilled i a else HRejected i a).
  set (c := if fulfilled then fulfilled_closure D i s
            else rejected_closure E i s).
  set (t := if fulfilled then OnFulfilled p else OnRejected p).
  assert (Hc : nth_closure [fulfilled_closure D i s;
                            rejected_closure E i s]
                 (if fulfilled then 0%nat else 1%nat) = Some c).
  { unfold c. by destruct fulfilled. }
  destruct (handle_sem h c actuals
              (log_all [EvFire t actuals] st) (r_log [EvFire t actuals] r) locs)
    as (st1 & Hconv & locs1 & HR1 & Hp1 & Hl1).
  { by apply (Rel_log _ _ _ _ _ _ _ _ extra_keeps). }
  { unfold h, c. destruct fulfilled; by exists s. }
  { unfold h. by destruct fulfilled. }
  { unfold c. by destruct fulfilled. }
  simpl ref_settles. fold h t.
  destruct (ref_handle fail next h actuals
              (r_log [EvFire t actuals] r)) as [[v|] r1]; simpl in *.
  - exists st1, (Some v). split; [by eapply settle_cons_exc|]. split; [|done].
    by exists locs1.
  - destruct (IH st1 r1 locs1 HR1) as (st' & o & Hconv' & Hfol & Ho); [lia| |].
    { by eapply prefix_lookup_Some. }
    exists st', o. split; [by eapply settle_cons_val|]. split; [|done].
    by eapply follows_step.
Qed.

(** The unit of a promise tap. *)
Lemma promise_unit_sem s st r locs (b : bool) :
    R st r locs → (1 ≤ s < length (frames st))%nat → (s, i) ∉ locs →
  read_var (frames st) s (id_fn i) = Some (VTapFn i) →
  (∀ v, tb_ending (tap_behaviour w (r_clock r) i) = Returns v → external v = true) →
  Sim (λ n, exec_block w n s
         [SVar (id_hasResult i) (Some (EBool false));
          SVar (id_promise i)
               (Some (ECall (EVar (id_fn i)) (args options (context_arg b) None)));
          SIf (EOr (ENot (EVar (id_promise i)))
                   (ENot (EMember (EVar (id_promise i)) "then")))
              [SThrow (ENewError
                 (EAdd (EAdd (EStr "Tap function (tapPromise) did not return promise (returned ")
                             (EVar (id_promise i)))
                       (EStr ")")))]
              [];
          SExpr (ECall (EMember (EVar (id_promise i)) "then")
                   [EFunction [id_result i]
                      (SAssign (id_hasResult i) (EBool true) :: D i);
                    EFunction [id_errN i]
                      (SIf (EVar (id_hasResult i)) [SThrow (EVar (id_errN i))] []
                       :: E i (EVar (id_errN i)))])] st)
      outcome_of st locs
      (let r' := r_tick (r_log [EvTap i (with_context options b
                                           (arg_values options vals))] r) in
       match tb_ending (tap_behaviour w (r_clock r) i) with
       | Throws e => (Some e, r')
       | Returns (VThenable p) =>
           let a := length (r_flags r') in
           let bt := then_behaviour w (r_clock r') p in
           let r2 := r_tick (r_log [EvThen p] (r_new_flag r')) in
           let r3 := r_enroll (OnRejected p) (HRejected i a)
                       (r_enroll (OnFulfilled p) (HFulfilled i a) r2) in
           ref_settles fail next i a p
             (thb_ending bt) (thb_settles bt) r3
       | Returns v => (Some (usage_error v), r')
       end).
Proof.
  intros HR Hs Hfresh Hfn Hext.
  set (st1 := set_frames (bind_in (frames st) s (id_hasResult i) (VBool false)) st).
  assert (HR1 : R st1 r locs).
  { apply bind_ok; [done|done|by left|]. by intros k [= <-]. }
  assert (Hs1 : (1 ≤ s < length (frames st1))%nat).
  { simpl. by rewrite bind_in_length. }
  assert (Hfn1 : read_var (frames st1) s (id_fn i) = Some (VTapFn i)).
  { simpl. by rewrite read_var_bind_ne. }
  destruct (tap_call_plain i s st1 r locs b HR1 Hs1 Hfn1) as [Hcall HR2].
  set (ev := EvTap i (with_context options b (arg_values options vals))) in *.
  set (st2 := tick (log_all [ev] st1)) in *.
  assert (Hfirst : converges (λ n, exec w n s (SVar (id_hasResult i) (Some (EBool false))) st)
                     (ONormal, st1)).
  { apply ex_var_init, ev_bool. }
  cbv zeta. destruct (tb_ending (tap_behaviour w (r_clock r) i)) as [v|e] eqn:Hend;
    simpl in Hcall.
  2: { exists st2. split.
       - eapply ex_block_cons; [exact Hfirst|]. apply ex_block_abrupt; [done|].
         by apply ex_var_init_exc.
       - apply follows_here; [done|]. simpl. by rewrite bind_in_length. }
  specialize (Hext v eq_refl).
  set (st3 := set_frames (bind_in (frames st2) s (id_promise i) v) st2).
  assert (HR3 : R st3 (r_tick (r_log [ev] r)) locs).
  { apply bind_ok; [done|done|by left|]. intros k [=]. }
  assert (Hs3 : (1 ≤ s < length (frames st3))%nat).
  { simpl. by rewrite !bind_in_length. }
  assert (Hsecond : converges (λ n, exec w n s (SVar (id_promise i)
               (Some (ECall (EVar (id_fn i)) (args options (context_arg b) None)))) st1)
                     (ONormal, st3)).
  { by apply ex_var_init. }
  assert (Hp : read_var (frames st3) s (id_promise i) = Some v).
  { simpl. apply read_var_bind_eq. rewrite bind_in_length. lia. }
  destruct (promise_test s st3 (id_promise i) v Hp Hext) as (c & Htest & Hc).
  assert (Husage : (∀ p, v ≠ VThenable p) →
    Sim (λ n, exec_block w n s
         [SVar (id_hasResult i) (Some (EBool false));
          SVar (id_promise i)
               (Some (ECall (EVar (id_fn i)) (args options (context_arg b) None)));
          SIf (EOr (ENot (EVar (id_promise i)))
                   (ENot (EMember (EVar (id_promise i)) "then")))
              [SThrow (ENewError
                 (EAdd (EAdd (EStr "Tap function (tapPromise) did not return promise (returned ")
                             (EVar (id_promise i)))
                       (EStr ")")))]
              [];
          SExpr (ECall (EMember (EVar (id_promise i)) "then")
                   [EFunction [id_result i]
                      (SAssign (id_hasResult i) (EBool true) :: D i);
                    EFunction [id_errN i]
                      (SIf (EVar (id_hasResult i)) [SThrow (EVar (id_errN i))] []
                       :: E i (EVar (id_errN i)))])] st)
      outcome_of st locs (Some (usage_error v), r_tick (r_log [ev] r))).
  { intros Hv. exists st3. split.
    - eapply ex_block_cons; [exact Hfirst|].
      eapply ex_block_cons; [exact Hsecond|].
      apply ex_block_abrupt; [done|]. eapply ex_if; [exact Htest|].
      replace (truthy c) with true by (destruct v; try done; by destruct (Hv p)).
      by apply usage_error_sem.
    - apply follows_here; [done|]. simpl. by rewrite !bind_in_length. }
  assert (Hv : (∀ p, v ≠ VThenable p) ∨ ∃ p, v = VThenable p).
  { destruct v; try (left; by intros p'). right. by eexists. }
  destruct Hv as [Hv|[p ->]].
  { destruct v; try (by apply Husage); try done. by destruct (Hv p). }
  clear Husage.
  set (a := length (r_flags (r_tick (r_log [ev] r)))).
  assert (Ha : (locs ++ [(s, i)]) !! a = Some (s, i)).
  { unfold a. simpl. rewrite <- (rel_locs_length _ _ _ _ _ _ _ _ _ _ HR).
    by apply list_lookup_middle. }
  set (st4 := enroll (OnRejected p) (rejected_closure E i s)
                (enroll (OnFulfilled p) (fulfilled_closure D i s)
                   (tick (log (EvThen p) st3)))).
  assert (HR4 : R st4
                  (r_enroll (OnRejected p) (HRejected i a)
                     (r_enroll (OnFulfilled p) (HFulfilled i a)
                        (r_tick (r_log [EvThen p] (r_new_flag (r_tick (r_log [ev] r)))))))
                  (locs ++ [(s, i)])).
  { apply (Rel_enroll _ _ _ _ _ _ _ _ extra_keeps); try done; [|by exists s].
    apply (Rel_enroll _ _ _ _ _ _ _ _ extra_keeps); try done; [|by exists s].
    apply (Rel_tick _ _ _ _ _ _ _ _ extra_keeps), (Rel_log _ _ _ _ _ _ _ _ extra_keeps), (Rel_new_flag _ _ _ _ _ _ _ _ extra_keeps); try done.
    simpl. rewrite bound_in_bind_ne by (intros [=]). apply bound_in_bind_eq. lia. }
  destruct (settles_sem s a p
              (thb_ending (then_behaviour w (r_clock (r_tick (r_log [ev] r))) p))
              (thb_settles (then_behaviour w (r_clock (r_tick (r_log [ev] r))) p))
              st4 _ _ HR4 Hs3 Ha)
    as (st' & o & Hconv & Hfol & Ho).
  exists st'. split.
  2: { eapply follows_step; [by apply prefix_app_r| |exact Hfol].
       simpl. by rewrite !bind_in_length. }
  rewrite Ho.
  eapply ex_block_cons; [exact Hfirst|].
  eapply ex_block_cons; [exact Hsecond|].
  eapply ex_block_cons.
  { eapply ex_if; [exact Htest|]. rewrite Hc. apply ex_block_nil. }
  apply ex_block_one.
  assert (Hthen : converges (λ n, eval w n s
            (ECall (EMember (EVar (id_promise i)) "then")
                   [EFunction [id_result i]
                      (SAssign (id_hasResult i) (EBool true) :: D i);
                    EFunction [id_errN i]
                      (SIf (EVar (id_hasResult i)) [SThrow (EVar (id_errN i))] []
                       :: E i (EVar (id_errN i)))]) st3)
            (match o with
             | None => ending_result (thb_ending (then_behaviour w (clock st3) p))
             | Some v => Exc v
             end, st')).
  { eapply ev_call.
    - eapply ev_member_val; [by apply ev_var|done].
    - eapply ev_list_cons; [apply ev_function|].
      eapply ev_list_cons; [apply ev_function|apply ev_list_nil].
    - apply call_then. simpl "!!".
      replace (then_behaviour w (clock st3) p)
        with (then_behaviour w (r_clock (r_tick (r_log [ev] r))) p); [exact Hconv|].
      by rewrite <- (rel_clock _ _ _ _ _ _ _ _ _ _ HR3). }
  rewrite (rel_clock _ _ _ _ _ _ _ _ _ _ HR3) in Hthen.
  destruct o as [v|].
  - by eapply ex_expr_exc.
  - destruct (thb_ending (then_behaviour w (r_clock (r_tick (r_log [ev] r))) p)); simpl in *.
    + by eapply ex_expr_val.
    + by eapply ex_expr_exc.
Qed.


(** The unit that [callTap] makes. *)
Theorem unit_sem tap s st r locs :
  taps !! i = Some tap →
  (∀ c v, tap_type tap = promise →
     tb_ending (tap_behaviour w c i) = Returns v → external v = true) →
  R st r locs → (1 ≤ s < length (frames st))%nat →
  quiet locs s → (s, i) ∉ locs →
  Sim (λ n, exec_block w n s
         (callTap options i (mkTapHandlers (E i) None (Some (λ _, D i)) false)) st)
      outcome_of st locs (ref_unit options w vals fail next tap i r).
Proof.
  intros Htap Hext HR Hs Hquiet Hfresh.
  unfold callTap. rewrite Htap. cbv zeta.
  set (target := ref_unit options w vals fail next tap i r).
  apply sim_of_res.
  apply (preamble_sem s st r locs _
           (λ res, ∃ st', res = (outcome_of target.1, st') ∧ Follows st locs st' target.2)
           HR Hs).
  intros st1 HR1 Hl1 Hfn1.
  assert (Hs1 : (1 ≤ s < length (frames st1))%nat) by lia.
  cbn [th_onError th_onResult th_onDone th_rethrowIfPossible app].
  assert (Hstep : ∀ c res',
            target = res' →
            Sim (λ n, exec_block w n s c st1) outcome_of st1 locs res' →
            ∃ res, converges (λ n, exec_block w n s c st1) res
                   ∧ ∃ st', res = (outcome_of target.1, st')
                            ∧ Follows st locs st' target.2).
  { intros c res' -> (st' & Hconv & Hfol). eexists. split; [exact Hconv|].
    exists st'. split; [done|]. eapply follows_step; [done| |exact Hfol]. lia. }
  assert (Htarget : target = ref_unit options w vals fail next tap i r) by done.
  unfold ref_unit in Htarget.
  destruct (tap_type tap) eqn:Hty.
  - eapply Hstep; [exact Htarget|].
    by apply (sync_unit_sem s st1 _ locs (tap_context tap)).
  - eapply Hstep; [exact Htarget|].
    by apply (async_unit_sem s st1 _ locs (tap_context tap)).
  - eapply Hstep; [exact Htarget|].
    apply (promise_unit_sem s st1 _ locs (tap_context tap)); try done.
    intros v Hv. by eapply Hext.
Qed.

End Tap.

End Unit.
(** * The emitted series code and the reference *)

Section Series.

Variable options : FactoryOptions.
Variable co : ContentOptions.
Variable w : World.
Variable vals : list value.

(** The error channel and the completion of the [callAsync] convention,
    with the calls of the interceptors in front. *)
Hypothesis co_error : ∀ e,
  co_onError co e
  = for_interceptors options int_error
      (λ k _, [SExpr (ECall (EMember (getInterceptor k) "error") [e])])
    ++ [SExpr (ECall (EVar id_callback) [e])].
Hypothesis co_done :
  co_onDone co ()
  = for_interceptors options int_done
      (λ k _, [SExpr (ECall (EMember (getInterceptor k) "done") [])])
    ++ [SExpr (ECall (EVar id_callback) [])].

(** The arguments of the call come from outside, and so does what a
    promise tap returns. *)
Hypothesis args_plain : Forall (λ v, is_closure v = false) (arg_values options vals).
Hypothesis returns_external : ∀ c i tap v,
  opt_taps options !! i = Some tap → tap_type tap = promise →
  tb_ending (tap_behaviour w c i) = Returns v → external v = true.

#[local] Abbreviation Ec := (series_error co).
#[local] Abbreviation Dc := (done_code options co).
#[local] Abbreviation nothing := (λ (_ : state) (_ : RefState), True).
#[local] Abbreviation anything := (λ _ : ident, True).
#[local] Abbreviation R := (series_Rel options co vals).
#[local] Abbreviation HC := (handler_closure Ec Dc).
#[local] Abbreviation N := (tap_count options).
#[local] Abbreviation Kc := (K options co).
#[local] Abbreviation taps := (opt_taps options).
#[local] Abbreviation Follows := (follows options co vals Ec Dc 0 nothing).
#[local] Abbreviation Sim := (simulates options co vals Ec Dc 0 nothing).
#[local] Abbreviation series := (ref_series options w vals).
#[local] Abbreviation onError := (ref_onError options).
#[local] Abbreviation onDone := (ref_onDone options).

Lemma keeps_nothing : keeps anything nothing.
Proof. by intros st r st' r' _ _ _. Qed.

Lemma fresh_S locs s i : fresh locs s i → fresh locs s (S i).
Proof. intros H j Hj. apply H. lia. Qed.

Lemma fresh_new st r locs i : R st r locs → fresh locs (length (frames st)) i.
Proof. intros HR j _. by eapply Rel_fresh_frame. Qed.

Lemma callback_call s st x e :
  wf_frames (frames st) → (∃ j, top_ok_from options co vals j (frames st)) →
  (1 ≤ s < length (frames st))%nat →
  converges (λ n, eval_list w n s x st) (inl e, st) →
  converges (λ n, exec_block w n s [SExpr (ECall (EVar id_callback) x)] st)
            (ONormal, log_all [EvCallback e] st).
Proof.
  intros Hwf Htop Hs Hx. apply ex_block_one. eapply ex_expr_val.
  eapply ev_call; [|exact Hx|apply call_callback].
  apply ev_var. destruct Htop as (j & Hc & _). by eapply read_var_stable.
Qed.

(** The error channel. *)
Lemma error_sem (i : nat) s st r locs x e :
  R st r locs → (1 ≤ s < length (frames st))%nat →
  read_var (frames st) s x = Some e →
  ∃ st', converges (λ n, exec_block w n s (Ec i (EVar x)) st) (ONormal, st')
         ∧ R st' (onError e r) locs
         ∧ length (frames st') = length (frames st)
         ∧ ∀ s' y, stable y = false →
             bound_in (frames st') s' y = bound_in (frames st) s' y.
Proof.
  intros HR Hs Hx. eexists.
  split; [|split; [by apply (Rel_log _ _ _ _ _ _ _ _ keeps_nothing)|done]].
  unfold series_error. rewrite co_error, app_nil_r.
  destruct HR as [_ _ Hwf Htop _ _ _ _ _].
  assert (∃ j, top_ok_from options co vals j (frames st)) by (by exists 0%nat).
  apply (for_interceptors_frag options co w vals int_error "error"
           (λ _, [EVar x]) (λ _, [e])); try done.
  - intros _ st' Hst'. eapply ev_list_cons; [|apply ev_list_nil].
    apply ev_var. by rewrite Hst'.
  - rewrite log_all_app. apply callback_call; try done.
    eapply ev_list_cons; [|apply ev_list_nil]. by apply ev_var.
Qed.

(** Completion. *)
Lemma done_sem s st r locs :
  R st r locs → (1 ≤ s < length (frames st))%nat →
  Sim (λ n, exec_block w n s (Kc N) st) outcome_of st locs (series [] N r).
Proof.
  intros HR Hs. unfold simulates. simpl. unfold ref_onDone. eexists.
  split; [|apply follows_here; [by apply (Rel_log _ _ _ _ _ _ _ _ keeps_nothing)|done]].
  simpl. rewrite K_last, co_done. destruct HR as [_ _ Hwf Htop _ _ _ _ _].
  assert (∃ j, top_ok_from options co vals j (frames st)) by (by exists 0%nat).
  apply (for_interceptors_frag options co w vals int_done "done"
           (λ _, []) (λ _, [])); try done.
  - intros _ st' Hst'. apply ev_list_nil.
  - rewrite log_all_app. apply callback_call; try done. apply ev_list_nil.
Qed.

(** What a tap is given as its continuation. *)
Lemma next_sem i :
  (i < N)%nat → K_sem options co w vals (S i) →
  ∀ s st r locs,
    R st r locs → (1 ≤ s < length (frames st))%nat → fresh locs s (S i) →
    Sim (λ n, exec_block w n s (Dc i) st) outcome_of st locs
        (series (drop (S i) taps) (S i) r).
Proof.
  intros Hi HK s st r locs HR Hs Hfresh. unfold done_code.
  destruct (unrolls options co i) eqn:Hu; [|by apply HK].
  pose proof (Rel_frames_length _ _ _ _ _ _ _ _ _ _ HR) as Hlen.
  assert (Hnext : read_var (frames st) s (id_next i) = Some (VClosure [] (Kc (S i)) 1)).
  { destruct HR as [_ _ Hwf (_ & _ & _ & _ & _ & Hn) _ _ _ _ _].
    eapply read_var_stable; eauto. apply Hn; [lia|done..]. }
  destruct (HK (length (frames st))
              (set_frames (frames st ++ [mkFrame (bind_params [] []) (Some 1%nat)]) st)
              r locs) as (st' & Hconv & Hfol).
  - apply (Rel_push _ _ _ _ _ _ _ _ keeps_nothing); [done|lia|].
    intros x _. apply lookup_empty.
  - simpl. rewrite length_app. simpl. lia.
  - by eapply fresh_new.
  - exists st'. split.
    + apply ex_block_one, ex_expr_sim.
      eapply ev_call; [by apply ev_var|apply ev_list_nil|].
      by apply call_closure_sim.
    + eapply follows_step; [done| |exact Hfol].
      simpl. rewrite length_app. lia.
Qed.

(** The code for the taps from [i] on: tap [i], then the rest. *)
Lemma K_step i :
  (i < N)%nat → K_sem options co w vals (S i) → K_sem options co w vals i.
Proof.
  intros Hi HK s st r locs HR Hs Hfresh.
  destruct (lookup_lt_is_Some_2 taps i Hi) as [tap Htap].
  rewrite (drop_S _ _ _ Htap), K_unfold by done.
  cbn [ref_series].
  apply (unit_sem options co w vals Ec Dc 0 nothing anything onError
           keeps_nothing args_plain i (series (drop (S i) taps) (S i))
           (λ locs s, fresh locs s (S i))); try done.
  - intros st0 r0 locs0 HR0. by eapply fresh_new.
  - apply error_sem.
  - by apply next_sem.
  - intros c v Hty Hv. by eapply returns_external.
  - by apply fresh_S.
  - by apply Hfresh.
Qed.

Theorem K_sem_all i : (i ≤ N)%nat → K_sem options co w vals i.
Proof.
  intros Hi. remember (N - i)%nat as d eqn:Hd. revert i Hi Hd.
  induction d as [|d IH]; intros i Hi Hd.
  - assert (i = N) as -> by lia. intros s st r locs HR Hs _.
    rewrite drop_ge by done. by apply done_sem.
  - apply K_step; [lia|]. apply IH; lia.
Qed.

(** A call of a function that was handed out. *)
Lemma series_handle_sem h c actuals st r locs :
  R st r locs → HC locs h c → (handler_tap h < N)%nat →
  (1 ≤ closure_scope c < length (frames st))%nat →
  Sim (λ n, call w n c actuals st) result_of st locs
      (ref_handle onError
         (series (drop (S (handler_tap h)) taps) (S (handler_tap h)))
         h actuals r).
Proof.
  intros HR Hh Htap Hs.
  apply (handle_sem options co w vals Ec Dc 0 nothing anything onError
           keeps_nothing (handler_tap h)
           (series (drop (S (handler_tap h)) taps) (S (handler_tap h)))
           (λ locs s, fresh locs s (S (handler_tap h)))); try done.
  - intros st0 r0 locs0 HR0. by eapply fresh_new.
  - apply error_sem.
  - apply next_sem; [done|]. apply K_sem_all. lia.
Qed.

(** The event loop. *)
Lemma drive_nil st : converges (λ n, drive w n [] st) st.
Proof. by exists 0%nat. Qed.

Lemma drive_skip st t actuals script st' :
  registered (registry st) t = None →
  converges (λ n, drive w n script st) st' →
  converges (λ n, drive w n ((t, actuals) :: script) st) st'.
Proof.
  intros Ht [n1 H1]. exists n1. intros n Hn. simpl. rewrite Ht. by apply H1.
Qed.

Lemma drive_val st t actuals script f v st1 st' :
  registered (registry st) t = Some f →
  converges (λ n, call w n f actuals (log (EvFire t actuals) st)) (Val v, st1) →
  converges (λ n, drive w n script st1) st' →
  converges (λ n, drive w n ((t, actuals) :: script) st) st'.
Proof.
  intros Ht [n1 H1] [n2 H2]. exists (n1 + n2)%nat. intros n Hn. simpl.
  rewrite Ht, H1 by lia. apply H2. lia.
Qed.

Lemma drive_exc st t actuals script f v st1 st' :
  registered (registry st) t = Some f →
  converges (λ n, call w n f actuals (log (EvFire t actuals) st)) (Exc v, st1) →
  converges (λ n, drive w n script (log (EvUncaught v) st1)) st' →
  converges (λ n, drive w n ((t, actuals) :: script) st) st'.
Proof.
  intros Ht [n1 H1] [n2 H2]. exists (n1 + n2)%nat. intros n Hn. simpl.
  rewrite Ht, H1 by lia. apply H2. lia.
Qed.

Theorem drive_sem script :
  ∀ st r locs, R st r locs →
    ∃ st', converges (λ n, drive w n script st) st'
           ∧ trace st' = r_trace (ref_drive options w vals script r).
Proof.
  induction script as [|[t actuals] script IH]; intros st r locs HR.
  { exists st. split; [apply drive_nil|]. by destruct HR. }
  pose proof (Rel_registered _ _ _ _ _ _ _ _ _ _ t HR) as Hreg. simpl ref_drive.
  destruct (r_registered (r_registry r) t) as [h|].
  - destruct Hreg as (c & Hc & Hh & ps & body & s0 & -> & Hs0 & Htap).
    destruct (series_handle_sem h (VClosure ps body s0) actuals
                (log_all [EvFire t actuals] st) (r_log [EvFire t actuals] r) locs)
      as (st1 & Hconv & locs1 & HR1 & _);
      [by apply (Rel_log _ _ _ _ _ _ _ _ keeps_nothing)|done..|].
    destruct (ref_handle (ref_onError options) _ h actuals (r_log [EvFire t actuals] r))
      as [[v|] r1]; simpl in Hconv.
    + destruct (IH (log_all [EvUncaught v] st1) (r_log [EvUncaught v] r1) locs1)
        as (st' & Hdrive & Htrace); [by apply (Rel_log _ _ _ _ _ _ _ _ keeps_nothing)|].
      exists st'. split; [|done]. by eapply drive_exc.
    + destruct (IH st1 r1 locs1 HR1) as (st' & Hdrive & Htrace).
      exists st'. split; [|done]. by eapply drive_val.
  - destruct (IH st r locs HR) as (st' & Hdrive & Htrace).
    exists st'. split; [|done]. by apply drive_skip.
Qed.

End Series.

(** * The dispatcher from its call to the end of the event loop *)

Section TopScope.

Variable options : FactoryOptions.
Variable co : ContentOptions.
Variable w : World.
Variable vals : list value.

Implicit Types (vars : gmap ident value) (tr : list event).

Lemma bind_params_None ps actuals x : x ∉ ps → bind_params ps actuals !! x = None.
Proof.
  revert actuals. induction ps as [|p ps IH]; intros actuals Hx; [done|].
  apply not_elem_of_cons in Hx as [Hne Hx].
  destruct actuals; simpl; rewrite lookup_insert_ne by done; by apply IH.
Qed.

Lemma bind_params_Some ps actuals x : x ∈ ps → is_Some (bind_params ps actuals !! x).
Proof.
  revert actuals. induction ps as [|p ps IH]; intros actuals Hx.
  { by apply elem_of_nil in Hx. }
  destruct (decide (x = p)) as [->|Hne].
  - destruct actuals; simpl; rewrite lookup_insert_eq; eauto.
  - apply elem_of_cons in Hx as [?|Hx]; [done|].
    destruct actuals; simpl; rewrite lookup_insert_ne by done; by apply IH.
Qed.

Lemma bind_params_values ps actuals x v :
  bind_params ps actuals !! x = Some v → v ∈ actuals ∨ v = VUndefined.
Proof.
  revert actuals. induction ps as [|p ps IH]; intros actuals Hx; [done|].
  destruct actuals as [|a actuals]; simpl in Hx.
  - destruct (decide (x = p)) as [->|Hne].
    + rewrite lookup_insert_eq in Hx. right. congruence.
    + rewrite lookup_insert_ne in Hx by done. by apply IH in Hx.
  - destruct (decide (x = p)) as [->|Hne].
    + rewrite lookup_insert_eq in Hx. left. simplify_eq. apply elem_of_cons. by left.
    + rewrite lookup_insert_ne in Hx by done. apply IH in Hx as [Hx|Hx]; [|by right].
      left. apply elem_of_cons. by right.
Qed.

Lemma bind_params_last (l : list string) (actuals : list value) x v :
  length actuals = length l → (∀ a, x ≠ id_arg a) →
  bind_params (map id_arg l ++ [x]) (actuals ++ [v]) !! x = Some v.
Proof.
  intros Hlen Hx. revert actuals Hlen.
  induction l as [|a l IH]; intros [|u actuals] Hlen; try done.
  - simpl. by rewrite lookup_insert_eq.
  - simpl. rewrite lookup_insert_ne by (intros E; by apply (Hx a)).
    apply IH. simpl in Hlen. lia.
Qed.

Lemma wf_top vars tr : wf_frames (frames (top_state vars tr)).
Proof.
  split; [simpl; lia|]. split.
  - intros [|[|s]] f p Hf Hp; simpl in Hf; simplify_eq; simpl in *; simplify_eq; lia.
  - intros [|[|s]] f Hf Hs; simpl in Hf; [lia..|done].
Qed.

Lemma bind_top vars tr x v :
  set_frames (bind_in (frames (top_state vars tr)) 1 x v) (top_state vars tr)
  = top_state (<[x := v]> vars) tr.
Proof. done. Qed.

Lemma read_top vars tr x v :
  vars !! x = Some v → read_var (frames (top_state vars tr)) 1 x = Some v.
Proof. intros Hx. by apply read_var_here. Qed.

Lemma log_top vars tr evs : log_all evs (top_state vars tr) = top_state vars (tr ++ evs).
Proof. done. Qed.

Lemma top_var_init vars tr x e v :
  converges (λ n, eval w n 1 e (top_state vars tr)) (Val v, top_state vars tr) →
  converges (λ n, exec w n 1 (SVar x (Some e)) (top_state vars tr))
            (ONormal, top_state (<[x := v]> vars) tr).
Proof. intros H. exact (ex_var_init w 1 _ _ x e v H). Qed.

Lemma top_var_this vars tr x f :
  converges (λ n, exec w n 1 (SVar x (Some (EThis f))) (top_state vars tr))
            (ONormal, top_state (<[x := this_field f]> vars) tr).
Proof. apply top_var_init, ev_this. Qed.

(** The head of the body. *)
Lemma header_sem vars tr rest res :
  vars !! id_context = None →
  converges (λ n, exec_block w n 1 rest
               (top_state
                  (let vars1 := <[id_x := VHookX]>
                                  (<[id_context := context_value options]> vars) in
                   if bool_decide (0 < length (opt_interceptors options))%nat
                   then <[id_interceptors := VHookInterceptors]>
                          (<[id_taps := VHookTaps]> vars1)
                   else vars1) tr)) res →
  converges (λ n, exec_block w n 1 (header options ++ rest) (top_state vars tr)) res.
Proof.
  intros Hc Hrest. unfold header. rewrite <- app_assoc. simpl.
  eapply ex_block_cons.
  { instantiate (1 := top_state (<[id_context := context_value options]> vars) tr).
    unfold context_value. destruct (needContext options).
    - apply top_var_init, ev_object.
    - rewrite <- bind_top. by apply ex_var_fresh. }
  eapply ex_block_cons; [apply top_var_this|].
  cbv zeta in Hrest.
  destruct (bool_decide (0 < length (opt_interceptors options))%nat); [|done].
  simpl. eapply ex_block_cons; [apply top_var_this|].
  eapply ex_block_cons; [apply top_var_this|]. exact Hrest.
Qed.

End TopScope.

Section Dispatch.

Variable options : FactoryOptions.
Variable co : ContentOptions.
Variable w : World.
Variable vals : list value.

Hypothesis co_error : ∀ e,
  co_onError co e
  = for_interceptors options int_error
      (λ k _, [SExpr (ECall (EMember (getInterceptor k) "error") [e])])
    ++ [SExpr (ECall (EVar id_callback) [e])].
Hypothesis co_done :
  co_onDone co ()
  = for_interceptors options int_done
      (λ k _, [SExpr (ECall (EMember (getInterceptor k) "done") [])])
    ++ [SExpr (ECall (EVar id_callback) [])].
Hypothesis vals_length : length vals = length (opt_args options).
Hypothesis vals_plain : Forall (λ v, is_closure v = false) vals.
Hypothesis returns_external : ∀ c i tap v,
  opt_taps options !! i = Some tap → tap_type tap = promise →
  tb_ending (tap_behaviour w c i) = Returns v → external v = true.

#[local] Abbreviation N := (tap_count options).
#[local] Abbreviation vars0 :=
  (bind_params (params options (Some id_callback)) (vals ++ [VCallback])).
#[local] Abbreviation call_events :=
  (interceptor_events options int_call "call"
     (λ ic, with_context options (int_context ic) (arg_values options vals))).

Lemma args_plain : Forall (λ v, is_closure v = false) (arg_values options vals).
Proof.
  unfold arg_values. apply Forall_forall. intros v Hv.
  apply list_elem_of_fmap in Hv as (a & -> & Ha).
  destruct (vars0 !! id_arg a) as [u|] eqn:E; [|done]. simpl.
  apply bind_params_values in E as [E| ->]; [|done].
  apply elem_of_app in E as [E|E].
  - rewrite Forall_forall in vals_plain. by apply vals_plain.
  - by apply list_elem_of_singleton in E as ->.
Qed.

Lemma vars0_args :
  Forall2 (λ a v, vars0 !! id_arg a = Some v) (opt_args options)
          (arg_values options vals).
Proof.
  unfold arg_values. apply Forall2_fmap_r, Forall_Forall2_diag, Forall_forall.
  intros a Ha.
  destruct (bind_params_Some (params options (Some id_callback))
              (vals ++ [VCallback]) (id_arg a)) as [u Hu].
  - unfold params, _args. apply elem_of_app. left. by apply list_elem_of_fmap_2.
  - unfold compose. by rewrite Hu.
Qed.

Lemma vars0_callback : vars0 !! id_callback = Some VCallback.
Proof. unfold params, _args. by apply bind_params_last. Qed.

Lemma vars0_fresh x : (∀ a, x ≠ id_arg a) → x ≠ id_callback → vars0 !! x = None.
Proof.
  intros Ha Hc. apply bind_params_None. unfold params, _args.
  intros Hx. apply elem_of_app in Hx as [Hx|Hx].
  - apply list_elem_of_fmap in Hx as (a & -> & _). by apply (Ha a).
  - by apply list_elem_of_singleton in Hx.
Qed.

(** What the activation binds when the head of the body has run. *)
Lemma header_top_ok vars tr :
  vars = (let vars1 := <[id_x := VHookX]>
                         (<[id_context := context_value options]> vars0) in
          if bool_decide (0 < length (opt_interceptors options))%nat
          then <[id_interceptors := VHookInterceptors]>
                 (<[id_taps := VHookTaps]> vars1)
          else vars1) →
  top_ok_from options co vals N (frames (top_state vars tr)).
Proof.
  intros ->. unfold top_ok_from, bound_in. simpl.
  assert (Hbase : ∀ x v,
            x ≠ id_x → x ≠ id_context → x ≠ id_taps → x ≠ id_interceptors →
            vars0 !! x = v →
            (if bool_decide (0 < length (opt_interceptors options))%nat
             then <[id_interceptors := VHookInterceptors]>
                    (<[id_taps := VHookTaps]>
                       (<[id_x := VHookX]>
                          (<[id_context := context_value options]> vars0)))
             else <[id_x := VHookX]>
                    (<[id_context := context_value options]> vars0)) !! x = v).
  { intros x v H1 H2 H3 H4 <-.
    destruct (bool_decide _); by rewrite !lookup_insert_ne by done. }
  split_and!.
  - apply Hbase; try done. apply vars0_callback.
  - destruct (bool_decide _); rewrite ?lookup_insert_ne by done;
      by rewrite lookup_insert_eq.
  - destruct (bool_decide _); rewrite ?lookup_insert_ne by done;
      by rewrite lookup_insert_eq.
  - intros Hne. rewrite bool_decide_true.
    + split; rewrite ?lookup_insert_ne by done; by rewrite lookup_insert_eq.
    + destruct (opt_interceptors options); [done|simpl; lia].
  - eapply Forall2_impl; [apply vars0_args|]. intros a v Ha.
    by apply Hbase.
  - intros i Hi Hlt. lia.
Qed.

Lemma top_ok_from_next i vars tr :
  top_ok_from options co vals (S i) (frames (top_state vars tr)) →
  top_ok_from options co vals i
    (frames (top_state (if unrolls options co i
                        then <[id_next i := VClosure [] (K options co (S i)) 1]> vars
                        else vars) tr)).
Proof.
  unfold top_ok_from, bound_in. simpl. intros (H1 & H2 & H3 & H4 & H5 & H6).
  destruct (unrolls options co i) eqn:Hu.
  - rewrite !lookup_insert_ne by done. split_and!; try done.
    + eapply Forall2_impl; [exact H5|]. intros a v Ha. by rewrite lookup_insert_ne.
    + intros k Hk Hlt Huk. destruct (decide (k = i)) as [->|Hne].
      * by rewrite lookup_insert_eq.
      * rewrite lookup_insert_ne by congruence. apply H6; [lia|done..].
  - split_and!; try done. intros k Hk Hlt Huk.
    destruct (decide (k = i)) as [->|Hne]; [congruence|]. apply H6; [lia|done..].
Qed.

(** The declarations of the named units. *)
Lemma decl_sem tr d :
  ∀ i vars, (N - i = d)%nat → (i ≤ N)%nat →
    top_ok_from options co vals N (frames (top_state vars tr)) →
    ∃ vars', top_ok_from options co vals i (frames (top_state vars' tr))
      ∧ ∀ rest res,
          converges (λ n, exec_block w n 1 rest (top_state vars' tr)) res →
          converges (λ n, exec_block w n 1 (sl_code (loop_at options co i) ++ rest)
                       (top_state vars tr)) res.
Proof.
  induction d as [|d IH]; intros i vars Hd Hi Htop.
  - assert (i = N) as -> by lia. exists vars. split; [done|].
    intros rest res Hrest. by rewrite loop_at_last.
  - destruct (IH (S i) vars) as (vars' & Htop' & Hrun); [lia|lia|done|].
    pose proof (top_ok_from_next i vars' tr Htop') as Hnext.
    eexists. split; [exact Hnext|]. intros rest res Hrest.
    rewrite loop_code_step by lia. rewrite <- app_assoc. apply Hrun.
    destruct (unrolls options co i); simpl; [|done].
    eapply ex_block_cons; [apply ex_function|]. by rewrite bind_top.
Qed.

#[local] Abbreviation r0 := (r_log call_events (mkRef [] [] 0 [] 0)).

(** The body of the dispatcher. *)
Lemma body_sem :
  ∃ st' locs,
    converges (λ n, exec_block w n 1
                 (header options
                  ++ for_interceptors options int_call (λ k ic,
                       [SExpr (ECall (EMember (getInterceptor k) "call")
                                 (args options (context_arg (int_context ic)) None))])
                  ++ sl_code (loop_at options co 0) ++ K options co 0)
                 (top_state vars0 []))
              (outcome_of (ref_series options w vals (opt_taps options) 0 r0).1, st')
    ∧ series_Rel options co vals st' (ref_series options w vals (opt_taps options) 0 r0).2 locs.
Proof.
  set (vars2 := let vars1 := <[id_x := VHookX]>
                              (<[id_context := context_value options]> vars0) in
                if bool_decide (0 < length (opt_interceptors options))%nat
                then <[id_interceptors := VHookInterceptors]>
                       (<[id_taps := VHookTaps]> vars1)
                else vars1).
  pose proof (header_top_ok vars2 [] eq_refl) as Htop2.
  pose proof (header_top_ok vars2 call_events eq_refl) as Htop3.
  destruct (decl_sem call_events N 0%nat vars2) as (vars' & Htop' & Hdecl);
    [lia|lia|done|].
  destruct (K_sem_all options co w vals co_error co_done args_plain returns_external
              0%nat (Nat.le_0_l _) 1%nat (top_state vars' call_events) r0 [])
    as (st' & Hconv & locs & HR & _ & _).
  { split; try done; [apply wf_top|constructor]. }
  { simpl. lia. }
  { intros j _ Hin. by apply elem_of_nil in Hin. }
  exists st', locs. split; [|done].
  apply header_sem; [by apply vars0_fresh|]. fold vars2.
  apply (for_interceptors_frag options co w vals int_call "call"
           (λ ic, args options (context_arg (int_context ic)) None)
           (λ ic, with_context options (int_context ic) (arg_values options vals))).
  - apply wf_top.
  - by exists N.
  - simpl. lia.
  - intros ic st1 Hst1. rewrite args_shape.
    rewrite <- (app_nil_r (with_context _ _ _)).
    apply (args_eval options co w vals); rewrite ?Hst1.
    + apply wf_top.
    + by exists N.
    + simpl. lia.
    + apply ev_list_nil.
  - rewrite log_top. simpl. apply Hdecl. rewrite drop_0 in Hconv. exact Hconv.
Qed.

Lemma run_val (f : JsFunction) actuals script v st1 st2 :
  converges (λ n, call w n (VClosure (fn_params f) (fn_body f) 0) actuals initial_state)
            (Val v, st1) →
  converges (λ n, drive w n script (log (EvReturn v) st1)) st2 →
  converges (λ n, dispatch w n f actuals script) (trace st2).
Proof.
  intros [n1 H1] [n2 H2]. exists (n1 + n2)%nat. intros n Hn.
  unfold dispatch, run. rewrite H1 by lia. by rewrite H2 by lia.
Qed.

Lemma run_exc (f : JsFunction) actuals script v st1 st2 :
  converges (λ n, call w n (VClosure (fn_params f) (fn_body f) 0) actuals initial_state)
            (Exc v, st1) →
  converges (λ n, drive w n script (log (EvThrow v) st1)) st2 →
  converges (λ n, dispatch w n f actuals script) (trace st2).
Proof.
  intros [n1 H1] [n2 H2]. exists (n1 + n2)%nat. intros n Hn.
  unfold dispatch, run. rewrite H1 by lia. by rewrite H2 by lia.
Qed.

(** The call of the dispatcher and the event loop after it. *)
Lemma run_sem (f : JsFunction) script :
  fn_params f = params options (Some id_callback) →
  fn_body f
  = header options
    ++ for_interceptors options int_call (λ k ic,
         [SExpr (ECall (EMember (getInterceptor k) "call")
                   (args options (context_arg (int_context ic)) None))])
    ++ sl_code (loop_at options co 0) ++ K options co 0 →
  converges (λ n, dispatch w n f (vals ++ [VCallback]) script)
            (ref_dispatch options w vals script).
Proof.
  intros Hparams Hbody. destruct body_sem as (st' & locs & Hconv & HR).
  unfold ref_dispatch, ref_run.
  destruct (ref_series options w vals (opt_taps options) 0 r0) as [[v|] r1];
    simpl in Hconv, HR.
  - destruct (drive_sem options co w vals co_error co_done args_plain returns_external
                script (log_all [EvThrow v] st') (r_log [EvThrow v] r1) locs)
      as (st2 & Hdrive & <-); [by apply (Rel_log _ _ _ _ _ _ _ _ keeps_nothing)|].
    eapply run_exc; [|exact Hdrive]. rewrite Hparams, Hbody.
    apply (call_closure_sim w _ _ _ _ _ (Some v)). exact Hconv.
  - destruct (drive_sem options co w vals co_error co_done args_plain returns_external
                script (log_all [EvReturn VUndefined] st')
                (r_log [EvReturn VUndefined] r1) locs)
      as (st2 & Hdrive & <-); [by apply (Rel_log _ _ _ _ _ _ _ _ keeps_nothing)|].
    eapply run_val; [|exact Hdrive]. rewrite Hparams, Hbody.
    apply (call_closure_sim w _ _ _ _ _ None). exact Hconv.
Qed.

End Dispatch.

Lemma content_code_all options co :
  AsyncSeriesHookCodeFactory_content options co
  = sl_code (loop_at options co 0) ++ K options co 0.
Proof.
  rewrite content_code. case_bool_decide as HN; [|done].
  rewrite loop_at_last by lia. simpl. by rewrite <- HN at 1; rewrite K_last.
Qed.

(** The dispatcher that [create] emits for the [callAsync] convention of
    an [AsyncSeriesHook] does what the reference says, whatever the taps,
    the thenables and the later calls of the handed-out functions do. *)
Theorem series_refinement options w vals script :
  opt_type options = async →
  length vals = length (opt_args options) →
  Forall (λ v, is_closure v = false) vals →
  (∀ c i tap v,
     opt_taps options !! i = Some tap → tap_type tap = promise →
     tb_ending (tap_behaviour w c i) = Returns v → external v = true) →
  converges (λ n, dispatch w n (create AsyncSeriesHookCodeFactory_content options)
                    (vals ++ [VCallback]) script)
            (ref_dispatch options w vals script).
Proof.
  intros Hty Hlen Hplain Hext.
  destruct (decide (0 < length (opt_interceptors options))%nat) as [Hint|Hint].
  - eapply (run_sem options
              (mkContent
                 (λ err, for_interceptors options int_error (λ i _,
                           [SExpr (ECall (EMember (getInterceptor i) "error") [err])])
                         ++ [SExpr (ECall (EVar id_callback) [err])])
                 (λ result, for_interceptors options int_result (λ i _,
                           [SExpr (ECall (EMember (getInterceptor i) "result") [result])])
                         ++ [SExpr (ECall (EVar id_callback) [ENull; result])])
                 false
                 (λ _, for_interceptors options int_done (λ i _,
                           [SExpr (ECall (EMember (getInterceptor i) "done") [])])
                         ++ [SExpr (ECall (EVar id_callback) [])])
                 false)); try done.
    + unfold create. by rewrite Hty.
    + unfold create. rewrite Hty. cbn [fn_body]. unfold contentWithInterceptors.
      rewrite bool_decide_true by done. by rewrite content_code_all.
  - assert (Hnil : opt_interceptors options = []).
    { destruct (opt_interceptors options); [done|simpl in Hint; lia]. }
    eapply (run_sem options
              (mkContent (λ err, [SExpr (ECall (EVar id_callback) [err])])
                         (λ result, [SExpr (ECall (EVar id_callback) [ENull; result])])
                         false
                         (λ _, [SExpr (ECall (EVar id_callback) [])])
                         false)); try done.
    + intros e. unfold for_interceptors. by rewrite Hnil.
    + unfold for_interceptors. by rewrite Hnil.
    + unfold create. by rewrite Hty.
    + unfold create. rewrite Hty. cbn [fn_body]. unfold contentWithInterceptors.
      rewrite bool_decide_false by done. rewrite content_code_all.
      unfold for_interceptors. by rewrite Hnil.
Qed.

(** * The series when the taps keep their contract *)

Section Plans.

Variable options : FactoryOptions.
Variable vals : list value.
Variable plans : list plan.

#[local] Abbreviation taps := (opt_taps options).
#[local] Abbreviation N := (tap_count options).
#[local] Abbreviation w := (world_of (opt_taps options) plans).
#[local] Abbreviation series := (ref_series options w vals).

Hypothesis plans_fit : Forall2 fits taps plans.

Lemma observe_app a b : observe (a ++ b) = observe a ++ observe b.
Proof. apply omap_app. Qed.

Lemma observe_concat_imap {A} (f : nat → A → list event) l :
  (∀ k x, observe (f k x) = []) → observe (concat (imap f l)) = [].
Proof.
  revert f. induction l as [|x l IH]; intros f Hf; [done|].
  rewrite imap_cons. simpl. rewrite observe_app, Hf. simpl.
  apply IH. intros k y. apply Hf.
Qed.

Lemma observe_interceptors has m acts :
  observe (interceptor_events options has m acts) = [].
Proof.
  unfold interceptor_events. apply observe_concat_imap.
  intros k ic. by destruct (has ic).
Qed.

Lemma clean_registry k r r' :
  r_registry r' = r_registry r → clean k r → clean k r'.
Proof. intros Hreg Hc j Hj. rewrite Hreg. by apply Hc. Qed.

Lemma clean_mono k k' r : clean k r → (k ≤ k')%nat → clean k' r.
Proof. intros Hc Hk j Hj. apply Hc. lia. Qed.

Lemma clean_callback k i h r :
  clean k r → (i < k)%nat → clean k (r_enroll (TapCallback i) h r).
Proof.
  intros Hc Hi j Hj. destruct (Hc j Hj) as (H1 & H2 & H3). simpl.
  destruct (decide (TapCallback i = TapCallback j)) as [[= ->]|_]; [lia|].
  destruct (decide (TapCallback i = OnFulfilled j)); [done|].
  by destruct (decide (TapCallback i = OnRejected j)).
Qed.

Lemma clean_then k i h h' r :
  clean k r → (i < k)%nat →
  clean k (r_enroll (OnRejected i) h' (r_enroll (OnFulfilled i) h r)).
Proof.
  intros Hc Hi j Hj. destruct (Hc j Hj) as (H1 & H2 & H3). simpl.
  destruct (decide (OnRejected i = TapCallback j)); [done|].
  destruct (decide (OnFulfilled i = TapCallback j)); [done|].
  destruct (decide (OnRejected i = OnFulfilled j)); [done|].
  destruct (decide (OnFulfilled i = OnFulfilled j)) as [[= ->]|_]; [lia|].
  destruct (decide (OnRejected i = OnRejected j)) as [[= ->]|_]; [lia|].
  by destruct (decide (OnFulfilled i = OnRejected j)).
Qed.

(** Signals of taps for which nothing is registered are lost. *)
Lemma drive_clean ps :
  ∀ k r, clean k r → ref_drive options w vals (script_from taps k ps) r = r.
Proof.
  induction ps as [|pl ps IH]; intros k r Hc; [done|].
  destruct (Hc k (le_n _)) as (H1 & H2 & H3).
  assert (Hrest : ref_drive options w vals (script_from taps (S k) ps) r = r).
  { apply IH. eapply clean_mono; [done|lia]. }
  simpl. unfold signal.
  destruct pl as [[|]|[|] e| |v|e]; simpl; try done.
  - destruct (match taps !! k with
              | Some tap => bool_decide (tap_type tap = promise)
              | None => false
              end); simpl; by rewrite ?H1, ?H2.
  - destruct (match taps !! k with
              | Some tap => bool_decide (tap_type tap = promise)
              | None => false
              end); simpl; by rewrite ?H1, ?H3.
Qed.

Lemma plans_length : length plans = N.
Proof. symmetry. by eapply Forall2_length. Qed.

Lemma observe_conclude returned v r :
  observe (r_trace (conclude returned (v, r)))
  = observe (r_trace r)
    ++ match v with
       | None => if returned then [] else [SawReturn]
       | Some e => [if returned then SawUncaught e else SawThrow e]
       end.
Proof.
  destruct v as [e|], returned; simpl; rewrite ?observe_app, ?app_nil_r; done.
Qed.

#[local] Abbreviation called i tap r :=
  (r_tick (r_log [EvTap i (with_context options (tap_context tap)
                             (arg_values options vals))]
             (r_log (interceptor_events options int_tap "tap"
                       (λ ic, with_context options (int_context ic) [VTapDescriptor i]))
                r))).

#[local] Abbreviation enrolled i a r :=
  (r_enroll (OnRejected i) (HRejected i a)
     (r_enroll (OnFulfilled i) (HFulfilled i a)
        (r_tick (r_log [EvThen i] (r_new_flag r))))).

Lemma observe_called i tap r :
  observe (r_trace (called i tap r)) = observe (r_trace r) ++ [SawTap i].
Proof. simpl. by rewrite !observe_app, observe_interceptors, app_nil_r. Qed.

Lemma drive_fire t actuals rest r h :
  r_registered (r_registry r) t = Some h →
  ref_drive options w vals ((t, actuals) :: rest) r
  = ref_drive options w vals rest
      (conclude true
         (ref_handle (ref_onError options) (series (drop (S (handler_tap h)) taps) (S (handler_tap h)))
            h actuals (r_log [EvFire t actuals] r))).
Proof.
  intros Ht. simpl. rewrite Ht.
  by destruct (ref_handle _ _ _ _ _) as [[v|] r'].
Qed.

(** One tap that follows its plan. *)
Section Step.

Variables (i : nat) (tap : Tap) (pl : plan) (r : RefState).
Hypothesis Htap : taps !! i = Some tap.
Hypothesis Hpl : plans !! i = Some pl.

Lemma step_sync :
  tap_type tap = sync →
  series (drop i taps) i r
  = match pl with
    | Fails _ e => (None, ref_onError options e (called i tap r))
    | _ => series (drop (S i) taps) (S i) (called i tap r)
    end.
Proof.
  intros Hty. rewrite (drop_S _ _ _ Htap). cbn [ref_series]; unfold ref_unit; cbn [ref_series]. rewrite Hty.
  simpl tap_behaviour. rewrite Htap, Hpl, Hty. by destruct pl.
Qed.

Lemma step_async :
  tap_type tap = async →
  series (drop i taps) i r
  = let r1 := r_enroll (TapCallback i) (HCallback i) (called i tap r) in
    match pl with
    | Completes false =>
        series (drop (S i) taps) (S i) (r_log [EvFire (TapCallback i) []] r1)
    | Fails false e =>
        if truthy e
        then (None, ref_onError options e (r_log [EvFire (TapCallback i) [e]] r1))
        else series (drop (S i) taps) (S i) (r_log [EvFire (TapCallback i) [e]] r1)
    | Raises e => (Some e, r1)
    | _ => (None, r1)
    end.
Proof.
  intros Hty. rewrite (drop_S _ _ _ Htap). cbn [ref_series]; unfold ref_unit; cbn [ref_series]. rewrite Hty.
  simpl tap_behaviour. rewrite Htap, Hpl, Hty. cbv zeta.
  destruct pl as [[|]|[|] e| |v|e]; cbn [tb_callbacks tb_ending ref_calls]; try done.
  - unfold ref_handle. simpl hd. simpl truthy. cbv iota.
    by destruct (series _ _ _) as [[v|] r'].
  - unfold ref_handle. simpl hd. destruct (truthy e); [done|].
    by destruct (series _ _ _) as [[v|] r'].
Qed.

Lemma step_promise :
  tap_type tap = promise →
  series (drop i taps) i r
  = let a := length (r_flags r) in
    let r3 := enrolled i a (called i tap r) in
    match pl with
    | Returns_plain v =>
        if is_thenable v then series (drop i taps) i r
        else (Some (usage_error v), called i tap r)
    | Completes false =>
        series (drop (S i) taps) (S i)
          (r_set_flag a (r_log [EvFire (OnFulfilled i) [VUndefined]] r3))
    | Fails false e =>
        (None, ref_onError options e (r_log [EvFire (OnRejected i) [e]] r3))
    | Raises e => (Some e, called i tap r)
    | _ => (None, r3)
    end.
Proof.
  intros Hty. cbv zeta. destruct pl as [[|]|[|] e| |v|e] eqn:Epl.
  7: { rewrite (drop_S _ _ _ Htap). cbn [ref_series]; unfold ref_unit; cbn [ref_series]. rewrite Hty.
       simpl tap_behaviour. by rewrite Htap, Hpl, Hty. }
  6: { destruct (is_thenable v) eqn:Ev; [done|].
       rewrite (drop_S _ _ _ Htap). cbn [ref_series]; unfold ref_unit; cbn [ref_series]. rewrite Hty.
       simpl tap_behaviour. rewrite Htap, Hpl, Hty. cbn [tb_ending].
       by destruct v. }
  all: rewrite (drop_S _ _ _ Htap); cbn [ref_series]; unfold ref_unit; cbn [ref_series]; rewrite Hty;
    simpl tap_behaviour; simpl then_behaviour; rewrite Htap, Hpl, Hty;
    cbn [tb_ending thb_settles thb_ending]; rewrite Hpl;
    cbn [ref_settles]; try done.
  - unfold ref_handle. by destruct (series _ _ _) as [[v|] r'].
  - unfold ref_handle. simpl hd.
    replace (r_flags _ !! length (r_flags _)) with (Some false); [done|].
    simpl. by rewrite list_lookup_middle.
Qed.

End Step.

(** The taps from [i] on and the signals of their plans. *)
Lemma plan_run d :
  ∀ i r returned, (N - i = d)%nat → (i ≤ N)%nat → clean i r →
    observe (r_trace (ref_drive options w vals (script_from taps i (drop i plans))
                        (conclude returned (series (drop i taps) i r))))
    = observe (r_trace r) ++ expect (drop i plans) i returned.
Proof.
  induction d as [|d IH]; intros i r returned Hd Hi Hclean.
  { assert (i = N) as -> by lia.
    rewrite !drop_ge by (rewrite ?plans_length; done).
    cbn [ref_series script_from ref_drive expect].
    rewrite observe_conclude. unfold ref_onDone. simpl.
    rewrite !observe_app, observe_interceptors. simpl.
    by rewrite <- app_assoc. }
  assert (Hlt : (i < N)%nat) by lia.
  destruct (lookup_lt_is_Some_2 taps i Hlt) as [tap Htap].
  destruct (lookup_lt_is_Some_2 plans i) as [pl Hpl]; [by rewrite plans_length|].
  pose proof (Forall2_lookup_lr _ _ _ _ _ _ plans_fit Htap Hpl) as Hfit.
  rewrite (drop_S plans _ _ Hpl).
  cbn [script_from expect]. unfold signal. rewrite Htap.
  assert (Hlost : ∀ r', r_registry r' = r_registry r →
            ref_drive options w vals (script_from taps (S i) (drop (S i) plans)) r' = r').
  { intros r' Hreg. apply drive_clean. eapply clean_registry; [exact Hreg|].
    eapply clean_mono; [done|lia]. }
  assert (Hnext : ∀ r' returned', clean (S i) r' →
            observe (r_trace (ref_drive options w vals
                                (script_from taps (S i) (drop (S i) plans))
                                (conclude returned' (series (drop (S i) taps) (S i) r'))))
            = observe (r_trace r') ++ expect (drop (S i) plans) (S i) returned').
  { intros r' returned' Hc. apply IH; [lia|lia|done]. }
  assert (Hc1 : clean (S i) (called i tap r)).
  { eapply clean_registry; [done|]. eapply clean_mono; [done|lia]. }
  unfold fits in Hfit. destruct (tap_type tap) eqn:Hty.
  - (* sync *)
    rewrite (step_sync i tap pl r Htap Hpl Hty).
    destruct pl as [[|]|[|] e| |v|e]; try done; cbn [app].
    + rewrite Hnext by done. by rewrite observe_called, <- app_assoc.
    + rewrite Hlost by (by destruct returned).
      rewrite observe_conclude. unfold ref_onError. cbn [r_trace r_log r_tick].
      rewrite !observe_app, !observe_interceptors. simpl.
      by rewrite <- !app_assoc.
  - (* async *)
    rewrite (step_async i tap pl r Htap Hpl Hty). cbv zeta.
    rewrite bool_decide_false by done.
    destruct pl as [[|]|[|] e| |v|e]; try done; cbn [app].
    + (* completes later *)
      rewrite (drive_fire _ _ _ _ (HCallback i)).
      2: { destruct returned; simpl; by rewrite decide_True. }
      unfold ref_handle. simpl hd. simpl truthy. cbv iota. cbn [handler_tap].
      rewrite Hnext.
      * destruct returned; simpl; rewrite !observe_app, !observe_interceptors;
          simpl; by rewrite <- !app_assoc.
      * eapply clean_registry; [|apply (clean_callback (S i) i (HCallback i) _ Hc1); lia].
        by destruct returned.
    + (* completes during the call *)
      rewrite Hnext.
      * simpl. rewrite !observe_app, !observe_interceptors. simpl.
        by rewrite <- !app_assoc.
      * eapply clean_registry; [|apply (clean_callback (S i) i (HCallback i) _ Hc1); lia].
        done.
    + (* fails later *)
      rewrite (drive_fire _ _ _ _ (HCallback i)).
      2: { destruct returned; simpl; by rewrite decide_True. }
      unfold ref_handle. simpl hd. rewrite Hfit. cbn [conclude].
      rewrite drive_clean.
      2: { eapply clean_registry; [|apply (clean_callback (S i) i (HCallback i) _ Hc1); lia].
           by destruct returned. }
      destruct returned; simpl; rewrite !observe_app, !observe_interceptors;
        simpl; by rewrite <- !app_assoc.
    + (* fails during the call *)
      rewrite Hfit. rewrite drive_clean.
      2: { eapply clean_registry; [|apply (clean_callback (S i) i (HCallback i) _ Hc1); lia].
           by destruct returned. }
      destruct returned; simpl; rewrite !observe_app, !observe_interceptors;
        simpl; by rewrite <- !app_assoc.
    + (* never *)
      rewrite drive_clean.
      2: { eapply clean_registry; [|apply (clean_callback (S i) i (HCallback i) _ Hc1); lia].
           by destruct returned. }
      destruct returned; simpl; rewrite !observe_app, !observe_interceptors;
        simpl; by rewrite <- !app_assoc.
    + (* throws during the call *)
      rewrite drive_clean.
      2: { eapply clean_registry; [|apply (clean_callback (S i) i (HCallback i) _ Hc1); lia].
           by destruct returned. }
      destruct returned; simpl; rewrite !observe_app, !observe_interceptors;
        simpl; by rewrite <- !app_assoc.
  - (* promise *)
    rewrite (step_promise i tap pl r Htap Hpl Hty). cbv zeta.
    rewrite bool_decide_true by done.
    assert (Hc3 : ∀ a, clean (S i) (enrolled i a (called i tap r))).
    { intros a. apply clean_then; [|lia].
      eapply clean_registry; [|exact Hc1]. done. }
    destruct pl as [[|]|[|] e| |v|e]; try done; cbn [app].
    + (* fulfils later *)
      rewrite (drive_fire _ _ _ _ (HFulfilled i (length (r_flags r)))).
      2: { destruct returned; simpl; by rewrite decide_True. }
      unfold ref_handle. cbn [handler_tap].
      rewrite Hnext.
      * destruct returned; simpl; rewrite !observe_app, !observe_interceptors;
          simpl; by rewrite <- !app_assoc.
      * eapply clean_registry; [|exact (Hc3 (length (r_flags r)))].
        by destruct returned.
    + (* fulfils during the call of then *)
      rewrite Hnext.
      * simpl. rewrite !observe_app, !observe_interceptors. simpl.
        by rewrite <- !app_assoc.
      * eapply clean_registry; [|exact (Hc3 (length (r_flags r)))]. done.
    + (* rejects later *)
      rewrite (drive_fire _ _ _ _ (HRejected i (length (r_flags r)))).
      2: { destruct returned; simpl; by rewrite decide_True. }
      unfold ref_handle. simpl hd.
      replace (r_flags _ !! length (r_flags r)) with (Some false).
      2: { destruct returned; simpl; by rewrite list_lookup_middle. }
      cbn [default conclude]. rewrite drive_clean.
      2: { eapply clean_registry; [|exact (Hc3 (length (r_flags r)))].
           by destruct returned. }
      destruct returned; simpl; rewrite !observe_app, !observe_interceptors;
        simpl; by rewrite <- !app_assoc.
    + (* rejects during the call of then *)
      rewrite drive_clean.
      2: { eapply clean_registry; [|exact (Hc3 (length (r_flags r)))].
           by destruct returned. }
      destruct returned; simpl; rewrite !observe_app, !observe_interceptors;
        simpl; by rewrite <- !app_assoc.
    + (* never settles *)
      rewrite drive_clean.
      2: { eapply clean_registry; [|exact (Hc3 (length (r_flags r)))].
           by destruct returned. }
      destruct returned; simpl; rewrite !observe_app, !observe_interceptors;
        simpl; by rewrite <- !app_assoc.
    + (* no thenable *)
      destruct Hfit as [_ ->]. rewrite drive_clean.
      2: { eapply clean_registry; [|exact Hc1]. by destruct returned. }
      destruct returned; simpl; rewrite !observe_app, !observe_interceptors;
        simpl; by rewrite <- !app_assoc.
    + (* throws during the call *)
      rewrite drive_clean.
      2: { eapply clean_registry; [|exact Hc1]. by destruct returned. }
      destruct returned; simpl; rewrite !observe_app, !observe_interceptors;
        simpl; by rewrite <- !app_assoc.
Qed.

(** What is observed of the whole dispatch. *)
Theorem plans_observed :
  observe (ref_dispatch options w vals (script_of taps plans))
  = expect plans 0 false.
Proof.
  unfold ref_dispatch, ref_run, script_of.
  pose proof (plan_run N 0%nat
                (r_log (interceptor_events options int_call "call"
                          (λ ic, with_context options (int_context ic)
                                   (arg_values options vals)))
                   (mkRef [] [] 0 [] 0)) false) as H.
  rewrite !drop_0 in H. unfold conclude in H.
  destruct (series taps 0 _) as [[v|] r1].
  - rewrite H; [|lia|lia|done]. simpl. by rewrite observe_interceptors.
  - rewrite H; [|lia|lia|done]. simpl. by rewrite observe_interceptors.
Qed.


Lemma world_of_external c i tap v :
  taps !! i = Some tap → tap_type tap = promise →
  tb_ending (tap_behaviour w c i) = Returns v → external v = true.
Proof.
  intros Htap Hty. simpl. rewrite Htap, Hty.
  destruct (plans !! i) as [pl|] eqn:Hpl; simpl; [|by intros [= <-]].
  pose proof (Forall2_lookup_lr _ _ _ _ _ _ plans_fit Htap Hpl) as Hfit.
  unfold fits in Hfit. rewrite Hty in Hfit.
  destruct pl; try (intros [= <-]; try done). by destruct Hfit.
Qed.

(** The emitted dispatcher, called with taps that keep their contract. *)
Theorem plans_dispatch :
  opt_type options = async →
  length vals = length (opt_args options) →
  Forall (λ v, is_closure v = false) vals →
  ∃ tr,
    converges (λ n, dispatch w n (create AsyncSeriesHookCodeFactory_content options)
                      (vals ++ [VCallback]) (script_of taps plans)) tr
    ∧ observe tr = expect plans 0 false.
Proof.
  intros Hty Hlen Hplain. eexists. split.
  - apply series_refinement; try done. apply world_of_external.
  - apply plans_observed.
Qed.

End Plans.

(** * What the observations of a series tell *)

Section Expect.

Lemma tap_calls_observe tr : tap_calls tr = taps_seen (observe tr).
Proof.
  unfold tap_calls, taps_seen, observe.
  induction tr as [|ev tr IH]; [done|]. destruct ev; simpl; try f_equal; apply IH.
Qed.

Lemma callback_calls_observe tr : callback_calls tr = callbacks_seen (observe tr).
Proof.
  unfold callback_calls, callbacks_seen, observe.
  induction tr as [|ev tr IH]; [done|]. destruct ev; simpl; try f_equal; apply IH.
Qed.

Lemma calls_ended_observe tr : calls_ended tr = ends_seen (observe tr).
Proof.
  unfold calls_ended, ends_seen, observe.
  induction tr as [|ev tr IH]; [done|]. destruct ev; simpl; try f_equal; apply IH.
Qed.

Lemma taps_seen_app a b : taps_seen (a ++ b) = taps_seen a ++ taps_seen b.
Proof. apply omap_app. Qed.

Lemma callbacks_seen_app a b :
  callbacks_seen (a ++ b) = callbacks_seen a ++ callbacks_seen b.
Proof. apply omap_app. Qed.

Lemma ends_seen_app a b : ends_seen (a ++ b) = ends_seen a ++ ends_seen b.
Proof. apply omap_app. Qed.

(** The taps are invoked in their order, without a gap. *)
Lemma expect_order plans :
  ∀ i returned, ∃ k, (k ≤ length plans)%nat
                     ∧ taps_seen (expect plans i returned) = seq i k.
Proof.
  induction plans as [|pl plans IH]; intros i returned.
  { exists 0%nat. split; [done|]. by destruct returned. }
  destruct pl as [[|]|[|] e| |v|e]; cbn [expect].
  - destruct (IH (S i) true) as (k & Hk & Heq). exists (S k).
    split; [simpl; lia|]. simpl. rewrite taps_seen_app, Heq.
    by destruct returned.
  - destruct (IH (S i) returned) as (k & Hk & Heq). exists (S k).
    split; [simpl; lia|]. simpl. by rewrite Heq.
  - exists 1%nat. split; [simpl; lia|]. by destruct returned.
  - exists 1%nat. split; [simpl; lia|]. by destruct returned.
  - exists 1%nat. split; [simpl; lia|]. by destruct returned.
  - exists 1%nat. split; [simpl; lia|]. by destruct returned.
  - exists 1%nat. split; [simpl; lia|]. by destruct returned.
Qed.

(** The first tap that does not complete. *)
Lemma expect_stop plans :
  ∀ k i returned pl,
    plans !! k = Some pl →
    (∀ l, pl ≠ Completes l) →
    (∀ j, (j < k)%nat → ∃ l, plans !! j = Some (Completes l)) →
    taps_seen (expect plans i returned) = seq i (S k)
    ∧ callbacks_seen (expect plans i returned)
      = match pl with
        | Fails _ e => [[e]]
        | _ => []
        end
    ∧ ∀ e, thrown pl = Some e →
        ends_seen (expect plans i returned)
        = if returned then [SawUncaught e]
          else if forallb completes_now (take k plans)
               then [SawThrow e]
               else [SawReturn; SawUncaught e].
Proof.
  induction plans as [|pl0 plans IH]; intros k i returned pl Hk Hpl Hbefore; [done|].
  destruct k as [|k].
  - simpl in Hk. simplify_eq. cbn [expect take forallb].
    destruct pl as [l|[|] e| |v|e]; [by destruct (Hpl l)|..];
      (split; [by destruct returned|]); (split; [by destruct returned|]);
      intros v' [=]; subst; by destruct returned.
  - simpl in Hk.
    destruct (Hbefore 0%nat) as [l Hl]; [lia|]. simpl in Hl. simplify_eq.
    destruct (IH k (S i) (returned || l) pl Hk Hpl) as (Ht & Hc & He).
    { intros j Hj. destruct (Hbefore (S j)) as [l' Hl']; [lia|]. by exists l'. }
    cbn [expect take forallb completes_now].
    destruct l; rewrite ?orb_true_r, ?orb_false_r in *.
    + split; [|split].
      * simpl. rewrite taps_seen_app, Ht. by destruct returned.
      * rewrite <- Hc. simpl. rewrite callbacks_seen_app. by destruct returned.
      * intros v Hv. simpl. rewrite ends_seen_app, (He v Hv). by destruct returned.
    + split; [|split].
      * simpl. by rewrite Ht.
      * by rewrite <- Hc.
      * intros v Hv. simpl. by rewrite (He v Hv).
Qed.

(** The taps that are invoked. *)
Lemma expect_reached plans :
  ∀ i returned, taps_seen (expect plans i returned) = seq i (reached plans).
Proof.
  induction plans as [|pl plans IH]; intros i returned.
  { by destruct returned. }
  destruct pl as [[|]|[|] e| |v|e]; cbn [expect reached].
  - simpl. rewrite taps_seen_app, IH. by destruct returned.
  - simpl. by rewrite IH.
  - by destruct returned.
  - by destruct returned.
  - by destruct returned.
  - by destruct returned.
  - by destruct returned.
Qed.

(** A tap is invoked when the taps before it complete. *)
Lemma expect_reaches plans :
  ∀ k i returned pl,
    plans !! k = Some pl →
    (∀ j, (j < k)%nat → ∃ l, plans !! j = Some (Completes l)) →
    (i + k)%nat ∈ taps_seen (expect plans i returned).
Proof.
  induction plans as [|pl0 plans IH]; intros k i returned pl Hk Hbefore; [done|].
  destruct k as [|k].
  - rewrite Nat.add_0_r. cbn [expect]. simpl. apply list_elem_of_here.
  - simpl in Hk.
    destruct (Hbefore 0%nat) as [l Hl]; [lia|]. simpl in Hl. simplify_eq.
    assert (Hin : ∀ returned', (i + S k)%nat
                    ∈ taps_seen (expect plans (S i) returned')).
    { intros returned'. replace (i + S k)%nat with (S i + k)%nat by lia.
      apply (IH k (S i) returned' pl Hk).
      intros j Hj. destruct (Hbefore (S j)) as [l' Hl']; [lia|]. by exists l'. }
    cbn [expect]. destruct l; simpl.
    + rewrite taps_seen_app. apply list_elem_of_further, elem_of_app. by right.
    + by apply list_elem_of_further.
Qed.

End Expect.

(** * The flags of the reference, whatever the taps do *)

Section Flags.

Variable options : FactoryOptions.
Variable w : World.
Variable vals : list value.

#[local] Abbreviation series := (ref_series options w vals).
#[local] Abbreviation handle := (ref_handle (ref_onError options)).

Lemma grows_refl r : grows r r.
Proof. by split_and!. Qed.

Lemma grows_trans r1 r2 r3 : grows r1 r2 → grows r2 r3 → grows r1 r3.
Proof.
  intros (H1 & H2 & H3) (H4 & H5 & H6). split_and!; [auto|lia|auto].
Qed.

Lemma grows_same r r' :
  r_registry r' = r_registry r → r_flags r' = r_flags r → grows r r'.
Proof.
  intros Hreg Hfl. unfold grows, reg_ok. rewrite Hreg, Hfl. by split_and!.
Qed.

Lemma grows_log evs r : grows r (r_log evs r).
Proof. by apply grows_same. Qed.

Lemma grows_tick r : grows r (r_tick r).
Proof. by apply grows_same. Qed.

Lemma grows_enroll t h r :
  (∀ a, handler_flag h = Some a → (a < length (r_flags r))%nat) →
  grows r (r_enroll t h r).
Proof.
  intros Hh. split_and!; [|done..]. intros Hok. by constructor.
Qed.

Lemma grows_new_flag r : grows r (r_new_flag r).
Proof.
  split_and!.
  - unfold reg_ok. simpl. intros Hok. eapply Forall_impl; [exact Hok|].
    intros th Hth a Ha. rewrite length_app. specialize (Hth a Ha). lia.
  - simpl. rewrite length_app. lia.
  - intros a Ha. simpl. by apply lookup_app_l_Some.
Qed.

Lemma grows_set_flag a r : grows r (r_set_flag a r).
Proof.
  split_and!.
  - unfold reg_ok. simpl. by rewrite length_insert.
  - simpl. by rewrite length_insert.
  - intros a' Ha'. simpl. destruct (decide (a' = a)) as [->|Hne].
    + apply list_lookup_insert_eq. by eapply lookup_lt_Some.
    + by rewrite list_lookup_insert_ne.
Qed.

Lemma grows_onError e r : grows r (ref_onError options e r).
Proof. apply grows_log. Qed.

Lemma handle_grows next h actuals r :
  (∀ r0, grows r0 (next r0).2) → grows r (handle next h actuals r).2.
Proof.
  intros Hnext. unfold ref_handle. destruct h as [i|i a|i a].
  - destruct (truthy _); [apply grows_onError|apply Hnext].
  - eapply grows_trans; [apply grows_set_flag|apply Hnext].
  - destruct (default false _); [apply grows_refl|apply grows_onError].
Qed.

Lemma calls_grows next i e l :
  (∀ r0, grows r0 (next r0).2) →
  ∀ r, grows r (ref_calls (ref_onError options) next i e l r).2.
Proof.
  intros Hnext. induction l as [|actuals l IH]; intros r; [apply grows_refl|].
  cbn [ref_calls].
  pose proof (handle_grows next (HCallback i) actuals
                (r_log [EvFire (TapCallback i) actuals] r) Hnext) as H.
  destruct (handle next (HCallback i) actuals _) as [[v|] r1]; simpl in *.
  - eapply grows_trans; [apply grows_log|exact H].
  - eapply grows_trans; [apply grows_log|].
    eapply grows_trans; [exact H|apply IH].
Qed.

Lemma settles_grows next i a p e l :
  (∀ r0, grows r0 (next r0).2) →
  ∀ r, grows r (ref_settles (ref_onError options) next i a p e l r).2.
Proof.
  intros Hnext. induction l as [|[fulfilled actuals] l IH]; intros r;
    [apply grows_refl|].
  cbn [ref_settles].
  pose proof (handle_grows next (if fulfilled then HFulfilled i a else HRejected i a)
                actuals
                (r_log [EvFire (if fulfilled then OnFulfilled p else OnRejected p)
                          actuals] r) Hnext) as H.
  destruct (handle next _ actuals _) as [[v|] r1]; simpl in *.
  - eapply grows_trans; [apply grows_log|exact H].
  - eapply grows_trans; [apply grows_log|].
    eapply grows_trans; [exact H|apply IH].
Qed.

Lemma series_grows rest : ∀ i r, grows r (series rest i r).2.
Proof.
  induction rest as [|tap rest IH]; intros i r.
  { simpl. apply grows_log. }
  cbn [ref_series]; unfold ref_unit; cbn [ref_series].
  set (r1 := r_tick (r_log _ (r_log _ r))).
  assert (H1 : grows r r1).
  { eapply grows_trans; [apply grows_log|].
    eapply grows_trans; [apply grows_log|apply grows_tick]. }
  destruct (tap_type tap).
  - destruct (tb_ending _).
    + eapply grows_trans; [exact H1|apply IH].
    + eapply grows_trans; [exact H1|apply grows_onError].
  - eapply grows_trans; [exact H1|].
    eapply grows_trans; [|apply calls_grows; intros r0; apply IH].
    by apply grows_enroll.
  - destruct (tb_ending _) as [v|e]; [|done].
    destruct v; try done.
    eapply grows_trans; [exact H1|].
    eapply grows_trans; [|apply settles_grows; intros r0; apply IH].
    eapply grows_trans; [apply grows_new_flag|].
    eapply grows_trans; [apply grows_log|].
    eapply grows_trans; [apply grows_tick|].
    eapply grows_trans; apply grows_enroll; simpl;
      intros a [= <-]; rewrite length_app; simpl; lia.
Qed.

Lemma drive_grows script : ∀ r, grows r (ref_drive options w vals script r).
Proof.
  induction script as [|[t actuals] script IH]; intros r; [apply grows_refl|].
  simpl. destruct (r_registered (r_registry r) t) as [h|]; [|apply IH].
  pose proof (handle_grows (series (drop (S (handler_tap h)) (opt_taps options))
                              (S (handler_tap h))) h actuals
                (r_log [EvFire t actuals] r) (λ r0, series_grows _ _ r0)) as H.
  destruct (handle _ h actuals _) as [[v|] r1]; simpl in H.
  - eapply grows_trans; [apply grows_log|].
    eapply grows_trans; [exact H|].
    eapply grows_trans; [apply grows_log|apply IH].
  - eapply grows_trans; [apply grows_log|].
    eapply grows_trans; [exact H|apply IH].
Qed.

Lemma run_reg_ok script : reg_ok (ref_run options w vals script).
Proof.
  unfold ref_run.
  set (r0 := r_log _ (mkRef [] [] 0 [] 0)).
  assert (H0 : reg_ok r0) by constructor.
  pose proof (series_grows (opt_taps options) 0 r0) as H.
  destruct (series (opt_taps options) 0 r0) as [[v|] r1]; simpl in H.
  - apply drive_grows, grows_log. by apply H.
  - apply drive_grows, grows_log. by apply H.
Qed.

Lemma drive_app s1 s2 : ∀ r,
  ref_drive options w vals (s1 ++ s2) r
  = ref_drive options w vals s2 (ref_drive options w vals s1 r).
Proof.
  induction s1 as [|[t actuals] s1 IH]; intros r; [done|].
  simpl. destruct (r_registered (r_registry r) t) as [h|]; [|apply IH].
  destruct (handle _ h actuals _) as [[v|] r1]; apply IH.
Qed.

Lemma run_app s1 s2 :
  ref_run options w vals (s1 ++ s2)
  = ref_drive options w vals s2 (ref_run options w vals s1).
Proof.
  unfold ref_run. destruct (series _ _ _) as [[v|] r1]; apply drive_app.
Qed.

Lemma r_registered_elem reg t h : r_registered reg t = Some h → (t, h) ∈ reg.
Proof.
  induction reg as [|[t' h'] reg IH]; [done|]. simpl.
  destruct (decide (t' = t)) as [->|_].
  - intros [= ->]. apply elem_of_cons. by left.
  - intros H. apply elem_of_cons. right. by apply IH.
Qed.

(** A rejection that comes after the fulfilment. *)
Lemma late_rejection script1 script2 p i a v e :
  r_registered (r_registry (ref_run options w vals script1)) (OnFulfilled p)
    = Some (HFulfilled i a) →
  r_registered
    (r_registry (ref_run options w vals (script1 ++ (OnFulfilled p, [v]) :: script2)))
    (OnRejected p) = Some (HRejected i a) →
  ref_dispatch options w vals
    ((script1 ++ (OnFulfilled p, [v]) :: script2) ++ [(OnRejected p, [e])])
  = ref_dispatch options w vals (script1 ++ (OnFulfilled p, [v]) :: script2)
    ++ [EvFire (OnRejected p) [e]; EvUncaught e].
Proof.
  intros Hreg1 Hreg2.
  assert (Hflag : r_flags (ref_run options w vals
                             (script1 ++ (OnFulfilled p, [v]) :: script2)) !! a
                  = Some true).
  { rewrite run_app. change ((OnFulfilled p, [v]) :: script2)
      with ([(OnFulfilled p, [v])] ++ script2). rewrite drive_app.
    apply drive_grows.
    pose proof (run_reg_ok script1) as Hok.
    set (r1 := ref_run options w vals script1) in *.
    assert (Ha : (a < length (r_flags r1))%nat).
    { unfold reg_ok in Hok. rewrite Forall_forall in Hok.
      apply (Hok _ (r_registered_elem _ _ _ Hreg1)). done. }
    simpl. rewrite Hreg1. unfold ref_handle. cbn [handler_tap].
    pose proof (series_grows (drop (S i) (opt_taps options)) (S i)
                  (r_set_flag a (r_log [EvFire (OnFulfilled p) [v]] r1))) as H.
    assert (Hset : r_flags (r_set_flag a (r_log [EvFire (OnFulfilled p) [v]] r1)) !! a
                   = Some true).
    { simpl. by apply list_lookup_insert_eq. }
    destruct (series _ _ _) as [[u|] r2]; simpl in H; by apply H. }
  unfold ref_dispatch. rewrite run_app.
  set (r2 := ref_run options w vals (script1 ++ (OnFulfilled p, [v]) :: script2)) in *.
  simpl. rewrite Hreg2. unfold ref_handle. simpl. rewrite Hflag. simpl.
  by rewrite <- app_assoc.
Qed.

End Flags.

(** * The emitted code of the concurrent taps and the reference *)

Section Concurrent.

Variable options : FactoryOptions.
Variable co : ContentOptions.
Variable w : World.
Variable vals : list value.

Hypothesis co_error : ∀ e,
  co_onError co e
  = for_interceptors options int_error
      (λ k _, [SExpr (ECall (EMember (getInterceptor k) "error") [e])])
    ++ [SExpr (ECall (EVar id_callback) [e])].
Hypothesis co_done :
  co_onDone co ()
  = for_interceptors options int_done
      (λ k _, [SExpr (ECall (EMember (getInterceptor k) "done") [])])
    ++ [SExpr (ECall (EVar id_callback) [])].
Hypothesis args_plain : Forall (λ v, is_closure v = false) (arg_values options vals).
Hypothesis returns_external : ∀ c i tap v,
  opt_taps options !! i = Some tap → tap_type tap = promise →
  tb_ending (tap_behaviour w c i) = Returns v → external v = true.

#[local] Abbreviation Ep := (par_error co).
#[local] Abbreviation Dp := par_done.
#[local] Abbreviation N := (tap_count options).
#[local] Abbreviation taps := (opt_taps options).
#[local] Abbreviation R m := (par_Rel options co vals m).
#[local] Abbreviation Follows m := (follows options co vals Ep Dp N (par_extra co m)).
#[local] Abbreviation Sim m := (simulates options co vals Ep Dp N (par_extra co m)).
#[local] Abbreviation fail := (par_fail options).
#[local] Abbreviation complete := (par_complete options).

Lemma keeps_par m : keeps (par_touch m) (par_extra co m).
Proof.
  intros st r st' r' Hc Hb (H1 & H2 & H3). split_and!.
  - rewrite Hb by (by left). by rewrite Hc.
  - by rewrite Hb by (by left).
  - intros k Hk. rewrite Hb; [by apply H3|]. right. intros Ht. by apply (Ht k).
Qed.

Lemma par_Rel_mono m m' st r locs : (m ≤ m')%nat → R m st r locs → R m' st r locs.
Proof.
  intros Hm [? ? ? ? ? ? ? ? (H1 & H2 & H3)]. split; try done.
  split_and!; try done. intros k Hk. apply H3. lia.
Qed.

Lemma top_ok_from_counter j fs x v :
  x = id_counter ∨ x = id_done →
  top_ok_from options co vals j fs → top_ok_from options co vals j (bind_in fs 1 x v).
Proof.
  intros Hx (H1 & H2 & H3 & H4 & H5 & H6).
  assert (Hb : ∀ y, y ≠ id_counter → y ≠ id_done →
            bound_in (bind_in fs 1 x v) 1 y = bound_in fs 1 y).
  { intros y Hy1 Hy2. apply bound_in_bind_ne. intros Heq. inversion Heq; subst.
    by destruct Hx. }
  unfold top_ok_from. rewrite !Hb by done. split_and!; try done.
  - eapply Forall2_impl; [exact H5|]. intros a val Ha. by rewrite Hb.
  - intros i Hj Hi Hu. rewrite Hb by done. by apply H6.
Qed.

(** A new value of the counter. *)
Lemma par_Rel_counter m st r locs c :
  R m st r locs →
  R m (set_frames (bind_in (frames st) 1 id_counter (VNum c)) st)
    (r_set_counter c r) locs.
Proof.
  intros [H1 H2 H3 H4 H5 H6 H7 H8 (E1 & E2 & E3)]. split; simpl; try done.
  - by apply wf_frames_bind_top.
  - apply top_ok_from_counter; [by left|done].
  - by rewrite bind_in_length.
  - intros a s' i Ha. destruct (H8 a s' i Ha) as (b & Hb1 & Hb2).
    exists b. split; [done|]. by rewrite bound_in_bind_ne by (intros [=]).
  - split_and!.
    + apply bound_in_bind_eq. destruct H3. lia.
    + simpl. by rewrite bound_in_bind_ne by (intros [=]).
    + intros k Hk. simpl. rewrite bound_in_bind_ne by (intros [=]). by apply E3.
Qed.

Lemma par_counter_read m st r locs s :
  R m st r locs → (1 ≤ s < length (frames st))%nat →
  read_var (frames st) s id_counter = Some (VNum (r_counter r))
  ∧ ∀ v, write_var (frames st) s id_counter v
         = Some (bind_in (frames st) 1 id_counter v).
Proof.
  intros [_ _ Hwf _ _ _ _ _ (E1 & _ & _)] Hs. split.
  - by apply read_var_stable.
  - intros v. by eapply write_var_stable.
Qed.

(** The error channel and the completion of the call. *)
Lemma onError_frag s st x e :
  wf_frames (frames st) → (∃ j, top_ok_from options co vals j (frames st)) →
  (1 ≤ s < length (frames st))%nat →
  read_var (frames st) s x = Some e →
  converges (λ n, exec_block w n s (co_onError co (EVar x)) st)
            (ONormal, log_all (interceptor_events options int_error "error" (λ _, [e])
                               ++ [EvCallback [e]]) st).
Proof.
  intros Hwf Htop Hs Hx. rewrite co_error.
  apply (for_interceptors_frag options co w vals int_error "error"
           (λ _, [EVar x]) (λ _, [e])); try done.
  - intros _ st' Hst'. eapply ev_list_cons; [|apply ev_list_nil].
    apply ev_var. by rewrite Hst'.
  - rewrite log_all_app. apply (callback_call options co w vals); try done.
    eapply ev_list_cons; [|apply ev_list_nil]. by apply ev_var.
Qed.

Lemma onDone_frag s st :
  wf_frames (frames st) → (∃ j, top_ok_from options co vals j (frames st)) →
  (1 ≤ s < length (frames st))%nat →
  converges (λ n, exec_block w n s (co_onDone co ()) st)
            (ONormal, log_all (interceptor_events options int_done "done" (λ _, [])
                               ++ [EvCallback []]) st).
Proof.
  intros Hwf Htop Hs. rewrite co_done.
  apply (for_interceptors_frag options co w vals int_done "done"
           (λ _, []) (λ _, [])); try done.
  - intros _ st' Hst'. apply ev_list_nil.
  - rewrite log_all_app. apply (callback_call options co w vals); try done.
    apply ev_list_nil.
Qed.

(** The error code of a tap. *)
Lemma par_error_sem m (i : nat) s st r locs x e :
  R m st r locs → (1 ≤ s < length (frames st))%nat →
  read_var (frames st) s x = Some e →
  ∃ st', converges (λ n, exec_block w n s (Ep i (EVar x)) st) (ONormal, st')
         ∧ R m st' (fail e r) locs
         ∧ length (frames st') = length (frames st)
         ∧ ∀ s' y, stable y = false →
             bound_in (frames st') s' y = bound_in (frames st) s' y.
Proof.
  intros HR Hs Hx.
  destruct (par_counter_read m st r locs s HR Hs) as [Hread _].
  pose proof HR as [_ _ Hwf Htop _ _ _ _ _].
  assert (Htest : converges (λ n, eval w n s (EGt (EVar id_counter) (ENum 0)) st)
                    (Val (VBool (r_counter r >? 0)%Z), st)).
  { eapply (ev_gt w _ _ _ _ _ _ (VNum (r_counter r)) (VNum 0));
      [by apply ev_var|apply ev_num]. }
  unfold par_error, par_fail. case_bool_decide as Hpos.
  - set (evs := interceptor_events options int_error "error" (λ _, [e])
                ++ [EvCallback [e]]).
    assert (HR1 : R m (log_all evs st) (r_log evs r) locs).
    { by apply (Rel_log _ _ _ _ _ _ _ _ (keeps_par m)). }
    destruct (par_counter_read m _ _ locs s HR1 Hs) as [_ Hwrite].
    exists (set_frames (bind_in (frames (log_all evs st)) 1 id_counter (VNum 0))
              (log_all evs st)).
    split_and!.
    + apply ex_block_one. eapply ex_if; [exact Htest|].
      replace (truthy (VBool (r_counter r >? 0)%Z)) with true by (simpl; lia).
      eapply ex_block_app.
      * apply onError_frag; try done. by exists N.
      * apply ex_block_one. eapply ex_assign; [apply ev_num|]. apply Hwrite.
    + by apply (par_Rel_counter m _ _ locs 0 HR1).
    + simpl. by rewrite bind_in_length.
    + intros s' y Hy. simpl. apply bound_in_bind_ne. intros Heq.
      inversion Heq; subst. done.
  - exists st. split_and!; try done.
    apply ex_block_one. eapply ex_if; [exact Htest|].
    replace (truthy (VBool (r_counter r >? 0)%Z)) with false by (simpl; lia).
    apply ex_block_nil.
Qed.

(** The completion code of a tap. *)
Lemma par_done_sem m (i : nat) s st r locs :
  R m st r locs → (1 ≤ s < length (frames st))%nat →
  Sim m (λ n, exec_block w n s (Dp i) st) outcome_of st locs (complete r).
Proof.
  intros HR Hs.
  destruct (par_counter_read m st r locs s HR Hs) as [Hread Hwrite].
  set (c := (r_counter r - 1)%Z).
  set (st1 := set_frames (bind_in (frames st) 1 id_counter (VNum c)) st).
  assert (HR1 : R m st1 (r_set_counter c r) locs) by (by apply par_Rel_counter).
  assert (Hs1 : (1 ≤ s < length (frames st1))%nat).
  { simpl. by rewrite bind_in_length. }
  assert (Htest : converges (λ n, eval w n s (EStrictEq (EPreDec id_counter) (ENum 0)) st)
                    (Val (VBool (c =? 0)%Z), st1)).
  { eapply (ev_strict_eq w _ _ _ _ _ _ (VNum c) (VNum 0)); [|apply ev_num].
    apply (ev_pre_dec w s st id_counter (VNum (r_counter r))); [done|].
    apply Hwrite. }
  unfold par_complete. cbv zeta. fold c. simpl r_counter.
  case_bool_decide as Hc.
  - pose proof HR1 as [_ _ Hwf1 Htop1 _ _ _ _ (_ & Hd & _)].
    set (st2 := set_frames (frames st1 ++ [mkFrame (bind_params [] []) (Some 1%nat)]) st1).
    assert (HR2 : R m st2 (r_set_counter c r) locs).
    { apply (Rel_push _ _ _ _ _ _ _ _ (keeps_par m)); [done|lia|].
      intros y _. apply lookup_empty. }
    pose proof HR2 as [_ _ Hwf2 Htop2 _ _ _ _ _].
    set (evs := interceptor_events options int_done "done" (λ _, [])
                ++ [EvCallback []]).
    exists (log_all evs st2). split.
    + apply ex_block_one. eapply ex_if; [exact Htest|].
      replace (truthy (VBool (c =? 0)%Z)) with true by (simpl; lia).
      apply ex_block_one. apply (ex_expr_sim w _ _ _ None).
      eapply ev_call; [|apply ev_list_nil|].
      * apply ev_var. by apply read_var_stable.
      * apply (call_closure_sim w _ _ _ _ _ None). fold st2.
        apply onDone_frag; try done; [by exists N|].
        unfold st2. cbn [frames set_frames]. rewrite length_app. cbn [length]. lia.
    + apply follows_here.
      * by apply (Rel_log _ _ _ _ _ _ _ _ (keeps_par m)).
      * simpl. rewrite length_app, bind_in_length. lia.
  - exists st1. split.
    + apply ex_block_one. eapply ex_if; [exact Htest|].
      replace (truthy (VBool (c =? 0)%Z)) with false by (simpl; lia).
      apply ex_block_nil.
    + apply follows_here; [done|]. simpl. by rewrite bind_in_length.
Qed.

(** A call of a function that was handed out. *)
Lemma par_handle_sem h c actuals st r locs :
  R N st r locs → handler_closure Ep Dp locs h c → (handler_tap h < N)%nat →
  (1 ≤ closure_scope c < length (frames st))%nat →
  Sim N (λ n, call w n c actuals st) result_of st locs
      (ref_handle fail complete h actuals r).
Proof.
  intros HR Hh Htap Hs.
  apply (handle_sem options co w vals Ep Dp N (par_extra co N) (par_touch N) fail
           (keeps_par N) (handler_tap h) complete (λ _ _, True)); try done.
  - intros k Hk [=]. lia.
  - intros. by apply par_error_sem.
  - intros. by apply par_done_sem.
Qed.

(** The test in front of a tap. *)
Lemma par_guard_sem m st r locs :
  R m st r locs →
  converges (λ n, exec w n 1 (SIf (ELe (EVar id_counter) (ENum 0)) [SBreak] []) st)
            (if bool_decide (r_counter r ≤ 0)%Z then OBreak else ONormal, st).
Proof.
  intros HR. pose proof (Rel_frames_length _ _ _ _ _ _ _ _ _ _ HR) as Hlen.
  destruct (par_counter_read m st r locs 1 HR) as [Hread _]; [lia|].
  eapply ex_if.
  { eapply (ev_le w _ _ _ _ _ _ (VNum (r_counter r)) (VNum 0));
      [by apply ev_var|apply ev_num]. }
  simpl. case_bool_decide.
  - replace (r_counter r <=? 0)%Z with true by lia. apply ex_block_one, ex_break.
  - replace (r_counter r <=? 0)%Z with false by lia. apply ex_block_nil.
Qed.

(** The taps from [i] on in the body of the loop. *)
Lemma par_units_sem d :
  ∀ i st r locs, (N - i = d)%nat → (i ≤ N)%nat → R i st r locs →
    ∃ st' o locs',
      converges (λ n, exec_block w n 1
                   (concat (map (par_unit options co) (seq i (N - i)))) st) (o, st')
      ∧ R N st' (par_taps options w vals (drop i taps) i r).2 locs'
      ∧ match (par_taps options w vals (drop i taps) i r).1 with
        | Some v => o = OThrow v
        | None => o = ONormal ∨ o = OBreak
        end.
Proof.
  induction d as [|d IH]; intros i st r locs Hd Hi HR.
  - assert (i = N) as -> by lia. rewrite Nat.sub_diag, drop_ge by done. simpl.
    exists st, ONormal, locs. split_and!; [apply ex_block_nil|done|by left].
  - assert (Hlt : (i < N)%nat) by lia.
    destruct (lookup_lt_is_Some_2 taps i Hlt) as [tap Htap].
    rewrite (drop_S _ _ _ Htap). replace (N - i)%nat with (S (N - S i)) by lia.
    cbn [seq map concat par_taps].
    pose proof (par_guard_sem i st r locs HR) as Hguard.
    pose proof (Rel_frames_length _ _ _ _ _ _ _ _ _ _ HR) as Hlen.
    case_bool_decide as Hc.
    + exists st, OBreak, locs. split_and!; [|eapply par_Rel_mono; [|exact HR]; lia|by right].
      unfold par_unit. rewrite <- app_comm_cons.
      by apply ex_block_abrupt.
    + assert (Hfresh : (1%nat, i) ∉ locs).
      { eapply Rel_unbound; [exact HR|]. destruct HR as [_ _ _ _ _ _ _ _ (_ & _ & H3)].
        by apply H3. }
      assert (HRS : R (S i) st r locs) by (eapply par_Rel_mono; [|exact HR]; lia).
      destruct (unit_sem options co w vals Ep Dp N (par_extra co (S i)) (par_touch (S i))
                  fail (keeps_par (S i)) args_plain i complete (λ _ _, True) Hlt)
        with (tap := tap) (s := 1%nat) (st := st) (r := r) (locs := locs)
        as (st1 & Hconv & locs1 & HR1 & Hpre & Hlen1); try done.
      * intros k Hk [=]. lia.
      * intros. by apply par_error_sem.
      * intros. by apply par_done_sem.
      * intros c v Hty Hv. by eapply returns_external.
      * destruct (ref_unit options w vals fail complete tap i r) as [[v|] r1];
          simpl in Hconv, HR1.
        -- exists st1, (OThrow v), locs1.
           split_and!; [|eapply par_Rel_mono; [|exact HR1]; lia|done].
           unfold par_unit. rewrite <- app_comm_cons.
           eapply ex_block_cons; [exact Hguard|].
           by apply ex_block_app_abrupt.
        -- destruct (IH (S i) st1 r1 locs1) as (st' & o & locs' & Hconv' & HR' & Ho);
             [lia|lia|done|].
           exists st', o, locs'. split_and!; try done.
           unfold par_unit. rewrite <- app_comm_cons.
           eapply ex_block_cons; [exact Hguard|].
           eapply ex_block_app; [exact Hconv|exact Hconv'].
Qed.

(** The event loop. *)
Theorem par_drive_sem script :
  ∀ st r locs, R N st r locs →
    ∃ st' locs', converges (λ n, drive w n script st) st'
                 ∧ R N st' (par_drive options script r) locs'.
Proof.
  induction script as [|[t actuals] script IH]; intros st r locs HR.
  { exists st, locs. split; [apply drive_nil|done]. }
  pose proof (Rel_registered _ _ _ _ _ _ _ _ _ _ t HR) as Hreg. simpl par_drive.
  destruct (r_registered (r_registry r) t) as [h|].
  - destruct Hreg as (c & Hc & Hh & ps & body & s0 & -> & Hs0 & Htap).
    destruct (par_handle_sem h (VClosure ps body s0) actuals
                (log_all [EvFire t actuals] st) (r_log [EvFire t actuals] r) locs)
      as (st1 & Hconv & locs1 & HR1 & _);
      [by apply (Rel_log _ _ _ _ _ _ _ _ (keeps_par N))|done..|].
    destruct (ref_handle fail complete h actuals (r_log [EvFire t actuals] r))
      as [[v|] r1]; simpl in Hconv.
    + destruct (IH (log_all [EvUncaught v] st1) (r_log [EvUncaught v] r1) locs1)
        as (st' & locs' & Hdrive & HR'); [by apply (Rel_log _ _ _ _ _ _ _ _ (keeps_par N))|].
      exists st', locs'. split; [|done]. by eapply drive_exc.
    + destruct (IH st1 r1 locs1 HR1) as (st' & locs' & Hdrive & HR').
      exists st', locs'. split; [|done]. by eapply drive_val.
  - destruct (IH st r locs HR) as (st' & locs' & Hdrive & HR').
    exists st', locs'. split; [|done]. by apply drive_skip.
Qed.

End Concurrent.

(** * The dispatcher of the concurrent hook from its call to the end of the
    event loop *)

Section ConcurrentDispatch.

Variable options : FactoryOptions.
Variable co : ContentOptions.
Variable w : World.
Variable vals : list value.

Hypothesis co_error : ∀ e,
  co_onError co e
  = for_interceptors options int_error
      (λ k _, [SExpr (ECall (EMember (getInterceptor k) "error") [e])])
    ++ [SExpr (ECall (EVar id_callback) [e])].
Hypothesis co_done :
  co_onDone co ()
  = for_interceptors options int_done
      (λ k _, [SExpr (ECall (EMember (getInterceptor k) "done") [])])
    ++ [SExpr (ECall (EVar id_callback) [])].
Hypothesis vals_length : length vals = length (opt_args options).
Hypothesis vals_plain : Forall (λ v, is_closure v = false) vals.
Hypothesis returns_external : ∀ c i tap v,
  opt_taps options !! i = Some tap → tap_type tap = promise →
  tb_ending (tap_behaviour w c i) = Returns v → external v = true.

#[local] Abbreviation N := (tap_count options).
#[local] Abbreviation vars0 :=
  (bind_params (params options (Some id_callback)) (vals ++ [VCallback])).
#[local] Abbreviation call_events :=
  (interceptor_events options int_call "call"
     (λ ic, with_context options (int_context ic) (arg_values options vals))).
#[local] Abbreviation vars2 :=
  (let vars1 := <[id_x := VHookX]>
                  (<[id_context := context_value options]> vars0) in
   if bool_decide (0 < length (opt_interceptors options))%nat
   then <[id_interceptors := VHookInterceptors]>
          (<[id_taps := VHookTaps]> vars1)
   else vars1).
#[local] Abbreviation vars3 :=
  (<[id_done := VClosure [] (co_onDone co ()) 1]>
     (<[id_counter := VNum (Z.of_nat N)]> vars2)).

Lemma vars2_fresh x :
  (∀ a, x ≠ id_arg a) → x ≠ id_callback → x ≠ id_x → x ≠ id_context →
  x ≠ id_taps → x ≠ id_interceptors → vars2 !! x = None.
Proof.
  intros H1 H2 H3 H4 H5 H6. cbv zeta.
  destruct (bool_decide _); rewrite !lookup_insert_ne by done; by apply vars0_fresh.
Qed.

Lemma top_ok_top_insert j vars tr x v :
  x = id_counter ∨ x = id_done →
  top_ok_from options co vals j (frames (top_state vars tr)) →
  top_ok_from options co vals j (frames (top_state (<[x := v]> vars) tr)).
Proof.
  intros Hx Htop.
  exact (top_ok_from_counter options co vals j (frames (top_state vars tr)) x v Hx Htop).
Qed.

(** The state in which the first tap is reached. *)
Lemma par_start_Rel :
  par_Rel options co vals 0 (top_state vars3 call_events) (par_start options vals) [].
Proof.
  split; try done.
  - apply wf_top.
  - pose proof (header_top_ok options co vals vals_length vars2 call_events eq_refl)
      as Htop.
    apply top_ok_top_insert; [by right|].
    apply top_ok_top_insert; [by left|]. exact Htop.
  - constructor.
  - unfold par_extra, bound_in. simpl. split_and!.
    + rewrite lookup_insert_ne by done. by rewrite lookup_insert_eq.
    + by rewrite lookup_insert_eq.
    + intros k _. rewrite !lookup_insert_ne by done. by apply vars2_fresh.
Qed.

(** The body of the dispatcher. *)
Lemma par_body_sem :
  ∃ st' locs,
    converges (λ n, exec_block w n 1
                 (header options
                  ++ for_interceptors options int_call (λ k ic,
                       [SExpr (ECall (EMember (getInterceptor k) "call")
                                 (args options (context_arg (int_context ic)) None))])
                  ++ [SDoWhile (par_body options co) (EBool false)])
                 (top_state vars0 []))
              (outcome_of (par_taps options w vals (opt_taps options) 0
                             (par_start options vals)).1, st')
    ∧ par_Rel options co vals N st'
        (par_taps options w vals (opt_taps options) 0 (par_start options vals)).2 locs.
Proof.
  pose proof (header_top_ok options co vals vals_length vars2 [] eq_refl) as Htop2.
  destruct (par_units_sem options co w vals co_error co_done
              (args_plain options vals vals_plain) returns_external
              N 0%nat (top_state vars3 call_events) (par_start options vals) [])
    as (st' & o & locs & Hconv & HR & Ho); [lia|lia|apply par_start_Rel|].
  rewrite drop_0 in HR, Ho. rewrite Nat.sub_0_r in Hconv.
  exists st', locs. split; [|done].
  apply header_sem; [by apply vars0_fresh|].
  apply (for_interceptors_frag options co w vals int_call "call"
           (λ ic, args options (context_arg (int_context ic)) None)
           (λ ic, with_context options (int_context ic) (arg_values options vals))).
  - apply wf_top.
  - by exists N.
  - simpl. lia.
  - intros ic st1 Hst1. rewrite args_shape.
    rewrite <- (app_nil_r (with_context _ _ _)).
    apply (args_eval options co w vals); rewrite ?Hst1.
    + apply wf_top.
    + by exists N.
    + simpl. lia.
    + apply ev_list_nil.
  - rewrite log_top. simpl app.
    assert (Hbody : converges (λ n, exec_block w n 1 (par_body options co)
                                      (top_state vars2 call_events)) (o, st')).
    { unfold par_body. simpl app.
      eapply ex_block_cons; [apply top_var_init, ev_num|].
      eapply ex_block_cons; [apply top_var_init, ev_function|]. exact Hconv. }
    apply ex_block_one.
    destruct (par_taps options w vals (opt_taps options) 0 (par_start options vals)).1
      as [v|]; simpl.
    + subst o. by apply ex_do_while_throw.
    + destruct Ho as [-> | ->].
      * eapply ex_do_while_last; [exact Hbody|apply ev_bool|done].
      * by apply ex_do_while_break.
Qed.

Lemma run_ends (f : JsFunction) actuals script o st1 st2 :
  converges (λ n, call w n (VClosure (fn_params f) (fn_body f) 0) actuals initial_state)
            (result_of o, st1) →
  converges (λ n, drive w n script
                    (log (match o with
                          | Some v => EvThrow v
                          | None => EvReturn VUndefined
                          end) st1)) st2 →
  converges (λ n, run w n f actuals script) st2.
Proof.
  intros [n1 H1] [n2 H2]. exists (n1 + n2)%nat. intros n Hn.
  unfold run. rewrite H1 by lia. destruct o; simpl; by rewrite H2 by lia.
Qed.

(** The call of the dispatcher and the event loop after it. *)
Lemma par_run_sem (f : JsFunction) script :
  fn_params f = params options (Some id_callback) →
  fn_body f
  = header options
    ++ for_interceptors options int_call (λ k ic,
         [SExpr (ECall (EMember (getInterceptor k) "call")
                   (args options (context_arg (int_context ic)) None))])
    ++ [SDoWhile (par_body options co) (EBool false)] →
  ∃ st locs,
    converges (λ n, run w n f (vals ++ [VCallback]) script) st
    ∧ par_Rel options co vals N st (par_run options w vals script) locs.
Proof.
  intros Hparams Hbody. destruct par_body_sem as (st' & locs & Hconv & HR).
  unfold par_run.
  destruct (par_taps options w vals (opt_taps options) 0 (par_start options vals))
    as [[v|] r1]; simpl in Hconv, HR.
  - destruct (par_drive_sem options co w vals co_error co_done
                script (log_all [EvThrow v] st') (r_log [EvThrow v] r1) locs)
      as (st2 & locs2 & Hdrive & HR2);
      [by apply (Rel_log _ _ _ _ _ _ _ _ (keeps_par co N))|].
    exists st2, locs2. split; [|done].
    eapply (run_ends _ _ _ (Some v)); [|exact Hdrive]. rewrite Hparams, Hbody.
    apply (call_closure_sim w _ _ _ _ _ (Some v)). exact Hconv.
  - destruct (par_drive_sem options co w vals co_error co_done
                script (log_all [EvReturn VUndefined] st')
                (r_log [EvReturn VUndefined] r1) locs)
      as (st2 & locs2 & Hdrive & HR2);
      [by apply (Rel_log _ _ _ _ _ _ _ _ (keeps_par co N))|].
    exists st2, locs2. split; [|done].
    eapply (run_ends _ _ _ None); [|exact Hdrive]. rewrite Hparams, Hbody.
    apply (call_closure_sim w _ _ _ _ _ None). exact Hconv.
Qed.

End ConcurrentDispatch.

(** The code that [callTapsParallel] emits for two taps or more. *)
Lemma parallel_content_code options co :
  (2 ≤ length (opt_taps options))%nat →
  AsyncParallelHookCodeFactory_content options co
  = [SDoWhile (par_body options co) (EBool false)].
Proof.
  intros HN. unfold AsyncParallelHookCodeFactory_content, callTapsParallel.
  rewrite bool_decide_false by lia. done.
Qed.

(** The dispatcher that [create] emits for the [callAsync] convention of
    the concurrent hook with two taps or more does what the reference
    says, whatever the taps, the thenables and the later calls of the
    handed-out functions do: the run ends, with the trace of the reference,
    and [_counter] holds the counter of the reference. *)
Theorem parallel_refinement options w vals script :
  opt_type options = async →
  (2 ≤ length (opt_taps options))%nat →
  length vals = length (opt_args options) →
  Forall (λ v, is_closure v = false) vals →
  (∀ c i tap v,
     opt_taps options !! i = Some tap → tap_type tap = promise →
     tb_ending (tap_behaviour w c i) = Returns v → external v = true) →
  ∃ st,
    converges (λ n, run w n (create AsyncParallelHookCodeFactory_content options)
                      (vals ++ [VCallback]) script) st
    ∧ trace st = par_dispatch options w vals script
    ∧ bound_in (frames st) 1 id_counter
      = Some (VNum (r_counter (par_run options w vals script))).
Proof.
  intros Hty HN Hlen Hplain Hext.
  assert (Hrun : ∃ co st locs,
            converges (λ n, run w n (create AsyncParallelHookCodeFactory_content options)
                              (vals ++ [VCallback]) script) st
            ∧ par_Rel options co vals (tap_count options) st
                (par_run options w vals script) locs).
  { destruct (decide (0 < length (opt_interceptors options))%nat) as [Hint|Hint].
    - eexists.
      eapply (par_run_sem options
                (mkContent
                   (λ err, for_interceptors options int_error (λ i _,
                             [SExpr (ECall (EMember (getInterceptor i) "error") [err])])
                           ++ [SExpr (ECall (EVar id_callback) [err])])
                   (λ result, for_interceptors options int_result (λ i _,
                             [SExpr (ECall (EMember (getInterceptor i) "result") [result])])
                           ++ [SExpr (ECall (EVar id_callback) [ENull; result])])
                   false
                   (λ _, for_interceptors options int_done (λ i _,
                             [SExpr (ECall (EMember (getInterceptor i) "done") [])])
                           ++ [SExpr (ECall (EVar id_callback) [])])
                   false)); try done.
      + unfold create. by rewrite Hty.
      + unfold create. rewrite Hty. cbn [fn_body]. unfold contentWithInterceptors.
        rewrite bool_decide_true by done. by rewrite parallel_content_code.
    - assert (Hnil : opt_interceptors options = []).
      { destruct (opt_interceptors options); [done|simpl in Hint; lia]. }
      eexists.
      eapply (par_run_sem options
                (mkContent (λ err, [SExpr (ECall (EVar id_callback) [err])])
                           (λ result, [SExpr (ECall (EVar id_callback) [ENull; result])])
                           false
                           (λ _, [SExpr (ECall (EVar id_callback) [])])
                           false)); try done.
      + intros e. unfold for_interceptors. by rewrite Hnil.
      + unfold for_interceptors. by rewrite Hnil.
      + unfold create. by rewrite Hty.
      + unfold create. rewrite Hty. cbn [fn_body]. unfold contentWithInterceptors.
        rewrite bool_decide_false by done. rewrite parallel_content_code by done.
        unfold for_interceptors. by rewrite Hnil. }
  destruct Hrun as (co & st & locs & Hconv & [Htr _ _ _ _ _ _ _ (Hc & _ & _)]).
  exists st. by split_and!.
Qed.

(** * The concurrent taps when the taps keep their contract *)

Section JoinFacts.

Variable options : FactoryOptions.

#[local] Abbreviation fail := (par_fail options).
#[local] Abbreviation complete := (par_complete options).

Lemma callback_calls_app a b : callback_calls (a ++ b) = callback_calls a ++ callback_calls b.
Proof. apply omap_app. Qed.

Lemma tap_calls_app a b : tap_calls (a ++ b) = tap_calls a ++ tap_calls b.
Proof. apply omap_app. Qed.

Lemma calls_ended_app a b : calls_ended (a ++ b) = calls_ended a ++ calls_ended b.
Proof. apply omap_app. Qed.

Lemma callback_calls_interceptors has m acts :
  callback_calls (interceptor_events options has m acts) = [].
Proof. by rewrite callback_calls_observe, observe_interceptors. Qed.

Lemma calls_ended_interceptors has m acts :
  calls_ended (interceptor_events options has m acts) = [].
Proof. by rewrite calls_ended_observe, observe_interceptors. Qed.

Lemma tap_calls_interceptors has m acts :
  tap_calls (interceptor_events options has m acts) = [].
Proof. by rewrite tap_calls_observe, observe_interceptors. Qed.

(** A completion and a failure, as the join sees them. *)
Lemma complete_join r :
  (complete r).1 = None
  ∧ join_of (complete r).2 = join_signal (join_of r) Completed
  ∧ tap_calls (r_trace (complete r).2) = tap_calls (r_trace r)
  ∧ calls_ended (r_trace (complete r).2) = calls_ended (r_trace r)
  ∧ r_registry (complete r).2 = r_registry r
  ∧ r_flags (complete r).2 = r_flags r.
Proof.
  unfold par_complete, join_of, join_signal. cbv zeta. simpl r_counter. simpl j_counter.
  destruct (decide (r_counter r - 1 = 0)%Z) as [Hc|Hc].
  - rewrite !bool_decide_true by done. simpl. split_and!; try done.
    + by rewrite !callback_calls_app, callback_calls_interceptors.
    + by rewrite !tap_calls_app, tap_calls_interceptors, app_nil_r.
    + by rewrite !calls_ended_app, calls_ended_interceptors, app_nil_r.
  - rewrite !bool_decide_false by done. simpl. by split_and!.
Qed.

Lemma fail_join e r :
  join_of (fail e r) = join_signal (join_of r) (Failed e)
  ∧ tap_calls (r_trace (fail e r)) = tap_calls (r_trace r)
  ∧ calls_ended (r_trace (fail e r)) = calls_ended (r_trace r)
  ∧ r_registry (fail e r) = r_registry r
  ∧ r_flags (fail e r) = r_flags r.
Proof.
  unfold par_fail, join_of, join_signal. simpl j_counter.
  destruct (decide (0 < r_counter r)%Z) as [Hc|Hc].
  - rewrite !bool_decide_true by done. simpl. split_and!; try done.
    + by rewrite !callback_calls_app, callback_calls_interceptors.
    + by rewrite !tap_calls_app, tap_calls_interceptors, app_nil_r.
    + by rewrite !calls_ended_app, calls_ended_interceptors, app_nil_r.
  - rewrite !bool_decide_false by done. simpl. by split_and!.
Qed.

(** Once the counter is not positive no further tap is invoked. *)
Lemma par_taps_stop w vals rest i r :
  (r_counter r ≤ 0)%Z → par_taps options w vals rest i r = (None, r).
Proof. intros Hc. destruct rest; [done|]. simpl. by rewrite bool_decide_true. Qed.

End JoinFacts.

Section FlagIndex.

Variable taps : list Tap.

Lemma flag_index_S i tap :
  taps !! i = Some tap →
  flag_index taps (S i)
  = (flag_index taps i + if bool_decide (tap_type tap = promise) then 1 else 0)%nat.
Proof.
  intros Htap. unfold flag_index. rewrite (take_S_r _ _ _ Htap), filter_app, length_app.
  f_equal. rewrite filter_cons. simpl.
  destruct (decide (tap_type tap = promise)) as [Hp|Hp].
  - by rewrite bool_decide_true.
  - by rewrite bool_decide_false.
Qed.

End FlagIndex.

Section ConcurrentPlans.

Variable options : FactoryOptions.
Variable vals : list value.
Variable plans : list plan.

#[local] Abbreviation taps := (opt_taps options).
#[local] Abbreviation N := (tap_count options).
#[local] Abbreviation w := (world_of (opt_taps options) plans).
#[local] Abbreviation fail := (par_fail options).
#[local] Abbreviation complete := (par_complete options).

Hypothesis plans_fit : Forall2 fits taps plans.

#[local] Ltac traces :=
  simpl;
  rewrite ?callback_calls_app, ?tap_calls_app, ?calls_ended_app,
    ?callback_calls_interceptors, ?tap_calls_interceptors, ?calls_ended_interceptors;
  simpl; rewrite ?app_nil_r.

#[local] Ltac completed :=
  match goal with
  | |- context [par_complete options ?x] =>
      let Hn := fresh "Hn" in
      let Hj := fresh "Hj" in
      let Ht := fresh "Ht" in
      let He := fresh "He" in
      let Hreg := fresh "Hreg" in
      let Hfl := fresh "Hfl" in
      let o := fresh "o" in
      let r1 := fresh "r1" in
      destruct (complete_join options x) as (Hn & Hj & Ht & He & Hreg & Hfl);
      destruct (par_complete options x) as [o r1]; simpl in Hn, Hj, Ht, He, Hreg, Hfl;
      subst o; exists r1; rewrite Hj, Ht, He, ?Hreg, ?Hfl
  end.

#[local] Ltac failed :=
  match goal with
  | |- context [par_fail options ?e ?x] =>
      let Hj := fresh "Hj" in
      let Ht := fresh "Ht" in
      let He := fresh "He" in
      let Hreg := fresh "Hreg" in
      let Hfl := fresh "Hfl" in
      destruct (fail_join options e x) as (Hj & Ht & He & Hreg & Hfl);
      exists (par_fail options e x); rewrite Hj, Ht, He, ?Hreg, ?Hfl
  end.

(** One tap that follows its plan. *)
Lemma par_step i tap pl r :
  taps !! i = Some tap → plans !! i = Some pl →
  ∃ r1, ref_unit options w vals fail complete tap i r = (thrown pl, r1)
    ∧ join_of r1 = from_option (join_signal (join_of r)) (join_of r) (now_of pl)
    ∧ tap_calls (r_trace r1) = tap_calls (r_trace r) ++ [i]
    ∧ calls_ended (r_trace r1) = calls_ended (r_trace r)
    ∧ r_registry r1 = unit_entries tap pl i (length (r_flags r)) ++ r_registry r
    ∧ r_flags r1 = r_flags r ++ unit_flags tap pl.
Proof.
  intros Htap Hpl.
  pose proof (Forall2_lookup_lr _ _ _ _ _ _ plans_fit Htap Hpl) as Hfit.
  unfold ref_unit, unit_entries, unit_flags, fits in *.
  simpl tap_behaviour. simpl then_behaviour. rewrite Htap, Hpl.
  destruct (tap_type tap) eqn:Hty; cbv zeta;
    destruct pl as [[|]|[|] e| |v|e]; try done;
    cbn [tb_callbacks tb_ending thb_settles thb_ending ref_calls ref_settles
         ref_handle hd now_of from_option completes_now thrown];
    rewrite ?Hpl; cbn [thb_settles thb_ending ref_settles ref_handle hd].
  all: simpl truthy; try (match type of Hfit with _ = _ => rewrite Hfit end);
    cbv iota; cbn [ending_exception].
  all: try (replace (r_flags _ !! length (r_flags _)) with (Some false)
              by (simpl; by rewrite list_lookup_middle); cbn [default]).
  all: try (match type of Hfit with
            | _ ∧ _ => destruct Hfit as [Hext Hthen]; destruct v; try done
            end).
  all: first [completed | failed | eexists]; simpl;
    (split_and!; [reflexivity|..]); unfold join_of; traces; try done.
  rewrite insert_app_r_alt by done. by rewrite Nat.sub_diag.
Qed.

Lemma registered_app_ne entries reg t :
  (∀ h, (t, h) ∉ entries) →
  r_registered (entries ++ reg) t = r_registered reg t.
Proof.
  induction entries as [|[t' h'] entries IH]; intros Hne; [done|]. simpl.
  destruct (decide (t' = t)) as [->|_].
  - destruct (Hne h'). apply elem_of_cons. by left.
  - apply IH. intros h Hin. apply (Hne h). apply elem_of_cons. by right.
Qed.

Lemma unit_entries_other tap pl i a j reg t :
  j ≠ i → t = TapCallback j ∨ t = OnFulfilled j ∨ t = OnRejected j →
  r_registered (unit_entries tap pl i a ++ reg) t = r_registered reg t.
Proof.
  intros Hne Ht. apply registered_app_ne. intros h. unfold unit_entries.
  destruct (tap_type tap), (thrown pl); rewrite ?elem_of_cons, elem_of_nil;
    destruct Ht as [->|[->| ->]]; naive_solver.
Qed.

(** The unit of tap [i] keeps what is registered in order. *)
Lemma enrolled_ok_step i tap pl r r1 :
  taps !! i = Some tap → plans !! i = Some pl →
  enrolled_ok taps plans i [] r → length (r_flags r) = flag_index taps i →
  r_registry r1 = unit_entries tap pl i (length (r_flags r)) ++ r_registry r →
  r_flags r1 = r_flags r ++ unit_flags tap pl →
  enrolled_ok taps plans (S i) [] r1
  ∧ (thrown pl = None → length (r_flags r1) = flag_index taps (S i)).
Proof.
  intros Htap Hpl [Hclean Hreg] Hlen Hreg1 Hfl1. split; [split|].
  - intros j Hj. destruct (Hclean j) as (H1 & H2 & H3); [lia|].
    rewrite Hreg1, !(unit_entries_other tap pl i _ j) by (eauto; lia). done.
  - intros j tapj plj Hj Htapj Hplj.
    destruct (decide (j = i)) as [->|Hne].
    + simplify_eq. rewrite Hreg1, Hfl1, <- Hlen. unfold unit_entries, unit_flags.
      destruct (tap_type tap); [done|simpl; by rewrite decide_True|].
      intros Hth. rewrite Hth. split_and!.
      * simpl. by rewrite decide_True.
      * simpl. by rewrite decide_True.
      * intros _. by rewrite list_lookup_middle.
    + specialize (Hreg j tapj plj). rewrite Hreg1, Hfl1.
      rewrite !(unit_entries_other tap pl i _ j) by eauto.
      destruct (tap_type tapj); [done|apply Hreg; [lia|done..]|].
      intros Hth.
      destruct Hreg as (H1 & H2 & H3); [lia|done..|]. split_and!; try done.
      intros Hin. by apply lookup_app_l_Some, H3.
  - intros Hth.
    rewrite Hfl1, length_app, Hlen, (flag_index_S _ _ _ Htap). unfold unit_flags.
    rewrite Hth.
    destruct (tap_type tap); simpl; by rewrite ?bool_decide_false, ?bool_decide_true.
Qed.

(** The taps from [i] on, during the call of the dispatcher. *)
Lemma par_now_run d :
  ∀ i r, (N - i = d)%nat → (i ≤ N)%nat →
    enrolled_ok taps plans i [] r → length (r_flags r) = flag_index taps i →
    (Z.of_nat (N - i) ≤ r_counter r)%Z →
    ∃ r', par_taps options w vals (drop i taps) i r = (aborted (drop i plans), r')
      ∧ join_of r' = foldl join_signal (join_of r) (nows (drop i plans))
      ∧ tap_calls (r_trace r') = tap_calls (r_trace r) ++ seq i (started (drop i plans))
      ∧ calls_ended (r_trace r') = calls_ended (r_trace r)
      ∧ enrolled_ok taps plans (i + started (drop i plans)) [] r'.
Proof.
  induction d as [|d IH]; intros i r Hd Hi Hen Hlen Hc.
  { assert (i = N) as -> by lia.
    rewrite !drop_ge by (rewrite <- ?(Forall2_length _ _ _ plans_fit); done).
    exists r. simpl. by rewrite app_nil_r, Nat.add_0_r. }
  assert (Hlt : (i < N)%nat) by lia.
  destruct (lookup_lt_is_Some_2 taps i Hlt) as [tap Htap].
  destruct (lookup_lt_is_Some_2 plans i) as [pl Hpl].
  { by rewrite <- (Forall2_length _ _ _ plans_fit). }
  rewrite (drop_S taps _ _ Htap), (drop_S plans _ _ Hpl). cbn [par_taps].
  rewrite bool_decide_false by lia.
  destruct (par_step i tap pl r Htap Hpl) as (r1 & Hu & Hj & Ht & He & Hreg & Hfl).
  rewrite Hu.
  destruct (enrolled_ok_step i tap pl r r1 Htap Hpl Hen Hlen Hreg Hfl) as [Hen1 Hlen1].
  pose proof (f_equal j_counter Hj) as Hc1. simpl in Hc1.
  assert (Hgo : ∀ tl k,
            thrown pl = None →
            (Z.of_nat (N - S i) ≤ r_counter r1)%Z →
            foldl join_signal (join_of r) tl
            = foldl join_signal (join_of r1) (nows (drop (S i) plans)) →
            k = S (started (drop (S i) plans)) →
            ∃ r', par_taps options w vals (drop (S i) taps) (S i) r1
                  = (aborted (drop (S i) plans), r')
              ∧ join_of r' = foldl join_signal (join_of r) tl
              ∧ tap_calls (r_trace r') = tap_calls (r_trace r) ++ seq i k
              ∧ calls_ended (r_trace r') = calls_ended (r_trace r)
              ∧ enrolled_ok taps plans (i + k) [] r').
  { intros tl k Hth Hc' Htl ->.
    destruct (IH (S i) r1) as (r' & Hrun & Hj' & Ht' & He' & Hen');
      [lia|lia|done|by apply Hlen1|done|].
    exists r'. split_and!; try done.
    - by rewrite Htl.
    - rewrite Ht', Ht, <- app_assoc. done.
    - by rewrite He'.
    - by rewrite Nat.add_succ_r. }
  destruct pl as [[|]|[|] e| |v|e]; simpl in Hc1; cbn [from_option now_of] in Hj;
    cbn [nows started aborted thrown].
  - apply Hgo; [done|lia|by rewrite Hj|done].
  - apply Hgo; [done|lia|cbn [foldl]; by rewrite <- Hj|done].
  - apply Hgo; [done|lia|by rewrite Hj|done].
  - rewrite bool_decide_true in Hc1 by lia. simpl in Hc1.
    rewrite par_taps_stop by lia. exists r1. split_and!; try done.
    by rewrite Nat.add_1_r.
  - apply Hgo; [done|lia|by rewrite Hj|done].
  - exists r1. split_and!; try done. by rewrite Nat.add_1_r.
  - exists r1. split_and!; try done. by rewrite Nat.add_1_r.
Qed.

Lemma flag_index_mono j : (flag_index taps j ≤ flag_index taps (S j))%nat.
Proof.
  destruct (taps !! j) as [tap|] eqn:Htap.
  - rewrite (flag_index_S _ _ _ Htap). lia.
  - apply lookup_ge_None in Htap. unfold flag_index. by rewrite !take_ge by lia.
Qed.

Lemma flag_index_lt i j tap :
  taps !! i = Some tap → tap_type tap = promise → (i < j)%nat →
  (flag_index taps i < flag_index taps j)%nat.
Proof.
  intros Htap Hty Hij. induction j as [|j IH]; [lia|].
  pose proof (flag_index_mono j) as Hm.
  destruct (decide (i = j)) as [->|Hne].
  - rewrite (flag_index_S _ _ _ Htap), bool_decide_true by done. lia.
  - assert (flag_index taps i < flag_index taps j)%nat by (apply IH; lia). lia.
Qed.

(** A signal changes at most the flag of its tap. *)
Lemma enrolled_ok_arrive k arrived i r r1 :
  enrolled_ok taps plans k arrived r → r_registry r1 = r_registry r →
  r_flags r1 = r_flags r
  ∨ (∃ tap, taps !! i = Some tap ∧ tap_type tap = promise)
    ∧ r_flags r1 = <[flag_index taps i := true]> (r_flags r) →
  enrolled_ok taps plans k (i :: arrived) r1.
Proof.
  intros [Hclean Hreg] Hreg1 Hfl1. split.
  - intros j Hj. rewrite Hreg1. by apply Hclean.
  - intros j tapj plj Hj Htapj Hplj. specialize (Hreg j tapj plj Hj Htapj Hplj).
    rewrite Hreg1. destruct (tap_type tapj) eqn:Htyj; try done.
    intros Hth.
    destruct (Hreg Hth) as (H1 & H2 & H3). split_and!; try done.
    intros Hin. apply not_elem_of_cons in Hin as [Hne Hin].
    destruct Hfl1 as [-> | [(tap & Htap & Hty) ->]]; [by apply H3|].
    rewrite list_lookup_insert_ne; [by apply H3|].
    destruct (decide (i < j)%nat).
    + pose proof (flag_index_lt i j tap Htap Hty). lia.
    + pose proof (flag_index_lt j i tapj Htapj Htyj). lia.
Qed.

Lemma par_drive_app script1 script2 r :
  par_drive options (script1 ++ script2) r
  = par_drive options script2 (par_drive options script1 r).
Proof.
  revert r. induction script1 as [|[t actuals] script1 IH]; intros r; [done|].
  simpl. destruct (r_registered (r_registry r) t); [|by apply IH].
  destruct (ref_handle _ _ _ _ _) as [[v|] r1]; apply IH.
Qed.

(** The signal of tap [i]. *)
Lemma par_arrive k arrived i r :
  enrolled_ok taps plans k arrived r → i ∉ arrived →
  ∃ r1,
    par_drive options (match plans !! i with
                       | Some pl => signal taps i pl
                       | None => []
                       end) r = r1
    ∧ join_of r1
      = from_option (join_signal (join_of r)) (join_of r)
          (if bool_decide (i < k)%nat then plans !! i ≫= later_of else None)
    ∧ tap_calls (r_trace r1) = tap_calls (r_trace r)
    ∧ calls_ended (r_trace r1) = calls_ended (r_trace r)
    ∧ enrolled_ok taps plans k (i :: arrived) r1.
Proof.
  intros Hen Hin.
  assert (Hsame : enrolled_ok taps plans k (i :: arrived) r).
  { eapply enrolled_ok_arrive; [done|done|by left]. }
  destruct (plans !! i) as [pl|] eqn:Hpl.
  2: { exists r. split_and!; try done. by case_bool_decide. }
  destruct (later_of pl) as [h|] eqn:Hlater.
  2: { exists r. simpl. rewrite Hlater. split_and!; try done.
       - by destruct pl as [[|]|[|] e| |v|e].
       - by case_bool_decide. }
  assert (Hlt : (i < N)%nat).
  { unfold tap_count. rewrite (Forall2_length _ _ _ plans_fit).
    by eapply lookup_lt_Some. }
  destruct (lookup_lt_is_Some_2 taps i Hlt) as [tap Htap].
  pose proof (Forall2_lookup_lr _ _ _ _ _ _ plans_fit Htap Hpl) as Hfit.
  unfold fits in Hfit. unfold signal. rewrite Htap. simpl mbind. rewrite Hlater.
  destruct (decide (i < k)%nat) as [Hk|Hk];
    [rewrite (bool_decide_true (i < k)%nat) by done
    |rewrite (bool_decide_false (i < k)%nat) by done].
  2: { destruct Hen as [Hclean _]. destruct (Hclean i) as (H1 & H2 & H3); [lia|].
       exists r. split_and!; try done.
       destruct pl as [[|]|[|] e| |v|e]; try done;
         destruct (bool_decide (tap_type tap = promise)); simpl;
         by rewrite ?H1, ?H2, ?H3. }
  pose proof Hen as [Hclean Hreg]. specialize (Hreg i tap pl Hk Htap Hpl).
  destruct (tap_type tap) eqn:Hty.
  - by destruct pl as [[|]|[|] e| |v|e].
  - rewrite bool_decide_false by done.
    destruct pl as [[|]|[|] e| |v|e]; try done; injection Hlater as <-;
      simpl; rewrite Hreg; simpl; rewrite ?Hfit.
    + completed. simpl.
      split_and!; try done; [unfold join_of; by traces|by traces|by traces|].
      eapply enrolled_ok_arrive; [exact Hen|done|by left].
    + failed.
      split_and!; try done; [unfold join_of; by traces|by traces|by traces|].
      eapply enrolled_ok_arrive; [exact Hen|done|by left].
  - rewrite bool_decide_true by done.
    assert (Hth : thrown pl = None) by (by destruct pl as [[|]|[|] e| |v|e]).
    destruct (Hreg Hth) as (H1 & H2 & H3).
    destruct pl as [[|]|[|] e| |v|e]; try done; injection Hlater as <-;
      simpl; rewrite ?H1, ?H2; simpl.
    + completed. simpl.
      split_and!; try done; [unfold join_of; by traces|by traces|by traces|].
      eapply enrolled_ok_arrive; [exact Hen|done|]. right. split; [eauto|done].
    + rewrite (H3 Hin). simpl.
      failed.
      split_and!; try done; [unfold join_of; by traces|by traces|by traces|].
      eapply enrolled_ok_arrive; [exact Hen|done|by left].
Qed.

(** The signals that arrive in the order [order]. *)
Lemma par_arrivals k order :
  ∀ arrived r, NoDup order → (∀ i, i ∈ order → i ∉ arrived) →
    enrolled_ok taps plans k arrived r →
    join_of (par_drive options (arrivals taps plans order) r)
    = foldl join_signal (join_of r)
        (omap (λ i, if bool_decide (i < k)%nat then plans !! i ≫= later_of else None)
              order)
    ∧ tap_calls (r_trace (par_drive options (arrivals taps plans order) r))
      = tap_calls (r_trace r)
    ∧ calls_ended (r_trace (par_drive options (arrivals taps plans order) r))
      = calls_ended (r_trace r).
Proof.
  induction order as [|i order IH]; intros arrived r Hnd Hnew Hen; [done|].
  apply NoDup_cons in Hnd as [Hi Hnd].
  destruct (par_arrive k arrived i r Hen) as (r1 & Hr1 & Hj & Ht & He & Hen1).
  { apply Hnew. apply elem_of_cons. by left. }
  unfold arrivals. cbn [map concat]. rewrite par_drive_app, Hr1.
  destruct (IH (i :: arrived) r1 Hnd) as (Hj' & Ht' & He'); [|done|].
  { intros j Hj0 Hin. apply elem_of_cons in Hin as [->|Hin]; [done|].
    revert Hin. apply Hnew. apply elem_of_cons. by right. }
  unfold arrivals in Hj', Ht', He'. rewrite Hj', Ht', Ht, He', He.
  split; [|done].
  cbn [omap list_omap]. rewrite Hj.
  by destruct (if bool_decide (i < k)%nat then plans !! i ≫= later_of else None).
Qed.

(** The whole run. *)
Theorem par_plans_join order :
  NoDup order →
  join_of (par_run options w vals (arrivals taps plans order))
  = foldl join_signal (mkJoin (Z.of_nat N) []) (timeline plans order)
  ∧ tap_calls (par_dispatch options w vals (arrivals taps plans order))
    = seq 0 (started plans)
  ∧ calls_ended (par_dispatch options w vals (arrivals taps plans order))
    = [match aborted plans with
       | Some e => SawThrow e
       | None => SawReturn
       end].
Proof.
  intros Hnd. unfold par_dispatch, par_run.
  destruct (par_now_run N 0%nat (par_start options vals))
    as (r' & Hrun & Hj & Ht & He & Hen);
    [lia|lia| |done|simpl; unfold tap_count; lia|].
  { split; [done|]. intros i tap pl Hi. lia. }
  rewrite !drop_0 in *. rewrite Hrun.
  assert (Hfrom : ∀ ev,
    calls_ended [ev] = [match aborted plans with
                        | Some e => SawThrow e
                        | None => SawReturn
                        end] →
    join_of (par_drive options (arrivals taps plans order) (r_log [ev] r'))
    = foldl join_signal (mkJoin (Z.of_nat N) []) (timeline plans order)
    ∧ tap_calls (r_trace (par_drive options (arrivals taps plans order) (r_log [ev] r')))
      = seq 0 (started plans)
    ∧ calls_ended (r_trace (par_drive options (arrivals taps plans order)
                              (r_log [ev] r')))
      = [match aborted plans with
         | Some e => SawThrow e
         | None => SawReturn
         end]).
  { intros ev Hev.
    assert (Hcb : callback_calls [ev] = [] ∧ tap_calls [ev] = []).
    { destruct ev; try done. }
    destruct Hcb as [Hcb Htp].
    destruct (par_arrivals (started plans) order [] (r_log [ev] r') Hnd)
      as (Hj' & Ht' & He').
    { intros i _. apply not_elem_of_nil. }
    { destruct Hen as [Hclean Hreg]. by split. }
    rewrite Hj', Ht', He'. unfold timeline. rewrite foldl_app. split_and!.
    - f_equal. unfold join_of in *. simpl. rewrite callback_calls_app, Hcb.
      rewrite app_nil_r. rewrite Hj. f_equal. unfold join_of. simpl.
      by rewrite callback_calls_interceptors.
    - simpl. rewrite tap_calls_app, Htp. rewrite app_nil_r, Ht. simpl.
      by rewrite tap_calls_interceptors.
    - simpl. rewrite calls_ended_app, He, Hev. simpl.
      by rewrite calls_ended_interceptors. }
  destruct (aborted plans) as [e|]; by apply Hfrom.
Qed.

End ConcurrentPlans.

(** ** What the join makes of the news *)

Section Join.

Implicit Types (j : join) (tl : list news).

(** Once the counter is not positive nothing is called any more. *)
Lemma join_spent tl :
  ∀ j, (j_counter j ≤ 0)%Z →
    j_counter (foldl join_signal j tl) = (j_counter j - Z.of_nat (completions tl))%Z
    ∧ j_calls (foldl join_signal j tl) = j_calls j.
Proof.
  induction tl as [|[|e] tl IH]; intros j Hc; cbn [foldl completions].
  - split; [lia|done].
  - destruct (IH (join_signal j Completed)) as [H1 H2]; [simpl; lia|].
    rewrite H1, H2. simpl. rewrite bool_decide_false by lia. split; [lia|done].
  - replace (join_signal j (Failed e)) with j; [by apply IH|].
    simpl. by rewrite bool_decide_false by lia.
Qed.

(** Without a failure the counter counts the completions down, and the
    callback is called when it arrives at zero. *)
Lemma join_completions tl :
  first_failure tl = None →
  ∀ j, (0 < j_counter j)%Z →
    j_counter (foldl join_signal j tl) = (j_counter j - Z.of_nat (completions tl))%Z
    ∧ j_calls (foldl join_signal j tl)
      = j_calls j ++ if bool_decide (j_counter j ≤ Z.of_nat (completions tl))%Z
                     then [[]] else [].
Proof.
  induction tl as [|[|e] tl IH]; intros Hnone j Hc;
    cbn [foldl completions first_failure] in *; [| |done].
  - rewrite bool_decide_false by lia. rewrite app_nil_r. split; [lia|done].
  - assert (Hnone' : first_failure tl = None).
    { by destruct (first_failure tl) as [[[k e] rest]|]. }
    destruct (decide (j_counter j - 1 = 0)%Z) as [Hz|Hz].
    + destruct (join_spent tl (join_signal j Completed)) as [H1 H2]; [simpl; lia|].
      rewrite H1, H2. simpl. rewrite !bool_decide_true by lia. split; [lia|done].
    + destruct (IH Hnone' (join_signal j Completed)) as [H1 H2]; [simpl; lia|].
      rewrite H1, H2. simpl. rewrite (bool_decide_false (j_counter j - 1 = 0)%Z) by done.
      split; [lia|]. f_equal.
      rewrite (bool_decide_ext (j_counter j - 1 ≤ Z.of_nat (completions tl))%Z
                 (j_counter j ≤ Z.of_nat (S (completions tl)))%Z) by lia.
      done.
Qed.

(** The first failure, when the counter is still positive, calls the
    callback with its error; what comes after it calls nothing. *)
Lemma join_failure tl :
  ∀ k e rest j, first_failure tl = Some (k, e, rest) →
    (Z.of_nat k < j_counter j)%Z →
    j_counter (foldl join_signal j tl) = (- Z.of_nat (completions rest))%Z
    ∧ j_calls (foldl join_signal j tl) = j_calls j ++ [[e]].
Proof.
  induction tl as [|[|e'] tl IH]; intros k e rest j Hfirst Hc;
    cbn [foldl completions first_failure] in *; [done| |].
  - destruct (first_failure tl) as [[[k' e''] rest']|] eqn:Hf; [|done].
    injection Hfirst as <- <- <-.
    destruct (IH k' e'' rest' (join_signal j Completed) eq_refl) as [H1 H2];
      [simpl; lia|].
    rewrite H1, H2. simpl. by rewrite bool_decide_false by lia.
  - injection Hfirst as <- <- <-.
    replace (join_signal j (Failed e')) with (mkJoin 0 (j_calls j ++ [[e']]))
      by (simpl; by rewrite bool_decide_true by lia).
    destruct (join_spent tl (mkJoin 0 (j_calls j ++ [[e']]))) as [H1 H2]; [done|].
    rewrite H1, H2. simpl. split; [lia|done].
Qed.

End Join.

(** * The pieces of the emitted looping code *)

Section LoopPiecesFacts.

Variable options : FactoryOptions.
Variable co : ContentOptions.

#[local] Abbreviation N := (tap_count options).

#[local] Arguments callTap : simpl never.

Lemma lloop_at_last i : (N ≤ i)%nat →
  lloop_at options co i
  = mkLoop [] (fun _ => [SIf (ENot (EVar id_loop)) (co_onDone co ()) []]) true 0%nat.
Proof.
  intros Hi. unfold lloop_at, series_loop.
  by replace (N - i)%nat with 0%nat by lia.
Qed.

Lemma lloop_at_step i : (i < N)%nat →
  lloop_at options co i
  = series_iteration options (loop_series_options options co)
      (findIndex_not_sync (opt_taps options) 0) i (lloop_at options co (S i)).
Proof.
  intros Hi. unfold lloop_at, series_loop.
  by replace (N - i)%nat with (S (N - S i)) by lia.
Qed.

Lemma KL_last : KL options co N = [SIf (ENot (EVar id_loop)) (co_onDone co ()) []].
Proof. unfold KL. by rewrite lloop_at_last. Qed.

(** The code for the taps from [i] on is the unit of tap [i], which
    inspects the result. *)
Lemma KL_unfold i : (i < N)%nat →
  KL options co i
  = callTap options i
      (mkTapHandlers (loop_error co i) (Some (loop_result options co i)) None false).
Proof.
  intros Hi. unfold KL. rewrite lloop_at_step by done.
  unfold series_iteration, loop_result, ldone_code, lunrolls, loop_error.
  destruct (lookup_lt_is_Some_2 (opt_taps options) i Hi) as [tap Htap].
  rewrite Htap.
  destruct (sl_current_is_onDone (lloop_at options co (S i))); simpl.
  { by apply callTap_ext. }
  destruct (bool_decide (tap_type tap = sync)); simpl.
  - destruct (bool_decide (20 < sl_unrollCounter (lloop_at options co (S i)))%nat);
      simpl; by apply callTap_ext.
  - by apply callTap_ext.
Qed.

(** The declarations of the named units. *)
Lemma lloop_code_step i : (i < N)%nat →
  sl_code (lloop_at options co i)
  = sl_code (lloop_at options co (S i))
    ++ (if lunrolls options co i
        then [SFunction (id_next i) [] (KL options co (S i))] else []).
Proof.
  intros Hi. rewrite lloop_at_step by done.
  unfold series_iteration, lunrolls, KL.
  destruct (lookup_lt_is_Some_2 (opt_taps options) i Hi) as [tap Htap].
  rewrite Htap.
  destruct (sl_current_is_onDone (lloop_at options co (S i))); simpl.
  { by rewrite app_nil_r. }
  destruct (bool_decide (tap_type tap = sync)); simpl.
  - destruct (bool_decide (20 < sl_unrollCounter (lloop_at options co (S i)))%nat);
      simpl; by rewrite ?app_nil_r.
  - done.
Qed.

(** The unit of tap [i], in parts. *)
Lemma KL_code i tap : opt_taps options !! i = Some tap →
  KL options co i = ltap_preamble options i ++ ltap_unit options co i tap.
Proof.
  intros Htap.
  assert (Hi : (i < N)%nat) by (by eapply lookup_lt_Some).
  rewrite KL_unfold by done. unfold callTap, ltap_preamble, ltap_unit.
  rewrite Htap. cbn [th_onResult th_onDone th_onError th_rethrowIfPossible].
  rewrite !app_nil_r. rewrite <- app_assoc. done.
Qed.

Lemma loop_content_code :
  LoopHookCodeFactory_content options co
  = if bool_decide (N = 0%nat) then co_onDone co ()
    else if sync_only options then loop_stmts options co
         else [SVar id_looper (Some (EFunction [] (looper_body options co)));
               SExpr (ECall (EVar id_looper) [])].
Proof.
  unfold LoopHookCodeFactory_content, callTapsLooping, tap_count.
  destruct (decide (length (opt_taps options) = 0%nat)) as [HN|HN].
  { by rewrite !bool_decide_true by done. }
  rewrite !bool_decide_false by done.
  unfold looper_body, loop_stmts, loop_body, callTapsSeries, KL, lloop_at, tap_count.
  rewrite bool_decide_false by done. rewrite Nat.sub_0_r.
  reflexivity.
Qed.

End LoopPiecesFacts.

(** * The scopes of the looping dispatcher *)

Section LoopScopes.

Implicit Types (fs : list frame) (s L : nat) (x : ident).

(** Binding a variable where it is bound already changes no search. *)
Lemma find_frame_rebind fuel fs s s' x y v :
  is_Some (bound_in fs s' y) →
  find_frame fuel (bind_in fs s' y v) s x = find_frame fuel fs s x.
Proof.
  intros Hy. revert s. induction fuel as [|fuel IH]; intros s; [done|].
  rewrite !find_frame_S.
  pose proof (parent_bind_in fs s' y v s) as Hp.
  assert (Hb : is_Some (bound_in (bind_in fs s' y v) s x) ↔ is_Some (bound_in fs s x)).
  { destruct (decide ((s, x) = (s', y))) as [[= -> ->]|Hne].
    - rewrite bound_in_bind_eq; [by split|].
      destruct Hy as [u Hu]. unfold bound_in in Hu.
      destruct (fs !! s') eqn:E; [|done]. by eapply lookup_lt_Some.
    - by rewrite bound_in_bind_ne. }
  destruct (bind_in fs s' y v !! s) as [f'|], (fs !! s) as [f|];
    simpl in Hp; simplify_eq; [|done].
  destruct (bound_in (bind_in fs s' y v) s x) as [u|] eqn:E1,
           (bound_in fs s x) as [u'|] eqn:E2; try done.
  - destruct Hb as [Hb _]. destruct Hb as [? ?]; [by eexists|done].
  - destruct Hb as [_ Hb]. destruct Hb as [? ?]; [by eexists|done].
  - rewrite Hp. destruct (f_parent f); [apply IH|done].
Qed.

Lemma bound_in_lt fs s x v : bound_in fs s x = Some v → (s < length fs)%nat.
Proof.
  unfold bound_in. destruct (fs !! s) eqn:E; [|done]. intros _.
  by eapply lookup_lt_Some.
Qed.

Lemma find_frame_here fs s x v :
  bound_in fs s x = Some v → find_frame (length fs) fs s x = Some s.
Proof.
  intros Hb. pose proof (bound_in_lt _ _ _ _ Hb) as Hs.
  destruct (length fs) as [|n] eqn:El; [lia|].
  rewrite find_frame_S, Hb. destruct (fs !! s) eqn:E; [done|].
  apply lookup_ge_None in E. lia.
Qed.

(** The frame that is found is one of the frames. *)
Lemma find_frame_lt fuel fs s x L :
  find_frame fuel fs s x = Some L → (L < length fs)%nat ∧ is_Some (bound_in fs L x).
Proof.
  revert s. induction fuel as [|fuel IH]; intros s; [done|].
  rewrite find_frame_S. destruct (fs !! s) as [f|] eqn:Ef; [|done].
  destruct (bound_in fs s x) eqn:Eb.
  - intros [= <-]. split; [by eapply lookup_lt_Some|by eexists].
  - destruct (f_parent f); [apply IH|done].
Qed.

(** An identifier that is bound only where [y] is, is found where [y] is
    found. *)
Lemma find_frame_with fuel fs s x y L :
  (∀ s0, is_Some (bound_in fs s0 x) → is_Some (bound_in fs s0 y)) →
  find_frame fuel fs s y = Some L → is_Some (bound_in fs L x) →
  find_frame fuel fs s x = Some L.
Proof.
  intros Hxy. revert s. induction fuel as [|fuel IH]; intros s; [done|].
  rewrite !find_frame_S. destruct (fs !! s) as [f|] eqn:Ef; [|done].
  destruct (bound_in fs s y) eqn:Ey.
  - intros [= <-] [u Hu]. by rewrite Hu.
  - destruct (bound_in fs s x) eqn:Ex.
    + destruct (Hxy s) as [? ?]; [by eexists|congruence].
    + destruct (f_parent f); [apply IH|done].
Qed.

End LoopScopes.

Section LoopInv.

Variable options : FactoryOptions.
Variable co : ContentOptions.
Variable vals : list value.

Implicit Types (fs : list frame) (s L : nat) (x : ident).

#[local] Abbreviation Inv := (LInv options co vals).
#[local] Abbreviation Active := (Act options co).
#[local] Abbreviation N := (length (opt_taps options)).

Lemma act_not_top x : act_ident x = true → top_ident x = false.
Proof. by destruct x. Qed.

Lemma top_ok_bind_other fs s x v :
  top_ok_from options co vals N fs → top_ident x = false →
  top_ok_from options co vals N (bind_in fs s x v).
Proof.
  intros (H1 & H2 & H3 & H4 & H5 & H6) Hx.
  assert (Hb : ∀ y, top_ident y = true →
            bound_in (bind_in fs s x v) 1 y = bound_in fs 1 y).
  { intros y Hy. apply bound_in_bind_ne. intros [= _ ->]. congruence. }
  unfold top_ok_from. rewrite !Hb by done. split_and!; try done.
  - eapply Forall2_impl; [exact H5|]. intros a val Ha. by rewrite Hb.
  - intros i Hj Hi. unfold tap_count in Hi. lia.
Qed.

Lemma Inv_length fs : Inv fs → (2 ≤ length fs)%nat.
Proof. by intros [(Hlen & _) _ _ _]. Qed.

(** Reading a declared parameter, [_x], [_context] and the like. *)
Lemma Inv_read_top fs s x v :
  Inv fs → top_ident x = true → bound_in fs 1 x = Some v →
  (1 ≤ s < length fs)%nat → read_var fs s x = Some v.
Proof. intros [Hwf _ _ _]. by apply read_var_for. Qed.

(** A scratch variable is bound. *)
Lemma Inv_bind fs s x v :
  Inv fs → top_ident x = false → act_ident x = false → Inv (bind_in fs s x v).
Proof.
  intros [Hwf Htop Hlooper Hact] Hx Ha. split.
  - by apply wf_for_bind.
  - by apply top_ok_bind_other.
  - intros Hs. rewrite bound_in_bind_ne; [by apply Hlooper|].
    intros [= _ ?]. by subst.
  - intros s0 y Hy Hb.
    rewrite bound_in_bind_ne in Hb by (intros [= _ ?]; subst; congruence).
    rewrite bound_in_bind_ne by (intros [= _ ?]; by subst).
    by eapply Hact.
Qed.

(** A variable of an activation of the loop is bound where [_loop] is. *)
Lemma Inv_bind_act fs L x v :
  Inv fs → act_ident x = true → is_Some (bound_in fs L id_loop) →
  Inv (bind_in fs L x v).
Proof.
  intros [Hwf Htop Hlooper Hact] Hx HL.
  assert (HsL : (L < length fs)%nat) by (destruct HL; by eapply bound_in_lt).
  assert (Hloop : ∀ s0, is_Some (bound_in fs s0 id_loop) →
                        is_Some (bound_in (bind_in fs L x v) s0 id_loop)).
  { intros s0 Hs0. destruct (decide ((s0, id_loop) = (L, x))) as [[= -> <-]|Hne].
    - by rewrite bound_in_bind_eq.
    - by rewrite bound_in_bind_ne. }
  split.
  - apply wf_for_bind; [done|by apply act_not_top].
  - apply top_ok_bind_other; [done|by apply act_not_top].
  - intros Hs. rewrite bound_in_bind_ne; [by apply Hlooper|].
    intros [= _ ?]. by subst.
  - intros s0 y Hy Hb. apply Hloop.
    destruct (decide ((s0, y) = (L, x))) as [[= -> ->]|Hne]; [done|].
    rewrite bound_in_bind_ne in Hb by done. by eapply Hact.
Qed.

(** The activation of a function that binds neither a parameter of the
    dispatcher nor a variable of the loop. *)
Lemma Inv_push fs vars p :
  Inv fs → (1 ≤ p < length fs)%nat →
  (∀ x, top_ident x = true → vars !! x = None) →
  (∀ x, act_ident x = true → vars !! x = None) →
  Inv (fs ++ [mkFrame vars (Some p)]).
Proof.
  intros [Hwf Htop Hlooper Hact] Hp Hv1 Hv2.
  pose proof Hwf as (Hlen & _).
  split.
  - by apply wf_for_push.
  - apply (top_ok_push options co vals); [lia|done].
  - intros Hs. rewrite bound_in_app by lia. by apply Hlooper.
  - intros s0 y Hy Hb.
    destruct (decide (s0 < length fs)%nat) as [Hlt|Hge].
    + rewrite bound_in_app in * by done. by eapply Hact.
    + destruct Hb as [u Hu]. pose proof (bound_in_lt _ _ _ _ Hu) as Hl.
      rewrite length_app in Hl. simpl in Hl.
      assert (s0 = length fs) as -> by lia.
      rewrite bound_in_new_frame in Hu. by rewrite Hv2 in Hu.
Qed.

(** A new activation of the loop. *)
Lemma Inv_activation fs p a b :
  Inv fs → (1 ≤ p < length fs)%nat →
  Inv (bind_in (bind_in (fs ++ [mkFrame ∅ (Some p)]) (length fs) id_loopAsync a)
         (length fs) id_loop b).
Proof.
  intros HI Hp.
  assert (HI1 : Inv (fs ++ [mkFrame ∅ (Some p)])).
  { apply Inv_push; try done. }
  destruct HI1 as [Hwf Htop Hlooper Hact].
  assert (Hl : (length fs < length (fs ++ [mkFrame ∅ (Some p)]))%nat).
  { rewrite length_app. simpl. lia. }
  split.
  - apply wf_for_bind; [|done]. by apply wf_for_bind.
  - apply top_ok_bind_other; [|done]. by apply top_ok_bind_other.
  - intros Hs. rewrite !bound_in_bind_ne by (intros [= _ ?]; done). by apply Hlooper.
  - intros s0 y Hy Hb.
    destruct (decide (s0 = length fs)) as [->|Hne].
    + rewrite bound_in_bind_eq; [done|]. by rewrite bind_in_length.
    + rewrite !bound_in_bind_ne in Hb by (intros ?; simplify_eq).
      rewrite !bound_in_bind_ne by (intros ?; simplify_eq). by eapply Hact.
Qed.

(** ** The activation that a scope belongs to *)

Lemma home_lt fs s L :
  home fs s L → (1 ≤ L < length fs)%nat ∧ is_Some (bound_in fs L id_loop).
Proof.
  intros (_ & HL & H). destruct (find_frame_lt _ _ _ _ _ H) as [Hlt Hb].
  split; [lia|done].
Qed.

Lemma home_self fs L v :
  (1 ≤ L)%nat → bound_in fs L id_loop = Some v → home fs L L.
Proof.
  intros HL Hb. split; [|split]; [|done|by eapply find_frame_here].
  pose proof (bound_in_lt _ _ _ _ Hb). lia.
Qed.

Lemma home_bind fs s' x v s L :
  x ≠ id_loop → home fs s L → home (bind_in fs s' x v) s L.
Proof.
  intros Hx (Hs & HL & Hf). split; [|split]; rewrite ?bind_in_length; [done..|].
  by rewrite find_frame_bind_ne.
Qed.

Lemma home_rebind fs s' x v s L :
  is_Some (bound_in fs s' x) → home fs s L → home (bind_in fs s' x v) s L.
Proof.
  intros Hx (Hs & HL & Hf). split; [|split]; rewrite ?bind_in_length; [done..|].
  by rewrite find_frame_rebind.
Qed.

Lemma home_push fs fr s L :
  Inv fs → home fs s L → home (fs ++ [fr]) s L.
Proof.
  intros [(_ & Hdec & _) _ _ _] (Hs & HL & Hf).
  split; [|split]; rewrite ?length_app; [lia|done|].
  rewrite (find_frame_indep fs [fr] id_loop Hdec s _ (length fs)) by lia. done.
Qed.

Lemma home_new fs vars p L :
  Inv fs → home fs p L → vars !! id_loop = None →
  home (fs ++ [mkFrame vars (Some p)]) (length fs) L.
Proof.
  intros [(Hlen & Hdec & _) _ _ _] (Hs & HL & Hf) Hv.
  split; [|split]; rewrite ?length_app; simpl; [lia|done|].
  replace (length fs + 1)%nat with (S (length fs)) by lia.
  rewrite find_frame_S, bound_in_new_frame, Hv, list_lookup_middle by done. simpl.
  rewrite (find_frame_indep fs _ id_loop Hdec p _ (length fs)) by lia. done.
Qed.

(** Reading and writing the variables of the activation from a scope that
    belongs to it. *)
Lemma home_find fs s L x :
  Inv fs → home fs s L → act_ident x = true → is_Some (bound_in fs L x) →
  find_frame (length fs) fs s x = Some L.
Proof.
  intros [_ _ _ Hact] (_ & _ & Hf) Hx Hb.
  eapply find_frame_with; [|exact Hf|exact Hb].
  intros s0. by apply Hact.
Qed.

Lemma home_read fs s L x v :
  Inv fs → home fs s L → act_ident x = true → bound_in fs L x = Some v →
  read_var fs s x = Some v.
Proof.
  intros HI Hh Hx Hb. unfold read_var.
  rewrite (home_find fs s L x) by (try done; by eexists). exact Hb.
Qed.

Lemma home_write fs s L x v v' :
  Inv fs → home fs s L → act_ident x = true → bound_in fs L x = Some v →
  write_var fs s x v' = Some (bind_in fs L x v').
Proof.
  intros HI Hh Hx Hb. unfold write_var.
  by rewrite (home_find fs s L x) by (try done; by eexists).
Qed.

(** ** The variables of an activation *)

Lemma Act_lt fs L b a : Active fs L b a → (L < length fs)%nat.
Proof. intros (Hb & _). by eapply bound_in_lt. Qed.

Lemma Act_bind fs s x v L b a :
  act_ident x = false ∨ s ≠ L → Active fs L b a → Active (bind_in fs s x v) L b a.
Proof.
  intros Hx (H1 & H2 & H3).
  assert (Hb : ∀ y, act_ident y = true →
            bound_in (bind_in fs s x v) L y = bound_in fs L y).
  { intros y Hy. apply bound_in_bind_ne. intros [= -> ->]. destruct Hx; congruence. }
  unfold Act. rewrite !Hb by done. split_and!; try done.
  intros j Hj Hu. rewrite Hb by done. by apply H3.
Qed.

Lemma Act_push fs fr L b a : Active fs L b a → Active (fs ++ [fr]) L b a.
Proof.
  intros HA. pose proof (Act_lt _ _ _ _ HA) as HL. destruct HA as (H1 & H2 & H3).
  unfold Act. rewrite !bound_in_app by done. split_and!; try done.
  intros j Hj Hu. rewrite bound_in_app by done. by apply H3.
Qed.

Lemma Act_set_loop fs L b a b' :
  Active fs L b a → Active (bind_in fs L id_loop (VBool b')) L b' a.
Proof.
  intros HA. pose proof (Act_lt _ _ _ _ HA) as HL. destruct HA as (H1 & H2 & H3).
  split_and!.
  - by apply bound_in_bind_eq.
  - intros Hs. rewrite bound_in_bind_ne by (intros [=]). by apply H2.
  - intros j Hj Hu. rewrite bound_in_bind_ne by (intros [=]). by apply H3.
Qed.

Lemma Act_set_async fs L b a a' :
  Active fs L b a → Active (bind_in fs L id_loopAsync (VBool a')) L b a'.
Proof.
  intros HA. pose proof (Act_lt _ _ _ _ HA) as HL. destruct HA as (H1 & H2 & H3).
  split_and!.
  - by rewrite bound_in_bind_ne by (intros [=]).
  - intros Hs. by apply bound_in_bind_eq.
  - intros j Hj Hu. rewrite bound_in_bind_ne by (intros [=]). by apply H3.
Qed.

(** ** What the trace has seen *)

Lemma loop_view_app a b : loop_view (a ++ b) = loop_view a ++ loop_view b.
Proof. apply omap_app. Qed.

Lemma loop_view_silent tr ev : lobs_of ev = None → loop_view (tr ++ [ev]) = loop_view tr.
Proof. intros H. rewrite loop_view_app. unfold loop_view at 2. simpl. rewrite H. apply app_nil_r. Qed.

Lemma loop_view_concat_imap {A} (f : nat → A → list event)
    (g : nat → A → list lobs) (l : list A) :
  (∀ k (e : A), loop_view (f k e) = g k e) →
  loop_view (concat (imap f l)) = concat (imap g l).
Proof.
  revert f g. induction l as [|e l IH]; intros f g Hfg; [done|].
  rewrite !imap_cons. simpl. rewrite loop_view_app, Hfg. f_equal.
  apply IH. intros k y. apply Hfg.
Qed.

Lemma concat_imap_nil {A B} (l : list A) :
  concat (imap (λ (_ : nat) (_ : A), @nil B) l) = [].
Proof. induction l as [|e l IH]; [done|]. rewrite imap_cons. simpl. exact IH. Qed.

Lemma loop_view_interceptors has m acts :
  String.eqb m "loop" = false →
  loop_view (interceptor_events options has m acts) = [].
Proof.
  intros Hm. unfold interceptor_events.
  rewrite (loop_view_concat_imap _ (λ _ _, [])); [apply concat_imap_nil|].
  intros k ic. destruct (has ic); [|done]. unfold loop_view. simpl. by rewrite Hm.
Qed.

Lemma loop_view_pass :
  loop_view (interceptor_events options int_loop "loop"
               (λ ic, with_context options (int_context ic) (arg_values options vals)))
  = pass_start options vals.
Proof.
  unfold interceptor_events, pass_start. apply loop_view_concat_imap.
  intros k ic. by destruct (int_loop ic).
Qed.

Lemma extends_refl st : extends st st [].
Proof. unfold extends. by rewrite app_nil_r. Qed.

Lemma extends_same st st' : trace st' = trace st → extends st st' [].
Proof. intros H. unfold extends. by rewrite H, app_nil_r. Qed.

Lemma extends_trans st1 st2 st3 os1 os2 :
  extends st1 st2 os1 → extends st2 st3 os2 → extends st1 st3 (os1 ++ os2).
Proof. unfold extends. intros H1 H2. by rewrite H2, H1, app_assoc. Qed.

Lemma extends_from st1 st2 st3 os :
  trace st2 = trace st1 → extends st2 st3 os → extends st1 st3 os.
Proof. unfold extends. intros H H1. by rewrite H1, H. Qed.

Lemma extends_same_trace st st1 st2 os :
  extends st st1 os → trace st2 = trace st1 → extends st st2 os.
Proof. unfold extends. intros H1 Ht. by rewrite Ht. Qed.

Lemma extends_silent st ev : lobs_of ev = None → extends st (log ev st) [].
Proof.
  intros H. unfold extends, log. simpl. by rewrite loop_view_silent, app_nil_r.
Qed.

Lemma extends_interceptors st has m acts :
  String.eqb m "loop" = false →
  extends st (log_all (interceptor_events options has m acts) st) [].
Proof.
  intros Hm. unfold extends, log_all. simpl.
  by rewrite loop_view_app, loop_view_interceptors.
Qed.

Lemma extends_pass st :
  extends st (log_all (interceptor_events options int_loop "loop"
                         (λ ic, with_context options (int_context ic)
                                  (arg_values options vals))) st)
          (pass_start options vals).
Proof. unfold extends, log_all. simpl. by rewrite loop_view_app, loop_view_pass. Qed.

Lemma extends_tap st i actuals : extends st (log (EvTap i actuals) st) [LTap i].
Proof. unfold extends, log. simpl. by rewrite loop_view_app. Qed.

Lemma extends_callback st actuals :
  extends st (log (EvCallback actuals) st) [LCallback actuals].
Proof. unfold extends, log. simpl. by rewrite loop_view_app. Qed.

Lemma extends_return st v : extends st (log (EvReturn v) st) [LReturn].
Proof. unfold extends, log. simpl. by rewrite loop_view_app. Qed.

End LoopInv.

(** * The unit of a tap in the loop *)

Section LoopUnit.

Variable options : FactoryOptions.
Variable co : ContentOptions.
Variable vals : list value.
Variable cplans : list (bool * value).

Hypothesis args_plain : Forall (λ v, is_closure v = false) (arg_values options vals).
Hypothesis co_done :
  co_onDone co ()
  = for_interceptors options int_done
      (λ k _, [SExpr (ECall (EMember (getInterceptor k) "done") [])])
    ++ [SExpr (ECall (EVar id_callback) [])].

#[local] Abbreviation w := (loop_world (opt_taps options) cplans).
#[local] Abbreviation Inv := (LInv options co vals).
#[local] Abbreviation Active := (Act options co).
#[local] Abbreviation At := (Here options co vals).
#[local] Abbreviation N := (length (opt_taps options)).

Implicit Types (st : state) (s L : nat).

(** ** Steps that keep the place *)

Lemma Here_scope st s L a : At st s L a → (1 ≤ s < length (frames st))%nat.
Proof. by intros (_ & (Hs & _) & _). Qed.

Lemma Here_same st st' s L a : frames st' = frames st → At st s L a → At st' s L a.
Proof. intros Hf. unfold Here. by rewrite Hf. Qed.

Lemma Here_bind st s L a s0 x v :
  At st s L a → top_ident x = false → act_ident x = false →
  At (set_frames (bind_in (frames st) s0 x v) st) s L a.
Proof.
  intros (HI & Hh & HA) Hx Ha. split_and!; simpl.
  - by apply Inv_bind.
  - apply home_bind; [|done]. intros ->. done.
  - apply Act_bind; [by left|done].
Qed.

Lemma Here_push st s L a vars :
  At st s L a →
  (∀ x, top_ident x = true → vars !! x = None) →
  (∀ x, act_ident x = true → vars !! x = None) →
  At (set_frames (frames st ++ [mkFrame vars (Some s)]) st) (length (frames st)) L a.
Proof.
  intros (HI & Hh & HA) Hv1 Hv2. pose proof Hh as (Hs & _). split_and!; simpl.
  - by apply Inv_push.
  - eapply home_new; [done|done|]. by apply Hv2.
  - by apply Act_push.
Qed.

(** ** The call of the tap function with the declared parameters *)

Lemma ltap_call i s st (b : bool) :
  Inv (frames st) → (1 ≤ s < length (frames st))%nat →
  read_var (frames st) s (id_fn i) = Some (VTapFn i) →
  converges (λ n, eval w n s (ECall (EVar (id_fn i))
                                (args options (context_arg b) None)) st)
            (ending_result (tb_ending (tap_behaviour w (clock st) i)),
             tick (log (EvTap i (with_context options b (arg_values options vals))) st)).
Proof.
  intros [Hwf Htop _ _] Hs Hfn.
  destruct (plain_ok _ (ctx_plain options vals args_plain b)) as [Hplain Hlast].
  rewrite <- Hplain at 1.
  eapply ev_call; [by apply ev_var| |by apply call_tap_plain].
  rewrite args_shape, <- (app_nil_r (with_context _ _ _)).
  apply (args_eval_for options co w vals top_ident); try done.
  - by exists N.
  - apply ev_list_nil.
Qed.

(** ** The part that every unit starts with *)

Lemma lpreamble_sem i s st L a rest (P : outcome * state → Prop) :
  At st s L a →
  (∀ st1,
     At st1 s L a → length (frames st1) = length (frames st) →
     clock st1 = clock st → extends st st1 [] →
     read_var (frames st1) s (id_fn i) = Some (VTapFn i) →
     ∃ res, converges (λ n, exec_block w n s rest st1) res ∧ P res) →
  ∃ res, converges (λ n, exec_block w n s (ltap_preamble options i ++ rest) st) res
         ∧ P res.
Proof.
  intros HA Hrest. pose proof (Here_scope _ _ _ _ HA) as Hs.
  assert (Hfn : ∀ st0, At st0 s L a → length (frames st0) = length (frames st) →
            clock st0 = clock st → extends st st0 [] →
            ∃ res, converges (λ n, exec_block w n s
                                (SVar (id_fn i) (Some (getTapFn i)) :: rest) st0) res
                   ∧ P res).
  { intros st0 HA0 Hl0 Hc0 He0.
    destruct (Hrest (set_frames (bind_in (frames st0) s (id_fn i) (VTapFn i)) st0))
      as (res & Hconv & HP).
    - by apply Here_bind.
    - simpl. by rewrite bind_in_length.
    - done.
    - done.
    - simpl. apply read_var_bind_eq. lia.
    - exists res. split; [|done]. eapply ex_block_cons; [|exact Hconv].
      apply ex_var_init. eapply (ev_index_var w _ _ _ VHookX); [|done].
      destruct HA0 as (HI0 & _). pose proof HI0 as [_ (_ & Hx & _) _ _].
      eapply Inv_read_top; eauto. lia. }
  unfold ltap_preamble. rewrite <- app_assoc. simpl app at 2.
  destruct (filter int_tap (opt_interceptors options)) as [|ic0 l0] eqn:Hfilter.
  - apply Hfn; [done..|apply extends_refl].
  - assert (Hne : opt_interceptors options ≠ []).
    { intros Hnil. by rewrite Hnil in Hfilter. }
    set (st1 := set_frames (bind_in (frames st) s (id_tap i) (VTapDescriptor i)) st).
    assert (HA1 : At st1 s L a) by (by apply Here_bind).
    destruct (Hfn (log_all (interceptor_events options int_tap "tap"
                     (λ ic, with_context options (int_context ic) [VTapDescriptor i])) st1))
      as (res & Hconv & HP).
    { by eapply Here_same; [|exact HA1]. }
    { simpl. by rewrite bind_in_length. }
    { done. }
    { eapply extends_from; [|by apply (extends_interceptors options)]. done. }
    exists res. split; [|done]. simpl.
    eapply ex_block_cons.
    { apply ex_var_init. eapply (ev_index_var w _ _ _ VHookTaps); [|done].
      destruct HA as (HI0 & _). pose proof HI0 as [_ (_ & _ & _ & Hint & _) _ _].
      destruct (Hint Hne) as [Ht _]. eapply Inv_read_top; eauto. }
    fold st1.
    destruct HA1 as (HI1 & _). pose proof HI1 as [Hwf1 Htop1 _ _].
    assert (Hs1 : (1 ≤ s < length (frames st1))%nat).
    { simpl. by rewrite bind_in_length. }
    apply (for_interceptors_frag_for options co w vals top_ident int_tap "tap"
             (λ ic, (if int_context ic then [EVar id_context] else [])
                    ++ [EVar (id_tap i)])
             (λ ic, with_context options (int_context ic) [VTapDescriptor i]));
      try done.
    { by exists N. }
    intros ic st' Hst'.
    assert (Htap : converges (λ n, eval_list w n s [EVar (id_tap i)] st')
                     (inl [VTapDescriptor i], st')).
    { eapply ev_list_cons; [|apply ev_list_nil]. apply ev_var.
      rewrite Hst'. simpl. apply read_var_bind_eq. lia. }
    destruct (int_context ic); simpl; [|done].
    eapply ev_list_cons; [|exact Htap]. apply ev_var. rewrite Hst'.
    destruct Htop1 as (_ & _ & Hc & _). by eapply Inv_read_top.
Qed.

(** ** What the taps do *)

Lemma world_tap c i tap (later : bool) v :
  opt_taps options !! i = Some tap → cplans !! c = Some (later, v) →
  tap_behaviour w c i
  = match tap_type tap with
    | sync => mkTapBehaviour [] (Returns v)
    | async =>
        mkTapBehaviour (if (later : bool) then [] else [[VNull; v]]) (Returns VUndefined)
    | promise => mkTapBehaviour [] (Returns (VThenable c))
    end.
Proof. intros Htap Hc. simpl. by rewrite Htap, Hc. Qed.

Lemma world_then c p (later : bool) v :
  cplans !! p = Some (later, v) →
  then_behaviour w c p
  = mkThenBehaviour (if (later : bool) then [] else [(true, [v])]) (Returns VUndefined).
Proof. intros Hp. simpl. rewrite Hp. by destruct later. Qed.

(** ** The unit of a sync tap *)

Lemma lsync_sem i tap s st L a v (Q : state → Prop) :
  opt_taps options !! i = Some tap → tap_type tap = sync →
  At st s L a → cplans !! clock st = Some (false, v) →
  read_var (frames st) s (id_fn i) = Some (VTapFn i) →
  (∀ st1,
     At st1 s L a → length (frames st1) = length (frames st) →
     clock st1 = S (clock st) → extends st st1 [LTap i] →
     read_var (frames st1) s (id_result i) = Some v →
     ∃ st', converges (λ n, exec_block w n s
                              (loop_result options co i (EVar (id_result i))) st1)
                      (ONormal, st')
            ∧ Q st') →
  ∃ st', converges (λ n, exec_block w n s (ltap_unit options co i tap) st)
                   (ONormal, st')
         ∧ Q st'.
Proof.
  intros Htap Hty HA Hplan Hfn Hcont.
  pose proof (Here_scope _ _ _ _ HA) as Hs.
  set (st1 := set_frames (bind_in (frames st) s (id_hasError i) (VBool false)) st).
  assert (HA1 : At st1 s L a) by (by apply Here_bind).
  assert (Hs1 : (1 ≤ s < length (frames st1))%nat).
  { simpl. by rewrite bind_in_length. }
  assert (Hfn1 : read_var (frames st1) s (id_fn i) = Some (VTapFn i)).
  { simpl. by rewrite read_var_bind_ne. }
  pose proof (ltap_call i s st1 (tap_context tap) (proj1 HA1) Hs1 Hfn1) as Hcall.
  change (clock st1) with (clock st) in Hcall.
  rewrite (world_tap _ _ _ _ _ Htap Hplan), Hty in Hcall. simpl in Hcall.
  set (st2 := tick (log (EvTap i (with_context options (tap_context tap)
                                    (arg_values options vals))) st1)) in *.
  set (st3 := set_frames (bind_in (frames st2) s (id_result i) v) st2).
  assert (HA3 : At st3 s L a).
  { apply Here_bind; [|done..]. by eapply Here_same; [|exact HA1]. }
  destruct (Hcont st3) as (st' & Hconv & HQ).
  - done.
  - simpl. by rewrite !bind_in_length.
  - done.
  - apply (extends_from _ st1); [done|].
    eapply extends_from; [|apply extends_tap]. done.
  - simpl. apply read_var_bind_eq. rewrite bind_in_length. lia.
  - exists st'. split; [|done]. unfold ltap_unit. rewrite Hty.
    eapply ex_block_cons; [apply ex_var_init, ev_bool|]. fold st1.
    eapply ex_block_cons.
    { eapply ex_try_normal. apply ex_block_one. apply ex_var_init. exact Hcall. }
    fold st3. apply ex_block_one. eapply ex_if.
    { eapply ev_not, ev_var. apply read_var_here. simpl.
      rewrite bound_in_bind_ne by (intros [=]). apply bound_in_bind_eq. lia. }
    simpl. exact Hconv.
Qed.

(** ** The unit of an async tap *)

Lemma lasync_sem i tap s st L a (later : bool) v (Q : state → Prop) :
  opt_taps options !! i = Some tap → tap_type tap = async →
  At st s L a → cplans !! clock st = Some (later, v) →
  read_var (frames st) s (id_fn i) = Some (VTapFn i) →
  (later = false → ∀ s' st1,
     At st1 s' L a → (length (frames st) ≤ length (frames st1))%nat →
     clock st1 = S (clock st) → extends st st1 [LTap i] →
     read_var (frames st1) s' (id_result i) = Some v →
     ∃ st', converges (λ n, exec_block w n s'
                              (loop_result options co i (EVar (id_result i))) st1)
                      (ONormal, st')
            ∧ Q st') →
  (later = true → ∀ st1,
     frames st1 = frames st → clock st1 = S (clock st) → extends st st1 [LTap i] →
     registered (registry st1) (TapCallback i) = Some (lcallback_closure options co i s) →
     Q st1) →
  ∃ st', converges (λ n, exec_block w n s (ltap_unit options co i tap) st)
                   (ONormal, st')
         ∧ Q st'.
Proof.
  intros Htap Hty HA Hplan Hfn Hnow Hlater.
  pose proof (Here_scope _ _ _ _ HA) as Hs.
  pose proof HA as (HI & Hhome & HAct). pose proof HI as [Hwf Htop _ _].
  set (cb := lcallback_closure options co i s).
  destruct (plain_snoc _ cb (ctx_plain options vals args_plain (tap_context tap)) eq_refl)
    as [Hplain Hlast].
  set (st1 := enroll (TapCallback i) cb
                (tick (log (EvTap i (with_context options (tap_context tap)
                                       (arg_values options vals))) st))).
  assert (Hf1 : frames st1 = frames st) by done.
  assert (He1 : extends st st1 [LTap i]).
  { eapply extends_from; [|apply extends_tap]. done. }
  assert (Hreg1 : registered (registry st1) (TapCallback i) = Some cb).
  { simpl. by rewrite decide_True. }
  assert (Hcall : ∀ o st',
            converges (λ n, call_back w n (TapCallback i) cb
                              (if later then [] else [[VNull; v]]) st1) (o, st') →
            converges (λ n, eval w n s
                        (ECall (EVar (id_fn i))
                           (args options (context_arg (tap_context tap))
                              (Some (EFunction [id_errN i; id_result i]
                                       [SIf (EVar (id_errN i))
                                            (loop_error co i (EVar (id_errN i)))
                                            (loop_result options co i
                                               (EVar (id_result i)))])))) st)
                      (match o with
                       | None => Val VUndefined
                       | Some e => Exc e
                       end, st')).
  { intros o st' Hcb.
    eapply ev_call; [by apply ev_var| |].
    - rewrite args_shape.
      apply (args_eval_for options co w vals top_ident); try done.
      + by exists N.
      + eapply ev_list_cons; [apply ev_function|apply ev_list_nil].
    - fold cb.
      pose proof (call_tap_callback w st i _ cb o st' Hlast) as Hc.
      rewrite Hplain, (world_tap _ _ _ _ _ Htap Hplan), Hty in Hc. simpl in Hc.
      apply Hc. exact Hcb. }
  unfold ltap_unit. rewrite Hty. destruct later.
  - exists st1. split; [|by apply Hlater].
    apply ex_block_one. eapply ex_expr_val. apply (Hcall None). apply call_back_nil.
  - set (st2 := log (EvFire (TapCallback i) [VNull; v]) st1).
    set (st3 := set_frames (frames st2
                            ++ [mkFrame (bind_params [id_errN i; id_result i] [VNull; v])
                                        (Some s)]) st2).
    assert (Hvars : bind_params [id_errN i; id_result i] [VNull; v]
                    = <[id_errN i := VNull]> {[id_result i := v]}).
    { simpl. by rewrite insert_empty. }
    assert (HA3 : At st3 (length (frames st)) L a).
    { apply (Here_push st2 s L a); [by eapply Here_same; [|exact HA]|..];
        intros x Hx; rewrite Hvars;
        rewrite lookup_insert_ne by (intros <-; done);
        apply lookup_singleton_ne; intros <-; done. }
    destruct (Hnow eq_refl (length (frames st)) st3) as (st' & Hconv & HQ).
    + done.
    + simpl. rewrite length_app. lia.
    + done.
    + apply (extends_trans _ st1 _ [LTap i] []); [done|].
      unfold extends. simpl. by rewrite loop_view_silent, app_nil_r.
    + apply read_var_here. unfold st3. cbn [frames set_frames].
      change (frames st2) with (frames st).
      rewrite bound_in_new_frame, Hvars.
      rewrite lookup_insert_ne by done. apply lookup_singleton_eq.
    + exists st'. split; [|done].
      apply ex_block_one. eapply ex_expr_val. apply (Hcall None).
      eapply call_back_cons_val; [|apply call_back_nil].
      apply (call_closure w st2 _ _ s [VNull; v] ONormal st').
      apply ex_block_one. eapply ex_if.
      { apply ev_var. apply read_var_here. cbn [frames set_frames].
        rewrite bound_in_new_frame, Hvars. apply lookup_insert_eq. }
      simpl. exact Hconv.
Qed.

(** ** The unit of a promise tap *)

Lemma lpromise_sem i tap s st L a (later : bool) v (Q : state → Prop) :
  opt_taps options !! i = Some tap → tap_type tap = promise →
  At st s L a → cplans !! clock st = Some (later, v) →
  read_var (frames st) s (id_fn i) = Some (VTapFn i) →
  (later = false → ∀ s' st1,
     At st1 s' L a → (length (frames st) ≤ length (frames st1))%nat →
     clock st1 = S (S (clock st)) → extends st st1 [LTap i] →
     read_var (frames st1) s' (id_result i) = Some v →
     ∃ st', converges (λ n, exec_block w n s'
                              (loop_result options co i (EVar (id_result i))) st1)
                      (ONormal, st')
            ∧ Q st') →
  (later = true → ∀ st1,
     At st1 s L a → length (frames st1) = length (frames st) →
     clock st1 = S (S (clock st)) → extends st st1 [LTap i] →
     registered (registry st1) (OnFulfilled (clock st))
     = Some (lfulfilled_closure options co i s) →
     is_Some (bound_in (frames st1) s (id_hasResult i)) →
     Q st1) →
  ∃ st', converges (λ n, exec_block w n s (ltap_unit options co i tap) st)
                   (ONormal, st')
         ∧ Q st'.
Proof.
  intros Htap Hty HA Hplan Hfn Hnow Hlater.
  pose proof (Here_scope _ _ _ _ HA) as Hs.
  set (c := clock st) in *.
  set (st1 := set_frames (bind_in (frames st) s (id_hasResult i) (VBool false)) st).
  assert (HA1 : At st1 s L a) by (by apply Here_bind).
  assert (Hs1 : (1 ≤ s < length (frames st1))%nat).
  { simpl. by rewrite bind_in_length. }
  assert (Hfn1 : read_var (frames st1) s (id_fn i) = Some (VTapFn i)).
  { simpl. by rewrite read_var_bind_ne. }
  pose proof (ltap_call i s st1 (tap_context tap) (proj1 HA1) Hs1 Hfn1) as Hcall.
  change (clock st1) with c in Hcall.
  rewrite (world_tap _ _ _ _ _ Htap Hplan), Hty in Hcall. simpl in Hcall.
  set (st2 := tick (log (EvTap i (with_context options (tap_context tap)
                                    (arg_values options vals))) st1)) in *.
  set (st3 := set_frames (bind_in (frames st2) s (id_promise i) (VThenable c)) st2).
  assert (HA3 : At st3 s L a).
  { apply Here_bind; [|done..]. by eapply Here_same; [|exact HA1]. }
  assert (Hl3 : length (frames st3) = length (frames st)).
  { simpl. by rewrite !bind_in_length. }
  assert (Hp3 : read_var (frames st3) s (id_promise i) = Some (VThenable c)).
  { simpl. apply read_var_bind_eq. rewrite bind_in_length. lia. }
  assert (Hflag3 : bound_in (frames st3) s (id_hasResult i) = Some (VBool false)).
  { simpl. rewrite bound_in_bind_ne by (intros [=]). apply bound_in_bind_eq. lia. }
  destruct (promise_test w s st3 (id_promise i) (VThenable c) Hp3 eq_refl)
    as (cnd & Htest & Hcnd).
  set (ful := lfulfilled_closure options co i s).
  set (rej := VClosure [id_errN i]
                (SIf (EVar (id_hasResult i)) [SThrow (EVar (id_errN i))] []
                 :: loop_error co i (EVar (id_errN i))) s).
  set (st4 := enroll (OnRejected c) rej
                (enroll (OnFulfilled c) ful (tick (log (EvThen c) st3)))).
  assert (Hf4 : frames st4 = frames st3) by done.
  assert (He4 : extends st st4 [LTap i]).
  { apply (extends_trans _ st2 _ [LTap i] []).
    - apply (extends_from _ st1); [done|]. apply extends_tap.
    - unfold extends. simpl. by rewrite loop_view_silent, app_nil_r. }
  assert (Hthen : ∀ o st',
            converges (λ n, settle w n c [ful; rej]
                              (if later then [] else [(true, [v])]) st4) (o, st') →
            converges (λ n, eval w n s
                        (ECall (EMember (EVar (id_promise i)) "then")
                           [EFunction [id_result i]
                              (SAssign (id_hasResult i) (EBool true)
                               :: loop_result options co i (EVar (id_result i)));
                            EFunction [id_errN i]
                              (SIf (EVar (id_hasResult i)) [SThrow (EVar (id_errN i))] []
                               :: loop_error co i (EVar (id_errN i)))]) st3)
                      (match o with
                       | None => Val VUndefined
                       | Some e => Exc e
                       end, st')).
  { intros o st' Hset.
    eapply ev_call.
    - eapply ev_member_val; [by apply ev_var|done].
    - eapply ev_list_cons; [apply ev_function|].
      eapply ev_list_cons; [apply ev_function|apply ev_list_nil].
    - fold ful rej.
      pose proof (call_then w st3 c [ful; rej] o st') as Hc.
      rewrite (world_then _ _ _ _ Hplan) in Hc. simpl in Hc. apply Hc. exact Hset. }
  assert (Hpre : ∀ rest r,
            converges (λ n, exec_block w n s rest st3) r →
            converges (λ n, exec_block w n s
                        ([SVar (id_hasResult i) (Some (EBool false));
                          SVar (id_promise i)
                            (Some (ECall (EVar (id_fn i))
                                     (args options (context_arg (tap_context tap)) None)));
                          SIf (EOr (ENot (EVar (id_promise i)))
                                   (ENot (EMember (EVar (id_promise i)) "then")))
                              [SThrow (ENewError
                                 (EAdd (EAdd (EStr "Tap function (tapPromise) did not return promise (returned ")
                                             (EVar (id_promise i)))
                                       (EStr ")")))]
                              []] ++ rest) st) r).
  { intros rest r Hrest. simpl.
    eapply ex_block_cons; [apply ex_var_init, ev_bool|]. fold st1.
    eapply ex_block_cons; [apply ex_var_init; exact Hcall|]. fold st3.
    eapply ex_block_cons; [|exact Hrest].
    eapply ex_if; [exact Htest|]. rewrite Hcnd. apply ex_block_nil. }
  unfold ltap_unit. rewrite Hty. destruct later.
  - exists st4. split.
    + apply (Hpre [_]). apply ex_block_one. eapply ex_expr_val.
      apply (Hthen None). apply settle_nil.
    + apply (Hlater eq_refl st4).
      * by eapply Here_same; [|exact HA3].
      * by rewrite Hf4.
      * done.
      * done.
      * simpl. by rewrite decide_True.
      * rewrite Hf4, Hflag3. by eexists.
  - set (st5 := log (EvFire (OnFulfilled c) [v]) st4).
    set (h := length (frames st3)).
    set (st6 := set_frames (frames st5 ++ [mkFrame (bind_params [id_result i] [v])
                                             (Some s)]) st5).
    assert (Hvars : bind_params [id_result i] [v] = {[id_result i := v]}).
    { by rewrite bind_params_one. }
    assert (HA6 : At st6 h L a).
    { apply (Here_push st5 s L a); [by eapply Here_same; [|exact HA3]|..];
        intros x Hx; rewrite Hvars; apply lookup_singleton_ne; intros <-; done. }
    set (st7 := set_frames (bind_in (frames st6) s (id_hasResult i) (VBool true)) st6).
    assert (HA7 : At st7 h L a) by (by apply Here_bind).
    assert (Hh : (frames st6) !! h = Some (mkFrame (bind_params [id_result i] [v])
                                                   (Some s))).
    { unfold st6. cbn [frames set_frames]. by apply list_lookup_middle. }
    destruct (Hnow eq_refl h st7) as (st' & Hconv & HQ).
    + done.
    + simpl. rewrite bind_in_length, length_app, !bind_in_length. lia.
    + done.
    + apply (extends_trans _ st4 _ [LTap i] []); [done|].
      unfold extends. simpl. by rewrite loop_view_silent, app_nil_r.
    + apply read_var_here. unfold st7. cbn [frames set_frames].
      rewrite bound_in_bind_ne by (intros [=]).
      unfold bound_in. rewrite Hh, Hvars. simpl. apply lookup_singleton_eq.
    + exists st'. split; [|done].
      apply (Hpre [_]). apply ex_block_one. eapply ex_expr_val.
      apply (Hthen None).
      eapply (settle_cons_val w _ _ _ true); [done| |apply settle_nil].
      apply (call_closure w st5 _ _ s [v] ONormal st').
      fold st6. change (length (frames st5)) with h.
      eapply ex_block_cons; [|exact Hconv].
      eapply ex_assign; [apply ev_bool|].
      eapply (write_var_parent _ h s); [exact Hh| |done| |].
      * rewrite Hvars. simpl. by apply lookup_singleton_ne.
      * unfold h. rewrite Hl3. lia.
      * unfold st6. cbn [frames set_frames]. rewrite bound_in_app by (unfold h in *; change (frames st5) with (frames st3); lia).
        exact Hflag3.
Qed.

(** ** The unit of a tap of any type *)

Lemma is_promise_type i tap :
  opt_taps options !! i = Some tap →
  is_promise (opt_taps options) i = bool_decide (tap_type tap = promise).
Proof. intros Htap. unfold is_promise. by rewrite Htap. Qed.

Lemma lunit_sem i tap s st L a (later : bool) v (Q : state → Prop) :
  opt_taps options !! i = Some tap →
  At st s L a → cplans !! clock st = Some (later, v) →
  (tap_type tap = sync → later = false) →
  (later = false → ∀ s' st1,
     At st1 s' L a → (length (frames st) ≤ length (frames st1))%nat →
     clock st1 = step_clock (opt_taps options) i (clock st) →
     extends st st1 [LTap i] →
     read_var (frames st1) s' (id_result i) = Some v →
     ∃ st', converges (λ n, exec_block w n s'
                              (loop_result options co i (EVar (id_result i))) st1)
                      (ONormal, st')
            ∧ Q st') →
  (later = true → ∀ st1,
     Inv (frames st1) → Active (frames st1) L false a →
     (length (frames st) ≤ length (frames st1))%nat →
     clock st1 = step_clock (opt_taps options) i (clock st) →
     extends st st1 [LTap i] →
     Pend options co st1 L i (clock st) →
     Q st1) →
  ∃ st', converges (λ n, exec_block w n s (KL options co i) st) (ONormal, st')
         ∧ Q st'.
Proof.
  intros Htap HA Hplan Hsync Hnow Hlater.
  rewrite (KL_code options co i tap Htap).
  destruct (lpreamble_sem i s st L a (ltap_unit options co i tap)
              (λ res, res.1 = ONormal ∧ Q res.2) HA) as ([o st'] & Hconv & Ho & HQ).
  2: { simpl in Ho. subst o. by exists st'. }
  intros st1 HA1 Hl1 Hc1 He1 Hfn1.
  assert (Hplan1 : cplans !! clock st1 = Some (later, v)) by (by rewrite Hc1).
  assert (Hstep : ∀ (Q' : state → Prop),
            (∃ st', converges (λ n, exec_block w n s (ltap_unit options co i tap) st1)
                              (ONormal, st') ∧ Q st') →
            ∃ res, converges (λ n, exec_block w n s (ltap_unit options co i tap) st1) res
                   ∧ res.1 = ONormal ∧ Q res.2).
  { intros _ (st' & Hconv & HQ). by exists (ONormal, st'). }
  apply (Hstep Q). unfold step_clock in *. rewrite (is_promise_type i tap Htap) in *.
  destruct (tap_type tap) eqn:Hty.
  - rewrite (Hsync eq_refl) in *.
    apply (lsync_sem i tap s st1 L a v Q Htap Hty HA1 Hplan1 Hfn1).
    intros st2 HA2 Hl2 Hc2 He2 Hr2.
    apply (Hnow eq_refl s st2); try done.
    + lia.
    + rewrite bool_decide_false by done. by rewrite Hc2, Hc1.
    + by apply (extends_trans st st1 st2 [] [LTap i]).
  - apply (lasync_sem i tap s st1 L a later v Q Htap Hty HA1 Hplan1 Hfn1).
    + intros -> s' st2 HA2 Hl2 Hc2 He2 Hr2.
      apply (Hnow eq_refl s' st2); try done.
      * lia.
      * rewrite bool_decide_false by done. by rewrite Hc2, Hc1.
      * by apply (extends_trans st st1 st2 [] [LTap i]).
    + intros -> st2 Hf2 Hc2 He2 Hreg2.
      destruct HA1 as (HI1 & Hh1 & HAct1).
      apply (Hlater eq_refl st2).
      * by rewrite Hf2.
      * by rewrite Hf2.
      * rewrite Hf2. lia.
      * rewrite bool_decide_false by done. by rewrite Hc2, Hc1.
      * by apply (extends_trans st st1 st2 [] [LTap i]).
      * exists s. unfold ptarget, pclosure. rewrite (is_promise_type i tap Htap), Hty.
        rewrite bool_decide_false by done. rewrite Hf2. by split_and!.
  - apply (lpromise_sem i tap s st1 L a later v Q Htap Hty HA1 Hplan1 Hfn1).
    + intros -> s' st2 HA2 Hl2 Hc2 He2 Hr2.
      apply (Hnow eq_refl s' st2); try done.
      * lia.
      * rewrite bool_decide_true by done. by rewrite Hc2, Hc1.
      * by apply (extends_trans st st1 st2 [] [LTap i]).
    + intros -> st2 HA2 Hl2 Hc2 He2 Hreg2 Hflag2.
      destruct HA2 as (HI2 & Hh2 & HAct2).
      apply (Hlater eq_refl st2); try done.
      * lia.
      * rewrite bool_decide_true by done. by rewrite Hc2, Hc1.
      * by apply (extends_trans st st1 st2 [] [LTap i]).
      * exists s. unfold ptarget, pclosure. rewrite (is_promise_type i tap Htap), Hty.
        rewrite bool_decide_true by done. rewrite <- Hc1. by split_and!.
Qed.

(** ** The inspection of the result *)

Lemma lresult_sem i s st L a v (Q : state → Prop) :
  At st s L a → read_var (frames st) s (id_result i) = Some v →
  (is_defined v = true →
     if negb (sync_only options) && a
     then ∃ st', converges (λ n, eval w n s (ECall (EVar id_looper) [])
                                   (set_frames (bind_in (frames st) L id_loop (VBool true))
                                      st))
                           (Val VUndefined, st')
                 ∧ Q st'
     else Q (set_frames (bind_in (frames st) L id_loop (VBool true)) st)) →
  (is_defined v = false →
     ∃ st', converges (λ n, exec_block w n s (ldone_code options co i) st) (ONormal, st')
            ∧ Q st') →
  ∃ st', converges (λ n, exec_block w n s
                           (loop_result options co i (EVar (id_result i))) st)
                   (ONormal, st')
         ∧ Q st'.
Proof.
  intros (HI & Hh & HAct) Hr Hdef Hundef.
  assert (Htest : converges (λ n, eval w n s (EStrictNe (EVar (id_result i)) EUndefined) st)
                    (Val (VBool (is_defined v)), st)).
  { eapply ev_strict_ne; [by apply ev_var|apply ev_undefined]. }
  unfold loop_result. destruct (is_defined v) eqn:Hv.
  - set (st1 := set_frames (bind_in (frames st) L id_loop (VBool true)) st) in *.
    pose proof HAct as (Hloop & Hasync & Hnext).
    assert (Hassign : converges (λ n, exec w n s (SAssign id_loop (EBool true)) st)
                        (ONormal, st1)).
    { eapply ex_assign; [apply ev_bool|]. by eapply home_write. }
    assert (HI1 : Inv (frames st1)).
    { apply Inv_bind_act; [done..|]. by eexists. }
    assert (Hh1 : home (frames st1) s L).
    { apply home_rebind; [by eexists|done]. }
    assert (HAct1 : Active (frames st1) L true a) by (by eapply Act_set_loop).
    specialize (Hdef eq_refl).
    destruct (sync_only options) eqn:Hso; simpl in Hdef.
    + exists st1. split; [|done]. apply ex_block_one.
      eapply ex_if; [exact Htest|]. simpl.
      eapply ex_block_cons; [exact Hassign|]. apply ex_block_nil.
    + destruct HAct1 as (_ & Hasync1 & _). specialize (Hasync1 Hso).
      assert (Hread : converges (λ n, eval w n s (EVar id_loopAsync) st1)
                        (Val (VBool a), st1)).
      { apply ev_var. by eapply home_read. }
      destruct a.
      * destruct Hdef as (st' & Hconv & HQ). exists st'. split; [|done].
        apply ex_block_one. eapply ex_if; [exact Htest|]. simpl.
        eapply ex_block_cons; [exact Hassign|]. apply ex_block_one.
        eapply ex_if; [exact Hread|]. simpl. apply ex_block_one.
        eapply ex_expr_val. exact Hconv.
      * exists st1. split; [|done]. apply ex_block_one.
        eapply ex_if; [exact Htest|]. simpl.
        eapply ex_block_cons; [exact Hassign|]. apply ex_block_one.
        eapply ex_if; [exact Hread|]. simpl. apply ex_block_nil.
  - destruct (Hundef eq_refl) as (st' & Hconv & HQ). exists st'. split; [|done].
    apply ex_block_one. eapply ex_if; [exact Htest|]. simpl. exact Hconv.
Qed.

(** ** What follows a tap that completed without a result *)

Lemma ldone_sem i s st L a (Q : state → Prop) :
  (i < N)%nat → At st s L a →
  (∀ s' st1,
     At st1 s' L a → (length (frames st) ≤ length (frames st1))%nat →
     clock st1 = clock st → trace st1 = trace st →
     ∃ st', converges (λ n, exec_block w n s' (KL options co (S i)) st1) (ONormal, st')
            ∧ Q st') →
  ∃ st', converges (λ n, exec_block w n s (ldone_code options co i) st) (ONormal, st')
         ∧ Q st'.
Proof.
  intros Hi HA Hcont. unfold ldone_code. destruct (lunrolls options co i) eqn:Hu.
  - pose proof HA as (HI & Hh & HAct). pose proof HAct as (Hloop & _ & Hnext).
    destruct (home_lt _ _ _ Hh) as [HL _].
    set (st1 := set_frames (frames st ++ [mkFrame (bind_params [] []) (Some L)]) st).
    assert (HA1 : At st1 (length (frames st)) L a).
    { apply (Here_push st L L a); [|done..].
      split; [done|split; [|done]]. eapply home_self; [lia|done]. }
    destruct (Hcont (length (frames st)) st1) as (st' & Hconv & HQ); [done| |done..|].
    { simpl. rewrite length_app. lia. }
    exists st'. split; [|done]. apply ex_block_one. eapply ex_expr_val.
    eapply ev_call.
    + apply ev_var. eapply home_read; [done..|]. by apply Hnext.
    + apply ev_list_nil.
    + by apply (call_closure w st [] _ L [] ONormal st').
  - by apply (Hcont s st).
Qed.

(** ** After the last tap *)

Lemma lend_sem s st L a :
  At st s L a →
  ∃ st', converges (λ n, exec_block w n s (KL options co N) st) (ONormal, st')
         ∧ frames st' = frames st ∧ clock st' = clock st
         ∧ extends st st' [LCallback []].
Proof.
  intros HA. pose proof (Here_scope _ _ _ _ HA) as Hs.
  destruct HA as (HI & Hh & HAct). pose proof HI as [Hwf Htop _ _].
  pose proof HAct as (Hloop & _).
  set (evs := interceptor_events options int_done "done" (λ _, [])).
  exists (log (EvCallback []) (log_all evs st)). split_and!; try done.
  - rewrite KL_last. apply ex_block_one. eapply ex_if.
    { eapply ev_not, ev_var. by eapply home_read. }
    simpl. rewrite co_done.
    apply (for_interceptors_frag_for options co w vals top_ident int_done "done"
             (λ _, []) (λ _, [])); try done.
    + by exists N.
    + intros _ st' Hst'. apply ev_list_nil.
    + apply ex_block_one. eapply ex_expr_val. eapply ev_call.
      * apply ev_var. destruct Htop as (Hcb & _). by eapply Inv_read_top.
      * apply ev_list_nil.
      * apply call_callback.
  - apply (extends_trans st (log_all evs st) _ [] [LCallback []]);
      [by apply (extends_interceptors options)|apply extends_callback].
Qed.

End LoopUnit.

(** * The passes of the loop *)

Section LoopPlans.

Variable options : FactoryOptions.
Variable cplans : list (bool * value).
Variable marks : list lobs.

#[local] Abbreviation taps := (opt_taps options).

Implicit Types (ps rest : list (bool * value)) (i c : nat).

Lemma drop_cons_inv {A} (l : list A) c x r :
  drop c l = x :: r → l !! c = Some x ∧ drop (S c) l = r.
Proof.
  revert l. induction c as [|c IH]; intros [|y l]; simpl; try done.
  - by intros [= -> ->].
  - apply IH.
Qed.

Lemma spread_head i c (later : bool) v rest :
  drop c cplans = spread taps i ((later, v) :: rest) →
  cplans !! c = Some (later, v)
  ∧ drop (step_clock taps i c) cplans = spread taps (next_tap i v) rest.
Proof.
  simpl. intros Hd. apply drop_cons_inv in Hd as [Hc Hd]. split; [done|].
  unfold step_clock. destruct (is_promise taps i); simpl in Hd; [|done].
  by apply drop_cons_inv in Hd as [_ Hd].
Qed.

Lemma pass_again ps :
  ∀ i c cs c' rest,
    walk_ok taps i ps → drop c cplans = spread taps i ps →
    pass_run taps i c ps = (cs, LAgain c' rest) →
    walk_ok taps 0 rest ∧ drop c' cplans = spread taps 0 rest
    ∧ (length rest < length ps)%nat
    ∧ seg taps marks i c ps
      = (cs ++ marks ++ (seg taps marks 0 c' rest).1, (seg taps marks 0 c' rest).2).
Proof.
  induction ps as [|[later v] ps IH]; intros i c cs c' rest Hwalk Hd Hpass; [done|].
  destruct Hwalk as [_ Hwalk]. apply spread_head in Hd as [_ Hd].
  cbn [pass_run seg] in *. destruct later; [done|].
  unfold next_tap in *. destruct (is_defined v).
  - simplify_eq. split_and!; [done|done|simpl; lia|done].
  - destruct (pass_run taps (S i) (step_clock taps i c) ps) as [cs0 e0] eqn:Hp.
    simpl in Hpass. simplify_eq.
    destruct (IH (S i) _ _ c' rest Hwalk Hd Hp) as (H1 & H2 & H3 & H4).
    split_and!; [done|done|simpl; lia|]. by rewrite H4.
Qed.

Lemma pass_other ps :
  ∀ i c cs e,
    pass_run taps i c ps = (cs, e) → (∀ c' rest, e ≠ LAgain c' rest) →
    seg taps marks i c ps = (cs, e).
Proof.
  induction ps as [|[later v] ps IH]; intros i c cs e Hpass He; [done|].
  cbn [pass_run seg] in *. destruct later; [done|].
  unfold next_tap in *. destruct (is_defined v).
  - simplify_eq. by destruct (He (step_clock taps i c) ps).
  - destruct (pass_run taps (S i) (step_clock taps i c) ps) as [cs0 e0] eqn:Hp.
    simpl in Hpass. simplify_eq. by rewrite (IH (S i) _ _ _ Hp He).
Qed.

Lemma seg_not_again ps : ∀ i c c' rest, (seg taps marks i c ps).2 ≠ LAgain c' rest.
Proof.
  induction ps as [|[later v] ps IH]; intros i c c' rest; [done|].
  cbn [seg]. destruct later; [done|]. apply IH.
Qed.

Lemma seg_pending ps :
  ∀ i c cs i' c0 v c' rest,
    walk_ok taps i ps → drop c cplans = spread taps i ps →
    seg taps marks i c ps = (cs, LPending i' c0 v c' rest) →
    walk_ok taps (next_tap i' v) rest
    ∧ drop c' cplans = spread taps (next_tap i' v) rest
    ∧ (length rest < length ps)%nat
    ∧ (i' < length taps)%nat
    ∧ (∀ returned : bool,
         loop_walk marks returned i ps
         = cs ++ (if returned then [] else [LReturn])
           ++ (if is_defined v then marks else [])
           ++ loop_walk marks true (next_tap i' v) rest)
    ∧ loop_signals taps i c ps
      = (ptarget options i' c0, payload options i' v)
        :: loop_signals taps (next_tap i' v) c' rest.
Proof.
  induction ps as [|[later v0] ps IH]; intros i c cs i' c0 v c' rest Hwalk Hd Hseg;
    [done|].
  destruct Hwalk as [(tap & Htap & _) Hwalk]. apply spread_head in Hd as [_ Hd].
  cbn [seg loop_walk loop_signals] in *. destruct later.
  - simplify_eq. split_and!; [done|done|simpl; lia|by eapply lookup_lt_Some| |].
    + intros returned. rewrite orb_true_r. by destruct returned.
    + unfold ptarget, payload, step_clock. by destruct (is_promise taps i').
  - destruct (seg taps marks (next_tap i v0) (step_clock taps i c) ps) as [cs0 e0] eqn:Hs.
    simpl in Hseg. simplify_eq.
    destruct (IH _ _ _ i' c0 v c' rest Hwalk Hd Hs) as (H1 & H2 & H3 & H4 & H5 & H6).
    split_and!; [done|done|simpl; lia|done| |].
    + intros returned. rewrite orb_false_r, H5. simpl. by rewrite <- !app_assoc.
    + simpl. exact H6.
Qed.

Lemma seg_done ps :
  ∀ i c cs,
    seg taps marks i c ps = (cs, LDone) →
    (∀ returned : bool,
       loop_walk marks returned i ps = cs ++ (if returned then [] else [LReturn]))
    ∧ loop_signals taps i c ps = [].
Proof.
  induction ps as [|[later v0] ps IH]; intros i c cs Hseg.
  { simpl in Hseg. by simplify_eq. }
  cbn [seg loop_walk loop_signals] in *. destruct later; [done|].
  destruct (seg taps marks (next_tap i v0) (step_clock taps i c) ps) as [cs0 e0] eqn:Hs.
  simpl in Hseg. simplify_eq.
  destruct (IH _ _ _ Hs) as [H1 H2]. split; [|done].
  intros returned. rewrite orb_false_r, H1. simpl. by rewrite <- !app_assoc.
Qed.

(** A call that completes later is one of a tap that is not sync. *)
Lemma seg_pending_async ps :
  ∀ i c cs i' c0 v c' rest,
    walk_ok taps i ps → seg taps marks i c ps = (cs, LPending i' c0 v c' rest) →
    sync_only options = false.
Proof.
  induction ps as [|[later v0] ps IH]; intros i c cs i' c0 v c' rest Hwalk Hseg; [done|].
  destruct Hwalk as [(tap & Htap & Hsync) Hwalk]. cbn [seg] in Hseg. destruct later.
  - unfold sync_only. destruct (forallb _ _) eqn:E; [|done].
    rewrite forallb_forall in E. specialize (E tap).
    rewrite bool_decide_eq_true in E.
    assert (tap_type tap = sync) as Hty.
    { apply E. apply list_elem_of_In. by eapply list_elem_of_lookup_2. }
    by specialize (Hsync Hty).
  - destruct (seg taps marks (next_tap i v0) (step_clock taps i c) ps) as [cs0 e0] eqn:Hs.
    simpl in Hseg. simplify_eq. by eapply IH.
Qed.

End LoopPlans.

Section LoopRun.

Variable options : FactoryOptions.
Variable co : ContentOptions.
Variable vals : list value.
Variable cplans : list (bool * value).

Hypothesis args_plain : Forall (λ v, is_closure v = false) (arg_values options vals).
Hypothesis co_done :
  co_onDone co ()
  = for_interceptors options int_done
      (λ k _, [SExpr (ECall (EMember (getInterceptor k) "done") [])])
    ++ [SExpr (ECall (EVar id_callback) [])].

#[local] Abbreviation taps := (opt_taps options).
#[local] Abbreviation w := (loop_world (opt_taps options) cplans).
#[local] Abbreviation Inv := (LInv options co vals).
#[local] Abbreviation Active := (Act options co).
#[local] Abbreviation At := (Here options co vals).
#[local] Abbreviation N := (length (opt_taps options)).
#[local] Abbreviation In := (PostIn options co vals).
#[local] Abbreviation After := (PostAfter options co vals).
#[local] Abbreviation marks := (pass_start options vals).

Implicit Types (st : state) (s L : nat) (ps : list (bool * value)).

Lemma PostIn_step st st1 L cs r st' :
  extends st st1 cs → (length (frames st) ≤ length (frames st1))%nat →
  In st1 L r st' → In st L (cs ++ r.1, r.2) st'.
Proof.
  intros He Hl (HI & Hl' & He' & Hrest). split_and!; [done|lia| |done].
  by apply (extends_trans st st1 st').
Qed.

Lemma PostAfter_step st st1 cs r st' :
  extends st st1 cs → After st1 r st' → After st (cs ++ r.1, r.2) st'.
Proof.
  intros He (He' & Hrest). split; [|done]. by apply (extends_trans st st1 st').
Qed.

(** The taps from [i] on in the loop of an activation. *)
Lemma K_in ps :
  ∀ i c s st L,
    At st s L false → walk_ok taps i ps →
    clock st = c → drop c cplans = spread taps i ps →
    ∃ st', converges (λ n, exec_block w n s (KL options co i) st) (ONormal, st')
           ∧ In st L (pass_run taps i c ps) st'.
Proof.
  induction ps as [|[later v] ps IH]; intros i c s st L HA Hwalk Hc Hd.
  - simpl in Hwalk. subst i.
    destruct (lend_sem options co vals cplans co_done s st L false HA)
      as (st' & Hconv & Hf & Hc' & He).
    exists st'. split; [done|]. destruct HA as (HI & Hh & HAct).
    unfold PostIn. rewrite Hf. by split_and!.
  - destruct Hwalk as [(tap & Htap & Hsync) Hwalk].
    destruct (spread_head options cplans i c later v ps Hd) as [Hplan Hd'].
    assert (Hi : (i < N)%nat) by (by eapply lookup_lt_Some).
    subst c.
    apply (lunit_sem options co vals cplans args_plain i tap s st L false later v
             (In st L (pass_run taps i (clock st) ((later, v) :: ps))) Htap HA Hplan Hsync).
    + intros -> s' st1 HA1 Hl1 Hc1 He1 Hr1. cbn [pass_run].
      apply (lresult_sem options co vals cplans i s' st1 L false v _ HA1 Hr1).
      * intros Hdef. rewrite andb_false_r, Hdef.
        destruct HA1 as (HI1 & Hh1 & HAct1). pose proof HAct1 as (Hloop1 & _).
        unfold PostIn. simpl. split_and!.
        -- apply Inv_bind_act; [done..|]. by eexists.
        -- rewrite bind_in_length. lia.
        -- by eapply extends_same_trace.
        -- by eapply Act_set_loop.
        -- done.
      * intros Hdef. rewrite Hdef.
        apply (ldone_sem options co vals cplans i s' st1 L false _ Hi HA1).
        intros s2 st2 HA2 Hl2 Hc2 Ht2.
        unfold next_tap in Hwalk, Hd'. rewrite Hdef in Hwalk, Hd'.
        destruct (IH (S i) (step_clock taps i (clock st)) s2 st2 L HA2 Hwalk)
          as (st' & Hconv & HP); [by rewrite Hc2|done|].
        exists st'. split; [done|].
        apply (PostIn_step st st2 L [LTap i] _ st'); [|lia|done].
        by eapply extends_same_trace.
    + intros -> st1 HI1 HAct1 Hl1 Hc1 He1 HPend. cbn [pass_run].
      unfold PostIn. simpl. by split_and!.
Qed.

(** ** One pass after the other *)

Lemma ex_do_while_again s st st1 st2 body c v r :
  converges (λ n, exec_block w n s body st) (ONormal, st1) →
  converges (λ n, eval w n s c st1) (Val v, st2) → truthy v = true →
  converges (λ n, exec w n s (SDoWhile body c) st2) r →
  converges (λ n, exec w n s (SDoWhile body c) st) r.
Proof.
  intros [n1 H1] [n2 H2] Hv [n3 H3]. exists (S (n1 + n2 + n3)).
  intros [|n] Hn; [lia|]. simpl. rewrite H1, H2, Hv by lia. apply H3. lia.
Qed.

(** The declarations of the named units, in the activation of the loop. *)
Lemma ldecl_sem d :
  ∀ i L st (b a : bool) rest (P : outcome * state → Prop),
    (N - i = d)%nat → (i ≤ N)%nat → Inv (frames st) →
    bound_in (frames st) L id_loop = Some (VBool b) →
    (sync_only options = false →
       bound_in (frames st) L id_loopAsync = Some (VBool a)) →
    (∀ st1,
       Inv (frames st1) → length (frames st1) = length (frames st) →
       clock st1 = clock st → trace st1 = trace st →
       bound_in (frames st1) L id_loop = Some (VBool b) →
       (sync_only options = false →
          bound_in (frames st1) L id_loopAsync = Some (VBool a)) →
       (∀ j, (i ≤ j < N)%nat → lunrolls options co j = true →
          bound_in (frames st1) L (id_next j)
          = Some (VClosure [] (KL options co (S j)) L)) →
       ∃ res, converges (λ n, exec_block w n L rest st1) res ∧ P res) →
    ∃ res, converges (λ n, exec_block w n L
                             (sl_code (lloop_at options co i) ++ rest) st) res
           ∧ P res.
Proof.
  induction d as [|d IH]; intros i L st b a rest P Hd Hi HI Hloop Hasync Hcont.
  - assert (i = N) as -> by lia. rewrite lloop_at_last by (unfold tap_count; lia).
    simpl. apply Hcont; try done. intros j Hj. lia.
  - rewrite lloop_code_step by (unfold tap_count; lia). rewrite <- app_assoc.
    apply (IH (S i) L st b a); [lia|lia|done..|].
    intros st1 HI1 Hl1 Hc1 Ht1 Hloop1 Hasync1 Hnext1.
    destruct (lunrolls options co i) eqn:Hu; simpl.
    + set (cl := VClosure [] (KL options co (S i)) L).
      set (st2 := set_frames (bind_in (frames st1) L (id_next i) cl) st1).
      destruct (Hcont st2) as (res & Hconv & HP).
      * apply Inv_bind_act; [done..|]. by eexists.
      * simpl. by rewrite bind_in_length.
      * done.
      * done.
      * simpl. by rewrite bound_in_bind_ne by (intros [=]).
      * intros Hso. simpl. rewrite bound_in_bind_ne by (intros [=]). by apply Hasync1.
      * intros j Hj Huj. simpl. destruct (decide (j = i)) as [->|Hne].
        -- apply bound_in_bind_eq. by eapply bound_in_lt.
        -- rewrite bound_in_bind_ne by (intros ?; simplify_eq). apply Hnext1; [lia|done].
      * exists res. split; [|done].
        eapply ex_block_cons; [apply ex_function|]. exact Hconv.
    + apply Hcont; try done. intros j Hj Huj.
      destruct (decide (j = i)) as [->|Hne]; [congruence|]. apply Hnext1; [lia|done].
Qed.

(** The loop of an activation: passes until a pass ends without a tap
    that asked for another. *)
Lemma pass_sem k :
  ∀ ps c st L v0,
    length ps = k → Inv (frames st) → (1 ≤ L)%nat →
    bound_in (frames st) L id_loop = Some v0 →
    (sync_only options = false →
       bound_in (frames st) L id_loopAsync = Some (VBool false)) →
    walk_ok taps 0 ps → clock st = c → drop c cplans = spread taps 0 ps →
    ∃ st', converges (λ n, exec w n L (SDoWhile (loop_body options co) (EVar id_loop)) st)
                     (ONormal, st')
           ∧ In st L (marks ++ (seg taps marks 0 c ps).1, (seg taps marks 0 c ps).2) st'.
Proof.
  induction k as [k IH] using lt_wf_ind.
  intros ps c st L v0 Hk HI HL Hloop Hasync Hwalk Hc Hd.
  pose proof (bound_in_lt _ _ _ _ Hloop) as HLlt.
  set (st1 := set_frames (bind_in (frames st) L id_loop (VBool false)) st).
  assert (HI1 : Inv (frames st1)).
  { apply Inv_bind_act; [done..|]. by eexists. }
  assert (Hloop1 : bound_in (frames st1) L id_loop = Some (VBool false)).
  { by apply bound_in_bind_eq. }
  assert (Hasync1 : sync_only options = false →
            bound_in (frames st1) L id_loopAsync = Some (VBool false)).
  { intros Hso. simpl. rewrite bound_in_bind_ne by (intros [=]). by apply Hasync. }
  set (evs := interceptor_events options int_loop "loop"
                (λ ic, with_context options (int_context ic) (arg_values options vals))).
  set (st2 := log_all evs st1).
  assert (Hbody : ∃ st3,
            converges (λ n, exec_block w n L (loop_body options co) st) (ONormal, st3)
            ∧ In st2 L (pass_run taps 0 c ps) st3).
  { pose proof HI1 as [Hwf1 Htop1 _ _].
    assert (Hrest : ∃ res,
              converges (λ n, exec_block w n L
                                (sl_code (lloop_at options co 0) ++ KL options co 0) st2) res
              ∧ ∃ st3, res = (ONormal, st3) ∧ In st2 L (pass_run taps 0 c ps) st3).
    { apply (ldecl_sem N 0%nat L st2 false false); [lia|lia|done..|].
      intros st3 HI3 Hl3 Hc3 Ht3 Hloop3 Hasync3 Hnext3.
      destruct (K_in ps 0%nat c L st3 L) as (st4 & Hconv & HP); [| done |by rewrite Hc3|done|].
      { split; [done|split].
        - eapply home_self; [done|exact Hloop3].
        - split_and!; [done..|]. intros j Hj. apply Hnext3. lia. }
      exists (ONormal, st4). split; [done|]. exists st4. split; [done|].
      destruct HP as (HI4 & Hl4 & He4 & Hrest). split_and!; [done|lia| |done].
      by eapply extends_from. }
    destruct Hrest as (res & Hconv & st3 & -> & HP). exists st3. split; [|done].
    unfold loop_body.
    eapply ex_block_cons.
    { eapply ex_assign; [apply ev_bool|].
      eapply home_write; [done| |done|exact Hloop]. by eapply home_self. }
    fold st1.
    apply (for_interceptors_frag_for options co w vals top_ident int_loop "loop"
             (λ ic, args options (context_arg (int_context ic)) None)
             (λ ic, with_context options (int_context ic) (arg_values options vals)));
      try done.
    - by exists N.
    - simpl. rewrite bind_in_length. lia.
    - intros ic st' Hst'. rewrite args_shape.
      rewrite <- (app_nil_r (with_context _ _ _)).
      apply (args_eval_for options co w vals top_ident); rewrite ?Hst'; try done.
      + by exists N.
      + simpl. rewrite bind_in_length. lia.
      + apply ev_list_nil. }
  destruct Hbody as (st3 & Hconv & HP).
  assert (He2 : extends st st2 marks).
  { apply (extends_from st st1 st2); [done|]. apply extends_pass. }
  assert (Hl2 : (length (frames st) ≤ length (frames st2))%nat).
  { simpl. by rewrite bind_in_length. }
  destruct (pass_run taps 0 c ps) as [cs e] eqn:Hpass.
  pose proof HP as (HI3 & Hl3 & He3 & Hrest). simpl in Hrest.
  destruct e as [c' rest| |i c0 v c' rest].
  - destruct Hrest as (HAct3 & Hc3). pose proof HAct3 as (Hloop3 & Hasync3 & _).
    destruct (pass_again options cplans marks ps 0%nat c cs c' rest Hwalk Hd Hpass)
      as (Hwalk' & Hd' & Hlen & Hseg).
    destruct (IH (length rest) ltac:(lia) rest c' st3 L (VBool true))
      as (st' & Hconv' & HP'); try done.
    exists st'. split.
    + eapply (ex_do_while_again _ _ _ _ _ _ (VBool true)); [exact Hconv| |done|exact Hconv'].
      apply ev_var. eapply home_read; [done| |done|exact Hloop3]. by eapply home_self.
    + rewrite Hseg. cbn [fst snd]. rewrite app_assoc.
      apply (PostIn_step st st3 L (marks ++ cs) (_, _) st'); [|lia|done].
      by apply (extends_trans st st2 st3).
  - pose proof Hrest as (Hloop3 & _).
    exists st3. split.
    + eapply (ex_do_while_last _ _ _ _ _ _ _ (VBool false)); [exact Hconv| |done].
      apply ev_var. eapply home_read; [done| |done|exact Hloop3]. by eapply home_self.
    + rewrite (pass_other options marks ps 0%nat c cs LDone Hpass) by done.
      by apply (PostIn_step st st2 L marks (cs, LDone) st3).
  - pose proof Hrest as ((Hloop3 & _) & _).
    exists st3. split.
    + eapply (ex_do_while_last _ _ _ _ _ _ _ (VBool false)); [exact Hconv| |done].
      apply ev_var. eapply home_read; [done| |done|exact Hloop3]. by eapply home_self.
    + rewrite (pass_other options marks ps 0%nat c cs _ Hpass) by done.
      by apply (PostIn_step st st2 L marks (cs, LPending i c0 v c' rest) st3).
Qed.

End LoopRun.

(** * The looping dispatcher after its loop has ended *)

Section LoopAfter.

Variable options : FactoryOptions.
Variable co : ContentOptions.
Variable vals : list value.
Variable cplans : list (bool * value).

Hypothesis args_plain : Forall (λ v, is_closure v = false) (arg_values options vals).
Hypothesis co_done :
  co_onDone co ()
  = for_interceptors options int_done
      (λ k _, [SExpr (ECall (EMember (getInterceptor k) "done") [])])
    ++ [SExpr (ECall (EVar id_callback) [])].
Hypothesis some_async : sync_only options = false.

#[local] Abbreviation taps := (opt_taps options).
#[local] Abbreviation w := (loop_world (opt_taps options) cplans).
#[local] Abbreviation Inv := (LInv options co vals).
#[local] Abbreviation Active := (Act options co).
#[local] Abbreviation At := (Here options co vals).
#[local] Abbreviation N := (length (opt_taps options)).
#[local] Abbreviation In := (PostIn options co vals).
#[local] Abbreviation After := (PostAfter options co vals).
#[local] Abbreviation Pending := (Pend options co).
#[local] Abbreviation marks := (pass_start options vals).

Implicit Types (st : state) (s L : nat) (ps : list (bool * value)).

Lemma Pend_set_async st L i c L' v :
  Pending st L i c →
  Pending (set_frames (bind_in (frames st) L' id_loopAsync v) st) L i c.
Proof.
  intros (s & Hreg & Hh & Hflag). exists s. split_and!; simpl.
  - done.
  - by apply home_bind.
  - intros Hp. rewrite bound_in_bind_ne by (intros [=]). by apply Hflag.
Qed.

Lemma After_from st0 st r st' :
  extends st0 st [] → After st r st' → After st0 r st'.
Proof.
  intros He HP. pose proof (PostAfter_step options co vals st0 st [] r st' He HP) as H.
  by destruct r.
Qed.

(** A call of [_looper]: a new activation, whose loop runs until a pass
    ends without a tap that asked for another. *)
Lemma looper_sem ps c s st :
  Inv (frames st) → (1 ≤ s < length (frames st))%nat →
  walk_ok taps 0 ps → clock st = c → drop c cplans = spread taps 0 ps →
  ∃ st', converges (λ n, eval w n s (ECall (EVar id_looper) []) st) (Val VUndefined, st')
         ∧ After st (marks ++ (seg taps marks 0 c ps).1, (seg taps marks 0 c ps).2) st'.
Proof.
  intros HI Hs Hwalk Hc Hd.
  pose proof (Inv_length _ _ _ _ HI) as Hlen.
  set (L := length (frames st)).
  set (fs1 := frames st ++ [mkFrame ∅ (Some 1%nat)]).
  set (st1 := set_frames (bind_in fs1 L id_loopAsync (VBool false)) st).
  set (st2 := set_frames (bind_in (frames st1) L id_loop VUndefined) st1).
  assert (HL1 : (L < length fs1)%nat).
  { unfold fs1. rewrite length_app. simpl. lia. }
  assert (HI2 : Inv (frames st2)).
  { apply (Inv_activation options co vals (frames st) 1); [done|lia]. }
  assert (Hloop2 : bound_in (frames st2) L id_loop = Some VUndefined).
  { apply bound_in_bind_eq. simpl. by rewrite bind_in_length. }
  assert (Hasync2 : bound_in (frames st2) L id_loopAsync = Some (VBool false)).
  { simpl. rewrite bound_in_bind_ne by (intros [=]). by apply bound_in_bind_eq. }
  destruct (pass_sem options co vals cplans args_plain co_done (length ps) ps c st2 L
              VUndefined eq_refl HI2) as (st3 & Hconv & HP); [lia|done|done|done..|].
  set (st4 := set_frames (bind_in (frames st3) L id_loopAsync (VBool true)) st3).
  assert (Hcall : Active (frames st3) L false false →
            converges (λ n, eval w n s (ECall (EVar id_looper) []) st) (Val VUndefined, st4)).
  { intros (Hloop3 & Hasync3 & _). specialize (Hasync3 some_async).
    destruct HP as (HI3 & _).
    eapply ev_call.
    - apply ev_var. eapply Inv_read_top; [done|done| |done].
      by apply (li_looper _ _ _ _ HI).
    - apply ev_list_nil.
    - apply (call_closure w st [] _ 1 [] ONormal st4).
      unfold looper_body, loop_stmts. simpl app.
      eapply ex_block_cons; [apply ex_var_init, ev_bool|].
      eapply ex_block_cons.
      { apply ex_var_fresh. cbn [frames set_frames]. fold fs1.
        change (bound_in (bind_in fs1 L id_loopAsync (VBool false)) L id_loop = None).
        rewrite bound_in_bind_ne by (intros [=]).
        unfold fs1, L. by rewrite bound_in_new_frame. }
      eapply ex_block_cons; [exact Hconv|].
      apply ex_block_one. eapply ex_assign; [apply ev_bool|].
      eapply home_write; [done| |done|exact Hasync3].
      eapply home_self; [|exact Hloop3]. unfold L. lia. }
  assert (He2 : extends st st2 []) by (by apply extends_same).
  destruct HP as (HI3 & Hl3 & He3 & Hrest).
  assert (He4 : extends st st4 (marks ++ (seg taps marks 0 c ps).1)).
  { apply (extends_same_trace st st3 st4); [|done].
    by apply (extends_from st st2 st3). }
  pose proof (seg_not_again options marks ps 0%nat c) as Hnot.
  cbn [fst snd] in Hrest |- *. unfold PostAfter. cbn [fst snd].
  destruct (seg taps marks 0 c ps).2 as [c' rest| |i c0 v c' rest].
  - by destruct (Hnot c' rest).
  - exists st4. split; [by apply Hcall|]. by split.
  - destruct Hrest as (HAct3 & Hc3 & HPend). exists st4. split; [by apply Hcall|].
    split_and!; [done| |done|].
    + apply Inv_bind_act; [done..|]. destruct HAct3 as (Hloop3 & _). by eexists.
    + exists L. split; [by apply Pend_set_async|]. by eapply Act_set_async.
Qed.

(** The taps from [i] on, after the loop of the activation has ended. *)
Lemma K_after ps :
  ∀ i c s st L,
    At st s L true → walk_ok taps i ps →
    clock st = c → drop c cplans = spread taps i ps →
    ∃ st', converges (λ n, exec_block w n s (KL options co i) st) (ONormal, st')
           ∧ After st (seg taps marks i c ps) st'.
Proof.
  induction ps as [|[later v] ps IH]; intros i c s st L HA Hwalk Hc Hd.
  - simpl in Hwalk. subst i.
    destruct (lend_sem options co vals cplans co_done s st L true HA)
      as (st' & Hconv & Hf & Hc' & He).
    exists st'. split; [done|]. by split.
  - destruct Hwalk as [(tap & Htap & Hsync) Hwalk].
    destruct (spread_head options cplans i c later v ps Hd) as [Hplan Hd'].
    assert (Hi : (i < N)%nat) by (by eapply lookup_lt_Some).
    subst c.
    apply (lunit_sem options co vals cplans args_plain i tap s st L true later v
             (After st (seg taps marks i (clock st) ((later, v) :: ps))) Htap HA Hplan Hsync).
    + intros -> s' st1 HA1 Hl1 Hc1 He1 Hr1. cbn [seg].
      apply (lresult_sem options co vals cplans i s' st1 L true v _ HA1 Hr1).
      * intros Hdef. rewrite some_async. simpl.
        unfold next_tap in Hwalk, Hd' |- *. rewrite Hdef in Hwalk, Hd' |- *.
        pose proof (Here_scope _ _ _ _ _ _ _ HA1) as Hs1.
        destruct HA1 as (HI1 & Hh1 & HAct1). pose proof HAct1 as (Hloop1 & _).
        set (st2 := set_frames (bind_in (frames st1) L id_loop (VBool true)) st1).
        destruct (looper_sem ps (step_clock taps i (clock st)) s' st2)
          as (st' & Hconv & HP); [| |done|done|done|].
        { apply Inv_bind_act; [done..|]. by eexists. }
        { simpl. by rewrite bind_in_length. }
        exists st'. split; [done|].
        apply (PostAfter_step options co vals st st2 [LTap i] (_, _) st'); [|done].
        by eapply extends_same_trace.
      * intros Hdef.
        unfold next_tap in Hwalk, Hd' |- *. rewrite Hdef in Hwalk, Hd' |- *.
        apply (ldone_sem options co vals cplans i s' st1 L true _ Hi HA1).
        intros s2 st2 HA2 Hl2 Hc2 Ht2.
        destruct (IH (S i) (step_clock taps i (clock st)) s2 st2 L HA2 Hwalk)
          as (st' & Hconv & HP); [by rewrite Hc2|done|].
        exists st'. split; [done|].
        apply (PostAfter_step options co vals st st2 [LTap i] (_, _) st'); [|done].
        by eapply extends_same_trace.
    + intros -> st1 HI1 HAct1 Hl1 Hc1 He1 HPend. cbn [seg].
      unfold PostAfter. simpl. split_and!; [done..|]. exists L. by split.
Qed.

(** What follows the result of tap [i] when it arrives after the loop of
    the activation has ended. *)
Lemma result_after i v c rest s st L :
  (i < N)%nat → At st s L true →
  read_var (frames st) s (id_result i) = Some v →
  clock st = c → walk_ok taps (next_tap i v) rest →
  drop c cplans = spread taps (next_tap i v) rest →
  ∃ st', converges (λ n, exec_block w n s
                           (loop_result options co i (EVar (id_result i))) st)
                   (ONormal, st')
         ∧ After st ((if is_defined v then marks else [])
                     ++ (seg taps marks (next_tap i v) c rest).1,
                     (seg taps marks (next_tap i v) c rest).2) st'.
Proof.
  intros Hi HA Hr Hc Hwalk Hd.
  apply (lresult_sem options co vals cplans i s st L true v _ HA Hr).
  - intros Hdef. rewrite some_async. simpl.
    unfold next_tap in Hwalk, Hd |- *. rewrite Hdef in Hwalk, Hd |- *.
    pose proof (Here_scope _ _ _ _ _ _ _ HA) as Hs.
    destruct HA as (HI & Hh & HAct). pose proof HAct as (Hloop & _).
    set (st2 := set_frames (bind_in (frames st) L id_loop (VBool true)) st).
    destruct (looper_sem rest c s st2) as (st' & Hconv & HP); [| |done|done|done|].
    { apply Inv_bind_act; [done..|]. by eexists. }
    { simpl. by rewrite bind_in_length. }
    exists st'. split; [done|].
    apply (After_from st st2); [by apply extends_same|done].
  - intros Hdef.
    unfold next_tap in Hwalk, Hd |- *. rewrite Hdef in Hwalk, Hd |- *.
    apply (ldone_sem options co vals cplans i s st L true _ Hi HA).
    intros s2 st2 HA2 Hl2 Hc2 Ht2.
    destruct (K_after rest (S i) c s2 st2 L HA2 Hwalk) as (st' & Hconv & HP);
      [by rewrite Hc2|done|].
    exists st'. split; [done|].
    apply (After_from st st2); [by apply extends_same|done].
Qed.

Lemma extends_fire st t actuals : extends st (log (EvFire t actuals) st) [].
Proof. by apply extends_silent. Qed.

(** The later call of the function that tap [i] was handed. *)
Lemma fire_sem i c0 v c rest st L :
  (i < N)%nat → Inv (frames st) → Pending st L i c0 →
  Active (frames st) L false true →
  clock st = c → walk_ok taps (next_tap i v) rest →
  drop c cplans = spread taps (next_tap i v) rest →
  ∃ f st',
    registered (registry st) (ptarget options i c0) = Some f
    ∧ converges (λ n, call w n f (payload options i v)
                        (log (EvFire (ptarget options i c0) (payload options i v)) st))
                (Val VUndefined, st')
    ∧ After st ((if is_defined v then marks else [])
                ++ (seg taps marks (next_tap i v) c rest).1,
                (seg taps marks (next_tap i v) c rest).2) st'.
Proof.
  intros Hi HI (s & Hreg & Hh & Hflag) HAct Hc Hwalk Hd.
  exists (pclosure options co i s).
  set (st0 := log (EvFire (ptarget options i c0) (payload options i v)) st).
  assert (HA0 : At st0 s L true) by (split; [done|split; done]).
  pose proof (extends_fire st (ptarget options i c0) (payload options i v)) as He0.
  fold st0 in He0.
  pose proof Hh as (Hs & _).
  set (h := length (frames st)).
  unfold pclosure, payload in *.
  destruct (is_promise taps i) eqn:Hp.
  - set (st6 := set_frames (frames st0 ++ [mkFrame (bind_params [id_result i] [v])
                                             (Some s)]) st0).
    assert (Hvars : bind_params [id_result i] [v] = {[id_result i := v]}).
    { by rewrite bind_params_one. }
    assert (HA6 : At st6 h L true).
    { apply (Here_push options co vals st0 s L true); [done|..];
        intros x Hx; rewrite Hvars; apply lookup_singleton_ne; intros <-; done. }
    set (st7 := set_frames (bind_in (frames st6) s (id_hasResult i) (VBool true)) st6).
    assert (HA7 : At st7 h L true) by (by apply Here_bind).
    assert (Hh6 : (frames st6) !! h = Some (mkFrame (bind_params [id_result i] [v])
                                                    (Some s))).
    { unfold st6. cbn [frames set_frames]. by apply list_lookup_middle. }
    destruct (result_after i v c rest h st7 L Hi HA7) as (st' & Hconv & HP);
      [|done|done|done|].
    { apply read_var_here. unfold st7. cbn [frames set_frames].
      rewrite bound_in_bind_ne by (intros [=]).
      unfold bound_in. rewrite Hh6, Hvars. simpl. apply lookup_singleton_eq. }
    exists st'. split_and!; [done| |].
    + apply (call_closure w st0 _ _ s [v] ONormal st').
      fold st6. change (length (frames st0)) with h.
      eapply ex_block_cons; [|exact Hconv].
      destruct (Hflag eq_refl) as [u Hu].
      eapply ex_assign; [apply ev_bool|].
      eapply (write_var_parent _ h s); [exact Hh6| |done| |].
      * rewrite Hvars. simpl. by apply lookup_singleton_ne.
      * unfold h. lia.
      * unfold st6. cbn [frames set_frames]. change (frames st0) with (frames st).
        rewrite bound_in_app by lia. exact Hu.
    + apply (After_from st st7); [|done].
      by apply (extends_same_trace st st0 st7).
  - set (st3 := set_frames (frames st0
                            ++ [mkFrame (bind_params [id_errN i; id_result i] [VNull; v])
                                        (Some s)]) st0).
    assert (Hvars : bind_params [id_errN i; id_result i] [VNull; v]
                    = <[id_errN i := VNull]> {[id_result i := v]}).
    { simpl. by rewrite insert_empty. }
    assert (HA3 : At st3 h L true).
    { apply (Here_push options co vals st0 s L true); [done|..];
        intros x Hx; rewrite Hvars;
        rewrite lookup_insert_ne by (intros <-; done);
        apply lookup_singleton_ne; intros <-; done. }
    destruct (result_after i v c rest h st3 L Hi HA3) as (st' & Hconv & HP);
      [|done|done|done|].
    { apply read_var_here. unfold st3. cbn [frames set_frames].
      change (frames st0) with (frames st).
      rewrite bound_in_new_frame, Hvars.
      rewrite lookup_insert_ne by done. apply lookup_singleton_eq. }
    exists st'. split_and!; [done| |].
    + apply (call_closure w st0 _ _ s [VNull; v] ONormal st').
      apply ex_block_one. eapply ex_if.
      { apply ev_var. apply read_var_here. cbn [frames set_frames].
        rewrite bound_in_new_frame, Hvars. apply lookup_insert_eq. }
      simpl. exact Hconv.
    + apply (After_from st st3); [|done].
      by apply (extends_same_trace st st0 st3).
Qed.

(** The event loop: the later calls, one after the other. *)
Lemma ldrive_sem k :
  ∀ rest i v c0 c st L,
    length rest = k → (i < N)%nat → Inv (frames st) → Pending st L i c0 →
    Active (frames st) L false true →
    clock st = c → walk_ok taps (next_tap i v) rest →
    drop c cplans = spread taps (next_tap i v) rest →
    ∃ st', converges (λ n, drive w n
                             ((ptarget options i c0, payload options i v)
                              :: loop_signals taps (next_tap i v) c rest) st) st'
           ∧ extends st st' ((if is_defined v then marks else [])
                             ++ loop_walk marks true (next_tap i v) rest).
Proof.
  induction k as [k IH] using lt_wf_ind.
  intros rest i v c0 c st L Hk Hi HI HPend HAct Hc Hwalk Hd.
  destruct (fire_sem i c0 v c rest st L Hi HI HPend HAct Hc Hwalk Hd)
    as (f & st1 & Hreg & Hcall & HP).
  pose proof (seg_not_again options marks rest (next_tap i v) c) as Hnot.
  destruct (seg taps marks (next_tap i v) c rest) as [cs e] eqn:Hseg.
  destruct HP as (He1 & HP). cbn [fst snd] in He1, HP, Hnot.
  destruct e as [c' rest'| |i' c0' v' c' rest'].
  - done.
  - destruct (seg_done options marks rest _ _ _ Hseg) as [Hw Hsig].
    exists st1. rewrite Hsig, (Hw true), app_nil_r. split; [|done].
    eapply drive_val; [exact Hreg|exact Hcall|apply drive_nil].
  - destruct HP as (HI1 & Hc1 & L' & HPend1 & HAct1).
    destruct (seg_pending options cplans marks rest _ _ _ _ _ _ _ _ Hwalk Hd Hseg)
      as (Hwalk' & Hd' & Hlen & Hi' & Hw & Hsig).
    destruct (IH (length rest') ltac:(lia) rest' i' v' c0' c' st1 L')
      as (st' & Hdrive & He'); try done.
    exists st'. rewrite Hsig, (Hw true). split.
    + eapply drive_val; [exact Hreg|exact Hcall|exact Hdrive].
    + simpl. rewrite app_assoc. by apply (extends_trans st st1 st').
Qed.

End LoopAfter.

(** * The looping dispatcher from its call to the end of the event loop *)

Section LoopDispatch.

Variable options : FactoryOptions.
Variable co : ContentOptions.
Variable vals : list value.
Variable ps : list (bool * value).

Hypothesis co_done :
  co_onDone co ()
  = for_interceptors options int_done
      (λ k _, [SExpr (ECall (EMember (getInterceptor k) "done") [])])
    ++ [SExpr (ECall (EVar id_callback) [])].
Hypothesis vals_length : length vals = length (opt_args options).
Hypothesis vals_plain : Forall (λ v, is_closure v = false) vals.
Hypothesis ps_ok : walk_ok (opt_taps options) 0 ps.

#[local] Abbreviation taps := (opt_taps options).
#[local] Abbreviation N := (length (opt_taps options)).
#[local] Abbreviation cplans := (spread (opt_taps options) 0 ps).
#[local] Abbreviation w := (loop_world (opt_taps options) (spread (opt_taps options) 0 ps)).
#[local] Abbreviation marks := (pass_start options vals).
#[local] Abbreviation vars0 :=
  (bind_params (params options (Some id_callback)) (vals ++ [VCallback])).
#[local] Abbreviation call_events :=
  (interceptor_events options int_call "call"
     (λ ic, with_context options (int_context ic) (arg_values options vals))).
#[local] Abbreviation vars2 :=
  (let vars1 := <[id_x := VHookX]>
                  (<[id_context := context_value options]> vars0) in
   if bool_decide (0 < length (opt_interceptors options))%nat
   then <[id_interceptors := VHookInterceptors]>
          (<[id_taps := VHookTaps]> vars1)
   else vars1).

Lemma top_ok_bind_looper fs s v :
  top_ok_from options co vals N fs →
  top_ok_from options co vals N (bind_in fs s id_looper v).
Proof.
  intros (H1 & H2 & H3 & H4 & H5 & H6).
  unfold top_ok_from. rewrite !bound_in_bind_ne by (intros [=]). split_and!; try done.
  - eapply Forall2_impl; [exact H5|]. intros a val Ha.
    by rewrite bound_in_bind_ne by (intros [=]).
  - intros i Hj Hi. unfold tap_count in Hi. lia.
Qed.

(** The scopes when the activation of the dispatcher binds [vars]. *)
Lemma Inv_top vars tr :
  top_ok_from options co vals N (frames (top_state vars tr)) →
  (∀ x, act_ident x = true → x ≠ id_loop → vars !! x = None) →
  (sync_only options = false →
     vars !! id_looper = Some (VClosure [] (looper_body options co) 1)) →
  LInv options co vals (frames (top_state vars tr)).
Proof.
  intros Htop Hact Hlooper. split.
  - eapply wf_frames_weaken; [apply top_ident_stable|apply wf_top].
  - done.
  - done.
  - intros s x Hx [u Hu]. destruct (decide (x = id_loop)) as [->|Hne]; [by eexists|].
    unfold bound_in in Hu. destruct s as [|[|s]]; simpl in Hu.
    + rewrite lookup_singleton_ne in Hu; [done|]. intros <-. done.
    + by rewrite Hact in Hu.
    + done.
Qed.

Lemma vars2_act x : act_ident x = true → vars2 !! x = None.
Proof.
  intros Hx. apply (vars2_fresh options vals); try (intros ->; done).
  intros a ->. done.
Qed.

(** What [callTapsLooping] emitted, in the activation of the dispatcher. *)
Lemma loop_content_sem :
  ∃ st', converges (λ n, exec_block w n 1 (LoopHookCodeFactory_content options co)
                           (top_state vars2 call_events))
                   (ONormal, st')
         ∧ PostAfter options co vals (top_state vars2 call_events)
             ((if bool_decide (N = 0%nat) then [] else marks)
              ++ (seg taps marks 0 0 ps).1, (seg taps marks 0 0 ps).2) st'.
Proof.
  pose proof (header_top_ok options co vals vals_length vars2 call_events eq_refl) as Htop2.
  pose proof (args_plain options vals vals_plain) as Hplain.
  rewrite loop_content_code. unfold tap_count.
  destruct (decide (length (opt_taps options) = 0%nat)) as [HN|HN];
    [rewrite !(bool_decide_true (length (opt_taps options) = 0%nat)) by done
    |rewrite !(bool_decide_false (length (opt_taps options) = 0%nat)) by done].
  - assert (Hps : ps = []).
    { destruct ps as [|[later v] ps']; [done|].
      destruct ps_ok as [(tap & Htap & _) _]. apply lookup_lt_Some in Htap. lia. }
    assert (Hso : sync_only options = true).
    { unfold sync_only. by destruct (opt_taps options). }
    assert (HI : LInv options co vals (frames (top_state vars2 call_events))).
    { apply Inv_top; [done| |by rewrite Hso]. intros x Hx _. by apply vars2_act. }
    pose proof HI as [Hwf Htop _ _].
    set (evs := interceptor_events options int_done "done" (λ _, [])).
    exists (log (EvCallback []) (log_all evs (top_state vars2 call_events))). split.
    + rewrite co_done.
      apply (for_interceptors_frag_for options co w vals top_ident int_done "done"
               (λ _, []) (λ _, [])); try done.
      * by exists N.
      * simpl. lia.
      * intros _ st' Hst'. apply ev_list_nil.
      * apply ex_block_one. eapply ex_expr_val. eapply ev_call.
        -- apply ev_var. destruct Htop as (Hcb & _).
           eapply Inv_read_top; [done|done|exact Hcb|simpl; lia].
        -- apply ev_list_nil.
        -- apply call_callback.
    + rewrite Hps. unfold PostAfter. simpl. split; [|done].
      apply (extends_trans _ (log_all evs (top_state vars2 call_events)) _ [] [LCallback []]);
        [by apply (extends_interceptors options)|apply extends_callback].
  - destruct (sync_only options) eqn:Hso.
    + set (st1 := top_state (<[id_loop := VUndefined]> vars2) call_events).
      assert (HI1 : LInv options co vals (frames st1)).
      { apply Inv_top; [|intros x Hx Hne|by rewrite Hso].
        - by apply (top_ok_bind_other options co vals _ 1 id_loop VUndefined) in Htop2.
        - rewrite lookup_insert_ne by done. by apply vars2_act. }
      destruct (pass_sem options co vals cplans Hplain co_done (length ps) ps 0%nat st1
                  1%nat VUndefined eq_refl HI1)
        as (st' & Hconv & HP); [lia| |by rewrite Hso|done|done|done|].
      { unfold bound_in. simpl. by rewrite lookup_insert_eq. }
      exists st'. split.
      * unfold loop_stmts. eapply ex_block_cons.
        { apply ex_var_fresh. simpl. by apply vars2_act. }
        apply ex_block_one. exact Hconv.
      * destruct HP as (_ & _ & He & HP).
        pose proof (seg_not_again options marks ps 0%nat 0%nat) as Hnot.
        destruct (seg taps marks 0 0 ps) as [cs e] eqn:Hseg.
        unfold PostAfter. cbn [fst snd] in *. split.
        { by eapply extends_from; [|exact He]. }
        destruct e as [c' rest| |i c0 v c' rest]; [|done|].
        -- by destruct (Hnot c' rest).
        -- pose proof (seg_pending_async options marks ps _ _ _ _ _ _ _ _ ps_ok Hseg).
           congruence.
    + set (cl := VClosure [] (looper_body options co) 1).
      set (st1 := top_state (<[id_looper := cl]> vars2) call_events).
      assert (HI1 : LInv options co vals (frames st1)).
      { apply Inv_top; [|intros x Hx Hne|intros _].
        - by apply (top_ok_bind_looper _ 1 cl) in Htop2.
        - rewrite lookup_insert_ne by (intros <-; done). by apply vars2_act.
        - by rewrite lookup_insert_eq. }
      destruct (looper_sem options co vals cplans Hplain co_done Hso ps 0%nat 1%nat st1 HI1)
        as (st' & Hconv & HP); [simpl; lia|done|done|done|].
      exists st'. split.
      * eapply ex_block_cons; [apply top_var_init, ev_function|].
        apply ex_block_one. eapply ex_expr_val. exact Hconv.
      * apply (After_from options co vals (top_state vars2 call_events) st1);
          [by apply extends_same|done].
Qed.

(** The call of the dispatcher and the event loop after it. *)
Lemma loop_run_sem (f : JsFunction) :
  fn_params f = params options (Some id_callback) →
  fn_body f
  = header options
    ++ for_interceptors options int_call (λ k ic,
         [SExpr (ECall (EMember (getInterceptor k) "call")
                   (args options (context_arg (int_context ic)) None))])
    ++ LoopHookCodeFactory_content options co →
  ∃ tr, converges (λ n, dispatch w n f (vals ++ [VCallback]) (loop_signals taps 0 0 ps)) tr
        ∧ loop_view tr
          = (if bool_decide (N = 0%nat) then [] else marks)
            ++ loop_walk marks false 0 ps.
Proof.
  intros Hparams Hbody. destruct loop_content_sem as (st' & Hconv & HP).
  pose proof (args_plain options vals vals_plain) as Hplain.
  assert (Hcall : converges (λ n, call w n (VClosure (fn_params f) (fn_body f) 0)
                                    (vals ++ [VCallback]) initial_state)
                    (Val VUndefined, st')).
  { rewrite Hparams, Hbody. apply (call_closure w _ _ _ _ _ ONormal).
    apply header_sem; [by apply vars0_fresh|].
    apply (for_interceptors_frag options co w vals int_call "call"
             (λ ic, args options (context_arg (int_context ic)) None)
             (λ ic, with_context options (int_context ic) (arg_values options vals))).
    - apply wf_top.
    - exists N. by apply (header_top_ok options co vals vals_length).
    - simpl. lia.
    - intros ic st1 Hst1. rewrite args_shape.
      rewrite <- (app_nil_r (with_context _ _ _)).
      apply (args_eval options co w vals); rewrite ?Hst1.
      + apply wf_top.
      + exists N. by apply (header_top_ok options co vals vals_length).
      + simpl. lia.
      + apply ev_list_nil.
    - rewrite log_top. simpl app. exact Hconv. }
  assert (Hstart : ∀ st os,
            extends (top_state vars2 call_events) st os → loop_view (trace st) = os).
  { intros st os H. rewrite H. simpl.
    by rewrite (loop_view_interceptors options). }
  set (start := if bool_decide (N = 0%nat) then [] else marks) in *.
  pose proof (seg_not_again options marks ps 0%nat 0%nat) as Hnot.
  destruct (seg taps marks 0 0 ps) as [cs e] eqn:Hseg.
  destruct HP as (He & HP). cbn [fst snd] in He, HP, Hnot.
  destruct e as [c' rest| |i c0 v c' rest].
  - done.
  - destruct (seg_done options marks ps _ _ _ Hseg) as [Hw Hsig].
    exists (trace (log (EvReturn VUndefined) st')). split.
    + eapply (run_val options w vals vals_length); [exact Hcall|].
      rewrite Hsig. apply drive_nil.
    + apply Hstart. rewrite (Hw false), app_assoc.
      apply (extends_trans _ st' _ _ _ He). apply extends_return.
  - destruct HP as (HI & Hc & L & HPend & HAct).
    pose proof (seg_pending_async options marks ps _ _ _ _ _ _ _ _ ps_ok Hseg) as Hso.
    destruct (seg_pending options cplans marks ps 0%nat 0%nat _ _ _ _ _ _ ps_ok eq_refl Hseg)
      as (Hwalk' & Hd' & Hlen & Hi & Hw & Hsig).
    destruct (ldrive_sem options co vals cplans Hplain co_done Hso (length rest) rest
                i v c0 c' (log (EvReturn VUndefined) st') L eq_refl Hi HI HPend HAct Hc
                Hwalk' Hd')
      as (st'' & Hdrive & He').
    exists (trace st''). split.
    + eapply (run_val options w vals vals_length); [exact Hcall|].
      rewrite Hsig. exact Hdrive.
    + apply Hstart. rewrite (Hw false). cbv iota.
      rewrite (app_assoc start), (app_assoc (start ++ cs)).
      apply (extends_trans _ (log (EvReturn VUndefined) st') _ _ _); [|exact He'].
      apply (extends_trans _ st' _ _ _ He). apply extends_return.
Qed.

End LoopDispatch.

(** * The claims about the registry *)

(** C1: for every hook whose taps are in stage order and every sequence of
    taps inserted without [before], the stages being integers or absent as
    the structure of a tap declares them, the resulting order is ascending
    in [stage] (0 when absent), and the taps of each stage stand in the
    order in which they were inserted (those of the hook first). *)
Theorem C1_stage_order_stable (h : Hook) (ts items : list Tap) :
  h_taps h = Some <$> ts →
  Forall (λ t, stage_declared (tap_stage t)) (ts ++ items) →
  StronglySorted (λ a b, stage_of a ≤ stage_of b) ts →
  Forall (λ t, tap_before t = BeforeUndefined) items →
  ∃ h' result,
    insert_all h items = Normal h'
    ∧ h_taps h' = Some <$> result
    ∧ StronglySorted (λ a b, stage_of a ≤ stage_of b) result
    ∧ ∀ s, filter (λ t, stage_of t = s) result
           = filter (λ t, stage_of t = s) (ts ++ items).
Proof.
  intros Hts Hdecl Hsorted Hitems. revert h ts Hts Hdecl Hsorted.
  induction Hitems as [|item items Hitem _ IH]; intros h ts Hts Hdecl Hsorted.
  - exists h, ts. rewrite app_nil_r. by repeat split.
  - apply Forall_app in Hdecl as [Hdts Hditems].
    apply Forall_cons in Hditems as [Hditem Hditems].
    destruct (_insert_no_before h ts item Hts) as (k & Hk & Hins & Hgt & Hle).
    { by rewrite Hitem. }
    assert (Hgt' : ∀ t, t ∈ drop k ts → stage_of t > stage_of item).
    { intros t Ht. specialize (Hgt t Ht).
      assert (Hdt : stage_declared (tap_stage t)).
      { rewrite Forall_forall in Hdts. apply Hdts.
        rewrite <- (take_drop k ts). apply elem_of_app. by right. }
      rewrite (number_gt_declared _ _ Hdt Hditem) in Hgt.
      by apply bool_decide_eq_true in Hgt. }
    assert (Hle' : ∀ t, (0 < k)%nat → ts !! (k - 1)%nat = Some t →
                        stage_of t ≤ stage_of item).
    { intros t Hpos Ht. specialize (Hle t Hpos Ht).
      assert (Hdt : stage_declared (tap_stage t)).
      { rewrite Forall_forall in Hdts. apply Hdts.
        by eapply list_elem_of_lookup_2. }
      rewrite (number_gt_declared _ _ Hdt Hditem) in Hle.
      apply bool_decide_eq_false in Hle. lia. }
    destruct (place_sorted_stable ts item k Hsorted Hk Hgt' Hle') as [Hs1 Hf1].
    destruct (IH (set_taps (_resetCompilation h)
                           (Some <$> take k ts ++ item :: drop k ts))
                 (take k ts ++ item :: drop k ts) eq_refl) as
      (h' & result & Hall & Htaps & Hs2 & Hf2); [|done|].
    { rewrite <- app_assoc. apply Forall_app. split.
      - apply Forall_take. done.
      - simpl. apply Forall_cons. split; [done|].
        apply Forall_app. split; [by apply Forall_drop|done]. }
    exists h', result. split; [|split; [done|split; [done|]]].
    + unfold insert_all in *. simpl. by rewrite Hins.
    + intros s. rewrite Hf2.
      rewrite (filter_app _ (take k ts ++ item :: drop k ts)), Hf1.
      rewrite !filter_app, <- app_assoc. f_equal.
      rewrite !filter_cons, filter_nil.
      by destruct (decide (stage_of item = s)).
Qed.

(** The example of the claim: stages 2, 1, 0 inserted in this order end
    up in the order 0, 1, 2. *)
Lemma C1_stage_order_stable_witness :
  ∃ h' result,
    insert_all (new_Hook [] None)
      [mkTap "a" sync 0 BeforeUndefined (StageNumber 2) false;
       mkTap "b" sync 1 BeforeUndefined (StageNumber 1) false;
       mkTap "c" sync 2 BeforeUndefined StageUndefined false] = Normal h'
    ∧ h_taps h' = Some <$> result
    ∧ StronglySorted (λ a b, stage_of a ≤ stage_of b) result
    ∧ ∀ s, filter (λ t, stage_of t = s) result
           = filter (λ t, stage_of t = s)
               ([] ++ [mkTap "a" sync 0 BeforeUndefined (StageNumber 2) false;
                       mkTap "b" sync 1 BeforeUndefined (StageNumber 1) false;
                       mkTap "c" sync 2 BeforeUndefined StageUndefined false]).
Proof.
  apply (C1_stage_order_stable (new_Hook [] None) []).
  - reflexivity.
  - repeat constructor.
  - constructor.
  - repeat constructor.
Defined.

Example stages_2_1_0 :
  option_map (fmap tap_stage)
    (match insert_all (new_Hook [] None)
             [mkTap "a" sync 0 BeforeUndefined (StageNumber 2) false;
              mkTap "b" sync 1 BeforeUndefined (StageNumber 1) false;
              mkTap "c" sync 2 BeforeUndefined (StageNumber 0) false] with
     | Normal h => defined_taps (h_taps h)
     | Throw _ => None
     end)
  = Some [StageNumber 0; StageNumber 1; StageNumber 2].
Proof. reflexivity. Qed.

(** Stages that are not as declared: a registered stage that is the string
    '5' is read as 5 by the scan, though it counted as 0 when its tap came
    in, and a registered NaN is read as 0, though nothing was greater than
    it when its tap came in. *)
Example stages_not_declared :
  option_map (fmap tap_name)
    (match insert_all (new_Hook [] None)
             [mkTap "a" sync 0 BeforeUndefined (StageNumber 0) false;
              mkTap "b" sync 1 BeforeUndefined (StageOther true (Some 5)) false;
              mkTap "c" sync 2 BeforeUndefined (StageNumber 1) false] with
     | Normal h => defined_taps (h_taps h)
     | Throw _ => None
     end)
  = Some ["a"; "c"; "b"]
  ∧ option_map (fmap tap_name)
      (match insert_all (new_Hook [] None)
               [mkTap "a" sync 0 BeforeUndefined (StageNumber 5) false;
                mkTap "b" sync 1 BeforeUndefined StageNaN false;
                mkTap "c" sync 2 BeforeUndefined (StageNumber 3) false] with
       | Normal h => defined_taps (h_taps h)
       | Throw _ => None
       end)
    = Some ["a"; "b"; "c"].
Proof. split; reflexivity. Qed.

(** C2: when the [before] set of an inserted tap holds a name that no
    registered tap carries, the backward scan ends at index 0, no error is
    raised, and the tap becomes the first of the array. *)
Theorem C2_unmatched_before_goes_first (h : Hook) (ts : list Tap) (item : Tap)
    (B : gset string) (b : string) :
  h_taps h = Some <$> ts →
  before_set (tap_before item) = Some B →
  b ∈ B →
  (∀ t, t ∈ ts → tap_name t ≠ b) →
  (∃ taps', insert_loop (length (h_taps h)) (h_taps h) (Some B)
              (item_stage (tap_stage item))
            = Normal (0%nat, taps'))
  ∧ ∃ h', _insert h item = Normal h' ∧ h_taps h' = Some item :: h_taps h.
Proof.
  intros Hts HB Hb Hnames.
  pose proof (insert_loop_unmatched ts (item_stage (tap_stage item)) b (length ts) Hnames
                ltac:(lia) B Hb) as Hloop.
  rewrite <- (length_fmap Some ts), shifted_length in Hloop.
  rewrite length_fmap in Hloop.
  split.
  - rewrite Hts, length_fmap. eauto.
  - eexists. split.
    + unfold _insert. rewrite HB. simpl. rewrite Hts, length_fmap.
      rewrite Hloop.
      unfold mbind, Completion_bind; simpl. reflexivity.
    + simpl. rewrite Hts.
      change 0%nat with (0 - 0)%nat at 1.
      rewrite (array_set_shifted_end (Some <$> ts) 0) by lia.
      by rewrite take_0, drop_0.
Qed.

Lemma C2_unmatched_before_goes_first_witness :
  (∃ taps', insert_loop
              (length (h_taps (set_taps (new_Hook [] None)
                 [Some (mkTap "a" sync 0 BeforeUndefined StageUndefined false)])))
              (h_taps (set_taps (new_Hook [] None)
                 [Some (mkTap "a" sync 0 BeforeUndefined StageUndefined false)]))
              (Some {[ "zz" ]})
              (item_stage
                 (tap_stage (mkTap "n" sync 1 (BeforeString "zz") (StageNumber 7) false)))
            = Normal (0%nat, taps'))
  ∧ ∃ h', _insert (set_taps (new_Hook [] None)
                     [Some (mkTap "a" sync 0 BeforeUndefined StageUndefined false)])
                  (mkTap "n" sync 1 (BeforeString "zz") (StageNumber 7) false) = Normal h'
        ∧ h_taps h' = Some (mkTap "n" sync 1 (BeforeString "zz") (StageNumber 7) false)
                      :: h_taps (set_taps (new_Hook [] None)
                           [Some (mkTap "a" sync 0 BeforeUndefined StageUndefined false)]).
Proof.
  apply (C2_unmatched_before_goes_first _
           [mkTap "a" sync 0 BeforeUndefined StageUndefined false] _ {[ "zz" ]} "zz").
  - reflexivity.
  - reflexivity.
  - set_solver.
  - intros t Ht. apply list_elem_of_singleton in Ht as ->. simpl. discriminate.
Defined.

(** C10: [intercept] stores what [register] returns in every slot, so a
    handler that returns [undefined] for a registered tap leaves
    [undefined] in the slot of that tap; in a registration
    ([_runRegisterInterceptors]) the same handler, returning [undefined]
    for the incoming descriptor, leaves the descriptor as the interceptors
    before it produced it. *)
Theorem C10_register_undefined (h : Hook) (interceptor : Interceptor)
    (reg : Slot → Slot) (i : nat) (t incoming : Tap) :
  register interceptor = Some reg →
  h_taps h !! i = Some (Some t) →
  reg (Some t) = None →
  reg (Some (_runRegisterInterceptors h incoming)) = None →
  h_taps (intercept h interceptor) !! i = Some None
  ∧ h_interceptors (intercept h interceptor) = h_interceptors h ++ [interceptor]
  ∧ _runRegisterInterceptors (intercept h interceptor) incoming
    = _runRegisterInterceptors h incoming.
Proof.
  intros Hreg Hslot Hundef Hincoming.
  unfold intercept. rewrite Hreg. simpl. split; [|split; [done|]].
  - by rewrite list_lookup_fmap, Hslot; simpl; rewrite Hundef.
  - unfold _runRegisterInterceptors in *. simpl.
    rewrite foldl_app. simpl. by rewrite Hreg, Hincoming.
Qed.

Lemma C10_register_undefined_witness :
  h_taps (intercept
            (set_taps (new_Hook [] None)
               [Some (mkTap "a" sync 0 BeforeUndefined StageUndefined false)])
            (mkInterceptor (Some (λ _, None)) false false false false false false false))
    !! 0%nat = Some None
  ∧ h_interceptors
      (intercept
         (set_taps (new_Hook [] None)
            [Some (mkTap "a" sync 0 BeforeUndefined StageUndefined false)])
         (mkInterceptor (Some (λ _, None)) false false false false false false false))
    = h_interceptors
        (set_taps (new_Hook [] None)
           [Some (mkTap "a" sync 0 BeforeUndefined StageUndefined false)])
      ++ [mkInterceptor (Some (λ _, None)) false false false false false false false]
  ∧ _runRegisterInterceptors
      (intercept
         (set_taps (new_Hook [] None)
            [Some (mkTap "a" sync 0 BeforeUndefined StageUndefined false)])
         (mkInterceptor (Some (λ _, None)) false false false false false false false))
      (mkTap "b" async 1 BeforeUndefined StageUndefined false)
    = _runRegisterInterceptors
        (set_taps (new_Hook [] None)
           [Some (mkTap "a" sync 0 BeforeUndefined StageUndefined false)])
        (mkTap "b" async 1 BeforeUndefined StageUndefined false).
Proof.
  apply (C10_register_undefined _ _ (λ _, None) 0
           (mkTap "a" sync 0 BeforeUndefined StageUndefined false)); reflexivity.
Defined.


Example example_hook_is_cached :
  ∃ f, get_call async example_hook = Some (Compiled f)
       ∧ invoke async example_hook = Normal (example_hook, f).
Proof. eexists. split; reflexivity. Qed.


(** * The claim about the shape of the emitted code *)



(** * The claims about the series *)

(** C3 (as amended): an [AsyncSeriesHook] is called through [callAsync];
    every tap does one of the things that a tap of its kind can do.  The
    taps are invoked in the order of the list, from the first on, up to the
    first that does not complete, and no tap after that one is invoked.
    When that tap fails in the way of its kind (a sync tap throws, an async
    tap hands an error to its callback, the thenable of a promise tap is
    rejected), the callback is called exactly once, with the error.  When
    it is an async or a promise tap that throws during its call, the
    callback is not called: the error leaves the dispatcher, thrown by the
    call of the dispatcher itself when the taps before completed during
    their calls, and otherwise thrown by the function that the last tap to
    complete later had been handed. *)
Theorem C3_series_in_order (options : FactoryOptions) (vals : list value)
    (plans : list plan) :
  opt_type options = async →
  length vals = length (opt_args options) →
  Forall (λ v, is_closure v = false) vals →
  Forall2 fits (opt_taps options) plans →
  ∃ tr,
    converges (λ n, dispatch (world_of (opt_taps options) plans) n
                      (create AsyncSeriesHookCodeFactory_content options)
                      (vals ++ [VCallback]) (script_of (opt_taps options) plans)) tr
    ∧ tap_calls tr = seq 0 (reached plans)
    ∧ ∀ i pl,
        plans !! i = Some pl →
        (∀ l, pl ≠ Completes l) →
        (∀ j, (j < i)%nat → ∃ l, plans !! j = Some (Completes l)) →
        reached plans = S i
        ∧ match pl with
          | Fails later e => callback_calls tr = [[e]]
          | Raises e =>
              callback_calls tr = []
              ∧ calls_ended tr
                = if forallb completes_now (take i plans)
                  then [SawThrow e]
                  else [SawReturn; SawUncaught e]
          | _ => True
          end.
Proof.
  intros Hty Hlen Hplain Hfit.
  destruct (plans_dispatch options vals plans Hfit Hty Hlen Hplain) as (tr & Hconv & Hobs).
  exists tr. split; [done|].
  rewrite tap_calls_observe, callback_calls_observe, calls_ended_observe, Hobs.
  split; [apply expect_reached|].
  intros i pl Hi Hpl Hbefore.
  destruct (expect_stop plans i 0 false pl Hi Hpl Hbefore) as (Ht & Hc & He).
  split.
  - rewrite expect_reached in Ht. apply (f_equal length) in Ht.
    by rewrite !length_seq in Ht.
  - destruct pl as [l|later e| |v|e]; try done.
    split; [done|]. by apply He.
Qed.

Lemma C3_series_in_order_witness :
  ∃ tr,
    converges (λ n, dispatch (world_of (opt_taps options_late)
                                [Completes true; Fails true (VStr "e")]) n
                      (create AsyncSeriesHookCodeFactory_content options_late)
                      ([] ++ [VCallback])
                      (script_of (opt_taps options_late)
                         [Completes true; Fails true (VStr "e")])) tr
    ∧ tap_calls tr = seq 0 (reached [Completes true; Fails true (VStr "e")])
    ∧ ∀ i pl,
        [Completes true; Fails true (VStr "e")] !! i = Some pl →
        (∀ l, pl ≠ Completes l) →
        (∀ j, (j < i)%nat →
           ∃ l, [Completes true; Fails true (VStr "e")] !! j = Some (Completes l)) →
        reached [Completes true; Fails true (VStr "e")] = S i
        ∧ match pl with
          | Fails later e => callback_calls tr = [[e]]
          | Raises e =>
              callback_calls tr = []
              ∧ calls_ended tr
                = if forallb completes_now
                       (take i [Completes true; Fails true (VStr "e")])
                  then [SawThrow e]
                  else [SawReturn; SawUncaught e]
          | _ => True
          end.
Proof.
  apply (C3_series_in_order options_late [] [Completes true; Fails true (VStr "e")]).
  - reflexivity.
  - reflexivity.
  - constructor.
  - repeat constructor.
Defined.

(** C3 as stated fails: when the first of two async taps throws during
    its call, the second tap is not invoked, but the callback is not
    called either: the call of the dispatcher throws the error. *)
Lemma C3_counterexample :
  ∃ tr,
    dispatch (world_of (opt_taps options_raising) plans_raising) 40
             (create AsyncSeriesHookCodeFactory_content options_raising)
             [VCallback] (script_of (opt_taps options_raising) plans_raising) = Some tr
    ∧ tr = [EvTap 0 []; EvThrow (VStr "e")]
    ∧ tap_calls tr = [0%nat]
    ∧ callback_calls tr = []
    ∧ callback_calls tr ≠ [[VStr "e"]].
Proof. eexists. split; [by vm_compute|]. by split_and!. Qed.





(** * The claim about the concurrent taps *)




(** * More about the registry ([Hook.js]) *)

Section RegistryMore.

Implicit Types (l : list Slot) (ts : list Tap) (h : Hook).

(** The loop of [_insert] raises no error of the library's own. *)
Lemma insert_loop_no_Error i :
  ∀ l before stage msg, insert_loop i l before stage ≠ Throw (Error msg).
Proof.
  induction i as [|i IH]; intros l before stage msg; [done|].
  simpl. destruct (array_get l i) as [x|]; [|done].
  destruct before as [b|].
  - destruct (decide (tap_name x ∈ b)); [apply IH|].
    destruct (bool_decide (0 < size b)%nat); [apply IH|].
    destruct (number_gt _ _); [apply IH|done].
  - destruct (number_gt _ _); [apply IH|done].
Qed.

Lemma _insert_no_Error h item msg : _insert h item ≠ Throw (Error msg).
Proof.
  unfold _insert.
  destruct (insert_loop _ _ _ _) as [[k l]|e] eqn:E; simpl; [done|].
  intros [= ->]. by eapply insert_loop_no_Error.
Qed.

(** What [_insert] changes. *)
Lemma _insert_fields h item h' :
  _insert h item = Normal h' → ∃ l, h' = set_taps (_resetCompilation h) l ∧ l ≠ [].
Proof.
  unfold _insert.
  destruct (insert_loop _ _ _ _) as [[k l]|e] eqn:E; simpl; [|done].
  intros [= <-]. eexists. split; [done|].
  unfold array_set. case_bool_decide as Hk.
  - intros Hnil. apply (f_equal length) in Hnil. rewrite length_insert in Hnil.
    simpl in Hnil. lia.
  - intros Hnil. apply (f_equal length) in Hnil. rewrite !length_app in Hnil.
    simpl in Hnil. lia.
Qed.

Lemma _tap_fields trim h type options fn h' :
  _tap trim h type options fn = Normal h' →
  ∃ l, h' = set_taps (_resetCompilation h) l ∧ l ≠ [].
Proof.
  unfold _tap. destruct options as [s|o|]; simpl; [| |done].
  - destruct (decide (trim s = "")); [done|]. apply _insert_fields.
  - destruct (o_name o) as [name|]; [|done].
    destruct (decide (name = "")); [done|]. apply _insert_fields.
Qed.

(** The loop of [_insert] on an array of descriptors: where it ends, the
    slot before has a stage that is not greater, and every name of the
    [before] set has been met. *)
Lemma insert_loop_placement ts stage i :
  (i ≤ length ts)%nat →
  ∀ before, ∃ k, (k ≤ i)%nat
    ∧ insert_loop i (shifted i (Some <$> ts)) before stage
      = Normal (k, shifted (k - 1) (Some <$> ts))
    ∧ ((0 < k)%nat →
         (∃ t, ts !! (k - 1)%nat = Some t
               ∧ number_gt (stage_or_0 (tap_stage t)) stage = false)
         ∧ ∀ (B : gset string) b, before = Some B → b ∈ B →
             ∃ j t, (k ≤ j < i)%nat ∧ ts !! j = Some t ∧ tap_name t = b).
Proof.
  induction i as [|i IH]; intros Hi before.
  { exists 0%nat. split_and!; [done|done|lia]. }
  assert (is_Some (ts !! i)) as [x Hx] by (apply lookup_lt_is_Some; lia).
  assert (Hx' : (Some <$> ts) !! i = Some (Some x))
    by (by rewrite list_lookup_fmap, Hx).
  simpl.
  rewrite array_get_shifted by (rewrite length_fmap; lia).
  unfold array_get at 1. rewrite Hx'. simpl.
  unfold array_get. rewrite Hx'. simpl.
  rewrite (array_set_shifted _ _ _ Hx').
  assert (Hgo : ∀ before',
            (∀ (B : gset string) b, before = Some B → b ∈ B →
               tap_name x = b ∨ ∃ B', before' = Some B' ∧ b ∈ B') →
            ∃ k, (k ≤ S i)%nat
              ∧ insert_loop i (shifted i (Some <$> ts)) before' stage
                = Normal (k, shifted (k - 1) (Some <$> ts))
              ∧ ((0 < k)%nat →
                   (∃ t, ts !! (k - 1)%nat = Some t
               ∧ number_gt (stage_or_0 (tap_stage t)) stage = false)
                   ∧ ∀ (B : gset string) b, before = Some B → b ∈ B →
                       ∃ j t, (k ≤ j < S i)%nat ∧ ts !! j = Some t ∧ tap_name t = b)).
  { intros before' Hb'. destruct (IH ltac:(lia) before') as (k & Hk & Heq & Hrest).
    exists k. split_and!; [lia|done|]. intros Hpos.
    destruct (Hrest Hpos) as [Hpred Hnames]. split; [done|].
    intros B b HB Hb. destruct (Hb' B b HB Hb) as [Hname|(B' & HB' & Hb'')].
    - exists i, x. repeat split; try done; lia.
    - destruct (Hnames B' b HB' Hb'') as (j & t & Hj & Ht & Hn).
      exists j, t. repeat split; try done; lia. }
  assert (Hstop : (∀ (B : gset string) b, before = Some B → b ∈ B → False) →
            number_gt (stage_or_0 (tap_stage x)) stage = false →
            ∃ k, (k ≤ S i)%nat
              ∧ Normal (S i, shifted i (Some <$> ts))
                = Normal (k, shifted (k - 1) (Some <$> ts))
              ∧ ((0 < k)%nat →
                   (∃ t, ts !! (k - 1)%nat = Some t
               ∧ number_gt (stage_or_0 (tap_stage t)) stage = false)
                   ∧ ∀ (B : gset string) b, before = Some B → b ∈ B →
                       ∃ j t, (k ≤ j < S i)%nat ∧ ts !! j = Some t ∧ tap_name t = b)).
  { intros Hempty Hst. exists (S i). split_and!; [lia| |].
    - simpl. by replace (i - 0)%nat with i by lia.
    - intros _. split.
      + exists x. split; [|done]. simpl. by replace (i - 0)%nat with i by lia.
      + intros B b HB Hb. destruct (Hempty B b HB Hb). }
  destruct before as [B|].
  - destruct (decide (tap_name x ∈ B)) as [Hin|Hin].
    { apply Hgo. intros B0 b [= <-] Hb.
      destruct (decide (tap_name x = b)) as [|Hne]; [by left|right].
      exists (B ∖ {[tap_name x]}). split; [done|set_solver]. }
    case_bool_decide as Hsize.
    { apply Hgo. intros B0 b [= <-] Hb. right. by exists B. }
    assert (HB : B = ∅).
    { apply leibniz_equiv, size_empty_inv. lia. }
    destruct (number_gt (stage_or_0 (tap_stage x)) stage) eqn:Hst.
    { apply Hgo. intros B0 b [= <-] Hb. right. by exists B. }
    apply Hstop.
    + intros B0 b [= <-] Hb. set_solver.
    + done.
  - destruct (number_gt (stage_or_0 (tap_stage x)) stage) eqn:Hst.
    { apply Hgo. intros B0 b [=]. }
    apply Hstop; [intros B0 b [=]|done].
Qed.

Lemma _insert_placement h ts item :
  h_taps h = Some <$> ts →
  ∃ k, (k ≤ length ts)%nat
    ∧ _insert h item
      = Normal (set_taps (_resetCompilation h)
                         (Some <$> (take k ts ++ item :: drop k ts)))
    ∧ ((0 < k)%nat →
         (∃ t, ts !! (k - 1)%nat = Some t
               ∧ number_gt (stage_or_0 (tap_stage t)) (item_stage (tap_stage item))
                 = false)
         ∧ ∀ (B : gset string) b, before_set (tap_before item) = Some B → b ∈ B →
             ∃ j t, (k ≤ j)%nat ∧ ts !! j = Some t ∧ tap_name t = b).
Proof.
  intros Hts.
  destruct (insert_loop_placement ts (item_stage (tap_stage item)) (length ts)
              ltac:(lia)
              (before_set (tap_before item))) as (k & Hk & Heq & Hrest).
  exists k. split_and!; [done| |].
  - unfold _insert. simpl. rewrite Hts, length_fmap.
    rewrite <- (length_fmap Some ts), shifted_length in Heq.
    rewrite length_fmap in Heq.
    rewrite Heq.
    unfold mbind, Completion_bind; simpl.
    rewrite array_set_shifted_end by (rewrite length_fmap; lia).
    by rewrite fmap_app, fmap_cons, fmap_take, fmap_drop.
  - intros Hpos. destruct (Hrest Hpos) as [Hpred Hnames]. split; [done|].
    intros B b HB Hb. destruct (Hnames B b HB Hb) as (j & t & Hj & Ht & Hn).
    exists j, t. repeat split; try done; lia.
Qed.

End RegistryMore.

Section Life.

Variable trim : string → string.

Implicit Types (h : Hook) (ops : list HookOp).

Lemma hook_run_snoc h ops op :
  hook_run trim h (ops ++ [op]) = (h' ← hook_run trim h ops; hook_step trim h' op).
Proof. unfold hook_run. by rewrite foldl_app. Qed.

(** What every step keeps is kept by the whole life. *)
Lemma hook_run_ind (P : Hook → Prop) h0 :
  P h0 →
  (∀ h op h', P h → hook_step trim h op = Normal h' → P h') →
  ∀ ops h, hook_run trim h0 ops = Normal h → P h.
Proof.
  intros H0 Hstep ops. induction ops as [|op ops IH] using rev_ind; intros h Hrun.
  { unfold hook_run in Hrun. simpl in Hrun. by simplify_eq. }
  rewrite hook_run_snoc in Hrun.
  destruct (hook_run trim h0 ops) as [h1|e] eqn:E; [|done].
  simpl in Hrun. eapply Hstep; [|exact Hrun]. by apply IH.
Qed.

Lemma defined_taps_Some l ts : defined_taps l = Some ts → l = Some <$> ts.
Proof.
  revert ts. induction l as [|[t|] l IH]; intros ts; simpl.
  - by intros [= <-].
  - destruct (defined_taps l) as [ts'|]; [|done]. simpl. intros [= <-].
    by rewrite (IH ts' eq_refl).
  - done.
Qed.

Lemma defined_taps_None l l' : defined_taps (l ++ None :: l') = None.
Proof.
  induction l as [|[t|] l IH]; simpl; [done| |done]. by rewrite IH.
Qed.

(** A hook made by [new Hook] keeps the abstract [compile] and its
    delegates, and nothing is ever compiled for it. *)
Lemma abstract_hook_life args name ops h :
  hook_run trim (new_Hook args name) ops = Normal h →
  h_compile h = abstract_compile
  ∧ h_call h = Some CALL_DELEGATE ∧ h__call h = Some CALL_DELEGATE
  ∧ h_callAsync h = Some CALL_ASYNC_DELEGATE ∧ h__callAsync h = Some CALL_ASYNC_DELEGATE
  ∧ h_promise h = Some PROMISE_DELEGATE ∧ h__promise h = Some PROMISE_DELEGATE.
Proof.
  revert ops h. apply hook_run_ind; [by split_and!|].
  intros h op h' (Hc & H1 & H2 & H3 & H4 & H5 & H6) Hstep.
  destruct op as [type options fn|ic|type]; simpl in Hstep.
  - apply _tap_fields in Hstep as (l & -> & _). simpl. by split_and!.
  - simplify_eq. unfold intercept. destruct (register ic); simpl; by split_and!.
  - unfold invoke, _createCall, compile in Hstep.
    destruct type; simpl in Hstep; rewrite ?H1, ?H3, ?H5, Hc in Hstep; done.
Qed.

(** The hook made by [AsyncSeriesHook] never has a [call], and what it
    holds for [callAsync] and [promise] is the delegate or the dispatcher
    compiled from the taps and interceptors as they are. *)
Lemma series_hook_life args name ops h :
  hook_run trim (AsyncSeriesHook args name) ops = Normal h →
  h_compile h = COMPILE AsyncSeriesHookCodeFactory_content
  ∧ h_args h = args
  ∧ h_call h = None ∧ h__call h = None
  ∧ h__callAsync h = Some CALL_ASYNC_DELEGATE
  ∧ h__promise h = Some PROMISE_DELEGATE
  ∧ (h_callAsync h = Some CALL_ASYNC_DELEGATE
     ∨ ∃ ts, h_taps h = Some <$> ts
             ∧ h_callAsync h
               = Some (Compiled (create AsyncSeriesHookCodeFactory_content
                                   (mkOptions async ts (h_interceptors h) (h_args h))))
             ∧ h__x h = Some (map tap_fn ts))
  ∧ (h_promise h = Some PROMISE_DELEGATE
     ∨ ∃ ts, h_taps h = Some <$> ts
             ∧ h_promise h
               = Some (Compiled (create AsyncSeriesHookCodeFactory_content
                                   (mkOptions promise ts (h_interceptors h) (h_args h))))
             ∧ h__x h = Some (map tap_fn ts)).
Proof.
  revert ops h. apply hook_run_ind; [split_and!; try done; by left|].
  intros h op h' (Hc & Ha & H1 & H2 & H3 & H4 & H5 & H6) Hstep.
  destruct op as [type options fn|ic|type]; simpl in Hstep.
  - apply _tap_fields in Hstep as (l & -> & _). simpl. split_and!; try done; by left.
  - simplify_eq. unfold intercept.
    destruct (register ic); simpl; split_and!; try done; by left.
  - unfold invoke, _createCall, compile in Hstep. rewrite Hc in Hstep.
    destruct type; simpl in Hstep.
    + by rewrite H1 in Hstep.
    + destruct H5 as [H5|(ts & Hts & H5 & Hx)]; rewrite H5 in Hstep.
      * destruct (defined_taps (h_taps h)) as [ts|] eqn:Hd; [|done].
        apply defined_taps_Some in Hd. simpl in Hstep.
        destruct (new_Function _) as [f|] eqn:Hf; [|done].
        apply new_Function_Normal in Hf as ->.
        simpl in Hstep. simplify_eq. simpl.
        split_and!; try done.
        { right. exists ts. by split_and!. }
        destruct H6 as [H6|(ts' & Hts' & H6 & Hx')]; [by left|right].
        exists ts'. split_and!; try done.
        rewrite Hd in Hts'. apply (inj (fmap Some)) in Hts'. by subst.
      * simpl in Hstep. simplify_eq. split_and!; try done.
        { right. exists ts. by split_and!. }
    + destruct H6 as [H6|(ts & Hts & H6 & Hx)]; rewrite H6 in Hstep.
      * destruct (defined_taps (h_taps h)) as [ts|] eqn:Hd; [|done].
        apply defined_taps_Some in Hd. simpl in Hstep.
        destruct (new_Function _) as [f|] eqn:Hf; [|done].
        apply new_Function_Normal in Hf as ->.
        simpl in Hstep. simplify_eq. simpl.
        split_and!; try done.
        2: { right. exists ts. by split_and!. }
        destruct H5 as [H5|(ts' & Hts' & H5 & Hx')]; [by left|right].
        exists ts'. split_and!; try done.
        rewrite Hd in Hts'. apply (inj (fmap Some)) in Hts'. by subst.
      * simpl in Hstep. simplify_eq. split_and!; try done.
        { right. exists ts. by split_and!. }
Qed.

End Life.

(** When [_tap] rejects an options object. *)
Lemma _tap_object_rejected (trim : string → string) (h : Hook) (type : TapType)
    (o : TapOptions) (fn : nat) (msg : string) :
  _tap trim h type (OptObject o) fn = Throw (Error msg)
  ↔ msg = "Missing name for tap" ∧ (o_name o = None ∨ o_name o = Some "").
Proof.
  unfold _tap. simpl.
  destruct (o_name o) as [name|] eqn:Hn; [destruct (decide (name = "")) as [->|Hne]|];
    split.
  - intros [= <-]. split; [done|]. by right.
  - by intros [-> _].
  - intros H. by apply _insert_no_Error in H.
  - intros [_ [Ho|Ho]]; by simplify_eq.
  - intros [= <-]. split; [done|]. by left.
  - by intros [-> _].
Qed.

(** X1: [tap], [tapAsync] and [tapPromise] reject their options with an
    error of the library in two cases only: "Invalid tap options" when the
    options are neither a string nor an object, and "Missing name for tap"
    when the name is missing or empty, where a string is trimmed first and
    the name of an object is taken as it is. *)
Theorem X1_tap_options_rejected (trim : string → string) (h : Hook) (type : TapType)
    (options : TapOptionsArg) (fn : nat) (msg : string) :
  _tap trim h type options fn = Throw (Error msg)
  ↔ (options = OptOther ∧ msg = "Invalid tap options")
    ∨ (msg = "Missing name for tap"
       ∧ ((∃ s, options = OptString s ∧ trim s = "")
          ∨ (∃ o, options = OptObject o ∧ (o_name o = None ∨ o_name o = Some "")))).
Proof.
  unfold _tap. destruct options as [s|o|]; simpl.
  - destruct (decide (trim s = "")) as [Hs|Hs]; split.
    + intros [= <-]. right. split; [done|]. left. by exists s.
    + by intros [[[=] _]|[-> _]].
    + intros H. by apply _insert_no_Error in H.
    + intros [[[=] _]|[_ [(s' & [= <-] & Hs')|(o & [=] & _)]]]. done.
  - destruct (o_name o) as [name|] eqn:Hn; [destruct (decide (name = "")) as [->|Hne]|];
      split.
    + intros [= <-]. right. split; [done|]. right. exists o. split; [done|]. by right.
    + by intros [[[=] _]|[-> _]].
    + intros H. by apply _insert_no_Error in H.
    + intros [[[=] _]|[_ [(s' & [=] & _)|(o' & [= <-] & [Ho|Ho])]]];
        rewrite Hn in Ho; by simplify_eq.
    + intros [= <-]. right. split; [done|]. right. exists o. split; [done|]. by left.
    + by intros [[[=] _]|[-> _]].
  - split.
    + intros [= <-]. by left.
    + intros [[_ ->]|[_ [(s & [=] & _)|(o & [=] & _)]]]. done.
Qed.

(** X2: registering a tap in a registry that holds descriptors only always
    succeeds; the new tap is put at one place and the taps that were there
    keep their order; when the stages of the new tap and of the tap directly
    before it are as declared (integers, or absent), that tap has no greater
    stage, an absent stage counting as 0. *)
Theorem X2_insert_keeps_the_others (h : Hook) (ts : list Tap) (item : Tap) :
  h_taps h = Some <$> ts →
  ∃ k h', (k ≤ length ts)%nat
    ∧ _insert h item = Normal h'
    ∧ h_taps h' = Some <$> (take k ts ++ item :: drop k ts)
    ∧ ((0 < k)%nat →
       ∃ t, ts !! (k - 1)%nat = Some t
            ∧ (stage_declared (tap_stage t) → stage_declared (tap_stage item) →
               stage_of t ≤ stage_of item)).
Proof.
  intros Hts. destruct (_insert_placement h ts item Hts) as (k & Hk & Heq & Hrest).
  eexists k, _. split_and!; [done|exact Heq|done|].
  intros Hpos. destruct (Hrest Hpos) as [(t & Ht & Hgt) _].
  exists t. split; [done|]. intros Hdt Hdi.
  rewrite (number_gt_declared _ _ Hdt Hdi) in Hgt.
  apply bool_decide_eq_false in Hgt. lia.
Qed.

Lemma X2_insert_keeps_the_others_witness :
  ∃ k h', (k ≤ 2)%nat
    ∧ _insert (set_taps (new_Hook [] None)
                 [Some (mkTap "a" sync 0 BeforeUndefined StageUndefined false);
                  Some (mkTap "b" sync 1 BeforeUndefined (StageNumber 5) false)])
              (mkTap "c" sync 2 BeforeUndefined (StageNumber 1) false) = Normal h'
    ∧ h_taps h'
      = Some <$> (take k [mkTap "a" sync 0 BeforeUndefined StageUndefined false;
                          mkTap "b" sync 1 BeforeUndefined (StageNumber 5) false]
                  ++ mkTap "c" sync 2 BeforeUndefined (StageNumber 1) false
                     :: drop k [mkTap "a" sync 0 BeforeUndefined StageUndefined false;
                                mkTap "b" sync 1 BeforeUndefined (StageNumber 5) false])
    ∧ ((0 < k)%nat →
       ∃ t, [mkTap "a" sync 0 BeforeUndefined StageUndefined false;
             mkTap "b" sync 1 BeforeUndefined (StageNumber 5) false] !! (k - 1)%nat
            = Some t
            ∧ (stage_declared (tap_stage t) →
               stage_declared
                 (tap_stage (mkTap "c" sync 2 BeforeUndefined (StageNumber 1) false)) →
               stage_of t
               ≤ stage_of (mkTap "c" sync 2 BeforeUndefined (StageNumber 1) false))).
Proof.
  apply (X2_insert_keeps_the_others
           (set_taps (new_Hook [] None)
              [Some (mkTap "a" sync 0 BeforeUndefined StageUndefined false);
               Some (mkTap "b" sync 1 BeforeUndefined (StageNumber 5) false)])
           [mkTap "a" sync 0 BeforeUndefined StageUndefined false;
            mkTap "b" sync 1 BeforeUndefined (StageNumber 5) false]).
  reflexivity.
Defined.

(** X3: a tap registered with [before] is put before the last tap that
    carries a name of [before], whatever the stages are. *)
Theorem X3_insert_before_named (h : Hook) (ts : list Tap) (item : Tap)
    (B : gset string) (j : nat) (t : Tap) :
  h_taps h = Some <$> ts →
  before_set (tap_before item) = Some B →
  ts !! j = Some t → tap_name t ∈ B →
  (∀ j' t', (j < j')%nat → ts !! j' = Some t' → tap_name t' ≠ tap_name t) →
  ∃ k h', (k ≤ j)%nat
    ∧ _insert h item = Normal h'
    ∧ h_taps h' = Some <$> (take k ts ++ item :: drop k ts).
Proof.
  intros Hts HB Ht Hin Hlast.
  destruct (_insert_placement h ts item Hts) as (k & Hk & Heq & Hrest).
  eexists k, _. split_and!; [|exact Heq|done].
  destruct (decide (0 < k)%nat) as [Hpos|]; [|lia].
  destruct (Hrest Hpos) as [_ Hnames].
  destruct (Hnames B (tap_name t) HB Hin) as (j0 & t0 & Hj0 & Ht0 & Hn0).
  destruct (decide (j < j0)%nat) as [Hlt|]; [|lia].
  by destruct (Hlast j0 t0 Hlt Ht0).
Qed.

Lemma X3_insert_before_named_witness :
  ∃ k h', (k ≤ 1)%nat
    ∧ _insert (set_taps (new_Hook [] None)
                 [Some (mkTap "a" sync 0 BeforeUndefined StageUndefined false);
                  Some (mkTap "b" sync 1 BeforeUndefined StageUndefined false);
                  Some (mkTap "c" sync 2 BeforeUndefined StageUndefined false)])
              (mkTap "d" sync 3 (BeforeString "b") (StageNumber 7) false) = Normal h'
    ∧ h_taps h'
      = Some <$> (take k [mkTap "a" sync 0 BeforeUndefined StageUndefined false;
                          mkTap "b" sync 1 BeforeUndefined StageUndefined false;
                          mkTap "c" sync 2 BeforeUndefined StageUndefined false]
                  ++ mkTap "d" sync 3 (BeforeString "b") (StageNumber 7) false
                     :: drop k [mkTap "a" sync 0 BeforeUndefined StageUndefined false;
                                mkTap "b" sync 1 BeforeUndefined StageUndefined false;
                                mkTap "c" sync 2 BeforeUndefined StageUndefined false]).
Proof.
  apply (X3_insert_before_named
           (set_taps (new_Hook [] None)
              [Some (mkTap "a" sync 0 BeforeUndefined StageUndefined false);
               Some (mkTap "b" sync 1 BeforeUndefined StageUndefined false);
               Some (mkTap "c" sync 2 BeforeUndefined StageUndefined false)])
           [mkTap "a" sync 0 BeforeUndefined StageUndefined false;
            mkTap "b" sync 1 BeforeUndefined StageUndefined false;
            mkTap "c" sync 2 BeforeUndefined StageUndefined false]
           (mkTap "d" sync 3 (BeforeString "b") (StageNumber 7) false)
           {[ "b" ]} 1 (mkTap "b" sync 1 BeforeUndefined StageUndefined false)).
  - reflexivity.
  - reflexivity.
  - reflexivity.
  - simpl. set_solver.
  - intros [|[|[|j']]] t' Hj Ht'; simpl in *; try lia; by simplify_eq.
Defined.

(** X4: after a registration that succeeded the hook is in use, and it
    stays in use when an interceptor is registered. *)
Theorem X4_tap_makes_used (trim : string → string) (h h' : Hook) (type : TapType)
    (options : TapOptionsArg) (fn : nat) :
  _tap trim h type options fn = Normal h' →
  isUsed h' = true ∧ ∀ interceptor, isUsed (intercept h' interceptor) = true.
Proof.
  intros Htap. apply _tap_fields in Htap as (l & -> & Hl). split.
  - unfold isUsed. simpl. destruct l; [done|]. by rewrite bool_decide_true by (simpl; lia).
  - intros ic. unfold isUsed, intercept.
    destruct (register ic); simpl; rewrite length_app; simpl;
      rewrite (bool_decide_true (0 < _ + 1)%nat) by lia; apply orb_true_r.
Qed.

Lemma X4_tap_makes_used_witness :
  ∃ h', tap (λ s, s) (new_Hook [] None) (OptString "a") 0 = Normal h'
        ∧ isUsed (new_Hook [] None) = false
        ∧ isUsed h' = true
        ∧ ∀ interceptor, isUsed (intercept h' interceptor) = true.
Proof.
  eexists. split; [reflexivity|]. split; [reflexivity|].
  apply (X4_tap_makes_used (λ s, s) (new_Hook [] None) _ sync (OptString "a") 0).
  reflexivity.
Defined.

(** X5: a hook made by [new Hook] has the abstract [compile]: after any
    registrations of taps and interceptors, each of [call], [callAsync] and
    [promise] throws "Abstract: should be overridden". *)
Theorem X5_abstract_hook_throws (trim : string → string) (args : list string)
    (name : option string) (ops : list HookOp) (h : Hook) (type : TapType) :
  hook_run trim (new_Hook args name) ops = Normal h →
  invoke type h = Throw (Error "Abstract: should be overridden").
Proof.
  intros Hrun.
  destruct (abstract_hook_life trim args name ops h Hrun)
    as (Hc & H1 & _ & H3 & _ & H5 & _).
  unfold invoke, _createCall, compile.
  destruct type; simpl; by rewrite ?H1, ?H3, ?H5, Hc.
Qed.

Lemma X5_abstract_hook_throws_witness :
  ∃ h, hook_run (λ s, s) (new_Hook ["x"] None)
         [OpTap async (OptString "a") 0;
          OpIntercept (mkInterceptor None true false false false false false false)]
       = Normal h
       ∧ invoke async h = Throw (Error "Abstract: should be overridden").
Proof.
  eexists. split; [reflexivity|].
  apply (X5_abstract_hook_throws (λ s, s) ["x"] None
           [OpTap async (OptString "a") 0;
            OpIntercept (mkInterceptor None true false false false false false false)]).
  reflexivity.
Defined.

(** X6: the hook made by [AsyncSeriesHook] has no [call]: whatever taps and
    interceptors are registered and whatever is invoked, the property stays
    [undefined] and invoking it is a TypeError. *)
Theorem X6_series_hook_has_no_call (trim : string → string) (args : list string)
    (name : option string) (ops : list HookOp) (h : Hook) :
  hook_run trim (AsyncSeriesHook args name) ops = Normal h →
  h_call h = None ∧ invoke sync h = Throw TypeError.
Proof.
  intros Hrun.
  destruct (series_hook_life trim args name ops h Hrun) as (_ & _ & H1 & _).
  split; [done|]. unfold invoke. simpl. by rewrite H1.
Qed.

Lemma X6_series_hook_has_no_call_witness :
  ∃ h, hook_run (λ s, s) (AsyncSeriesHook ["x"] None)
         [OpTap async (OptString "a") 0; OpInvoke async;
          OpTap promise (OptString "b") 1]
       = Normal h
       ∧ h_call h = None ∧ invoke sync h = Throw TypeError.
Proof.
  eexists. split; [reflexivity|].
  apply (X6_series_hook_has_no_call (λ s, s) ["x"] None
           [OpTap async (OptString "a") 0; OpInvoke async;
            OpTap promise (OptString "b") 1]).
  reflexivity.
Defined.

(** X7: a dispatcher that an [AsyncSeriesHook] holds for a convention is
    never stale: at any time of the life of the hook it is the dispatcher
    that [create] makes for that convention from the taps and the
    interceptors as they are then, and [_x] holds the functions of these
    taps. *)
Theorem X7_cached_dispatcher_is_current (trim : string → string) (args : list string)
    (name : option string) (ops : list HookOp) (h : Hook) (type : TapType)
    (f : JsFunction) :
  hook_run trim (AsyncSeriesHook args name) ops = Normal h →
  get_call type h = Some (Compiled f) →
  ∃ ts, h_taps h = Some <$> ts
        ∧ f = create AsyncSeriesHookCodeFactory_content
                (mkOptions type ts (h_interceptors h) args)
        ∧ h__x h = Some (map tap_fn ts).
Proof.
  intros Hrun Hf.
  destruct (series_hook_life trim args name ops h Hrun)
    as (_ & Ha & H1 & _ & _ & _ & H5 & H6).
  destruct type; simpl in Hf.
  - by rewrite H1 in Hf.
  - destruct H5 as [H5|(ts & Hts & H5 & Hx)]; rewrite H5 in Hf; [done|].
    exists ts. rewrite Ha in Hf. by simplify_eq.
  - destruct H6 as [H6|(ts & Hts & H6 & Hx)]; rewrite H6 in Hf; [done|].
    exists ts. rewrite Ha in Hf. by simplify_eq.
Qed.

Lemma X7_cached_dispatcher_is_current_witness :
  ∃ h f, hook_run (λ s, s) (AsyncSeriesHook ["x"] None)
           [OpTap async (OptString "a") 0; OpInvoke async;
            OpTap promise (OptString "b") 1; OpInvoke async]
         = Normal h
         ∧ get_call async h = Some (Compiled f)
         ∧ ∃ ts, h_taps h = Some <$> ts
                 ∧ f = create AsyncSeriesHookCodeFactory_content
                         (mkOptions async ts (h_interceptors h) ["x"])
                 ∧ h__x h = Some (map tap_fn ts).
Proof.
  eexists _, _. split; [reflexivity|]. split; [reflexivity|].
  apply (X7_cached_dispatcher_is_current (λ s, s) ["x"] None
           [OpTap async (OptString "a") 0; OpInvoke async;
            OpTap promise (OptString "b") 1; OpInvoke async]);
    reflexivity.
Defined.

(** X8: an invocation that succeeded leaves the hook so that the same
    invocation finds the same dispatcher again and changes nothing. *)
Theorem X8_second_invocation_reuses (type : TapType) (h h' : Hook) (f : JsFunction) :
  invoke type h = Normal (h', f) → invoke type h' = Normal (h', f).
Proof.
  unfold invoke, _createCall, compile. intros Hinv.
  destruct (get_call type h) as [[| | |f0]|] eqn:Hg; [| | | |done].
  1-3: destruct (h_compile h) as [|content] eqn:Hc; [done|];
       destruct (defined_taps (h_taps h)) as [ts|] eqn:Hd; [|done];
       simpl in Hinv;
       match type of Hinv with
       | context [new_Function ?x] => destruct (new_Function x) as [f0|] eqn:Hf
       end; [|done];
       simpl in Hinv; simplify_eq;
       destruct type; simpl in *; rewrite ?Hg, ?Hc, ?Hd; simpl; rewrite ?Hf; simpl;
       destruct h; simpl in *; by simplify_eq.
  simplify_eq. by rewrite Hg.
Qed.

Lemma X8_second_invocation_reuses_witness :
  ∃ h' f,
    invoke async (set_taps (AsyncSeriesHook ["x"] None) [Some example_tap]) = Normal (h', f)
    ∧ invoke async h' = Normal (h', f).
Proof.
  eexists _, _. split; [reflexivity|].
  apply (X8_second_invocation_reuses async
           (set_taps (AsyncSeriesHook ["x"] None) [Some example_tap])).
  reflexivity.
Defined.

(** X9: when the last slot of the registry holds [undefined] (as
    [intercept] leaves it when [register] returns nothing), every further
    registration and every compilation is a TypeError. *)
Theorem X9_undefined_slot_breaks (h : Hook) (l : list Slot)
    (content : FactoryOptions → ContentOptions → code) (item : Tap) (type : TapType) :
  h_taps h = l ++ [None] →
  h_compile h = COMPILE content →
  _insert h item = Throw TypeError ∧ _createCall h type = Throw TypeError.
Proof.
  intros Hl Hc. split.
  - unfold _insert. simpl. rewrite Hl, length_app. simpl.
    replace (length l + 1)%nat with (S (length l)) by lia. simpl.
    unfold array_get. by rewrite list_lookup_middle.
  - unfold _createCall, compile. by rewrite Hc, Hl, defined_taps_None.
Qed.

Lemma X9_undefined_slot_breaks_witness :
  _insert (intercept (set_taps (AsyncSeriesHook [] None) [Some example_tap])
             (mkInterceptor (Some (λ _, None)) false false false false false false false))
          example_tap = Throw TypeError
  ∧ _createCall (intercept (set_taps (AsyncSeriesHook [] None) [Some example_tap])
                   (mkInterceptor (Some (λ _, None)) false false false false false
                      false false))
                async = Throw TypeError.
Proof.
  apply (X9_undefined_slot_breaks _ [] AsyncSeriesHookCodeFactory_content);
    reflexivity.
Defined.

(** X16: through the object that [withOptions] returns no options are
    rejected as invalid: the only error of the library is "Missing name
    for tap", raised exactly when the merged options have no name or an
    empty one, where a string given as [opt] is the name as it is, without
    trimming, and a property that [opt] lacks is taken from the options of
    [withOptions]; this holds at every level of nesting. *)
Theorem X16_withOptions_rejects (trim : string → string) (h : Hook)
    (outer options : OwnOptions) (opt : OptArg) (fn : nat) (msg : string) :
  (withOptions_tap trim h options opt fn = Throw (Error msg)
   ↔ msg = "Missing name for tap"
     ∧ (merged_name options opt = None ∨ merged_name options opt = Some ""))
  ∧ (withOptions_tap trim h (withOptions_withOptions outer (ArgObject options)) opt fn
     = withOptions_tap trim h outer (ArgObject (mergeOptions options opt)) fn).
Proof.
  split.
  - unfold withOptions_tap, tap. rewrite _tap_object_rejected.
    assert (Hn : o_name (read_options (mergeOptions options opt))
                 = merged_name options opt).
    { destruct opt as [s|o|]; simpl; [|done..].
      by destruct (own_name options). }
    by rewrite Hn.
  - unfold withOptions_tap, withOptions_withOptions. do 3 f_equal.
    destruct opt as [s|o|]; simpl; unfold assign; simpl; f_equal;
      repeat match goal with
             | |- context [from_option Some ?a ?b] => destruct b; simpl
             end; done.
Qed.

(** * Interceptors that rewrite the descriptors ([Hook.js]) *)

Section RegisterMore.

Variable g : Tap → Tap.

Hypothesis g_name : ∀ t, tap_name (g t) = tap_name t.
Hypothesis g_stage : ∀ t, stage_or_0 (tap_stage (g t)) = stage_or_0 (tap_stage t).
Hypothesis g_item_stage : ∀ t, item_stage (tap_stage (g t)) = item_stage (tap_stage t).

Implicit Types (ts : list Tap) (h : Hook).

(** The loop of [_insert] ends at the same index when the descriptors of
    the array have been rewritten without a change of name or stage. *)
Lemma insert_loop_keeps_index ts stage i :
  (i ≤ length ts)%nat →
  ∀ before k,
    insert_loop i (shifted i (Some <$> ts)) before stage
    = Normal (k, shifted (k - 1) (Some <$> ts)) →
    insert_loop i (shifted i (Some <$> (g <$> ts))) before stage
    = Normal (k, shifted (k - 1) (Some <$> (g <$> ts))).
Proof.
  induction i as [|i IH]; intros Hi before k.
  { simpl. intros [= <- _]. done. }
  assert (is_Some (ts !! i)) as [x Hx] by (apply lookup_lt_is_Some; lia).
  assert (Hx' : (Some <$> ts) !! i = Some (Some x))
    by (by rewrite list_lookup_fmap, Hx).
  assert (Hgx' : (Some <$> (g <$> ts)) !! i = Some (Some (g x)))
    by (by rewrite !list_lookup_fmap, Hx).
  simpl.
  rewrite !array_get_shifted by (rewrite ?length_fmap; lia).
  unfold array_get. rewrite Hx', Hgx'. simpl.
  rewrite (array_set_shifted _ _ _ Hx'), (array_set_shifted _ _ _ Hgx').
  rewrite g_name, g_stage.
  assert (Hstop : Normal (S i, shifted i (Some <$> ts))
                  = Normal (k, shifted (k - 1) (Some <$> ts)) →
                  Normal (S i, shifted i (Some <$> (g <$> ts)))
                  = Normal (k, shifted (k - 1) (Some <$> (g <$> ts)))).
  { intros [= <- _]. simpl. by replace (i - 0)%nat with i by lia. }
  assert (Hgo : ∀ b,
            insert_loop i (shifted i (Some <$> ts)) b stage
            = Normal (k, shifted (k - 1) (Some <$> ts)) →
            insert_loop i (shifted i (Some <$> (g <$> ts))) b stage
            = Normal (k, shifted (k - 1) (Some <$> (g <$> ts)))).
  { intros b. apply IH. lia. }
  destruct before as [b|].
  - destruct (decide (tap_name x ∈ b)); [apply Hgo|].
    destruct (bool_decide (0 < size b)%nat); [apply Hgo|].
    destruct (number_gt (stage_or_0 (tap_stage x)) stage); [apply Hgo|apply Hstop].
  - destruct (number_gt (stage_or_0 (tap_stage x)) stage); [apply Hgo|apply Hstop].
Qed.

Hypothesis g_before : ∀ t, before_set (tap_before (g t)) = before_set (tap_before t).

(** [_insert] of a rewritten descriptor into the rewritten array. *)
Lemma _insert_rewritten h h2 ts item :
  h_taps h = Some <$> ts → h_taps h2 = Some <$> (g <$> ts) →
  ∃ k, (k ≤ length ts)%nat
    ∧ _insert h item
      = Normal (set_taps (_resetCompilation h)
                  (Some <$> (take k ts ++ item :: drop k ts)))
    ∧ _insert h2 (g item)
      = Normal (set_taps (_resetCompilation h2)
                  (Some <$> (g <$> (take k ts ++ item :: drop k ts)))).
Proof.
  intros Hts Hts2.
  destruct (insert_loop_defined ts (item_stage (tap_stage item)) (length ts) ltac:(lia)
              (before_set (tap_before item))) as (k & Hk & Heq).
  pose proof (insert_loop_keeps_index ts (item_stage (tap_stage item)) (length ts)
                ltac:(lia)
                (before_set (tap_before item)) k Heq) as Heq2.
  exists k. split; [done|]. split.
  - unfold _insert. simpl. rewrite Hts, length_fmap.
    rewrite <- (length_fmap Some ts), shifted_length in Heq.
    rewrite length_fmap in Heq.
    rewrite Heq.
    unfold mbind, Completion_bind; simpl.
    rewrite array_set_shifted_end by (rewrite length_fmap; lia).
    by rewrite fmap_app, fmap_cons, fmap_take, fmap_drop.
  - unfold _insert. simpl. rewrite Hts2, !length_fmap.
    replace (length ts) with (length (Some <$> (g <$> ts))) in Heq2 at 1 2
      by (by rewrite !length_fmap).
    rewrite shifted_length in Heq2. rewrite !length_fmap in Heq2.
    rewrite g_before, g_item_stage, Heq2.
    unfold mbind, Completion_bind; simpl.
    rewrite array_set_shifted_end by (rewrite !length_fmap; lia).
    by rewrite !fmap_app, !fmap_cons, !fmap_take, !fmap_drop.
Qed.

End RegisterMore.



(** * More about the emitted dispatchers ([HookCodeFactory.js]) *)

Section PipelineFacts.

Variable options : FactoryOptions.
Variable w : World.
Variable vals : list value.

#[local] Abbreviation series := (ref_series options w vals).
#[local] Abbreviation handle := (ref_handle (ref_onError options)).
#[local] Abbreviation steps := (steps_on options vals).
#[local] Abbreviation a_step := (step_events options vals).

Lemma steps_refl r : steps r r.
Proof. exists []. split; [done|]. simpl. by rewrite app_nil_r. Qed.

Lemma steps_trans r1 r2 r3 : steps r1 r2 → steps r2 r3 → steps r1 r3.
Proof.
  intros (s1 & Hs1 & H1) (s2 & Hs2 & H2). exists (s1 ++ s2). split.
  - by apply Forall_app.
  - by rewrite H2, H1, concat_app, app_assoc.
Qed.

Lemma steps_same r r' : r_trace r' = r_trace r → steps r r'.
Proof. intros H. exists []. split; [done|]. simpl. by rewrite app_nil_r. Qed.

Lemma steps_one evs r : a_step evs → steps r (r_log evs r).
Proof. intros H. exists [evs]. split; [by constructor|]. simpl. by rewrite app_nil_r. Qed.

Lemma steps_onError e r : steps r (ref_onError options e r).
Proof. apply steps_one. constructor. Qed.

Lemma steps_onDone r : steps r (ref_onDone options r).
Proof. apply steps_one. constructor. Qed.

Lemma handle_steps next h actuals r :
  (∀ r0, steps r0 (next r0).2) → steps r (handle next h actuals r).2.
Proof.
  intros Hnext. unfold ref_handle. destruct h as [i|i a|i a].
  - destruct (truthy _); [apply steps_onError|apply Hnext].
  - eapply steps_trans; [|apply Hnext]. by apply steps_same.
  - destruct (default false _); [apply steps_refl|apply steps_onError].
Qed.

Lemma calls_steps next i e l :
  (∀ r0, steps r0 (next r0).2) →
  ∀ r, steps r (ref_calls (ref_onError options) next i e l r).2.
Proof.
  intros Hnext. induction l as [|actuals l IH]; intros r; [apply steps_refl|].
  cbn [ref_calls].
  pose proof (handle_steps next (HCallback i) actuals
                (r_log [EvFire (TapCallback i) actuals] r) Hnext) as H.
  destruct (handle next (HCallback i) actuals _) as [[v|] r1]; simpl in *.
  - eapply steps_trans; [apply steps_one, step_fire|exact H].
  - eapply steps_trans; [apply steps_one, step_fire|].
    eapply steps_trans; [exact H|apply IH].
Qed.

Lemma settles_steps next i a p e l :
  (∀ r0, steps r0 (next r0).2) →
  ∀ r, steps r (ref_settles (ref_onError options) next i a p e l r).2.
Proof.
  intros Hnext. induction l as [|[fulfilled actuals] l IH]; intros r;
    [apply steps_refl|].
  cbn [ref_settles].
  pose proof (handle_steps next (if fulfilled then HFulfilled i a else HRejected i a)
                actuals
                (r_log [EvFire (if fulfilled then OnFulfilled p else OnRejected p)
                          actuals] r) Hnext) as H.
  destruct (handle next _ actuals _) as [[v|] r1]; simpl in *.
  - eapply steps_trans; [apply steps_one, step_fire|exact H].
  - eapply steps_trans; [apply steps_one, step_fire|].
    eapply steps_trans; [exact H|apply IH].
Qed.

Lemma series_steps rest :
  ∀ i r, drop i (opt_taps options) = rest → steps r (series rest i r).2.
Proof.
  induction rest as [|tap rest IH]; intros i r Hdrop.
  { simpl. apply steps_onDone. }
  assert (Htap : opt_taps options !! i = Some tap).
  { rewrite <- (Nat.add_0_r i), <- lookup_drop, Hdrop. done. }
  assert (Hrest : drop (S i) (opt_taps options) = rest).
  { by rewrite (drop_S _ _ _ Htap) in Hdrop; simplify_eq. }
  cbn [ref_series]; unfold ref_unit; cbn [ref_series].
  set (r1 := r_tick (r_log _ (r_log _ r))).
  assert (H1 : steps r r1).
  { exists [interceptor_events options int_tap "tap"
              (λ ic, with_context options (int_context ic) [VTapDescriptor i])
            ++ [EvTap i (with_context options (tap_context tap)
                           (arg_values options vals))]].
    split; [constructor; [by constructor|done]|].
    unfold r1. simpl. by rewrite app_nil_r, app_assoc. }
  destruct (tap_type tap).
  - destruct (tb_ending _).
    + eapply steps_trans; [exact H1|by apply IH].
    + eapply steps_trans; [exact H1|apply steps_onError].
  - eapply steps_trans; [exact H1|].
    eapply steps_trans; [|apply calls_steps; intros r0; by apply IH].
    by apply steps_same.
  - destruct (tb_ending _) as [v|e]; [|done].
    destruct v; try done.
    eapply steps_trans; [exact H1|].
    eapply steps_trans; [|apply settles_steps; intros r0; by apply IH].
    match goal with
    | |- steps_on _ _ _ (r_enroll _ _ (r_enroll _ _ (r_tick ?x))) =>
        apply (steps_trans _ x)
    end.
    + eapply steps_trans; [|apply steps_one, step_then]. by apply steps_same.
    + by apply steps_same.
Qed.

Lemma drive_steps script : ∀ r, steps r (ref_drive options w vals script r).
Proof.
  induction script as [|[t actuals] script IH]; intros r; [apply steps_refl|].
  simpl. destruct (r_registered (r_registry r) t) as [h|]; [|apply IH].
  pose proof (handle_steps (series (drop (S (handler_tap h)) (opt_taps options))
                              (S (handler_tap h))) h actuals
                (r_log [EvFire t actuals] r) (λ r0, series_steps _ _ r0 eq_refl)) as H.
  destruct (handle _ h actuals _) as [[v|] r1]; simpl in H.
  - eapply steps_trans; [apply steps_one, step_fire|].
    eapply steps_trans; [exact H|].
    eapply steps_trans; [apply steps_one, step_uncaught|apply IH].
  - eapply steps_trans; [apply steps_one, step_fire|].
    eapply steps_trans; [exact H|apply IH].
Qed.

Lemma dispatch_pipeline script :
  pipeline options vals (ref_dispatch options w vals script).
Proof.
  unfold ref_dispatch, ref_run.
  set (r0 := r_log _ _).
  pose proof (series_steps (opt_taps options) 0 r0 eq_refl) as H.
  assert (Hall : steps r0 (match series (opt_taps options) 0 r0 with
                           | (None, r) =>
                               ref_drive options w vals script
                                 (r_log [EvReturn VUndefined] r)
                           | (Some v, r) =>
                               ref_drive options w vals script (r_log [EvThrow v] r)
                           end)).
  { destruct (series (opt_taps options) 0 r0) as [[v|] r1]; simpl in H.
    - eapply steps_trans; [exact H|].
      eapply steps_trans; [apply steps_one, step_throw|apply drive_steps].
    - eapply steps_trans; [exact H|].
      eapply steps_trans; [apply steps_one, step_return|apply drive_steps]. }
  destruct Hall as (ss & Hss & Heq). exists ss. split; [done|].
  rewrite Heq. done.
Qed.

End PipelineFacts.



Section ExpectMore.

(** What is observed when every tap completes. *)
Lemma expect_complete plans :
  Forall (λ pl, ∃ l, pl = Completes l) plans →
  ∀ i returned,
    taps_seen (expect plans i returned) = seq i (length plans)
    ∧ callbacks_seen (expect plans i returned) = [[]]
    ∧ ends_seen (expect plans i returned) = (if returned then [] else [SawReturn])
    ∧ ∃ pre post, expect plans i returned = pre ++ SawCallback [] :: post
                  ∧ taps_seen post = [].
Proof.
  induction 1 as [|pl plans [l ->] _ IH]; intros i returned.
  { simpl. split_and!; try by destruct returned.
    exists [], (if returned then [] else [SawReturn]). by destruct returned. }
  cbn [expect]. destruct l.
  - destruct (IH (S i) true) as (Ht & Hc & He & pre & post & Heq & Hpost).
    split_and!.
    + simpl. rewrite taps_seen_app, Ht. by destruct returned.
    + simpl. rewrite callbacks_seen_app, Hc. by destruct returned.
    + simpl. rewrite ends_seen_app, He. by destruct returned.
    + exists (SawTap i :: (if returned then [] else [SawReturn]) ++ pre), post.
      split; [|done]. rewrite Heq. simpl. by rewrite <- app_assoc.
  - destruct (IH (S i) returned) as (Ht & Hc & He & pre & post & Heq & Hpost).
    split_and!.
    + simpl. by rewrite Ht.
    + done.
    + done.
    + exists (SawTap i :: pre), post. split; [|done]. by rewrite Heq.
Qed.

(** Every tap completes during its call. *)
Lemma expect_now plans :
  Forall (λ pl, pl = Completes false) plans →
  ∀ i returned,
    expect plans i returned
    = (SawTap <$> seq i (length plans))
      ++ SawCallback [] :: (if returned then [] else [SawReturn]).
Proof.
  induction 1 as [|pl plans -> _ IH]; intros i returned; [done|].
  cbn [expect]. by rewrite IH.
Qed.

(** Every tap completes, one of them later. *)
Lemma expect_later plans :
  Forall (λ pl, ∃ l, pl = Completes l) plans →
  Exists (λ pl, pl = Completes true) plans →
  ∀ i, ∃ pre post,
    expect plans i false = pre ++ SawReturn :: post
    ∧ callbacks_seen pre = [] ∧ callbacks_seen post = [[]].
Proof.
  induction 1 as [|pl plans [l ->] Hall IH]; intros Hex i.
  { by apply Exists_nil in Hex. }
  cbn [expect]. destruct l.
  - destruct (expect_complete plans Hall (S i) true) as (_ & Hc & _).
    exists [SawTap i], (expect plans (S i) true). by split_and!.
  - apply Exists_cons in Hex as [[=]|Hex].
    destruct (IH Hex (S i)) as (pre & post & Heq & Hpre & Hpost).
    exists (SawTap i :: pre), post. rewrite Heq. by split_and!.
Qed.

(** The first tap that does not complete never signals. *)
Lemma expect_never plans :
  ∀ k i returned,
    plans !! k = Some Never →
    (∀ j, (j < k)%nat → ∃ l, plans !! j = Some (Completes l)) →
    ends_seen (expect plans i returned) = (if returned then [] else [SawReturn]).
Proof.
  induction plans as [|pl0 plans IH]; intros k i returned Hk Hbefore; [done|].
  destruct k as [|k].
  - simpl in Hk. simplify_eq. cbn [expect]. by destruct returned.
  - simpl in Hk.
    destruct (Hbefore 0%nat) as [l Hl]; [lia|]. simpl in Hl. simplify_eq.
    assert (Hb : ∀ j, (j < k)%nat → ∃ l, plans !! j = Some (Completes l)).
    { intros j Hj. destruct (Hbefore (S j)) as [l' Hl']; [lia|]. by exists l'. }
    cbn [expect]. destruct l.
    + simpl. rewrite ends_seen_app, (IH k (S i) true Hk Hb). by destruct returned.
    + simpl. by rewrite (IH k (S i) returned Hk Hb).
Qed.

End ExpectMore.

(** X11: when every tap of an [AsyncSeriesHook] completes, during its call
    or later, a [callAsync] dispatch invokes all taps in the order of the
    list, calls the callback exactly once, without an argument and after the
    last tap, and the call of [callAsync] returns without throwing. *)
Theorem X11_series_completes (options : FactoryOptions) (vals : list value)
    (plans : list plan) :
  opt_type options = async →
  length vals = length (opt_args options) →
  Forall (λ v, is_closure v = false) vals →
  Forall2 fits (opt_taps options) plans →
  Forall (λ pl, ∃ l, pl = Completes l) plans →
  ∃ tr,
    converges (λ n, dispatch (world_of (opt_taps options) plans) n
                      (create AsyncSeriesHookCodeFactory_content options)
                      (vals ++ [VCallback]) (script_of (opt_taps options) plans)) tr
    ∧ tap_calls tr = seq 0 (length (opt_taps options))
    ∧ callback_calls tr = [[]]
    ∧ calls_ended tr = [SawReturn]
    ∧ ∃ pre post, observe tr = pre ++ SawCallback [] :: post ∧ taps_seen post = [].
Proof.
  intros Hty Hlen Hplain Hfit Hall.
  destruct (plans_dispatch options vals plans Hfit Hty Hlen Hplain) as (tr & Hconv & Hobs).
  exists tr. split; [done|].
  rewrite tap_calls_observe, callback_calls_observe, calls_ended_observe, Hobs.
  destruct (expect_complete plans Hall 0 false) as (Ht & Hc & He & Hlast).
  rewrite (Forall2_length _ _ _ Hfit). by split_and!.
Qed.

Lemma X11_series_completes_witness :
  ∃ tr,
    converges (λ n, dispatch (world_of (opt_taps options_late)
                                [Completes true; Completes false]) n
                      (create AsyncSeriesHookCodeFactory_content options_late)
                      ([] ++ [VCallback])
                      (script_of (opt_taps options_late)
                         [Completes true; Completes false])) tr
    ∧ tap_calls tr = seq 0 (length (opt_taps options_late))
    ∧ callback_calls tr = [[]]
    ∧ calls_ended tr = [SawReturn]
    ∧ ∃ pre post, observe tr = pre ++ SawCallback [] :: post ∧ taps_seen post = [].
Proof.
  apply (X11_series_completes options_late [] [Completes true; Completes false]).
  - reflexivity.
  - reflexivity.
  - constructor.
  - repeat constructor.
  - repeat constructor; by eexists.
Defined.

(** X12: when the first tap that does not complete never signals, the
    taps up to it are invoked, the [callAsync] call returns, and the
    callback is never called: nothing times the dispatch out. *)
Theorem X12_series_stalls (options : FactoryOptions) (vals : list value)
    (plans : list plan) (i : nat) :
  opt_type options = async →
  length vals = length (opt_args options) →
  Forall (λ v, is_closure v = false) vals →
  Forall2 fits (opt_taps options) plans →
  plans !! i = Some Never →
  (∀ j, (j < i)%nat → ∃ l, plans !! j = Some (Completes l)) →
  ∃ tr,
    converges (λ n, dispatch (world_of (opt_taps options) plans) n
                      (create AsyncSeriesHookCodeFactory_content options)
                      (vals ++ [VCallback]) (script_of (opt_taps options) plans)) tr
    ∧ tap_calls tr = seq 0 (S i)
    ∧ callback_calls tr = []
    ∧ calls_ended tr = [SawReturn].
Proof.
  intros Hty Hlen Hplain Hfit Hi Hbefore.
  destruct (plans_dispatch options vals plans Hfit Hty Hlen Hplain) as (tr & Hconv & Hobs).
  exists tr. split; [done|].
  rewrite tap_calls_observe, callback_calls_observe, calls_ended_observe, Hobs.
  destruct (expect_stop plans i 0 false _ Hi) as (Ht & Hc & _); [done..|].
  rewrite Ht, Hc. split_and!; try done.
  by rewrite (expect_never plans i 0 false Hi Hbefore).
Qed.

Lemma X12_series_stalls_witness :
  ∃ tr,
    converges (λ n, dispatch (world_of (opt_taps options_late) [Completes true; Never]) n
                      (create AsyncSeriesHookCodeFactory_content options_late)
                      ([] ++ [VCallback])
                      (script_of (opt_taps options_late) [Completes true; Never])) tr
    ∧ tap_calls tr = seq 0 2
    ∧ callback_calls tr = []
    ∧ calls_ended tr = [SawReturn].
Proof.
  apply (X12_series_stalls options_late [] [Completes true; Never] 1).
  - reflexivity.
  - reflexivity.
  - constructor.
  - repeat constructor.
  - reflexivity.
  - intros [|j] Hj; [by eexists|lia].
Defined.

(** X13: when every tap completes during its own call, the callback is
    called before [callAsync] returns: the taps, the callback, the
    return. *)
Theorem X13_callback_during_the_call (options : FactoryOptions) (vals : list value)
    (plans : list plan) :
  opt_type options = async →
  length vals = length (opt_args options) →
  Forall (λ v, is_closure v = false) vals →
  Forall2 fits (opt_taps options) plans →
  Forall (λ pl, pl = Completes false) plans →
  ∃ tr,
    converges (λ n, dispatch (world_of (opt_taps options) plans) n
                      (create AsyncSeriesHookCodeFactory_content options)
                      (vals ++ [VCallback]) (script_of (opt_taps options) plans)) tr
    ∧ observe tr
      = (SawTap <$> seq 0 (length (opt_taps options))) ++ [SawCallback []; SawReturn].
Proof.
  intros Hty Hlen Hplain Hfit Hall.
  destruct (plans_dispatch options vals plans Hfit Hty Hlen Hplain) as (tr & Hconv & Hobs).
  exists tr. split; [done|].
  by rewrite Hobs, (expect_now plans Hall), (Forall2_length _ _ _ Hfit).
Qed.

Lemma X13_callback_during_the_call_witness :
  ∃ tr,
    converges (λ n, dispatch (world_of (opt_taps options_late)
                                [Completes false; Completes false]) n
                      (create AsyncSeriesHookCodeFactory_content options_late)
                      ([] ++ [VCallback])
                      (script_of (opt_taps options_late)
                         [Completes false; Completes false])) tr
    ∧ observe tr
      = (SawTap <$> seq 0 (length (opt_taps options_late)))
        ++ [SawCallback []; SawReturn].
Proof.
  apply (X13_callback_during_the_call options_late []
           [Completes false; Completes false]).
  - reflexivity.
  - reflexivity.
  - constructor.
  - repeat constructor.
  - repeat constructor.
Defined.

(** X14: when every tap completes and one of them completes later, the
    call of [callAsync] has returned before the callback is called. *)
Theorem X14_callback_after_the_return (options : FactoryOptions) (vals : list value)
    (plans : list plan) :
  opt_type options = async →
  length vals = length (opt_args options) →
  Forall (λ v, is_closure v = false) vals →
  Forall2 fits (opt_taps options) plans →
  Forall (λ pl, ∃ l, pl = Completes l) plans →
  Exists (λ pl, pl = Completes true) plans →
  ∃ tr pre post,
    converges (λ n, dispatch (world_of (opt_taps options) plans) n
                      (create AsyncSeriesHookCodeFactory_content options)
                      (vals ++ [VCallback]) (script_of (opt_taps options) plans)) tr
    ∧ observe tr = pre ++ SawReturn :: post
    ∧ callbacks_seen pre = [] ∧ callbacks_seen post = [[]].
Proof.
  intros Hty Hlen Hplain Hfit Hall Hex.
  destruct (plans_dispatch options vals plans Hfit Hty Hlen Hplain) as (tr & Hconv & Hobs).
  destruct (expect_later plans Hall Hex 0) as (pre & post & Heq & Hpre & Hpost).
  exists tr, pre, post. split; [done|]. by rewrite Hobs.
Qed.

Lemma X14_callback_after_the_return_witness :
  ∃ tr pre post,
    converges (λ n, dispatch (world_of (opt_taps options_late)
                                [Completes true; Completes false]) n
                      (create AsyncSeriesHookCodeFactory_content options_late)
                      ([] ++ [VCallback])
                      (script_of (opt_taps options_late)
                         [Completes true; Completes false])) tr
    ∧ observe tr = pre ++ SawReturn :: post
    ∧ callbacks_seen pre = [] ∧ callbacks_seen post = [[]].
Proof.
  apply (X14_callback_after_the_return options_late []
           [Completes true; Completes false]).
  - reflexivity.
  - reflexivity.
  - constructor.
  - repeat constructor.
  - repeat constructor; by eexists.
  - by left.
Defined.

(** * The looping hook: what is observed of a dispatch *)


